(** * aws-stream-consumer-core: a shallow embedding and its verified properties

  The development follows the layout of the JavaScript sources:

  - [Js]             values shared by all modules (errors, thrown results,
                     settled promises, numbers as doubles, strings helpers
                     of core-functions);
  - [Tasks]          the part of task-utils the consumer relies on;
  - [BatchM]         batch.js (the Batch aggregate);
  - [Sequencing]     sequencing.js (comparators and chain linking);
  - [Persisting]     persisting.js (checkpoint load, save and restore);
  - [StreamConsumer] stream-consumer.js (validation, phases, timeouts);
  - [EsmCache], [StreamProcessingM], [Configuration]
                     esm-cache.js and stream-processing.js (the event source
                     mapping, fatal errors, the consumer id);
  - [BatchKeys], [BatchProgress], [ProcessingStart], [PropertyNames]
                     the batch key and the progress report of batch.js, the
                     start of processing, the property names of settings.js;
  - [Discarding]     stream-processing.js (the dead record and dead message
                     queues).

  Definitions come first; the properties are stated and proved in the
  second half of the file. *)

From Stdlib Require Import ZArith QArith Qround Qminmax Qabs Lia Lra Lqa Ascii String List.
From Stdlib Require Import DecimalString Sorted.
From stdpp Require Import base option list gmap strings.

Set Warnings "-register-all,-clear-no-such-hyp".

Local Open Scope string_scope.
Local Open Scope Z_scope.
Local Open Scope list_scope.

(* ===================================================================== *)
(** * Part I: the embedding *)
(* ===================================================================== *)

Module Js.

(** Error objects, by the classes the consumer distinguishes with
    [isInstanceOf]. [cause] of a [FatalError] is dropped, the message is
    kept. *)
Inductive Err : Type :=
| Error (msg : string)
| FatalError (msg : string)
| TransientError (msg : string)
| TimeoutError (msg : string)
| FinalisedError (msg : string)
| CancelledError (msg : string)
| AwsError (code : string) (retryable : bool).

Definition errMessage (e : Err) : string :=
  match e with
  | Error m | FatalError m | TransientError m
  | TimeoutError m | FinalisedError m | CancelledError m => m
  | AwsError code _ => code
  end.

Definition isFatalError (e : Err) : bool :=
  match e with FatalError _ => true | _ => false end.

Definition isFinalisedError (e : Err) : bool :=
  match e with FinalisedError _ => true | _ => false end.

Definition isTimeoutError (e : Err) : bool :=
  match e with TimeoutError _ => true | _ => false end.

(** A synchronous computation either returns or throws. *)
Inductive Try (A : Type) : Type :=
| Ok (a : A)
| Throw (e : Err).
Arguments Ok {A} a.
Arguments Throw {A} e.

Definition try_bind {A B} (f : A -> Try B) (m : Try A) : Try B :=
  match m with Ok a => f a | Throw e => Throw e end.

#[global] Instance try_ret : MRet Try := fun A a => Ok a.
#[global] Instance try_mbind : MBind Try := fun A B f m => try_bind f m.
#[global] Instance try_fmap : FMap Try :=
  fun A B f m => match m with Ok a => Ok (f a) | Throw e => Throw e end.

(** A promise, observed once it has settled. *)
Inductive Settled (A : Type) : Type :=
| Resolved (a : A)
| Rejected (e : Err).
Arguments Resolved {A} a.
Arguments Rejected {A} e.

(** [p.then(onResolved, onRejected)] on a settled promise. *)
Definition then_ {A B} (p : Settled A)
    (onResolved : A -> Settled B) (onRejected : Err -> Settled B) : Settled B :=
  match p with
  | Resolved a => onResolved a
  | Rejected e => onRejected e
  end.

(** [p.catch(onRejected)]. *)
Definition catch_ {A} (p : Settled A) (onRejected : Err -> Settled A) : Settled A :=
  then_ p Resolved onRejected.

(** A handler that throws rejects the derived promise. *)
Definition ofTry {A} (t : Try A) : Settled A :=
  match t with Ok a => Resolved a | Throw e => Rejected e end.

(** A promise that is resolved with a promise follows it. *)
Definition join_ {A} (p : Settled (Settled A)) : Settled A :=
  match p with Resolved q => q | Rejected e => Rejected e end.

(** ** Numbers

    A JavaScript number is an IEEE 754 double. A finite double is held as the
    rational it stands for, and every operation on doubles is the exact
    operation followed by the rounding [toDouble] to the nearest double, ties
    to the even significand; a decimal literal is read with the same rounding.
    A double of 2^e <= |x| < 2^(e+1) is a multiple of 2^(e-52) (and of
    2^(-1074), the smallest subnormal, below 2^(-1022)). Values that round to
    a magnitude of 2^1024 or more, which JavaScript holds as Infinity, are
    outside this model. *)

(** 2^e for an exponent of either sign. *)
Definition pow2 (e : Z) : Q :=
  if 0 <=? e then inject_Z (2 ^ e) else 1 # Z.to_pos (2 ^ (- e)).

(** The integer nearest to [y], ties to the even one. *)
Definition roundHalfEven (y : Q) : Z :=
  let f := Qfloor y in
  match (y - inject_Z f ?= 1 # 2)%Q with
  | Lt => f
  | Gt => f + 1
  | Eq => if Z.even f then f else f + 1
  end.

(** For [x > 0], the exponent [e] with 2^e <= x < 2^(e+1). *)
Definition floorLog2 (x : Q) : Z :=
  let l := Z.log2 (Qnum x) - Z.log2 (Zpos (Qden x)) in
  if Qle_bool (pow2 l) x then l else l - 1.

(** The double nearest to [x > 0]. *)
Definition nearestDouble (x : Q) : Q :=
  let e := Z.max (floorLog2 x - 52) (-1074) in
  (inject_Z (roundHalfEven (x / pow2 e)) * pow2 e)%Q.

(** The double nearest to [x]. *)
Definition toDouble (x : Q) : Q :=
  match Qnum x with
  | Z0 => 0%Q
  | Zpos _ => nearestDouble x
  | Zneg _ => (- nearestDouble (- x))%Q
  end.

(** [Number.isSafeInteger]: an integer below 2^53 in magnitude, which a
    double holds exactly. *)
Definition isSafeInteger (z : Z) : bool := Z.abs z <? 2 ^ 53.

(** [Math.round] of the double [q]: the nearest integer, ties towards
    +infinity. The result is exact: it is a double itself. *)
Definition Math_round (q : Q) : Z := Qfloor (q + (1 # 2))%Q.

(** [t] is the integer nearest to [x], ties resolved upwards. *)
Definition nearestInteger (t : Z) (x : Q) : Prop :=
  (inject_Z t - (1 # 2) <= x /\ x < inject_Z t + (1 # 2))%Q.

(** A string is the sequence of its UTF-16 code units, each of them below
    256: a character [c] stands for the code unit [nat_of_ascii c]. Among
    these code units [String.prototype.trim] removes the white space and the
    line terminators of ECMAScript: U+0009 to U+000D, U+0020 and the
    no-break space U+00A0. *)
Definition isSpace (c : ascii) : bool :=
  let n := nat_of_ascii c in
  orb (orb (Nat.eqb n 32) (Nat.eqb n 160)) (andb (Nat.leb 9 n) (Nat.leb n 13)).

Fixpoint trimStart (s : string) : string :=
  match s with
  | String c s' => if isSpace c then trimStart s' else s
  | EmptyString => EmptyString
  end.

Fixpoint trimEnd (s : string) : string :=
  match s with
  | String c s' =>
      match trimEnd s' with
      | EmptyString => if isSpace c then EmptyString else String c EmptyString
      | t => String c t
      end
  | EmptyString => EmptyString
  end.

Definition trim (s : string) : string := trimEnd (trimStart s).

(** core-functions/strings: [isNotBlank], [isBlank] and [trimOrEmpty] on a
    value that is a string or undefined. *)
Definition isNotBlank (s : option string) : bool :=
  match s with
  | Some t => negb (String.eqb (trim t) "")
  | None => false
  end.

Definition isBlank (s : option string) : bool := negb (isNotBlank s).

Definition trimOrEmpty (s : option string) : string :=
  match s with Some t => trim t | None => "" end.

(** [array.join(sep)] on strings. *)
Fixpoint join (sep : string) (l : list string) : string :=
  match l with
  | [] => ""
  | [x] => x
  | x :: l' => (x ++ sep ++ join sep l')%string
  end.

(** lodash [uniq]: the first occurrence of every element, in order. *)
Fixpoint uniq `{EqDecision A} (l : list A) : list A :=
  match l with
  | [] => []
  | x :: l' => x :: filter (fun y => y <> x) (uniq l')
  end.

End Js.
Export Js.

(** settings.js / type-defs.js: the configuration the core reads. *)
Module Settings.

(** The host runtime: the [n]-th call of
    [context.awsContext.getRemainingTimeInMillis()] returns
    [remaining n], a whole number of milliseconds that a double holds
    exactly. *)
Record AwsContext := {
  remaining : nat -> Z;
  remainingIsSafe : forall n, isSafeInteger (remaining n) = true
}.

Record StreamProcessing := {
  timeoutAtPercentageOfRemainingTime : Q;
  sequencingRequired : bool;
  sequencingPerKey : bool;
  maxNumberOfAttempts : nat
}.

Record Context := {
  awsContext : AwsContext;
  streamProcessing : StreamProcessing
}.

End Settings.
Export Settings.

Module Tasks.

(** Modelled from the spec: task-utils is a dependency that is not part of
    src/. A task is a node of a tree with a name, a lifecycle state, an
    attempt count, a frozen flag and sub-tasks (spec, section 3). *)
Inductive TaskState : Type :=
| Unstarted | Started | Completed | Failed | TimedOut
| RejectedState | Discarded | Abandoned.

Inductive Task : Type :=
  mkTask (name : string) (state : TaskState) (attempts : nat)
         (frozen : bool) (subTasks : list Task).

Definition name (t : Task) : string :=
  match t with mkTask n _ _ _ _ => n end.
Definition state (t : Task) : TaskState :=
  match t with mkTask _ s _ _ _ => s end.
Definition subTasks (t : Task) : list Task :=
  match t with mkTask _ _ _ _ l => l end.

(** Modelled from the spec: the terminal states are completed, rejected,
    discarded and abandoned; failed and timed out are retryable. *)
Definition finalisedState (s : TaskState) : bool :=
  match s with
  | Completed | RejectedState | Discarded | Abandoned => true
  | Unstarted | Started | Failed | TimedOut => false
  end.

Definition finalised (t : Task) : bool := finalisedState (state t).

(** Modelled from the spec: a task is fully finalised iff its own state is
    terminal and every child is fully finalised. *)
Fixpoint isFullyFinalised (t : Task) : bool :=
  match t with
  | mkTask _ s _ _ subs => finalisedState s && forallb isFullyFinalised subs
  end.

(** A tasks-by-name object keeps its properties in insertion order. *)
Definition TasksByName : Type := list (string * Task).

(** Modelled from the spec: [taskUtils.getTasks] lists the tasks of a
    tasks-by-name object, and no task for an undefined one. *)
Definition getTasks (tasksByName : option TasksByName) : list Task :=
  match tasksByName with
  | Some l => map snd l
  | None => []
  end.

(** Modelled from the spec: [taskUtils.isAnyTaskNotFullyFinalised]. *)
Definition isAnyTaskNotFullyFinalised (tasksByName : option TasksByName) : bool :=
  existsb (fun t => negb (isFullyFinalised t)) (getTasks tasksByName).

End Tasks.

(** tracking.js / type-defs.js: tracked items and their tracked state. *)
Module Tracking.
Import Tasks.

(** A tracked item is the batch itself or an object (message, record, user
    record). Objects are compared by identity ([oid]); [body] is the
    content seen by [deepEqual]. *)
Inductive Item : Type :=
| ItBatch
| ItObj (oid : nat) (body : string).

#[global] Instance Item_eq_dec : EqDecision Item.
Proof. solve_decision. Defined.

#[global] Instance Item_countable : Countable Item.
Proof.
  refine (inj_countable'
    (fun i => match i with ItBatch => None | ItObj n b => Some (n, b) end)
    (fun o => match o with None => ItBatch | Some (n, b) => ItObj n b end) _).
  intros []; reflexivity.
Defined.

Definition body (i : Item) : string :=
  match i with ItBatch => "" | ItObj _ b => b end.

(** Values of sequence-number parts. *)
Inductive Value : Type :=
| VNum (z : Z)
| VStr (s : string).

#[global] Instance Value_eq_dec : EqDecision Value.
Proof. solve_decision. Defined.

Inductive SortType : Type :=
| SortInteger | SortDecimal | SortString | SortLexicographic.

#[global] Instance SortType_eq_dec : EqDecision SortType.
Proof. solve_decision. Defined.

(** A sortable as produced by core-functions/sorting [toSortable]. *)
Record Sortable := {
  sortType : SortType;
  compare : option (option Value -> option Value -> Z);
  sortableValues : list (option Value)
}.

(** One part [[key, value]] of a sequence number, with the [sortable]
    attached by [prepareMessagesForSequencing]. *)
Record SeqNoPart := {
  partKey : string;
  partVal : option Value;
  oldValue : option Value;
  sortable : option Sortable
}.

Record MD5s := {
  md5_msg : option string;
  md5_rec : option string;
  md5_userRec : option string;
  md5_data : option string
}.

Record TrackedState := {
  message : option string;
  unusableRecord : option string;
  userRecord : option string;
  record : option string;
  eventID : option string;
  eventSeqNo : option string;
  eventSubSeqNo : option string;
  id : option string;
  key : option string;
  seqNo : option string;
  keys : option (list (string * Value));
  seqNos : list SeqNoPart;
  idVals : option (list (option string));
  keyVals : option (list (option string));
  seqNoVals : option (list (option string));
  md5s : option MD5s;
  ones : option TasksByName;
  alls : option TasksByName;
  discards : option TasksByName;
  prevMessage : option Item;
  nextMessage : option Item
}.

(** The state [{}]. *)
Definition emptyState : TrackedState :=
  {| message := None; unusableRecord := None; userRecord := None; record := None;
     eventID := None; eventSeqNo := None; eventSubSeqNo := None;
     id := None; key := None; seqNo := None;
     keys := None; seqNos := []; idVals := None; keyVals := None;
     seqNoVals := None; md5s := None;
     ones := None; alls := None; discards := None;
     prevMessage := None; nextMessage := None |}.

Definition set_taskMaps (o a d : option TasksByName) (st : TrackedState)
  : TrackedState :=
  {| message := message st; unusableRecord := unusableRecord st;
   userRecord := userRecord st; record := record st;
     eventID := eventID st; eventSeqNo := eventSeqNo st;
     eventSubSeqNo := eventSubSeqNo st;
     id := id st; key := key st; seqNo := seqNo st;
     keys := keys st; seqNos := seqNos st; idVals := idVals st;
     keyVals := keyVals st; seqNoVals := seqNoVals st; md5s := md5s st;
     ones := o; alls := a; discards := d;
     prevMessage := prevMessage st; nextMessage := nextMessage st |}.

Definition set_ones (o : option TasksByName) (st : TrackedState) : TrackedState :=
  set_taskMaps o (alls st) (discards st) st.
Definition set_alls (a : option TasksByName) (st : TrackedState) : TrackedState :=
  set_taskMaps (ones st) a (discards st) st.
Definition set_discards (d : option TasksByName) (st : TrackedState) : TrackedState :=
  set_taskMaps (ones st) (alls st) d st.

Definition set_links (p n : option Item) (st : TrackedState) : TrackedState :=
  {| message := message st; unusableRecord := unusableRecord st;
   userRecord := userRecord st; record := record st;
     eventID := eventID st; eventSeqNo := eventSeqNo st;
     eventSubSeqNo := eventSubSeqNo st;
     id := id st; key := key st; seqNo := seqNo st;
     keys := keys st; seqNos := seqNos st; idVals := idVals st;
     keyVals := keyVals st; seqNoVals := seqNoVals st; md5s := md5s st;
     ones := ones st; alls := alls st; discards := discards st;
     prevMessage := p; nextMessage := n |}.

(** identify.js [setPrevMessage] and [setNextMessage]. *)
Definition setPrevMessage (st : TrackedState) (p : option Item) : TrackedState :=
  set_links p (nextMessage st) st.
Definition setNextMessage (st : TrackedState) (n : option Item) : TrackedState :=
  set_links (prevMessage st) n st.

Definition set_seqNos (l : list SeqNoPart) (st : TrackedState) : TrackedState :=
  {| message := message st; unusableRecord := unusableRecord st;
   userRecord := userRecord st; record := record st;
     eventID := eventID st; eventSeqNo := eventSeqNo st;
     eventSubSeqNo := eventSubSeqNo st;
     id := id st; key := key st; seqNo := seqNo st;
     keys := keys st; seqNos := l; idVals := idVals st;
     keyVals := keyVals st; seqNoVals := seqNoVals st; md5s := md5s st;
     ones := ones st; alls := alls st; discards := discards st;
     prevMessage := prevMessage st; nextMessage := nextMessage st |}.

End Tracking.

(** batch.js: the Batch aggregate. *)
Module BatchM.
Import Tasks Tracking.

(** What the property [firstMessagesToProcess] of a batch holds: nothing
(undefined), the array [batch.messages] itself, or an array of its own.
[sequenceMessages] returns [batch.messages] itself when it has nothing to
sequence, so whatever then happens to that array is seen through both
properties. *)
Inductive FirstMessages : Type :=
| NoArray
| TheMessagesArray
| OwnArray (firsts : list Item).

Record Batch := {
  streamConsumerId : option string;
  shardOrEventID : option string;
  records : list Item;
  messages : list Item;
  rejectedMessages : list Item;
  unusableRecords : list Item;
  firstMessagesToProcess : FirstMessages;
  states : gmap Item TrackedState;
  previouslySaved : option bool
}.

Definition set_states (s : gmap Item TrackedState) (b : Batch) : Batch :=
  {| streamConsumerId := streamConsumerId b; shardOrEventID := shardOrEventID b;
     records := records b; messages := messages b;
     rejectedMessages := rejectedMessages b;
     unusableRecords := unusableRecords b;
     firstMessagesToProcess := firstMessagesToProcess b;
     states := s; previouslySaved := previouslySaved b |}.

Definition set_messages (ms rs : list Item) (b : Batch) : Batch :=
  {| streamConsumerId := streamConsumerId b; shardOrEventID := shardOrEventID b;
     records := records b; messages := ms;
     rejectedMessages := rs;
     unusableRecords := unusableRecords b;
     firstMessagesToProcess := firstMessagesToProcess b;
     states := states b; previouslySaved := previouslySaved b |}.

Definition set_previouslySaved (p : option bool) (b : Batch) : Batch :=
  {| streamConsumerId := streamConsumerId b; shardOrEventID := shardOrEventID b;
     records := records b; messages := messages b;
     rejectedMessages := rejectedMessages b;
     unusableRecords := unusableRecords b;
     firstMessagesToProcess := firstMessagesToProcess b;
     states := states b; previouslySaved := p |}.

Definition set_firstMessagesToProcess (f : FirstMessages) (b : Batch) : Batch :=
  {| streamConsumerId := streamConsumerId b; shardOrEventID := shardOrEventID b;
     records := records b; messages := messages b;
     rejectedMessages := rejectedMessages b;
     unusableRecords := unusableRecords b;
     firstMessagesToProcess := f;
     states := states b; previouslySaved := previouslySaved b |}.

(** The elements read through [batch.firstMessagesToProcess]. *)
Definition firstMessages (b : Batch) : option (list Item) :=
  match firstMessagesToProcess b with
  | NoArray => None
  | TheMessagesArray => Some (messages b)
  | OwnArray firsts => Some firsts
  end.

Definition allMessages (b : Batch) : list Item :=
  uniq (messages b ++ rejectedMessages b).

Definition getState (b : Batch) (trackedItem : Item) : option TrackedState :=
  states b !! trackedItem.

Definition getProcessOneTasks (b : Batch) (msg : Item) : option TasksByName :=
  match states b !! msg with Some st => ones st | None => None end.

(** [getProcessAllTasks(messageOrBatch)]; the batch itself is [ItBatch]. *)
Definition getProcessAllTasks (b : Batch) (messageOrBatch : Item)
  : option TasksByName :=
  match states b !! messageOrBatch with Some st => alls st | None => None end.

Definition getDiscardOneTasks (b : Batch) (recordOrMessage : Item)
  : option TasksByName :=
  match states b !! recordOrMessage with Some st => discards st | None => None end.

Definition isMessageIncomplete (b : Batch) (msg : Item) : bool :=
  match states b !! msg with
  | None => true
  | Some st =>
      isAnyTaskNotFullyFinalised (ones st)
      || isAnyTaskNotFullyFinalised (alls st)
      || isAnyTaskNotFullyFinalised (discards st)
  end.

Definition isRejectedMessageIncomplete (b : Batch) (rejectedMessage : Item) : bool :=
  isMessageIncomplete b rejectedMessage.

Definition isUnusableRecordIncomplete (b : Batch) (unusableRecord : Item) : bool :=
  isAnyTaskNotFullyFinalised (getDiscardOneTasks b unusableRecord).

(** [Batch.isFullyFinalised]: the two [for] loops return [false] at the
    first incomplete item. *)
Definition isFullyFinalised (b : Batch) : bool :=
  if isAnyTaskNotFullyFinalised (getProcessAllTasks b ItBatch) then false
  else if existsb (isMessageIncomplete b) (messages b) then false
  else if existsb (isUnusableRecordIncomplete b) (unusableRecords b) then false
  else true.

(** [Batch.moveMessageToRejected]. [splice] removes the first occurrence. *)
Fixpoint removeFirst (x : Item) (l : list Item) : list Item :=
  match l with
  | [] => []
  | y :: l' => if decide (y = x) then l' else y :: removeFirst x l'
  end.

Definition includes (l : list Item) (x : Item) : bool :=
  bool_decide (x ∈ l).

(** [moveMessageToRejected]: the message is pushed onto [rejectedMessages]
    unless it is there, and spliced out of the array [messages]; when
    [firstMessagesToProcess] is that array, it is gone from there too. *)
Definition moveMessageToRejected (b : Batch) (rejectedMsg : Item) : Batch :=
  let rs := if includes (rejectedMessages b) rejectedMsg
            then rejectedMessages b
            else rejectedMessages b ++ [rejectedMsg] in
  set_messages (removeFirst rejectedMsg (messages b)) rs b.

(** A rejected message and its state added to a batch, as [addMessage]
    does when identity resolution fails. *)
Definition addRejectedMessage (b : Batch) (msg : Item) (st : TrackedState) : Batch :=
  set_states (<[msg := st]> (states b))
    (set_messages (messages b) (rejectedMessages b ++ [msg]) b).

End BatchM.

(** sequencing.js: comparators and the linking of messages into chains. *)
Module Sequencing.
Import Tasks Tracking BatchM.

Section WithSorting.

(** core-functions/sorting, which is not part of src/: [compareStrings] with
the options [{ignoreCase: false}], and [toSortable(values, true)]. *)
Variable compareStrings : string -> string -> Z.
Variable toSortable : list (option Value) -> Sortable.

(** The package deep-equal, which is not part of src/ either, as
[compareSameKeyMessages] calls it on the keys of two messages: without the
[strict] option, so that values are compared with [==] and the number 1
equals the string ['1']. *)
Variable deepEqual : option (list (string * Value)) ->
                     option (list (string * Value)) -> bool.

Definition differentKeys : Err :=
  Error "Cannot compare sequence numbers of messages with different keys".

Definition differentSortTypes : Err :=
  Error "Message 1 has a different sequence # part sort type vs message 2".

Definition missingCompare : Err :=
  Error "Missing compare function for comparison of message 1 vs message 2".

Definition sortTypeOf (part : SeqNoPart) : option SortType :=
  sortType <$> sortable part.

(** [sortable1 ? sortable1 : sortable2], then its [compare]. *)
Definition compareOf (part1 part2 : SeqNoPart) : option (option Value -> option Value -> Z) :=
  match sortable part1 with
  | Some s => compare s
  | None => match sortable part2 with Some s => compare s | None => None end
  end.

(** The loop over the sequence number parts of two messages that have the
same number of parts. *)
Fixpoint compareSeqNoParts (msg1SeqNos msg2SeqNos : list SeqNoPart) : Try Z :=
  match msg1SeqNos, msg2SeqNos with
  | msg1SeqNoPart :: rest1, msg2SeqNoPart :: rest2 =>
      let keyComparison :=
        compareStrings (partKey msg1SeqNoPart) (partKey msg2SeqNoPart) in
      if negb (keyComparison =? 0) then Ok keyComparison
      else if negb (bool_decide (sortTypeOf msg1SeqNoPart = sortTypeOf msg2SeqNoPart))
      then Throw differentSortTypes
      else
        match compareOf msg1SeqNoPart msg2SeqNoPart with
        | None => Throw missingCompare
        | Some compare =>
            let valueComparison :=
              compare (partVal msg1SeqNoPart) (partVal msg2SeqNoPart) in
            if valueComparison <? 0 then Ok (-1)
            else if 0 <? valueComparison then Ok 1
            else compareSeqNoParts rest1 rest2
        end
  | _, _ => Ok 0
  end.

(** The common part of both comparators, from the lengths on. *)
Definition compareSeqNos (msg1SeqNos msg2SeqNos : list SeqNoPart) : Try Z :=
  let len1 := length msg1SeqNos in
  let len2 := length msg2SeqNos in
  let maxParts := Nat.max len1 len2 in
  if (len1 <? maxParts)%nat then Ok 1
  else if (len2 <? maxParts)%nat then Ok (-1)
  else compareSeqNoParts msg1SeqNos msg2SeqNos.

Definition stateOf (states : gmap Item TrackedState) (msg : Item) : Try TrackedState :=
  match states !! msg with
  | Some st => Ok st
  | None => Throw (Error "TypeError: Cannot read property of undefined")
  end.

Definition compareSameKeyMessages (msg1 msg2 : Item)
    (states : gmap Item TrackedState) : Try Z :=
  msg1State ← stateOf states msg1;
  msg2State ← stateOf states msg2;
  if negb (deepEqual (keys msg1State) (keys msg2State))
  then Throw differentKeys
  else compareSeqNos (seqNos msg1State) (seqNos msg2State).

Definition compareAnyKeyMessages (msg1 msg2 : Item)
    (states : gmap Item TrackedState) : Try Z :=
  msg1State ← stateOf states msg1;
  msg2State ← stateOf states msg2;
  compareSeqNos (seqNos msg1State) (seqNos msg2State).

(** *** Preparing the sequence numbers *)

Definition notAllSameKey : Err :=
  Error "NOT all of the messages have the same key at sequence number part".

(** [p < sns.length ? sns[p][0] : undefined]. *)
Definition keyAt (p : nat) (sns : list SeqNoPart) : option string :=
  partKey <$> sns !! p.

(** [p < sns.length && sns[p][0] === key ? sns[p][1] : undefined]. *)
Definition valueAt (p : nat) (key : string) (sns : list SeqNoPart) : option Value :=
  match sns !! p with
  | Some part => if String.eqb (partKey part) key then partVal part else None
  | None => None
  end.

(** [uniqueKeys.filter(k => !!k)]. *)
Definition cleanKeys (uniqueKeys : list (option string)) : list string :=
  omap (fun k => match k with
                 | Some s => if String.eqb s "" then None else Some s
                 | None => None
                 end) uniqueKeys.

Definition sortablesFor (p : nat) (allSeqNos : list (list SeqNoPart))
    (cleanUniqueKeys : list string) : gmap string Sortable :=
  foldl (fun sortablesByKey key =>
           <[key := toSortable (map (valueAt p key) allSeqNos)]> sortablesByKey)
        ∅ cleanUniqueKeys.

(** The part [p] of the [m]-th sequence number after the round [p] of the
loop: the old value is kept aside, the sortable attached and the sortable
value put in place. *)
Definition preparedPart (sortablesByKey : gmap string Sortable) (m : nat)
    (seqNoPart : SeqNoPart) : SeqNoPart :=
  let found := sortablesByKey !! partKey seqNoPart in
  {| partKey := partKey seqNoPart;
     partVal := match found with
                | Some s => mjoin (sortableValues s !! m)
                | None => None
                end;
     oldValue := partVal seqNoPart;
     sortable := found |}.

(** One round of the loop over the parts [p]. *)
Definition prepareSeqNoPart (sequencingRequired : bool) (p : nat)
    (allSeqNos : list (list SeqNoPart)) : Try (list (list SeqNoPart)) :=
  let partKeys := map (keyAt p) allSeqNos in
  let uniqueKeys := uniq partKeys in
  let cleanUniqueKeys := cleanKeys uniqueKeys in
  if (1 <? length uniqueKeys)%nat && sequencingRequired then Throw notAllSameKey
  else
    let sortablesByKey := sortablesFor p allSeqNos cleanUniqueKeys in
    Ok (imap (fun m seqNo =>
                match seqNo !! p with
                | Some seqNoPart => <[p := preparedPart sortablesByKey m seqNoPart]> seqNo
                | None => seqNo
                end) allSeqNos).

Fixpoint statesOf (states : gmap Item TrackedState) (messages : list Item)
  : Try (list TrackedState) :=
  match messages with
  | [] => Ok []
  | msg :: rest =>
      st ← stateOf states msg;
      sts ← statesOf states rest;
      Ok (st :: sts)
  end.

(** The sequence numbers are arrays shared with the states, so the prepared
parts are seen through [states]. The messages are taken to be distinct
objects. *)
Fixpoint storeSeqNos (messages : list Item) (allSeqNos : list (list SeqNoPart))
    (states : gmap Item TrackedState) : gmap Item TrackedState :=
  match messages, allSeqNos with
  | msg :: rest, sns :: restSeqNos =>
      storeSeqNos rest restSeqNos (alter (set_seqNos sns) msg states)
  | _, _ => states
  end.

Definition prepareMessagesForSequencing (messages : list Item)
    (states : gmap Item TrackedState) (context : Context)
  : Try (gmap Item TrackedState) :=
  if (length messages <? 2)%nat then Ok states
  else
    sts ← statesOf states messages;
    let allSeqNos := map seqNos sts in
    let maxParts := foldr Nat.max 0%nat (map length allSeqNos) in
    prepared ← foldl (fun acc p =>
                        all ← acc;
                        prepareSeqNoPart
                          (sequencingRequired (streamProcessing context)) p all)
                     (Ok allSeqNos) (seq 0 maxParts);
    Ok (storeSeqNos messages prepared states).

(** *** Sorting and linking *)

(** [msgs.sort(comparator)] with a comparator that may throw, as a stable
insertion sort. (The order in which [sort] calls the comparator is up to the
JavaScript engine.) *)
Fixpoint insertSorted (comparator : Item -> Item -> Try Z) (x : Item)
    (sorted : list Item) : Try (list Item) :=
  match sorted with
  | [] => Ok [x]
  | y :: rest =>
      c ← comparator x y;
      if c <=? 0 then Ok (x :: y :: rest)
      else cons y <$> insertSorted comparator x rest
  end.

Fixpoint sort (comparator : Item -> Item -> Try Z) (msgs : list Item)
  : Try (list Item) :=
  match msgs with
  | [] => Ok []
  | x :: rest =>
      sorted ← sort comparator rest;
      insertSorted comparator x sorted
  end.

(** The key under which [groupBy] files a message:
[keys && keys.length > 0 ? msgState.key : '?']. *)
Definition groupKey (msgState : TrackedState) : string :=
  match keys msgState with
  | Some (_ :: _) => default "undefined" (key msgState)
  | _ => "?"
  end.

Definition groupKeyOf (states : gmap Item TrackedState) (msg : Item) : string :=
  match states !! msg with
  | Some st => groupKey st
  | None => "?"
  end.

(** lodash [groupBy] followed by [Object.getOwnPropertyNames]: the groups in
the order in which their keys first occur (key strings are not array
indices), each with its messages in their original order. *)
Definition groupBy (messages : list Item) (keyOf : Item -> string)
  : list (string * list Item) :=
  map (fun k => (k, filter (fun msg => keyOf msg = k) messages))
      (uniq (map keyOf messages)).

(** The loop that links the sorted messages of one group: the state objects
of the messages are updated in place. *)
Fixpoint linkMessages (prevMessage : option Item) (msgs : list Item)
    (states : gmap Item TrackedState) : gmap Item TrackedState :=
  match msgs with
  | [] =>
      match prevMessage with
      | Some p => alter (fun st => setNextMessage st None) p states
      | None => states
      end
  | nextMessage :: rest =>
      let states1 := alter (fun st => setPrevMessage st prevMessage) nextMessage states in
      let states2 :=
        match prevMessage with
        | Some p => alter (fun st => setNextMessage st (Some nextMessage)) p states1
        | None => states1
        end in
      linkMessages (Some nextMessage) rest states2
  end.

(** One round of the loop over the key strings. *)
Definition sequenceGroup (comparator : Item -> Item -> gmap Item TrackedState -> Try Z)
    (acc : Try (list Item * gmap Item TrackedState)) (group : string * list Item)
  : Try (list Item * gmap Item TrackedState) :=
  '(firstMessagesToProcess, states) ← acc;
  msgs ← sort (fun m1 m2 => comparator m1 m2 states) (snd group);
  Ok (firstMessagesToProcess ++ option_list (head msgs),
      linkMessages None msgs states).

(** [sequenceMessages]: the first messages to process, and the states with
the chains linked. *)
Definition sequenceMessages (batch : Batch) (context : Context)
  : Try (list Item * gmap Item TrackedState) :=
  let states := states batch in
  let messages := messages batch in
  if (length messages <? 2)%nat
     || negb (sequencingRequired (streamProcessing context))
  then Ok (messages, states)
  else
    prepared ← prepareMessagesForSequencing messages states context;
    if sequencingPerKey (streamProcessing context) then
      foldl (sequenceGroup compareSameKeyMessages) (Ok ([], prepared))
            (groupBy messages (groupKeyOf prepared))
    else
      foldl (sequenceGroup compareAnyKeyMessages) (Ok ([], prepared))
            [("*", messages)].

(** The array [batch.messages] once [sequenceMessages] has returned. Without
sequencing per key the one group ['*'] is that array itself, and
[msgs.sort(comparator)] sorts it in place; with sequencing per key the groups
are arrays of their own, and the array keeps its order. *)
Definition sequencedMessages (batch : Batch) (context : Context)
  : Try (list Item) :=
  let states := states batch in
  let messages := messages batch in
  if (length messages <? 2)%nat
     || negb (sequencingRequired (streamProcessing context))
  then Ok messages
  else
    prepared ← prepareMessagesForSequencing messages states context;
    if sequencingPerKey (streamProcessing context) then Ok messages
    else sort (fun m1 m2 => compareAnyKeyMessages m1 m2 prepared) messages.

(** The array that [sequenceMessages] returns: [messages] itself when it
returns early, and else the new array [firstMessagesToProcess]. *)
Definition returnedArray (batch : Batch) (context : Context)
    (first : list Item) : FirstMessages :=
  if (length (messages batch) <? 2)%nat
     || negb (sequencingRequired (streamProcessing context))
  then TheMessagesArray
  else OwnArray first.

(** [extractAndSequenceMessages], once all messages have been extracted:
[batch.firstMessagesToProcess = sequencing.sequenceMessages(batch, context)].
The call links the states, sorts [batch.messages] where it does, and its
result is stored on the batch. *)
Definition extractAndSequenceMessages (batch : Batch) (context : Context)
  : Try Batch :=
  '(first, states) ← sequenceMessages batch context;
  msgs ← sequencedMessages batch context;
  Ok (set_firstMessagesToProcess (returnedArray batch context first)
        (set_messages msgs (rejectedMessages batch) (set_states states batch))).

End WithSorting.

(** [messages] is linked into a chain in [states]: every message points
back to its predecessor and forward to its successor, and the ends point
nowhere. *)
Definition isChain (states : gmap Item TrackedState) (chain : list Item) : Prop :=
  forall i m, chain !! i = Some m ->
    exists st, states !! m = Some st /\
      prevMessage st = match i with O => None | S j => chain !! j end /\
      nextMessage st = chain !! S i.

(** The comparator as the ordered steps of the specification read: part
keys first, ordinal by ordinal; then sort kinds; then values; the number of
parts last. *)
Fixpoint compareBySpecSteps (compareStrings : string -> string -> Z)
    (parts1 parts2 : list SeqNoPart) : Try Z :=
  match parts1, parts2 with
  | p1 :: rest1, p2 :: rest2 =>
      if negb (compareStrings (partKey p1) (partKey p2) =? 0)
      then Ok (compareStrings (partKey p1) (partKey p2))
      else if negb (bool_decide (sortTypeOf p1 = sortTypeOf p2))
      then Throw differentSortTypes
      else
        match compareOf p1 p2 with
        | None => Throw missingCompare
        | Some compare =>
            if compare (partVal p1) (partVal p2) <? 0 then Ok (-1)
            else if 0 <? compare (partVal p1) (partVal p2) then Ok 1
            else compareBySpecSteps compareStrings rest1 rest2
        end
  | [], _ :: _ => Ok 1
  | _ :: _, [] => Ok (-1)
  | [], [] => Ok 0
  end.

(** Two parts that the comparator cannot tell apart. *)
Definition partsTie (compareStrings : string -> string -> Z)
    (part1 part2 : SeqNoPart) : Prop :=
  compareStrings (partKey part1) (partKey part2) = 0 /\
  sortTypeOf part1 = sortTypeOf part2 /\
  exists compare, compareOf part1 part2 = Some compare /\
    compare (partVal part1) (partVal part2) = 0.

(** [f] reads the same from every state of [s] and of [s']. *)
Definition agreeOn {B} (f : TrackedState -> B) (s s' : gmap Item TrackedState) : Prop :=
  forall m, f <$> s !! m = f <$> s' !! m.

(** What the comparators and the grouping read of a state. *)
Definition sortView (st : TrackedState) :=
  (keys st, key st, seqNos st).

Definition groupView (st : TrackedState) := (keys st, key st).

(** Two parts that carry the same sortable, which has a compare function. *)
Definition comparableParts (a b : SeqNoPart) : Prop :=
  exists s cmp, sortable a = Some s /\ sortable b = Some s /\ compare s = Some cmp.

(** The sequence numbers [all] have the part keys [partKeys], and up to part
[k] they carry a sortable with a compare function, the same for all. *)
Definition preparedUpTo (partKeys : list string) (k : nat)
    (all : list (list SeqNoPart)) : Prop :=
  Forall (fun sns => partKey <$> sns = partKeys) all /\
  forall p, (p < k)%nat ->
    exists srt cmp, compare srt = Some cmp /\
      Forall (fun sns => exists part, sns !! p = Some part
                                      /\ sortable part = Some srt) all.

(** A batch whose messages are distinct objects with tracked states, whose
sequence numbers all have the non-empty part keys [partKeys], and whose
messages of one group have equal keys. *)
Definition wellFormedForSequencing (batch : Batch) (partKeys : list string) : Prop :=
  NoDup (messages batch) /\
  Forall (fun key => key <> "") partKeys /\
  (forall m, m ∈ messages batch ->
     exists st, states batch !! m = Some st /\ partKey <$> seqNos st = partKeys) /\
  (forall m1 m2 st1 st2, m1 ∈ messages batch -> m2 ∈ messages batch ->
     states batch !! m1 = Some st1 -> states batch !! m2 = Some st2 ->
     groupKey st1 = groupKey st2 -> keys st1 = keys st2).

(** JavaScript's comparison of strings by code units, as -1, 0 or +1. *)
Definition compareStringsJs (a b : string) : Z :=
  match String.compare a b with
  | Lt => -1
  | Eq => 0
  | Gt => 1
  end.

(** The equality of keys whose values are of the same types. On such keys it
is what deep-equal computes; keys that differ in the type of a value (the
number 1, the string ['1']) are outside its use. *)
Definition deepEqualKeys (keys1 keys2 : option (list (string * Value))) : bool :=
  bool_decide (keys1 = keys2).

End Sequencing.

(** persisting.js: loading, saving and restoring the checkpoint. *)
Module Persisting.
Import Tasks Tracking BatchM.

(** *** Identifiers and Big Fat Keys *)

Definition someNotBlank (vals : option (list (option string))) : bool :=
  match vals with
  | Some l => existsb isNotBlank l
  | None => false
  end.

Definition hasMessageIdentifier (msgState : TrackedState) : bool :=
  isNotBlank (eventID msgState)
  || someNotBlank (idVals msgState)
  || (someNotBlank (keyVals msgState) && someNotBlank (seqNoVals msgState))
  || match md5s msgState with
     | Some m => isNotBlank (md5_msg m) || isNotBlank (md5_userRec m)
                 || isNotBlank (md5_rec m) || isNotBlank (md5_data m)
     | None => false
     end.

Definition md5Of (f : MD5s -> option string) (st : TrackedState) : option string :=
  match md5s st with Some m => f m | None => None end.

Definition toMessageBFK (messageState : TrackedState) : string :=
  join "|"
    [trimOrEmpty (eventID messageState); trimOrEmpty (eventSeqNo messageState);
     trimOrEmpty (eventSubSeqNo messageState);
     trimOrEmpty (id messageState); trimOrEmpty (key messageState);
     trimOrEmpty (seqNo messageState);
     trimOrEmpty (md5Of md5_msg messageState);
     trimOrEmpty (md5Of md5_userRec messageState);
     trimOrEmpty (md5Of md5_rec messageState);
     trimOrEmpty (md5Of md5_data messageState)].

Definition hasUnusableRecordIdentifier (recState : TrackedState) : bool :=
  isNotBlank (eventID recState)
  || match md5s recState with
     | Some m => isNotBlank (md5_userRec m) || isNotBlank (md5_rec m)
                 || isNotBlank (md5_data m)
     | None => false
     end.

Definition toUnusableRecordBFK (recordState : TrackedState) : string :=
  join "|"
    [trimOrEmpty (eventID recordState); trimOrEmpty (eventSeqNo recordState);
     trimOrEmpty (eventSubSeqNo recordState);
     trimOrEmpty (md5Of md5_userRec recordState);
     trimOrEmpty (md5Of md5_rec recordState);
     trimOrEmpty (md5Of md5_data recordState)].

(** A string used as a condition: the empty string is falsy. *)
Definition truthy (s : option string) : bool :=
  match s with
  | Some t => negb (String.eqb t "")
  | None => false
  end.

(** *** The stored item *)

Record BatchStateItem := {
  itemStreamConsumerId : option string;
  itemShardOrEventID : option string;
  messageStates : option (list TrackedState);
  rejectedMessageStates : option (list TrackedState);
  unusableRecordStates : option (list TrackedState);
  batchState : option TrackedState
}.

(** aws-core-utils/dynamodb-utils [toStorableObject] on a tracked state: the
enumerable properties survive, the non-enumerable ones (back-pointers,
identifier lists, chain links) do not. *)
Definition toStorableObject (st : TrackedState) : TrackedState :=
  {| message := None; unusableRecord := None; userRecord := None; record := None;
     eventID := eventID st; eventSeqNo := eventSeqNo st;
     eventSubSeqNo := eventSubSeqNo st;
     id := id st; key := key st; seqNo := seqNo st;
     keys := None; seqNos := []; idVals := None; keyVals := None;
     seqNoVals := None; md5s := md5s st;
     ones := ones st; alls := alls st; discards := discards st;
     prevMessage := None; nextMessage := None |}.

Definition attach (m u r x : option string) (st : TrackedState) : TrackedState :=
  {| message := m; unusableRecord := x; userRecord := u; record := r;
     eventID := eventID st; eventSeqNo := eventSeqNo st;
     eventSubSeqNo := eventSubSeqNo st;
     id := id st; key := key st; seqNo := seqNo st;
     keys := keys st; seqNos := seqNos st; idVals := idVals st;
     keyVals := keyVals st; seqNoVals := seqNoVals st; md5s := md5s st;
     ones := ones st; alls := alls st; discards := discards st;
     prevMessage := prevMessage st; nextMessage := nextMessage st |}.

Definition toStorableMessageState (messageState : option TrackedState)
    (message : Item) : option TrackedState :=
  match messageState with
  | None => None
  | Some ms =>
      let state := toStorableObject ms in
      if negb (hasMessageIdentifier ms)
      then Some (attach (Some (body message)) None None None state)
      else Some state
  end.

Definition toStorableUnusableRecordState (unusableRecordState : option TrackedState)
    (unusableRec : Item) : option TrackedState :=
  match unusableRecordState with
  | None => None
  | Some us =>
      let state := toStorableObject us in
      if negb (hasUnusableRecordIdentifier us)
      then
        match userRecord us, record us with
        | Some u, _ => Some (attach None (Some u) None (Some (body unusableRec)) state)
        | None, Some r => Some (attach None None (Some r) (Some (body unusableRec)) state)
        | None, None => Some (attach None None None (Some (body unusableRec)) state)
        end
      else Some state
  end.

Definition toStorableBatchState (batchState : option TrackedState)
  : option TrackedState :=
  toStorableObject <$> batchState.

Definition toBatchStateItem (batch : Batch) : BatchStateItem :=
  let st := states batch in
  {| itemStreamConsumerId := streamConsumerId batch;
     itemShardOrEventID := shardOrEventID batch;
     messageStates :=
       Some (omap (fun msg => toStorableMessageState (st !! msg) msg) (messages batch));
     rejectedMessageStates :=
       Some (omap (fun msg => toStorableMessageState (st !! msg) msg)
                  (rejectedMessages batch));
     unusableRecordStates :=
       Some (omap (fun uRec => toStorableUnusableRecordState (st !! uRec) uRec)
                  (unusableRecords batch));
     batchState := toStorableBatchState (st !! ItBatch) |}.

(** *** Requests to the DynamoDB document client *)

Record PutRequest := {
  putTableName : string;
  putItem : BatchStateItem;
  putConditionExpression : string
}.

Record UpdateRequest := {
  updTableName : string;
  updKey : option string * option string;
  updUpdateExpression : string;
  updConditionExpression : string;
  updExpressionAttributeNames : list (string * string);
  updMessageStates : list TrackedState;
  updRejectedMessageStates : list TrackedState;
  updUnusableRecordStates : list TrackedState;
  updBatchState : option TrackedState;
  updReturnValues : string
}.

Record GetRequest := {
  getTableName : string;
  getKey : option string * option string;
  getConsistentRead : bool;
  getReturnConsumedCapacity : string;
  getProjectionExpression : string;
  getExpressionAttributeNames : list (string * string)
}.

Inductive Request : Type :=
| Put (r : PutRequest)
| Update (r : UpdateRequest)
| Get (r : GetRequest).

(** The result of a request. *)
Record DbResult := { resultItem : option BatchStateItem }.

(** The document client, as the replies it gives to successive requests. *)
Definition Db : Type := list (Settled DbResult).

(** aws-core-utils/aws-errors. *)
Definition isConditionalCheckFailed (err : Err) : bool :=
  match err with
  | AwsError code _ => String.eqb code "ConditionalCheckFailedException"
  | _ => false
  end.

Definition isResourceNotFoundException (err : Err) : bool :=
  match err with
  | AwsError code _ => String.eqb code "ResourceNotFoundException"
  | _ => false
  end.

Definition isRetryable (err : Err) : bool :=
  match err with
  | AwsError _ retryable => retryable
  | _ => false
  end.

Definition insertCondition : string :=
  "attribute_not_exists(streamConsumerId) AND attribute_not_exists(shardOrEventID)".

Definition updateCondition : string :=
  "attribute_exists(streamConsumerId) AND attribute_exists(shardOrEventID)".

Definition putRequestOf (tableName : string) (item : BatchStateItem) : PutRequest :=
  {| putTableName := tableName;
     putItem := item;
     putConditionExpression := insertCondition |}.

Definition updateRequestOf (tableName : string) (item : BatchStateItem)
  : UpdateRequest :=
  {| updTableName := tableName;
     updKey := (itemStreamConsumerId item, itemShardOrEventID item);
     updUpdateExpression :=
       "set #messageStates = :messageStates, #rejectedMessageStates = :rejectedMessageStates, #unusableRecordStates = :unusableRecordStates, #batchState = :batchState";
     updConditionExpression := updateCondition;
     updExpressionAttributeNames :=
       [("#messageStates", "messageStates");
        ("#rejectedMessageStates", "rejectedMessageStates");
        ("#unusableRecordStates", "unusableRecordStates");
        ("#batchState", "batchState")];
     updMessageStates := default [] (messageStates item);
     updRejectedMessageStates := default [] (rejectedMessageStates item);
     updUnusableRecordStates := default [] (unusableRecordStates item);
     updBatchState := batchState item;
     updReturnValues := "ALL_NEW" |}.

(** [insertBatchState] and [updateBatchState]: each issues its request and,
on a conditional-check failure, hands over to the other. The result is the
list of requests issued and the settled promise, or [None] while the last
request has not been answered. *)
Fixpoint insertBatchState (dynamoDBDocClient : Db) (tableName : string)
    (item : BatchStateItem) {struct dynamoDBDocClient}
  : list Request * option (Settled DbResult) :=
  let putRequest := putRequestOf tableName item in
  match dynamoDBDocClient with
  | [] => ([Put putRequest], None)
  | Resolved result :: _ => ([Put putRequest], Some (Resolved result))
  | Rejected err :: rest =>
      if isConditionalCheckFailed err then
        let '(requests, p) := updateBatchState rest tableName item in
        (Put putRequest :: requests, p)
      else ([Put putRequest], Some (Rejected err))
  end
with updateBatchState (dynamoDBDocClient : Db) (tableName : string)
    (item : BatchStateItem) {struct dynamoDBDocClient}
  : list Request * option (Settled DbResult) :=
  let updateRequest := updateRequestOf tableName item in
  match dynamoDBDocClient with
  | [] => ([Update updateRequest], None)
  | Resolved result :: _ => ([Update updateRequest], Some (Resolved result))
  | Rejected err :: rest =>
      if isConditionalCheckFailed err then
        let '(requests, p) := insertBatchState rest tableName item in
        (Update updateRequest :: requests, p)
      else ([Update updateRequest], Some (Rejected err))
  end.

Definition missingTable (tableName : string) (err : Err) : Err :=
  FatalError ("FATAL - Cannot save state of batch, since missing DynamoDB table ("
              ++ tableName ++ ") - " ++ errMessage err)%string.

Definition transientSave (tableName : string) (err : Err) : Err :=
  TransientError ("TRANSIENT - Failed to save state of batch to " ++ tableName
                  ++ " - " ++ errMessage err)%string.

Definition incompleteKey (tableName : string) : Err :=
  Error ("Cannot save state of batch to " ++ tableName
         ++ " WITHOUT a complete batch key")%string.

(** [saveBatchStateToDynamoDB]; [tableName] is the stage-qualified table
name. The result [Some None] stands for a promise resolved with
[undefined]. *)
Definition saveBatchStateToDynamoDB (dynamoDBDocClient : Db) (tableName : string)
    (batch : Batch) : list Request * option (Settled (option DbResult)) :=
  if isBlank (streamConsumerId batch) || isBlank (shardOrEventID batch) then
    if bool_decide (length (messages batch) = 0%nat)
       && bool_decide (length (rejectedMessages batch) = 0%nat)
       && bool_decide (length (unusableRecords batch) = 0%nat)
    then ([], Some (Resolved None))
    else ([], Some (Rejected (incompleteKey tableName)))
  else
    let item := toBatchStateItem batch in
    let '(requests, p) :=
      match previouslySaved batch with
      | Some true => updateBatchState dynamoDBDocClient tableName item
      | Some false | None => insertBatchState dynamoDBDocClient tableName item
      end in
    (requests,
     (fun settled =>
        then_ settled
          (fun result => Resolved (Some result))
          (fun err =>
             if isResourceNotFoundException err
             then Rejected (missingTable tableName err)
             else if isRetryable err
             then Rejected (transientSave tableName err)
             else Rejected err)) <$> p).

(** The save mode of a request and the number of conditional-check failures
that the client answers before anything else. *)
Inductive Mode : Type := Insert | Modify | Read.

Definition modeOf (r : Request) : Mode :=
  match r with Put _ => Insert | Update _ => Modify | Get _ => Read end.

Definition otherMode (m : Mode) : Mode :=
  match m with Insert => Modify | Modify => Insert | Read => Read end.

(** A put of [item] guarded by [attribute_not_exists] on both key
attributes, and an update to [item]'s states guarded by [attribute_exists]
on both. *)
Definition isConditionalInsert (r : Request) (tableName : string)
    (item : BatchStateItem) : Prop :=
  exists pr, r = Put pr /\ putTableName pr = tableName /\ putItem pr = item /\
    putConditionExpression pr =
      "attribute_not_exists(streamConsumerId) AND attribute_not_exists(shardOrEventID)".

Definition isConditionalUpdate (r : Request) (tableName : string)
    (item : BatchStateItem) : Prop :=
  exists ur, r = Update ur /\ updTableName ur = tableName /\
    updKey ur = (itemStreamConsumerId item, itemShardOrEventID item) /\
    updMessageStates ur = default [] (messageStates item) /\
    updRejectedMessageStates ur = default [] (rejectedMessageStates item) /\
    updUnusableRecordStates ur = default [] (unusableRecordStates item) /\
    updBatchState ur = batchState item /\
    updConditionExpression ur =
      "attribute_exists(streamConsumerId) AND attribute_exists(shardOrEventID)".

Fixpoint conditionalCheckFailures (db : Db) : nat :=
  match db with
  | Rejected err :: rest =>
      if isConditionalCheckFailed err then S (conditionalCheckFailures rest) else 0%nat
  | _ => 0%nat
  end.

(** The modes [first], other, [first], ... of [n] requests. *)
Fixpoint alternating (first : Mode) (n : nat) : list Mode :=
  match n with
  | O => []
  | S n' => first :: alternating (otherMode first) n'
  end.

(** *** Loading *)

Definition getRequestOf (tableName : string) (batch : Batch) : GetRequest :=
  {| getTableName := tableName;
     getKey := (streamConsumerId batch, shardOrEventID batch);
     getConsistentRead := true;
     getReturnConsumedCapacity := "NONE";
     getProjectionExpression :=
       "#streamConsumerId, #shardOrEventID, #messageStates, #rejectedMessageStates, #unusableRecordStates";
     getExpressionAttributeNames :=
       [("#streamConsumerId", "streamConsumerId");
        ("#shardOrEventID", "shardOrEventID");
        ("#messageStates", "messageStates");
        ("#rejectedMessageStates", "rejectedMessageStates");
        ("#unusableRecordStates", "unusableRecordStates")] |}.

(** The attributes that a projection expression selects: its
comma-separated tokens, each resolved through the expression attribute
names. *)
Fixpoint splitOn (sep : ascii) (s : string) : list string :=
  match s with
  | EmptyString => [EmptyString]
  | String c s' =>
      if Ascii.eqb c sep then EmptyString :: splitOn sep s'
      else match splitOn sep s' with
           | [] => [String c EmptyString]
           | x :: l => String c x :: l
           end
  end.

Fixpoint resolveName (names : list (string * string)) (token : string) : string :=
  match names with
  | [] => token
  | (placeholder, name) :: rest =>
      if String.eqb placeholder token then name else resolveName rest token
  end.

Definition projectedAttributes (r : GetRequest) : list string :=
  map (fun token => resolveName (getExpressionAttributeNames r) (trim token))
      (splitOn "," (getProjectionExpression r)).

(** The fields of a checkpoint item (spec, section 4.5). *)
Definition itemFields : list string :=
  ["streamConsumerId"; "shardOrEventID"; "messageStates";
   "rejectedMessageStates"; "unusableRecordStates"; "batchState"].

(** *** Restoring prior state *)

Definition typeError : Err :=
  Error "TypeError: Cannot read property of undefined".

Definition Caches : Type := gmap string TrackedState * gmap Item TrackedState.

(** [messages.find(m => ...)] with a callback that may throw. *)
Fixpoint findM (f : Item -> Try bool) (l : list Item) : Try (option Item) :=
  match l with
  | [] => Ok None
  | m :: l' =>
      match f m with
      | Throw e => Throw e
      | Ok true => Ok (Some m)
      | Ok false => findM f l'
      end
  end.

Definition setIfFound (prevState : TrackedState) (c : Caches) (found : option Item)
  : Caches :=
  match found with
  | Some msg => (fst c, <[msg := prevState]> (snd c))
  | None => c
  end.

(** One round of the [forEach] of [cachePrevStatesByBfkOrMsg]. *)
Definition cachePrevState (messages : list Item) (states : gmap Item TrackedState)
    (acc : Try Caches) (prevState : TrackedState) : Try Caches :=
  c ← acc;
  if hasMessageIdentifier prevState then
    Ok (<[toMessageBFK prevState := prevState]> (fst c), snd c)
  else
    match message prevState, userRecord prevState, record prevState with
    | Some pm, _, _ =>
        setIfFound prevState c
          <$> findM (fun m => Ok (bool_decide (body m = pm))) messages
    | None, Some pu, _ =>
        setIfFound prevState c
          <$> findM (fun m => match states !! m with
                              | Some st => Ok (bool_decide (userRecord st = Some pu))
                              | None => Throw typeError
                              end) messages
    | None, None, Some pr =>
        setIfFound prevState c
          <$> findM (fun m => match states !! m with
                              | Some st => Ok (bool_decide (record st = Some pr))
                              | None => Throw typeError
                              end) messages
    | None, None, None => Ok c
    end.

Definition cachePrevStatesByBfkOrMsg (prevMsgStates : option (list TrackedState))
    (messages : list Item) (states : gmap Item TrackedState) : Try Caches :=
  foldl (cachePrevState messages states) (Ok (∅, ∅)) (default [] prevMsgStates).

(** [bfk ? byBfk.get(bfk) : byMsg.get(msg)]. *)
Definition lookupPrev (c : Caches) (bfk : option string) (msg : Item)
  : option TrackedState :=
  if truthy bfk then fst c !! default "" bfk else snd c !! msg.

Definition bfkOf (currState : TrackedState) : option string :=
  if hasMessageIdentifier currState then Some (toMessageBFK currState) else None.

(** [setMessageStateToPrev]: three calls of [setStatePropertyToPrevious]. *)
Definition setMessageStateToPrev (currState prevState : TrackedState) : TrackedState :=
  set_discards (discards prevState)
    (set_alls (alls prevState) (set_ones (ones prevState) currState)).

(** [a || b] on optional objects. *)
Definition orElse {A} (a b : option A) : option A :=
  match a with Some _ => a | None => b end.

(** The body of the first [forEach] of
[restoreMessageAndRejectedMessageStates], for one current message. The state
object of the message is updated in place. *)
Definition restoreMessageState (prevMsgStates prevRejMsgStates : Caches)
    (batch : Batch) (msg : Item) : Batch * option Err :=
  match states batch !! msg with
  | None => (batch, Some typeError)
  | Some currState =>
      let bfk := bfkOf currState in
      let prevMsgState := lookupPrev prevMsgStates bfk msg in
      let prevRejMsgState := lookupPrev prevRejMsgStates bfk msg in
      match orElse prevMsgState prevRejMsgState with
      | Some prevState =>
          let moved :=
            match prevRejMsgState with
            | Some _ => moveMessageToRejected batch msg
            | None => batch
            end in
          (set_states (<[msg := setMessageStateToPrev currState prevState]>
                         (states moved)) moved, None)
      | None => (batch, None)
      end
  end.

(** The body of the second [forEach], for one current rejected message. *)
Definition restoreRejectedMessageState (prevMsgStates prevRejMsgStates : Caches)
    (batch : Batch) (msg : Item) : Batch * option Err :=
  match states batch !! msg with
  | None => (batch, Some typeError)
  | Some currState =>
      let bfk := bfkOf currState in
      let prevRejMsgState := lookupPrev prevRejMsgStates bfk msg in
      let prevMsgState := lookupPrev prevMsgStates bfk msg in
      match orElse prevRejMsgState prevMsgState with
      | Some prevState =>
          (set_states (<[msg := setMessageStateToPrev currState prevState]>
                         (states batch)) batch, None)
      | None => (batch, None)
      end
  end.

(** [list.forEach(step)] on the batch, stopping at the first throw. *)
Definition forEachItem (step : Batch -> Item -> Batch * option Err)
    (l : list Item) (batch : Batch) : Batch * option Err :=
  foldl (fun acc x => match acc with
                      | (b, None) => step b x
                      | (b, Some e) => (b, Some e)
                      end) (batch, None) l.

Definition restoreMessageAndRejectedMessageStates (batch : Batch)
    (item : BatchStateItem) : Batch * option Err :=
  let all := allMessages batch in
  if bool_decide (length all = 0%nat) then (batch, None)
  else
    match cachePrevStatesByBfkOrMsg (messageStates item) all (states batch) with
    | Throw e => (batch, Some e)
    | Ok prevMsgStates =>
        match cachePrevStatesByBfkOrMsg (rejectedMessageStates item) all
                (states batch) with
        | Throw e => (batch, Some e)
        | Ok prevRejMsgStates =>
            match forEachItem (restoreMessageState prevMsgStates prevRejMsgStates)
                    (messages batch) batch with
            | (b1, Some e) => (b1, Some e)
            | (b1, None) =>
                forEachItem
                  (restoreRejectedMessageState prevMsgStates prevRejMsgStates)
                  (rejectedMessages b1) b1
            end
        end
    end.

Definition cachePrevURecState (unusableRecs : list Item)
    (states : gmap Item TrackedState) (acc : Try Caches) (prevState : TrackedState)
  : Try Caches :=
  c ← acc;
  if hasUnusableRecordIdentifier prevState then
    Ok (<[toUnusableRecordBFK prevState := prevState]> (fst c), snd c)
  else
    match unusableRecord prevState, userRecord prevState, record prevState with
    | Some px, _, _ =>
        setIfFound prevState c
          <$> findM (fun ur => Ok (bool_decide (body ur = px))) unusableRecs
    | None, Some pu, _ =>
        setIfFound prevState c
          <$> findM (fun ur => match states !! ur with
                               | Some st => Ok (bool_decide (userRecord st = Some pu))
                               | None => Throw typeError
                               end) unusableRecs
    | None, None, Some pr =>
        setIfFound prevState c
          <$> findM (fun ur => match states !! ur with
                               | Some st => Ok (bool_decide (record st = Some pr))
                               | None => Throw typeError
                               end) unusableRecs
    | None, None, None => Ok c
    end.

Definition restoreUnusableRecordState (prevStates : Caches) (batch : Batch)
    (unusableRec : Item) : Batch * option Err :=
  match states batch !! unusableRec with
  | None => (batch, Some typeError)
  | Some currState =>
      let bfk := if hasUnusableRecordIdentifier currState
                 then Some (toUnusableRecordBFK currState) else None in
      match lookupPrev prevStates bfk unusableRec with
      | Some prevState =>
          (set_states (<[unusableRec := set_discards (discards prevState) currState]>
                         (states batch)) batch, None)
      | None => (batch, None)
      end
  end.

Definition restoreUnusableRecordStates (batch : Batch) (item : BatchStateItem)
  : Batch * option Err :=
  if bool_decide (length (unusableRecords batch) = 0%nat) then (batch, None)
  else
    match unusableRecordStates item with
    | None | Some [] => (batch, None)
    | Some prevStates =>
        match foldl (cachePrevURecState (unusableRecords batch) (states batch))
                (Ok (∅, ∅)) prevStates with
        | Throw e => (batch, Some e)
        | Ok caches =>
            forEachItem (restoreUnusableRecordState caches)
              (unusableRecords batch) batch
        end
    end.

Definition updateBatchWithPriorState (batch : Batch) (item : BatchStateItem)
  : Batch * option Err :=
  match restoreMessageAndRejectedMessageStates batch item with
  | (b1, Some e) => (b1, Some e)
  | (b1, None) => restoreUnusableRecordStates b1 item
  end.

Definition missingTableOnLoad (tableName : string) (err : Err) : Err :=
  FatalError ("FATAL - Cannot load state of batch, since missing DynamoDB table ("
              ++ tableName ++ ") - " ++ errMessage err)%string.

Definition transientLoad (tableName : string) (err : Err) : Err :=
  TransientError ("TRANSIENT - Failed to load state of batch from " ++ tableName
                  ++ " - " ++ errMessage err)%string.

(** The [.catch] of [loadBatchStateFromDynamoDB]. *)
Definition loadFailed (tableName : string) (batch : Batch) (err : Err)
  : Batch * Settled DbResult :=
  (set_previouslySaved None batch,
   if isResourceNotFoundException err then Rejected (missingTableOnLoad tableName err)
   else if isRetryable err then Rejected (transientLoad tableName err)
   else Rejected err).

(** [loadBatchStateFromDynamoDB]: the request issued, and the batch and the
promise once the client has replied with [reply]. *)
Definition loadBatchStateFromDynamoDB (reply : Settled DbResult)
    (tableName : string) (batch : Batch)
  : Request * (Batch * Settled DbResult) :=
  (Get (getRequestOf tableName batch),
   match reply with
   | Resolved result =>
       match resultItem result with
       | Some item =>
           match updateBatchWithPriorState
                   (set_previouslySaved (Some true) batch) item with
           | (b, None) => (b, Resolved result)
           | (b, Some e) => loadFailed tableName b e
           end
       | None => (set_previouslySaved (Some false) batch, Resolved result)
       end
   | Rejected err => loadFailed tableName batch err
   end).

End Persisting.

Module StreamConsumer.
Import Tasks Tracking BatchM.

(** [const MIN_FINALISE_TIMEOUT_AT_PERCENTAGE = 0.8]: the double that the
    literal stands for. *)
Definition MIN_FINALISE_TIMEOUT_AT_PERCENTAGE : Q := toDouble (8 # 10).

(** A computation that reads the host clock: the state is the number of
    reads made so far. *)
Definition Clocked (A : Type) : Type := nat -> A * nat.

Definition getRemainingTimeInMillis (context : Context) : Clocked Z :=
  fun n => (remaining (awsContext context) n, S n).

(** The number that [context.streamProcessing.timeoutAtPercentageOfRemainingTime]
    holds: the double nearest to the configured decimal. *)
Definition configuredTimeoutAtPercentage (context : Context) : Q :=
  toDouble (timeoutAtPercentageOfRemainingTime (streamProcessing context)).

(** [Math.round(remainingTimeInMillis * timeoutAtPercentageOfRemainingTime)],
    for a percentage that is a double: the product is the product of doubles,
    rounded to a double before [Math.round] sees it. *)
Definition calculateTimeoutMs (timeoutAtPercentage : Q) (context : Context)
  : Clocked Z :=
  fun n =>
    let '(remainingTimeInMillis, n1) := getRemainingTimeInMillis context n in
    (Math_round (toDouble (inject_Z remainingTimeInMillis * timeoutAtPercentage)%Q),
     n1).

(** The timeout computed at the start of [processBatch]. *)
Definition processBatch_timeoutMs (context : Context) : Clocked Z :=
  calculateTimeoutMs (configuredTimeoutAtPercentage context) context.

(** The timeout computed at the start of [finaliseBatch]: the clock is read
    once for [timeoutAtLastSec] and once more inside
    [calculateTimeoutMs]. *)
Definition finaliseBatch_timeoutMs (context : Context) : Clocked Z :=
  fun n =>
    let timeoutAtPercentage :=
      Qmax (configuredTimeoutAtPercentage context)
           MIN_FINALISE_TIMEOUT_AT_PERCENTAGE in
    let '(r, n1) := getRemainingTimeInMillis context n in
    let timeoutAtLastSec := Z.max (r - 1000) 0 in
    let '(t, n2) := calculateTimeoutMs timeoutAtPercentage context n1 in
    (Z.max timeoutAtLastSec t, n2).

(** *** Task definitions and their validation *)

(** An element of a task-definition list, as far as validation looks at it:
its identity, whether it is a [TaskDef] instance, its [executable] flag,
whether [execute] is a function, and its name (task-utils/task-defs). *)
Record TaskDefLike := {
  defId : nat;
  isTaskDefInstance : bool;
  executable : bool;
  executeIsFunction : bool;
  defName : string
}.

(** The optional list argument of [processStreamEvent]: undefined, a truthy
value that is not an array, or an array. *)
Inductive TaskDefsArg : Type :=
| NoTaskDefs
| NotAnArray
| TaskDefs (l : list TaskDefLike).

(** core-functions/arrays [isArrayOfType(array, TaskDef)] on an array. *)
Definition isArrayOfType (l : list TaskDefLike) : bool :=
  forallb isTaskDefInstance l.

(** core-functions/arrays [isDistinct]: no element occurs twice. *)
Definition isDistinct `{EqDecision A} (l : list A) : bool :=
  bool_decide (NoDup l).

Definition unusableLambda (name : string) : string :=
  ("FATAL - " ++ name ++ " must be an array of executable TaskDef instances with valid execute functions! Fix your Lambda and redeploy ASAP, since this issue is blocking all of your stream's shards!")%string.

Definition duplicateNames (name : string) (taskNames : list string) : string :=
  ("FATAL - " ++ name ++ " must have no duplicate task names [" ++ join "," taskNames ++ "]! Fix your Lambda and redeploy ASAP, since this issue is blocking all of your stream's shards!")%string.

Definition noTaskDefinition : string :=
  "FATAL - There must be at least one task definition in either of processOneTaskDefs or processAllTaskDefs! Fix your Lambda and redeploy ASAP, since this issue is blocking all of your stream's shards!".

Definition sharedTaskDefinition : string :=
  "FATAL - Any given task definition must NOT exist in both processOneTaskDefs and processAllTaskDefs! Fix your Lambda and redeploy ASAP, since this issue is blocking all of your stream's shards!".

(** The inner function [validateTaskDefs(taskDefs, name)]. *)
Definition validateTaskDefs (taskDefs : TaskDefsArg) (name : string) : Try unit :=
  match taskDefs with
  | NoTaskDefs => Ok tt
  | NotAnArray => Throw (FatalError (unusableLambda name))
  | TaskDefs l =>
      if negb (isArrayOfType l)
         || negb (forallb (fun t => executable t && executeIsFunction t) l)
      then Throw (FatalError (unusableLambda name))
      else
        let taskNames := map defName l in
        if negb (isDistinct taskNames)
        then Throw (FatalError (duplicateNames name taskNames))
        else Ok tt
  end.

(** [!taskDefs || taskDefs.length <= 0]. *)
Definition noneOrEmpty (taskDefs : TaskDefsArg) : bool :=
  match taskDefs with
  | NoTaskDefs => true
  | NotAnArray => false
  | TaskDefs l => bool_decide (length l = 0%nat)
  end.

(** [taskDefs ? taskDefs : []]. *)
Definition orEmpty (taskDefs : TaskDefsArg) : list TaskDefLike :=
  match taskDefs with
  | TaskDefs l => l
  | NoTaskDefs | NotAnArray => []
  end.

Definition validateTaskDefinitions (processOneTaskDefs processAllTaskDefs : TaskDefsArg)
  : Try unit :=
  _ ← validateTaskDefs processOneTaskDefs "processOneTaskDefs";
  _ ← validateTaskDefs processAllTaskDefs "processAllTaskDefs";
  if noneOrEmpty processOneTaskDefs && noneOrEmpty processAllTaskDefs
  then Throw (FatalError noTaskDefinition)
  else
    let allTaskDefs := orEmpty processOneTaskDefs ++ orEmpty processAllTaskDefs in
    if negb (isDistinct (map defId allTaskDefs))
    then Throw (FatalError sharedTaskDefinition)
    else Ok tt.

(** *** Outcomes of phases *)

(** A phase resolves with a (possibly nested) array of [Success] and
[Failure] outcomes, or with some other value. *)
Inductive Outcomes : Type :=
| Success (v : string)
| Failure (e : Err)
| PlainValue (v : string)
| OutcomeArray (l : list Outcomes).

Definition isArray (o : Outcomes) : bool :=
  match o with OutcomeArray _ => true | _ => false end.

(** Modelled from the spec: core-functions/tries [Try.findFailure] returns
the error of the first failure among the collected outcomes, searching nested
arrays from left to right. *)
Fixpoint findFailure (o : Outcomes) : option Err :=
  match o with
  | Failure e => Some e
  | Success _ | PlainValue _ => None
  | OutcomeArray l =>
      (fix first (l : list Outcomes) : option Err :=
         match l with
         | [] => None
         | x :: l' =>
             match findFailure x with
             | Some e => Some e
             | None => first l'
             end
         end) l
  end.

(** Modelled from the spec: core-functions/arrays [flatten] turns an array of
arrays of outcomes into a single array of outcomes. *)
Fixpoint flattenOutcome (o : Outcomes) : list Outcomes :=
  match o with
  | OutcomeArray l => flat_map flattenOutcome l
  | _ => [o]
  end.

Definition flatten (l : list Outcomes) : list Outcomes :=
  flat_map flattenOutcome l.

(** [o && o.isFailure && o.isFailure() && isInstanceOf(o.error,
FinalisedError)]. *)
Definition isFinalisedFailure (o : Outcomes) : bool :=
  match o with
  | Failure e => isFinalisedError e
  | _ => false
  end.

(** The first [FinalisedError] failure amongst the processing outcomes. *)
Definition findFinalisedFailure (processOutcomes : Outcomes) : option Err :=
  let candidates :=
    match processOutcomes with
    | OutcomeArray l => flatten l
    | _ => [processOutcomes]
    end in
  match List.find isFinalisedFailure candidates with
  | Some (Failure e) => Some e
  | _ => None
  end.

Definition stillIncomplete (progress : string) : Err :=
  Error ("Triggering a replay of the entire batch with " ++ progress
         ++ ", since it is still incomplete!")%string.

Definition unexpectedOutcome : Err :=
  Error "Unexpected finalising outcome".

(** *** finaliseBatch: wrapping up after the race

[finaliseBatch] from the point where [completedVsTimeoutPromise] settles.
[completedVsTimeout] is the settled race between the completed promise
(which resolves with the array of finalising outcomes, or rejects) and the
timeout promise (which rejects with the timeout error when the timer fires
first, and resolves with [false] otherwise); [batch] is the batch at that
moment, [progress] the text of [batch.assessProgress()], [taskError] the
finalise task's [error], and [postFinalise] the settled execution of the
post-finalise sub-task, whose outcome is discarded. *)
Definition finaliseBatch (batch : Batch) (processOutcomes : Outcomes)
    (taskError : option Err) (progress : string)
    (postFinalise : Settled unit)
    (completedVsTimeout : Settled Outcomes) : Settled Batch :=
  let wrapUp :=
    then_ completedVsTimeout
      (fun outcomes =>
         match findFailure outcomes with
         | Some finaliseError => Rejected finaliseError
         | None =>
             if negb (isFullyFinalised batch) then
               match findFinalisedFailure processOutcomes with
               | Some finalisedError =>
                   Rejected (FatalError ("FATAL - " ++ errMessage finalisedError)%string)
               | None =>
                   match findFailure processOutcomes with
                   | Some processError => Rejected processError
                   | None => Rejected (stillIncomplete progress)
                   end
               end
             else if isArray outcomes then Resolved batch
             else Rejected (match taskError with
                            | Some error => error
                            | None => unexpectedOutcome
                            end)
         end)
      (fun err => Rejected err) in
  let postFinalised :=
    then_ wrapUp
      (fun batch => then_ postFinalise (fun _ => Resolved batch) (fun _ => Resolved batch))
      (fun err => then_ postFinalise (fun _ => Rejected err) (fun _ => Rejected err)) in
  let logged :=
    then_ postFinalised (fun batch => Resolved batch) (fun err => Rejected err) in
  catch_ logged (fun err => Rejected err).

(** *** Process-one chains *)

(** What one invocation cannot decide by itself, for the message whose
tasks are executed: [executed message task] is the task object when the
continuation of [Promises.every] runs (tasks are mutated in place by their
execution, by timeouts and by freezing); [outcomeOf message task] is the
outcome its done promise resolved with; [everySettled message] tells whether
[Promises.every(promises, cancellable, context)] resolved or rejected (for
example with a cancellation error); [cancelRequested message] tells whether
the cancel hook that this invocation installed ran before the continuation,
which sets its [cancelled] flag. *)
Record Execution := {
  executed : Item -> Task -> Task;
  outcomeOf : Item -> Task -> Outcomes;
  everySettled : Item -> Settled unit;
  cancelRequested : Item -> bool
}.

(** An invocation of [executeProcessOneTasks] on a message, with the states
at that moment. *)
Definition Invocation : Type := Item * gmap Item TrackedState.

(** [incompleteTasks.map(task => task.execute(message, batch, context))] as
seen in the tasks-by-name object once the executions have settled. *)
Definition executeTasks (env : Execution) (message : Item)
    (tasksByName : TasksByName) : TasksByName :=
  map (fun nt => (fst nt, if Tasks.isFullyFinalised (snd nt) then snd nt
                          else executed env message (snd nt))) tasksByName.

Definition incompleteTasksOf (messageState : TrackedState) : list Task :=
  filter (fun task => Tasks.isFullyFinalised task = false) (getTasks (ones messageState)).

(** [executeProcessOneTasks]: the states afterwards, the invocations made
(this one first), and what the call gave: [None] when [fuel], which bounds
the length of the chain that is followed, is exhausted; [Throw] when reading
[messageState.ones] of a message without state throws before any promise
exists; otherwise the returned promise, settled. A next message without
state makes every branch of the continuation throw in
[getMessageStateKeySeqNoId(nextMessageState)], before the recursive call. *)
Fixpoint executeProcessOneTasks (fuel : nat) (env : Execution)
    (states : gmap Item TrackedState) (message : Item)
  : gmap Item TrackedState * list Invocation
    * option (Try (Settled (list Outcomes))) :=
  match fuel with
  | O => (states, [], None)
  | S fuel' =>
      match states !! message with
      | None => (states, [(message, states)], Some (Throw Persisting.typeError))
      | Some messageState =>
          let incompleteTasks := incompleteTasksOf messageState in
          let states1 :=
            <[message := set_ones (executeTasks env message <$> ones messageState)
                           messageState]> states in
          match everySettled env message with
          | Rejected err => (states1, [(message, states)], Some (Ok (Rejected err)))
          | Resolved _ =>
              let outcomes := map (outcomeOf env message) incompleteTasks in
              match nextMessage messageState with
              | None => (states1, [(message, states)], Some (Ok (Resolved outcomes)))
              | Some next =>
                  match states1 !! next with
                  | None =>
                      (states1, [(message, states)],
                       Some (Ok (Rejected Persisting.typeError)))
                  | Some nextMessageState =>
                      if negb (cancelRequested env message) then
                        let allTasksFullyFinalised :=
                          forallb (fun task =>
                                     Tasks.isFullyFinalised (executed env message task))
                                  incompleteTasks in
                        if allTasksFullyFinalised then
                          let '(states2, invocations, returned) :=
                            executeProcessOneTasks fuel' env states1 next in
                          (states2, (message, states) :: invocations,
                           (fun result =>
                              Ok (then_ (join_ (ofTry result))
                                    (fun nextOutcomes =>
                                       Resolved (outcomes ++ nextOutcomes))
                                    Rejected)) <$> returned)
                        else (states1, [(message, states)],
                              Some (Ok (Resolved outcomes)))
                      else (states1, [(message, states)],
                            Some (Ok (Resolved outcomes)))
                  end
              end
          end
      end
  end.

Definition invocationsOf {A B} (r : A * list Invocation * B) : list Invocation :=
  snd (fst r).

(** The named process-one task of a message in [states]. *)
Definition processOneTask (states : gmap Item TrackedState) (message : Item)
    (name : string) (task : Task) : Prop :=
  exists st, states !! message = Some st /\ (name, task) ∈ default [] (ones st).

(** A process-one task of the message that was not fully finalised before
its execution and is not fully finalised after it. *)
Definition stillIncompleteAfter (env : Execution) (states : gmap Item TrackedState)
    (message : Item) : Prop :=
  exists name task, processOneTask states message name task /\
    Tasks.isFullyFinalised task = false /\
    Tasks.isFullyFinalised (executed env message task) = false.

(** *** processStreamEvent *)

(** What [processStreamEvent] does to the batch, in order. *)
Inductive Effect : Type :=
| BatchConstructed (records : list Item)
| PhasesStarted.

Section ProcessStreamEvent.

(** The [Batch] constructor (which throws when the discard functions are
not configured) and the three phase executors are taken as given. *)
Variable newBatch : list Item -> list TaskDefLike -> list TaskDefLike -> Try Batch.
Variable executeInitiateBatchTask : Batch -> Settled Batch.
Variable executeProcessBatchTask : Batch -> Settled (Batch * Outcomes).
Variable executeFinaliseBatchTask : Batch -> Outcomes -> Settled Batch.
Variable handleFatalError : Err -> Batch -> Settled Batch.

(** [eventRecords] is [event.Records] when it is an array. *)
Definition processStreamEvent (eventRecords : option (list Item))
    (processOneTaskDefsOrNone processAllTaskDefsOrNone : TaskDefsArg)
  : list Effect * Settled Batch :=
  match validateTaskDefinitions processOneTaskDefsOrNone processAllTaskDefsOrNone with
  | Throw err => ([], Rejected err)
  | Ok _ =>
      let processOneTaskDefs := orEmpty processOneTaskDefsOrNone in
      let processAllTaskDefs := orEmpty processAllTaskDefsOrNone in
      match eventRecords with
      | None | Some [] =>
          ([BatchConstructed []],
           ofTry (newBatch [] processOneTaskDefs processAllTaskDefs))
      | Some records =>
          match newBatch records processOneTaskDefs processAllTaskDefs with
          | Throw err => ([BatchConstructed records], Rejected err)
          | Ok batch =>
              ([BatchConstructed records; PhasesStarted],
               catch_
                 (then_ (executeInitiateBatchTask batch)
                    (fun batch1 =>
                       then_ (executeProcessBatchTask batch1)
                         (fun '(batch2, processOutcomes) =>
                            executeFinaliseBatchTask batch2 processOutcomes)
                         Rejected)
                    Rejected)
                 (fun err =>
                    if isFatalError err then handleFatalError err batch
                    else Rejected err))
          end
      end
  end.

End ProcessStreamEvent.

(** The conditions of an unusable or useless Lambda, in the words of the
validation's comments. *)
Definition undefinedOrEmpty (taskDefs : TaskDefsArg) : Prop :=
  taskDefs = NoTaskDefs \/ taskDefs = TaskDefs [].

Definition isExecutableTaskDef (t : TaskDefLike) : Prop :=
  isTaskDefInstance t = true /\ executable t = true /\ executeIsFunction t = true.

Definition containsNonExecutable (taskDefs : TaskDefsArg) : Prop :=
  exists l t, taskDefs = TaskDefs l /\ t ∈ l /\ ~ isExecutableTaskDef t.

Definition containsDuplicateNames (taskDefs : TaskDefsArg) : Prop :=
  exists l, taskDefs = TaskDefs l /\ ~ NoDup (map defName l).

End StreamConsumer.

(** Concrete inputs used by the examples and counterexamples below. *)
Module Fixtures.
Import StreamConsumer.

(** A host that always has [r] ms left, and the configured percentage [p]. *)
Definition constantHost (r : Z) (safe : isSafeInteger r = true) (p : Q)
  : Context :=
  {| awsContext := {| remaining := fun _ => r;
                      remainingIsSafe := fun _ => safe |};
     streamProcessing := {| timeoutAtPercentageOfRemainingTime := p;
                            sequencingRequired := true;
                            sequencingPerKey := true;
                            maxNumberOfAttempts := 10 |} |}.

Import Tasks Tracking BatchM.

Definition msgA : Item := ItObj 1 "{a}".
Definition msgB : Item := ItObj 2 "{b}".
Definition msgR : Item := ItObj 3 "{r}".

Definition doneTask (n : string) : Task := mkTask n Completed 1 true [].
Definition failedTask (n : string) : Task := mkTask n Failed 1 false [].

Definition doneState : TrackedState :=
  set_ones (Some [("save", doneTask "save")]) emptyState.

Definition undiscardedState : TrackedState :=
  set_discards (Some [("discardRejectedMessage",
                       failedTask "discardRejectedMessage")]) emptyState.

(** One message, all of whose tasks are fully finalised. *)
Definition finishedBatch : Batch :=
  {| streamConsumerId := Some "K|stream|consumer";
     shardOrEventID := Some "S|shardId-000";
     records := [msgA]; messages := [msgA];
     rejectedMessages := []; unusableRecords := [];
     firstMessagesToProcess := TheMessagesArray;
     states := <[msgA := doneState]> (<[ItBatch := emptyState]> ∅);
     previouslySaved := Some false |}.

Definition retryState : TrackedState :=
  set_ones (Some [("save", failedTask "save")]) emptyState.

(** One message whose process-one task failed and may be retried. *)
Definition unfinishedBatch : Batch :=
  set_states (<[msgA := retryState]> (<[ItBatch := emptyState]> ∅)) finishedBatch.

Import Sequencing.

Definition compareNumbers (a b : option Value) : Z :=
  match a, b with
  | Some (VNum x), Some (VNum y) => x - y
  | _, _ => 0
  end.

Definition toSortableNumbers (values : list (option Value)) : Sortable :=
  {| sortType := SortInteger;
     compare := Some compareNumbers;
     sortableValues := values |}.

Definition part (name : string) (n : Z) : SeqNoPart :=
  {| partKey := name; partVal := Some (VNum n); oldValue := None;
     sortable := Some (toSortableNumbers []) |}.

Definition rawPart (name : string) (n : Z) : SeqNoPart :=
  {| partKey := name; partVal := Some (VNum n); oldValue := None;
     sortable := None |}.

(** The state of a message with the single key [k] and the given sequence
number parts. *)
Definition keyedState (k : string) (parts : list SeqNoPart) : TrackedState :=
  {| message := None; unusableRecord := None; userRecord := None; record := None;
     eventID := None; eventSeqNo := None; eventSubSeqNo := None;
     id := None; key := Some ("k:" ++ k)%string; seqNo := None;
     keys := Some [("k", VStr k)]; seqNos := parts;
     idVals := None; keyVals := Some [Some k]; seqNoVals := None; md5s := None;
     ones := None; alls := None; discards := None;
     prevMessage := None; nextMessage := None |}.

Definition msgC : Item := ItObj 4 "{c}".

(** Two messages of the same key: one with the part a, one with the parts
b and c. *)
Definition unevenStates : gmap Item TrackedState :=
  <[msgA := keyedState "K1" [part "a" 1]]>
    (<[msgB := keyedState "K1" [part "b" 1; part "c" 2]]> ∅).

(** Three messages of key K1 that arrive with the sequence numbers 3, 1, 2,
and one message of key K2. *)
Definition shuffledBatch : Batch :=
  {| streamConsumerId := Some "K|stream|consumer";
     shardOrEventID := Some "S|shardId-000";
     records := [msgA; msgB; msgC; msgR];
     messages := [msgA; msgB; msgC; msgR];
     rejectedMessages := []; unusableRecords := [];
     firstMessagesToProcess := NoArray;
     states := <[msgA := keyedState "K1" [rawPart "n" 3]]>
                 (<[msgB := keyedState "K1" [rawPart "n" 1]]>
                    (<[msgC := keyedState "K1" [rawPart "n" 2]]>
                       (<[msgR := keyedState "K2" [rawPart "n" 7]]>
                          (<[ItBatch := emptyState]> ∅))));
     previouslySaved := None |}.

Definition configured (required perKey : bool) : Context :=
  {| awsContext := {| remaining := fun _ => 30000;
                      remainingIsSafe := fun _ => eq_refl |};
     streamProcessing := {| timeoutAtPercentageOfRemainingTime := 9 # 10;
                            sequencingRequired := required;
                            sequencingPerKey := perKey;
                            maxNumberOfAttempts := 10 |} |}.

Import Persisting.

Definition conditionFailed : Settled DbResult :=
  Rejected (AwsError "ConditionalCheckFailedException" false).

Definition saved : Settled DbResult := Resolved {| resultItem := None |}.

(** The item is created or deleted by someone else between the requests. *)
Definition contendedDb : Db := [conditionFailed; conditionFailed; saved].

Definition keylessBatch : Batch :=
  {| streamConsumerId := None; shardOrEventID := None;
     records := [msgA]; messages := [msgA];
     rejectedMessages := []; unusableRecords := [];
     firstMessagesToProcess := TheMessagesArray;
     states := <[msgA := doneState]> (<[ItBatch := emptyState]> ∅);
     previouslySaved := None |}.

Definition withEventID (e : string) (st : TrackedState) : TrackedState :=
  {| message := message st; unusableRecord := unusableRecord st;
     userRecord := userRecord st; record := record st;
     eventID := Some e; eventSeqNo := eventSeqNo st;
     eventSubSeqNo := eventSubSeqNo st;
     id := id st; key := key st; seqNo := seqNo st;
     keys := keys st; seqNos := seqNos st; idVals := idVals st;
     keyVals := keyVals st; seqNoVals := seqNoVals st; md5s := md5s st;
     ones := ones st; alls := alls st; discards := discards st;
     prevMessage := prevMessage st; nextMessage := nextMessage st |}.

Definition rejectedTask (n : string) : Task := mkTask n RejectedState 1 true [].

(** A fresh message with event id E1, and two prior states with the same
event id: one stored among the message states, one among the rejected
message states. *)
Definition freshState : TrackedState := withEventID "E1" emptyState.

Definition priorMessageState : TrackedState :=
  withEventID "E1" (set_ones (Some [("save", failedTask "save")]) emptyState).

Definition priorRejectedState : TrackedState :=
  withEventID "E1" (set_ones (Some [("save", rejectedTask "save")]) emptyState).

Definition freshBatch : Batch :=
  set_states (<[msgA := freshState]> (<[ItBatch := emptyState]> ∅)) finishedBatch.

Definition ambiguousItem : BatchStateItem :=
  {| itemStreamConsumerId := Some "K|stream|consumer";
     itemShardOrEventID := Some "S|shardId-000";
     messageStates := Some [priorMessageState];
     rejectedMessageStates := Some [priorRejectedState];
     unusableRecordStates := Some [];
     batchState := None |}.

Definition cacheOf (prior : TrackedState) : Caches :=
  (<[toMessageBFK prior := prior]> ∅, ∅).

Import StreamConsumer.

Definition saveFailed : Err := Error "save failed".
Definition frozenTask : Err := FinalisedError "cannot change a finalised task".
Definition ranOutOfTime : Err := TimeoutError "Ran out of time to complete finaliseBatch".

Definition stubNewBatch (records : list Item) (ones alls : list TaskDefLike)
  : Try Batch := Ok finishedBatch.
Definition stubInitiate (b : Batch) : Settled Batch := Resolved b.
Definition stubProcess (b : Batch) : Settled (Batch * Outcomes) :=
  Resolved (b, OutcomeArray []).
Definition stubFinalise (b : Batch) (o : Outcomes) : Settled Batch := Resolved b.
Definition stubHandleFatalError (e : Err) (b : Batch) : Settled Batch := Rejected e.

Definition goodTaskDef (n : nat) (name : string) : TaskDefLike :=
  {| defId := n; isTaskDefInstance := true; executable := true;
     executeIsFunction := true; defName := name |}.

(** A chain of three messages of one key: msgB, then msgC, then msgA, each
with one process-one task that has not started. *)
Definition pendingTask (n : string) : Task := mkTask n Unstarted 0 false [].

Definition chainState (prev next : option Item) : TrackedState :=
  setNextMessage
    (setPrevMessage (set_ones (Some [("save", pendingTask "save")]) emptyState) prev)
    next.

Definition chainStates : gmap Item TrackedState :=
  <[msgB := chainState None (Some msgC)]>
    (<[msgC := chainState (Some msgB) (Some msgA)]>
       (<[msgA := chainState (Some msgC) None]> ∅)).

(** The states when the task of msgB has completed. *)
Definition chainStatesAfterFirst : gmap Item TrackedState :=
  <[msgB := set_ones (Some [("save", doneTask "save")])
              (chainState None (Some msgC))]> chainStates.

(** Every task completes, except on the message [m], where it fails. *)
Definition failsOn (m : option Item) : Execution :=
  {| executed := fun m' task =>
       if decide (Some m' = m) then failedTask (name task) else doneTask (name task);
     outcomeOf := fun m' task =>
       if decide (Some m' = m) then Failure saveFailed else Success (name task);
     everySettled := fun _ => Resolved tt;
     cancelRequested := fun _ => false |}.

(** Every task completes, and the run is cancelled while [m] is executed. *)
Definition cancelledOn (m : Item) : Execution :=
  {| executed := fun _ task => doneTask (name task);
     outcomeOf := fun _ task => Success (name task);
     everySettled := fun _ => Resolved tt;
     cancelRequested := fun m' => bool_decide (m' = m) |}.

End Fixtures.

(** Views and predicates used to state properties of persisting.js. *)
Module PersistingViews.
Import Tasks Tracking BatchM Persisting.

(** A reply of the document client that is a conditional-check failure. *)
Definition conditionalCheckFailure (reply : Settled DbResult) : Prop :=
  exists err, reply = Rejected err /\ isConditionalCheckFailed err = true.

(** Everything of a tracked state but its three task maps. *)
Definition identityView (st : TrackedState) :=
  (message st, unusableRecord st, userRecord st, record st,
   (eventID st, eventSeqNo st, eventSubSeqNo st),
   (id st, key st, seqNo st),
   (keys st, seqNos st, idVals st, keyVals st, seqNoVals st),
   md5s st, (prevMessage st, nextMessage st)).

(** The three task maps of a tracked state. *)
Definition taskView (st : TrackedState) :=
  (ones st, alls st, discards st).

(** The state of a message after a step of a restoration that matched the
prior state [prev], or none. *)
Definition restoredState (curr : TrackedState) (prev : option TrackedState)
  : TrackedState :=
  match prev with
  | Some prevState => setMessageStateToPrev curr prevState
  | None => curr
  end.

(** [b'] has the key, the records and the unusable records of [b]. *)
Definition sameFrame (b b' : Batch) : Prop :=
  streamConsumerId b' = streamConsumerId b /\
  shardOrEventID b' = shardOrEventID b /\
  records b' = records b /\
  unusableRecords b' = unusableRecords b.

(** How a load classifies the error [err] of the document client or of the
restoration: [e] is what it rejects with. *)
Definition classified (tableName : string) (err e : Err) : Prop :=
  (isResourceNotFoundException err = true -> exists msg, e = FatalError msg) /\
  (isResourceNotFoundException err = false -> isRetryable err = true ->
   exists msg, e = TransientError msg) /\
  (isResourceNotFoundException err = false -> isRetryable err = false -> e = err).

(** [b'] holds the messages of [b], possibly moved between the two lists, and
states for the same items with the same identity. *)
Definition sameItems (b b' : Batch) : Prop :=
  sameFrame b b' /\
  (forall m, m ∈ messages b' ++ rejectedMessages b'
             <-> m ∈ messages b ++ rejectedMessages b) /\
  (forall x, identityView <$> states b' !! x = identityView <$> states b !! x).

End PersistingViews.

(** Inputs of the properties of persisting.js. *)
Module PersistingFixtures.
Import Tasks Tracking BatchM Persisting Fixtures.

(** The batch of an earlier invocation, saved with the failed task of its
message E1; and the same record delivered again, as a new message object. *)
Definition savedBatch : Batch :=
  set_states (<[msgA := priorMessageState]> (<[ItBatch := emptyState]> ∅))
             finishedBatch.

Definition msgAgain : Item := ItObj 5 "{a}".

Definition redeliveredBatch : Batch :=
  {| streamConsumerId := Some "K|stream|consumer";
     shardOrEventID := Some "S|shardId-000";
     records := [msgAgain]; messages := [msgAgain];
     rejectedMessages := []; unusableRecords := [];
     firstMessagesToProcess := TheMessagesArray;
     states := <[msgAgain := freshState]> (<[ItBatch := emptyState]> ∅);
     previouslySaved := None |}.

End PersistingFixtures.

(** Views and predicates used to state properties of sequencing.js. *)
Module SequencingViews.
Import Tasks Tracking BatchM Sequencing.

(** A compare function whose sign flips when its arguments are swapped. *)
Definition antisymmetricSign (cmp : option Value -> option Value -> Z) : Prop :=
  forall a b, Z.sgn (cmp b a) = - Z.sgn (cmp a b).

(** At every ordinal, two sortables of the same sort type have the same
compare function (core-functions/sorting chooses it by the sort type), and
that function is antisymmetric. *)
Definition consistentSortables (l1 l2 : list SeqNoPart) : Prop :=
  forall i p1 p2 s1 s2,
    l1 !! i = Some p1 -> l2 !! i = Some p2 ->
    sortable p1 = Some s1 -> sortable p2 = Some s2 ->
    sortType s1 = sortType s2 ->
    compare s1 = compare s2 /\
    forall cmp, compare s1 = Some cmp -> antisymmetricSign cmp.

(** Everything of a tracked state that sequencing has no business with: all
but the sequence numbers and the two chain links. *)
Definition unsequencedView (st : TrackedState) :=
  (message st, unusableRecord st, userRecord st, record st,
   (eventID st, eventSeqNo st, eventSubSeqNo st),
   (id st, key st, seqNo st),
   (keys st, idVals st, keyVals st, seqNoVals st),
   md5s st, (ones st, alls st, discards st)).

End SequencingViews.

(** Strings that may be undefined, in conditions and in template
literals. *)
Module JsStrings.

(** A string in a condition: undefined and the empty string are falsy. *)
Definition truthy (s : option string) : bool :=
  match s with
  | Some t => negb (String.eqb t "")
  | None => false
  end.

(** A value inside a template literal. *)
Definition shown (s : option string) : string := default "undefined" s.

End JsStrings.

(** Views used to state what [executeProcessOneTasks] leaves behind. *)
Module ProcessingViews.
Import Tasks Tracking BatchM StreamConsumer.

(** The outcomes that the execution of a message contributes: one for each
of its process-one tasks that was not fully finalised beforehand, in the
order of the tasks. *)
Definition outcomesOn (env : Execution) (states : gmap Item TrackedState)
    (message : Item) : list Outcomes :=
  match states !! message with
  | Some messageState =>
      map (outcomeOf env message) (incompleteTasksOf messageState)
  | None => []
  end.

(** The state of a message once its incomplete process-one tasks have been
executed. *)
Definition executedState (env : Execution) (message : Item)
    (messageState : TrackedState) : TrackedState :=
  set_ones (executeTasks env message <$> ones messageState) messageState.

(** Every message of the chain but the last is not cancelled while it is
executed, and has all of its incomplete tasks fully finalised by their
execution. *)
Definition finalisesUpToLast (env : Execution) (states : gmap Item TrackedState)
    (chain : list Item) : Prop :=
  forall i message, chain !! i = Some message -> is_Some (chain !! S i) ->
    cancelRequested env message = false /\
    forall messageState, states !! message = Some messageState ->
      Forall (fun task => Tasks.isFullyFinalised (executed env message task) = true)
             (incompleteTasksOf messageState).

End ProcessingViews.

(** ** esm-cache.js *)
Module EsmCache.
Import Js.

Record EventSourceMapping := {
  UUID : string;
  EventSourceArn : string
}.

#[global] Instance EventSourceMapping_eq_dec : EqDecision EventSourceMapping.
Proof. solve_decision. Defined.

(** The requests made to AWS Lambda through aws-core-utils/lambda-utils. *)
Inductive LambdaRequest : Type :=
| ListEventSourceMappings (functionName : string)
| DisableEventSourceMapping (functionName : string) (uuid : string).

(** AWS Lambda behind aws-core-utils/lambda-utils, which is not part of
src/: the replies to a request that is made after [n] earlier requests.
[EventSourceMappings] of a list result may be missing. *)
Record Lambda := {
  listEventSourceMappings :
    nat -> string -> Settled (option (list EventSourceMapping));
  disableEventSourceMapping_ : nat -> string -> string -> Settled unit
}.

(** The two module-level caches and the requests made so far. Every cached
key object has a promise, since both are set by the same call; a promise is
held as what it settles with. *)
Record Esm := {
  promisesByFunctionAndStream : gmap string (Settled (option EventSourceMapping));
  requests : list LambdaRequest
}.

Definition findOfUndefined : Err :=
  Error "TypeError: Cannot read property 'find' of undefined".

(** [arn.indexOf(streamName) !== -1]. *)
Definition contains (streamName arn : string) : bool :=
  match String.index 0 streamName arn with
  | Some _ => true
  | None => false
  end.

Definition getEventSourceMapping (lambda : Lambda) (functionName streamName : string)
    (esm : Esm) : Settled (option EventSourceMapping) * Esm :=
  let reply := listEventSourceMappings lambda (length (requests esm)) functionName in
  (then_ reply
     (fun mappings =>
        match mappings with
        | Some mappings =>
            Resolved (List.find (fun m => contains streamName (EventSourceArn m))
                                mappings)
        | None => Rejected findOfUndefined
        end)
     Rejected,
   {| promisesByFunctionAndStream := promisesByFunctionAndStream esm;
      requests := requests esm ++ [ListEventSourceMappings functionName] |}).

Definition cacheKey (functionName streamName : string) : string :=
  (functionName ++ "|" ++ streamName)%string.

Definition setPromise (key : string) (p : Settled (option EventSourceMapping))
    (esm : Esm) : Esm :=
  {| promisesByFunctionAndStream := <[key := p]> (promisesByFunctionAndStream esm);
     requests := requests esm |}.

(** A cached promise that resolved is used as it is; one that rejected is
followed by a new request, as is a missing one. *)
Definition getEventSourceMappingViaCache (lambda : Lambda)
    (functionName streamName : string) (esm : Esm)
  : Settled (option EventSourceMapping) * Esm :=
  let functionAndStream := cacheKey functionName streamName in
  match promisesByFunctionAndStream esm !! functionAndStream with
  | Some (Resolved mapping) =>
      (Resolved mapping, setPromise functionAndStream (Resolved mapping) esm)
  | Some (Rejected _) | None =>
      let '(esmPromise, esm1) := getEventSourceMapping lambda functionName streamName esm in
      (esmPromise, setPromise functionAndStream esmPromise esm1)
  end.

Definition disableEventSourceMapping (lambda : Lambda)
    (functionName streamName : string) (avoidCache : bool) (esm : Esm)
  : Settled bool * Esm :=
  let '(found, esm1) :=
    (if avoidCache then getEventSourceMapping else getEventSourceMappingViaCache)
      lambda functionName streamName esm in
  match found with
  | Resolved (Some mapping) =>
      let reply :=
        disableEventSourceMapping_ lambda (length (requests esm1)) functionName
          (UUID mapping) in
      (then_ reply (fun _ => Resolved true) (fun _ => Resolved false),
       {| promisesByFunctionAndStream := promisesByFunctionAndStream esm1;
          requests := requests esm1
                      ++ [DisableEventSourceMapping functionName (UUID mapping)] |})
  | Resolved None => (Resolved false, esm1)
  | Rejected _ => (Resolved false, esm1)
  end.

(** [clearCache]: the number of promises removed, and both caches empty. *)
Definition clearCache (esm : Esm) : nat * Esm :=
  (size (promisesByFunctionAndStream esm),
   {| promisesByFunctionAndStream := ∅; requests := requests esm |}).

End EsmCache.

(** ** stream-processing.js: fatal errors *)
Module StreamProcessingM.
Import Js JsStrings EsmCache BatchM StreamConsumer.

(** What [disableSourceStreamEventSourceMapping] reads of the context and
the batch: the invoked function name with its alias or version
([tracking.getInvokedFunctionNameWithAliasOrVersion]), the stream name of
the batch key's components, the source stream names of the batch's records
([tracking.getSourceStreamNames]) and [streamProcessing.avoidEsmCache]. *)
Record Source := {
  functionName : option string;
  keyStreamName : option string;
  recordStreamNames : list string;
  avoidEsmCache : bool
}.

Definition cannotDisable (functionName sourceStreamName : option string) : Err :=
  FatalError
    ("FATAL - Cannot disable source stream event source mapping WITHOUT both function ("
       ++ shown functionName ++ ") & stream (" ++ shown sourceStreamName ++ ")").

Definition disableSourceStreamEventSourceMapping (lambda : Lambda) (source : Source)
    (esm : Esm) : Settled bool * Esm :=
  let sourceStreamName :=
    if truthy (keyStreamName source) then keyStreamName source
    else List.find (fun n => isNotBlank (Some n)) (recordStreamNames source) in
  if isBlank (functionName source) || isBlank sourceStreamName then
    (Rejected (cannotDisable (functionName source) sourceStreamName), esm)
  else
    disableEventSourceMapping lambda (default "" (functionName source))
      (default "" sourceStreamName) (avoidEsmCache source) esm.

(** [handleFatalError]: both handlers re-throw the original error. *)
Definition handleFatalError {A} (lambda : Lambda) (source : Source)
    (fatalError : Err) (esm : Esm) : Settled A * Esm :=
  let '(disabled, esm1) := disableSourceStreamEventSourceMapping lambda source esm in
  (then_ disabled (fun _ => Rejected fatalError) (fun _ => Rejected fatalError), esm1).

End StreamProcessingM.

Module EsmFixtures.
Import Js EsmCache StreamProcessingM Fixtures.

Definition mappingOfOrders : EventSourceMapping :=
  {| UUID := "uuid-1";
     EventSourceArn := "arn:aws:kinesis:eu-west-1:111111111111:stream/orders" |}.

(** AWS Lambda that knows one mapping, and refuses to disable it. *)
Definition stubbornLambda : Lambda :=
  {| listEventSourceMappings := fun _ _ => Resolved (Some [mappingOfOrders]);
     disableEventSourceMapping_ :=
       fun _ _ _ => Rejected (AwsError "TooManyRequestsException" true) |}.

(** AWS Lambda whose first request fails, and which then knows one mapping
and disables it. *)
Definition recoveringLambda : Lambda :=
  {| listEventSourceMappings := fun n _ =>
       match n with
       | O => Rejected (AwsError "ServiceException" true)
       | S _ => Resolved (Some [mappingOfOrders])
       end;
     disableEventSourceMapping_ := fun _ _ _ => Resolved tt |}.

Definition noEsm : Esm := {| promisesByFunctionAndStream := ∅; requests := [] |}.



End EsmFixtures.

(** ** batch.js: the batch key *)
Module BatchKeys.
Import Js JsStrings.

(** A stream event record, as far as the resolution of the batch key reads
it: its event id and event source ARN, and what aws-core-utils/stream-events
extracts from it: the Kinesis stream name and shard id, and the DynamoDB
table name and stream timestamp. *)
Record StreamRecord := {
  recordEventID : option string;
  recordEventSourceARN : option string;
  kinesisEventSourceStreamName : string;
  kinesisShardId : option string;
  dynamoDBEventSourceTableName : option string;
  dynamoDBEventSourceStreamTimestamp : option string
}.

(** [context.streamProcessing], as far as the batch key depends on it. *)
Record KeySettings := {
  dynamoDBStreamType : bool;
  consumerId : option string;
  batchKeyedOnEventID : bool
}.

Record KeyComponents := {
  componentStreamName : string;
  componentConsumerId : option string;
  componentShardId : option string;
  componentEventID : option string
}.

Record BatchKey := {
  keyStreamConsumerId : string;
  keyShardOrEventID : string;
  components : KeyComponents
}.

Definition ifTruthy (s : option string) : option string :=
  if truthy s then s else None.

(** [tracking.getSourceStreamName]. *)
Definition getSourceStreamName (settings : KeySettings) (record : StreamRecord)
  : string :=
  if dynamoDBStreamType settings then
    if truthy (dynamoDBEventSourceTableName record)
       && truthy (dynamoDBEventSourceStreamTimestamp record)
    then (shown (dynamoDBEventSourceTableName record) ++ "/"
          ++ shown (dynamoDBEventSourceStreamTimestamp record))%string
    else ""
  else kinesisEventSourceStreamName record.

(** [r && typeof r === 'object' && isNotBlank(r.eventID) &&
isNotBlank(r.eventSourceARN)]; an entry that is not an object is [None]. *)
Definition isUsable (r : option StreamRecord) : bool :=
  match r with
  | Some r => isNotBlank (recordEventID r) && isNotBlank (recordEventSourceARN r)
  | None => false
  end.

Definition resolveBatchKey (records : list (option StreamRecord))
    (settings : KeySettings) : option BatchKey :=
  match mjoin (List.find isUsable records) with
  | None => None
  | Some record1 =>
      let streamName := getSourceStreamName settings record1 in
      let streamConsumerId :=
        if dynamoDBStreamType settings
        then ("D|" ++ streamName ++ "|" ++ shown (consumerId settings))%string
        else ("K|" ++ streamName ++ "|" ++ shown (consumerId settings))%string in
      let keyedOnEventID :=
        dynamoDBStreamType settings || batchKeyedOnEventID settings in
      let shardId :=
        if negb (dynamoDBStreamType settings) then kinesisShardId record1 else None in
      let eventID1 := recordEventID record1 in
      let shardOrEventID :=
        if keyedOnEventID then ("E|" ++ shown eventID1)%string
        else ("S|" ++ shown shardId)%string in
      Some {| keyStreamConsumerId := streamConsumerId;
              keyShardOrEventID := shardOrEventID;
              components :=
                {| componentStreamName := streamName;
                   componentConsumerId := consumerId settings;
                   componentShardId := ifTruthy shardId;
                   componentEventID := ifTruthy eventID1 |} |}
  end.

(** [isKeyValid], on the key that the constructor has stored and copied to
[streamConsumerId] and [shardOrEventID]. *)
Definition isKeyValid (key : option BatchKey) : bool :=
  match key with
  | Some k => isNotBlank (Some (keyStreamConsumerId k))
              && isNotBlank (Some (keyShardOrEventID k))
  | None => false
  end.

End BatchKeys.

(** ** batch.js: the progress of a batch *)
Module BatchProgress.
Import Js Tasks Tracking BatchM.

Definition numberToString (n : nat) : string :=
  NilEmpty.string_of_uint (Nat.to_uint n).

(** [tracking.toCountString]. *)
Definition toCountString (n : nat) (singularName : string) : string :=
  (numberToString n ++ " " ++ singularName ++ (if (n =? 1)%nat then "" else "s"))%string.

(** What [assessProgress] stores on the batch, and the description that it
returns. *)
Record Progress := {
  incompleteMessages : list Item;
  undiscardedUnusableRecords : list Item;
  undiscardedRejectedMessages : list Item;
  description : string
}.

Definition assessProgress (b : Batch) : Progress :=
  let incompleteMessages := List.filter (isMessageIncomplete b) (messages b) in
  let undiscardedUnusableRecords :=
    List.filter (isUnusableRecordIncomplete b) (unusableRecords b) in
  let undiscardedRejectedMessages :=
    List.filter (isRejectedMessageIncomplete b) (rejectedMessages b) in
  let m := length (messages b) in
  let ms := toCountString m "msg" in
  let i := length incompleteMessages in
  let rm := length (rejectedMessages b) in
  let rms := toCountString rm "rejected msg" in
  let urm := length undiscardedRejectedMessages in
  let u := length (unusableRecords b) in
  let uu := length undiscardedUnusableRecords in
  let r := length (records b) in
  let rs := toCountString r "rec" in
  {| incompleteMessages := incompleteMessages;
     undiscardedUnusableRecords := undiscardedUnusableRecords;
     undiscardedRejectedMessages := undiscardedRejectedMessages;
     description :=
       (numberToString i ++ " incomplete of " ++ ms ++ ", "
        ++ (if (0 <? rm)%nat || (0 <? urm)%nat
            then numberToString urm ++ " undiscarded of " else "")
        ++ rms ++ " & "
        ++ (if (0 <? u)%nat || (0 <? uu)%nat
            then numberToString uu ++ " undiscarded of " else "")
        ++ numberToString u ++ " unusable of " ++ rs)%string |}.

End BatchProgress.

(** ** stream-consumer.js: where the processing of messages starts *)
Module ProcessingStart.
Import Js Tasks Tracking BatchM Sequencing.

(** [messages.filter(message => !states.get(message).prevMessage)]. *)
Fixpoint withoutPrevMessage (states : gmap Item TrackedState) (messages : list Item)
  : Try (list Item) :=
  match messages with
  | [] => Ok []
  | message :: rest =>
      messageState ← stateOf states message;
      others ← withoutPrevMessage states rest;
      Ok (match prevMessage messageState with
          | Some _ => others
          | None => message :: others
          end)
  end.

(** The messages on which [executeAllProcessOneTasks] invokes
[executeProcessOneTasks], for a batch with [t] process-one task
definitions. *)
Definition independentMessages (batch : Batch) (t : nat) : Try (list Item) :=
  if (length (messages batch) <=? 0)%nat then Ok []
  else if (t <=? 0)%nat then Ok []
  else
    match firstMessages batch with
    | Some (first :: others) => Ok (first :: others)
    | Some [] | None => withoutPrevMessage (states batch) (messages batch)
    end.

End ProcessingStart.

(** ** settings.js: property names *)
Module PropertyNames.
Import Js.

Definition PROPERTY_NAME_SEPARATOR : ascii := ",".

(** [string.split(separator)] with a separator of one character. *)
Fixpoint split (separator : ascii) (s : string) : list string :=
  match s with
  | EmptyString => [""]
  | String c s' =>
      if Ascii.eqb c separator then "" :: split separator s'
      else match split separator s' with
           | first :: others => String c first :: others
           | [] => [String c ""]
           end
  end.

(** [toPropertyNamesArray], with the separator omitted. *)
Definition toPropertyNamesArray (propertyNamesString : string) : list string :=
  List.filter (fun s => negb (String.eqb s ""))
    (map trim (split PROPERTY_NAME_SEPARATOR propertyNamesString)).

(** A setting that holds property names: an array, a string, or anything
else. *)
Inductive PropertyNamesSetting : Type :=
| NamesArray (names : list string)
| NamesString (names : string)
| NoNames.

(** [getIdPropertyNames], [getKeyPropertyNames] and [getSeqNoPropertyNames],
on the setting that each of them reads. *)
Definition getPropertyNames (setting : PropertyNamesSetting) : list string :=
  match setting with
  | NamesArray names => names
  | NamesString names => toPropertyNamesArray names
  | NoNames => []
  end.

(** The character [c] occurs in [s]. *)
Fixpoint occurs (c : ascii) (s : string) : bool :=
  match s with
  | EmptyString => false
  | String c' s' => Ascii.eqb c' c || occurs c s'
  end.

(** A property name as [toPropertyNamesArray] returns them: not empty,
without white space around it, and without a separator in it. *)
Definition isPropertyName (name : string) : Prop :=
  name <> "" /\ trim name = name /\ occurs PROPERTY_NAME_SEPARATOR name = false.

End PropertyNames.

(** ** stream-processing.js: the consumer id and the validation of the
configuration *)
Module Configuration.
Import Js JsStrings.

(** What [configureConsumerId] and [validateStreamProcessingConfiguration]
read of the context: whether there is an AWS context, the invoked function
name with its alias or version
([tracking.getInvokedFunctionNameWithAliasOrVersion]), the consumer id and
its suffix, and which of the functions are configured as functions. *)
Record Configured := {
  hasAwsContext : bool;
  invokedFunctionNameWithAliasOrVersion : option string;
  consumerId : option string;
  consumerIdSuffix : option string;
  hasResolveMessageIdsAndSeqNos : bool;
  hasExtractMessagesFromRecord : bool;
  hasLoadBatchState : bool;
  hasSaveBatchState : bool;
  hasDiscardUnusableRecord : bool;
  hasDiscardRejectedMessage : bool
}.

Definition set_consumerId (c : option string) (context : Configured) : Configured :=
  {| hasAwsContext := hasAwsContext context;
     invokedFunctionNameWithAliasOrVersion :=
       invokedFunctionNameWithAliasOrVersion context;
     consumerId := c;
     consumerIdSuffix := consumerIdSuffix context;
     hasResolveMessageIdsAndSeqNos := hasResolveMessageIdsAndSeqNos context;
     hasExtractMessagesFromRecord := hasExtractMessagesFromRecord context;
     hasLoadBatchState := hasLoadBatchState context;
     hasSaveBatchState := hasSaveBatchState context;
     hasDiscardUnusableRecord := hasDiscardUnusableRecord context;
     hasDiscardRejectedMessage := hasDiscardRejectedMessage context |}.

Definition configureConsumerId (context : Configured) : Configured :=
  if negb (truthy (consumerId context)) then
    match invokedFunctionNameWithAliasOrVersion context with
    | Some name =>
        if negb (String.eqb name "") then
          let suffix := trimOrEmpty (consumerIdSuffix context) in
          set_consumerId
            (Some (if negb (String.eqb suffix "")
                   then (name ++ "|" ++ suffix)%string else name))
            context
        else context
    | None => context
    end
  else context.

Definition blocking : string :=
  " ASAP, since this issue is blocking all of your stream's shards!".

Definition without (what remedy : string) : Err :=
  FatalError ("FATAL - Cannot " ++ what ++ ". " ++ remedy ++ blocking).

Definition validateStreamProcessingConfiguration (context : Configured) : Try unit :=
  if hasAwsContext context && isBlank (consumerId context) then
    Throw (without "track any messages WITHOUT a consumerId"
                   "Fix defect and redeploy")
  else if negb (hasResolveMessageIdsAndSeqNos context) then
    Throw (without "resolve identifiers & sequence numbers for any messages WITHOUT a resolveMessageIdsAndSeqNosFunction function"
                   "Fix by configuring one and redeploy")
  else if negb (hasExtractMessagesFromRecord context) then
    Throw (without "extract any messages from any stream event records WITHOUT an extractMessagesFromRecord function"
                   "Fix by configuring one and redeploy")
  else if negb (hasLoadBatchState context) then
    Throw (without "load state for any messages WITHOUT a loadBatchState function"
                   "Fix by configuring one and redeploy")
  else if negb (hasSaveBatchState context) then
    Throw (without "save state for any messages WITHOUT a saveBatchState function"
                   "Fix by configuring one and redeploy")
  else if negb (hasDiscardUnusableRecord context) then
    Throw (without "discard any unusable stream event record WITHOUT a discardUnusableRecord function"
                   "Fix by configuring one and redeploy")
  else if negb (hasDiscardRejectedMessage context) then
    Throw (without "discard any rejected message WITHOUT a discardRejectedMessage function"
                   "Fix by configuring one and redeploy")
  else Ok tt.

(** Some character of [s] is not white space. *)
Fixpoint hasNonSpace (s : string) : bool :=
  match s with
  | EmptyString => false
  | String c s' => negb (isSpace c) || hasNonSpace s'
  end.

End Configuration.

(** ** stream-processing.js: discarding to the dead record and dead message
queues *)
Module Discarding.
Import Js JsStrings BatchKeys.

Section WithKinesis.

(** The unusable records and rejected messages, the Kinesis PutRecord
requests that [toDRQPutRequest] and [toDMQPutRequest] make of them for a
queue name, and Kinesis itself are taken as given, as are the event id of an
unusable record, the id in the state of a rejected message and
[JSON.stringify] of the batch key. *)
Variables UnusableRecord RejectedMessage Request Result : Type.
Variable eventIDOf : UnusableRecord -> option string.
Variable idOf : RejectedMessage -> option string.
Variable stringifyKey : option BatchKey -> string.
Variable toDRQPutRequest : UnusableRecord -> string -> Request.
Variable toDMQPutRequest : RejectedMessage -> string -> Request.
Variable putRecord : Request -> Settled Result.

Definition missingKeyForRecord (key : option BatchKey) (eventID : option string)
  : Err :=
  Error ("Missing valid batch key (" ++ stringifyKey key
         ++ ") needed to discard unusable record (" ++ shown eventID ++ ")").

Definition missingKeyForMessage (key : option BatchKey) (id : option string) : Err :=
  Error ("Missing valid batch key (" ++ stringifyKey key
         ++ ") needed to discard rejected message (" ++ shown id ++ ")").

(** [discardUnusableRecordToDRQ]: the requests sent to Kinesis and the
returned promise. *)
Definition discardUnusableRecordToDRQ (unusableRecord : option UnusableRecord)
    (key : option BatchKey) (deadRecordQueueName : string)
  : list Request * Settled (option Result) :=
  match unusableRecord with
  | None => ([], Resolved None)
  | Some unusableRecord =>
      if negb (isKeyValid key) then
        ([], Rejected (missingKeyForRecord key (eventIDOf unusableRecord)))
      else
        let request := toDRQPutRequest unusableRecord deadRecordQueueName in
        ([request],
         then_ (putRecord request) (fun result => Resolved (Some result)) Rejected)
  end.

(** [discardRejectedMessageToDMQ]. *)
Definition discardRejectedMessageToDMQ (rejectedMessage : option RejectedMessage)
    (key : option BatchKey) (deadMessageQueueName : string)
  : list Request * Settled (option Result) :=
  match rejectedMessage with
  | None => ([], Resolved None)
  | Some rejectedMessage =>
      if negb (isKeyValid key) then
        ([], Rejected (missingKeyForMessage key (idOf rejectedMessage)))
      else
        let request := toDMQPutRequest rejectedMessage deadMessageQueueName in
        ([request],
         catch_ (then_ (putRecord request) (fun result => Resolved (Some result))
                       Rejected)
                Rejected)
  end.

End WithKinesis.

End Discarding.

(** Predicates used to state the order of the chains that sequencing
builds. *)
Module SequencingOrder.
Import Tasks Tracking BatchM Sequencing SequencingViews.

(** [a] does not come after [b] for the comparator [c]: the comparison of
[a] with [b] returns, and not a positive number. *)
Definition notAfter (c : Item -> Item -> Try Z) (a b : Item) : Prop :=
  exists z, c a b = Ok z /\ z <= 0.

(** The sortable of a part, if it has one, was made by [toSortable]. *)
Definition fromToSortable (toSortable : list (option Value) -> Sortable)
    (part : SeqNoPart) : Prop :=
  forall s, sortable part = Some s -> exists values, s = toSortable values.

(** Every sortable that [toSortable] makes has a compare function, and this
function is antisymmetric. *)
Definition antisymmetricSortables (toSortable : list (option Value) -> Sortable)
  : Prop :=
  forall values, exists cmp,
    compare (toSortable values) = Some cmp /\ antisymmetricSign cmp.

End SequencingOrder.

(* ===================================================================== *)
(** * Part II: properties *)
(* ===================================================================== *)

(** ** Phase timeouts (stream-consumer.js, calculateTimeoutMs) *)

Section TimeoutsFacts.
Import StreamConsumer Fixtures.

Lemma Math_round_nearest (x : Q) : nearestInteger (Math_round x) x.
Proof.
  unfold nearestInteger, Math_round.
  pose proof (Qfloor_le (x + (1 # 2))) as Hle.
  pose proof (Qlt_floor (x + (1 # 2))) as Hlt.
  rewrite inject_Z_plus in Hlt.
  change (inject_Z 1) with 1%Q in Hlt.
  split; lra.
Qed.

Lemma nearestInteger_unique (t u : Z) (x : Q) :
  nearestInteger t x -> nearestInteger u x -> t = u.
Proof.
  unfold nearestInteger. intros [H1 H2] [H3 H4].
  assert (Hlt1 : (inject_Z t < inject_Z (u + 1))%Q)
    by (rewrite inject_Z_plus; change (inject_Z 1) with 1%Q; lra).
  assert (Hlt2 : (inject_Z u < inject_Z (t + 1))%Q)
    by (rewrite inject_Z_plus; change (inject_Z 1) with 1%Q; lra).
  rewrite <- Zlt_Qlt in Hlt1, Hlt2. lia.
Qed.

Example processBatch_timeout_sample :
  fst (processBatch_timeoutMs (constantHost 30000 eq_refl (9 # 10)) 0%nat) = 27000.
Proof. reflexivity. Qed.

Example finaliseBatch_timeout_sample :
  fst (finaliseBatch_timeoutMs (constantHost 30000 eq_refl (9 # 10)) 0%nat) = 29000.
Proof. reflexivity. Qed.

Example finaliseBatch_timeout_short :
  fst (finaliseBatch_timeoutMs (constantHost 600 eq_refl (1 # 2)) 0%nat) = 480.
Proof. reflexivity. Qed.

(** The rounding of [roundHalfEven] is to a nearest integer. *)
Lemma roundHalfEven_nearest (y : Q) :
  (inject_Z (roundHalfEven y) - (1 # 2) <= y
   /\ y <= inject_Z (roundHalfEven y) + (1 # 2))%Q.
Proof.
  unfold roundHalfEven. cbn zeta.
  pose proof (Qfloor_le y) as Hle.
  pose proof (Qlt_floor y) as Hlt.
  rewrite inject_Z_plus in Hlt. change (inject_Z 1) with 1%Q in Hlt.
  destruct (_ ?= _)%Q eqn:Hc.
  - apply Qeq_alt in Hc.
    destruct (Z.even _); [| rewrite inject_Z_plus; change (inject_Z 1) with 1%Q];
      split; lra.
  - apply Qlt_alt in Hc. split; lra.
  - apply Qgt_alt in Hc. rewrite inject_Z_plus. change (inject_Z 1) with 1%Q.
    split; lra.
Qed.

(** Doubles of some decimals: 0.7 is 3152519739159347 / 2^52 and 0.1 is
    3602879701896397 / 2^55; 0.1 + 0.2 is not the double of 0.3; a safe
    integer is its own double, and 2^53 + 1 is not; half of the smallest
    subnormal rounds to 0. *)
Example toDouble_samples :
  (toDouble (7 # 10) == 3152519739159347 # 4503599627370496)%Q /\
  (toDouble (1 # 10) == 3602879701896397 # 36028797018963968)%Q /\
  ~ (toDouble (toDouble (1 # 10) + toDouble (2 # 10)) == toDouble (3 # 10))%Q /\
  (toDouble (inject_Z 9007199254740991) == inject_Z 9007199254740991)%Q /\
  (toDouble (inject_Z (2 ^ 53 + 1)) == inject_Z (2 ^ 53))%Q /\
  (toDouble (pow2 (-1075)) == 0)%Q /\
  (toDouble (3 * pow2 (-1075)) == pow2 (-1073))%Q.
Proof.
  split; [vm_compute; reflexivity |]. split; [vm_compute; reflexivity |].
  split; [intros H; vm_compute in H; discriminate H |].
  repeat split; vm_compute; reflexivity.
Qed.

(** The timeout is taken from the product of doubles: with 100 ms remaining
    and a configured 0.145 it is 14 ms, although the product of the decimals,
    14.5, rounds to 15; and with 15 ms and 0.7 it is 11 ms, although the exact
    product of 15 and the double of 0.7 lies below 10.5 and rounds to 10. *)
Example timeouts_round_the_product_of_doubles :
  fst (processBatch_timeoutMs (constantHost 100 eq_refl (145 # 1000)) 0%nat) = 14 /\
  Math_round (100 * (145 # 1000)) = 15 /\
  fst (processBatch_timeoutMs (constantHost 15 eq_refl (7 # 10)) 0%nat) = 11 /\
  Math_round (15 * toDouble (7 # 10)) = 10.
Proof. vm_compute. repeat split; reflexivity. Qed.

(** C7, as stated, fails: with 1001 ms remaining and a configured
    percentage of 0.5 the process-phase timeout is 501 ms, which is not the
    product 500.5 (a product that is exact in doubles); the product is rounded
    by [Math.round]. *)
Lemma C7_timeout_is_not_the_plain_product :
  fst (processBatch_timeoutMs (constantHost 1001 eq_refl (1 # 2)) 0%nat) = 501 /\
  (toDouble (inject_Z 1001 * toDouble (1 # 2)) == inject_Z 1001 * (1 # 2))%Q /\
  ~ (inject_Z (fst (processBatch_timeoutMs (constantHost 1001 eq_refl (1 # 2)) 0%nat))
     == inject_Z 1001 * (1 # 2))%Q.
Proof.
  split; [vm_compute; reflexivity |]. split; [vm_compute; reflexivity |].
  intros H. vm_compute in H. discriminate H.
Qed.

(** C7, amended: for a configured percentage of a magnitude of at most 2^970
    (so that no product leaves the range of the doubles), the process-phase
    timeout is the integer nearest, ties upwards, to the double product of the
    remaining time and the configured percentage, that is to the double
    nearest to their exact product; the finalise-phase timeout is the maximum
    of (remaining time - 1000, floored at 0), taken from one reading of the
    clock, and the integer nearest to the double product of the remaining
    time, taken from the next reading, and max(configured percentage, 0.8).
    The percentage and 0.8 are the doubles that stand for them. *)
Theorem C7_phase_timeouts_are_rounded_products (context : Context) (n : nat) :
  let p := toDouble (timeoutAtPercentageOfRemainingTime (streamProcessing context)) in
  let r1 := remaining (awsContext context) n in
  let r2 := remaining (awsContext context) (S n) in
  (Qabs (timeoutAtPercentageOfRemainingTime (streamProcessing context))
   <= pow2 970)%Q ->
  nearestInteger (fst (processBatch_timeoutMs context n))
                 (toDouble (inject_Z r1 * p)) /\
  (exists t : Z,
      nearestInteger t (toDouble (inject_Z r2 * Qmax p (toDouble (8 # 10)))) /\
      fst (finaliseBatch_timeoutMs context n) = Z.max (Z.max (r1 - 1000) 0) t) /\
  snd (processBatch_timeoutMs context n) = S n /\
  snd (finaliseBatch_timeoutMs context n) = S (S n).
Proof.
  intros p r1 r2 _. split; [| split; [| split]].
  - apply Math_round_nearest.
  - exists (Math_round (toDouble (inject_Z r2 * Qmax p (toDouble (8 # 10))))).
    split; [apply Math_round_nearest | reflexivity].
  - reflexivity.
  - reflexivity.
Qed.

Lemma C7_witness :
  nearestInteger
    (fst (processBatch_timeoutMs (constantHost 15 eq_refl (7 # 10)) 0%nat))
    (toDouble (inject_Z 15 * toDouble (7 # 10))).
Proof.
  refine (proj1 (C7_phase_timeouts_are_rounded_products
                   (constantHost 15 eq_refl (7 # 10)) 0%nat _)).
  vm_compute. discriminate.
Defined.

End TimeoutsFacts.

(** ** Batch.isFullyFinalised (batch.js) *)

Section BatchFacts.
Import Tasks Tracking BatchM Fixtures.

Lemma existsb_ext_in {A} (f g : A -> bool) (l : list A) :
  (forall x, x ∈ l -> f x = g x) -> existsb f l = existsb g l.
Proof.
  induction l as [| a l IH]; intros H; [reflexivity |].
  simpl. rewrite (H a) by left.
  rewrite IH; [reflexivity |]. intros x Hx. apply H. by right.
Qed.

Lemma isFullyFinalised_states_agree (b b' : Batch) :
  messages b' = messages b ->
  unusableRecords b' = unusableRecords b ->
  states b' !! ItBatch = states b !! ItBatch ->
  (forall m, m ∈ messages b -> states b' !! m = states b !! m) ->
  (forall u, u ∈ unusableRecords b -> states b' !! u = states b !! u) ->
  isFullyFinalised b' = isFullyFinalised b.
Proof.
  intros Hm Hu Hb Hms Hus. unfold isFullyFinalised.
  unfold getProcessAllTasks. rewrite Hb, Hm, Hu.
  rewrite (existsb_ext_in (isMessageIncomplete b') (isMessageIncomplete b)).
  2: { intros m Hin. unfold isMessageIncomplete. by rewrite Hms. }
  rewrite (existsb_ext_in (isUnusableRecordIncomplete b')
                          (isUnusableRecordIncomplete b)).
  2: { intros u Hin. unfold isUnusableRecordIncomplete, getDiscardOneTasks.
       by rewrite Hus. }
  reflexivity.
Qed.

Example finishedBatch_isFullyFinalised :
  isFullyFinalised finishedBatch = true.
Proof. vm_compute. reflexivity. Qed.

(** C9: [Batch.isFullyFinalised] reads the batch-level process-all tasks,
    the tasks of the messages in [messages] and the discard tasks of the
    unusable records only. Replacing the list of rejected messages leaves
    the result unchanged, and so does adding a rejected message (an item
    that is neither an active message, nor an unusable record, nor the
    batch) with any state; when that state holds a discard task that is not
    fully finalised the batch still reports what it reported before, so a
    fully finalised batch stays fully finalised while its rejected message
    is incomplete. *)
Theorem C9_isFullyFinalised_ignores_rejected_messages
    (b : Batch) (r : Item) (st : TrackedState) :
  r ∉ messages b -> r ∉ unusableRecords b -> r <> ItBatch ->
  (forall rs, isFullyFinalised (set_messages (messages b) rs b)
              = isFullyFinalised b) /\
  isFullyFinalised (addRejectedMessage b r st) = isFullyFinalised b /\
  (isFullyFinalised b = true ->
   isAnyTaskNotFullyFinalised (discards st) = true ->
   isFullyFinalised (addRejectedMessage b r st) = true /\
   r ∈ rejectedMessages (addRejectedMessage b r st) /\
   isRejectedMessageIncomplete (addRejectedMessage b r st) r = true).
Proof.
  intros Hm Hu Hb.
  assert (Hadd : isFullyFinalised (addRejectedMessage b r st)
                 = isFullyFinalised b).
  { apply isFullyFinalised_states_agree; simpl; try reflexivity.
    - rewrite lookup_insert_ne; congruence.
    - intros m Hin. rewrite lookup_insert_ne; [done |]. by intros ->.
    - intros u Hin. rewrite lookup_insert_ne; [done |]. by intros ->. }
  split; [| split].
  - intros rs. by apply isFullyFinalised_states_agree.
  - exact Hadd.
  - intros Hfin Hdis. rewrite Hadd. split; [exact Hfin |]. split.
    + simpl. apply elem_of_app. right. by left.
    + unfold isRejectedMessageIncomplete, isMessageIncomplete. simpl.
      rewrite lookup_insert_eq. rewrite Hdis.
      by destruct (isAnyTaskNotFullyFinalised (ones st)),
                  (isAnyTaskNotFullyFinalised (alls st)).
Qed.

Lemma C9_witness :
  isFullyFinalised (addRejectedMessage finishedBatch msgR undiscardedState) = true /\
  msgR ∈ rejectedMessages (addRejectedMessage finishedBatch msgR undiscardedState) /\
  isRejectedMessageIncomplete
    (addRejectedMessage finishedBatch msgR undiscardedState) msgR = true.
Proof.
  refine (proj2 (proj2 (C9_isFullyFinalised_ignores_rejected_messages
            finishedBatch msgR undiscardedState _ _ _)) _ _).
  - vm_compute. intros H. apply list_elem_of_singleton in H. discriminate H.
  - simpl. apply not_elem_of_nil.
  - discriminate.
  - vm_compute. reflexivity.
  - vm_compute. reflexivity.
Defined.

End BatchFacts.

(** ** Validation of the task definitions (stream-consumer.js) *)

Section ValidationFacts.
Import Tasks Tracking BatchM StreamConsumer Fixtures.

Lemma validateTaskDefs_throws_fatal (taskDefs : TaskDefsArg) (name : string) (e : Err) :
  validateTaskDefs taskDefs name = Throw e -> exists msg, e = FatalError msg.
Proof.
  unfold validateTaskDefs. destruct taskDefs as [| | l]; [discriminate | |].
  - intros [= <-]. eauto.
  - repeat case_match; intros [= <-] || discriminate; eauto.
Qed.

Lemma validateTaskDefs_ok (taskDefs : TaskDefsArg) (name : string) :
  validateTaskDefs taskDefs name = Ok tt ->
  taskDefs = NoTaskDefs \/
  exists l, taskDefs = TaskDefs l /\
            (forall t, t ∈ l -> isExecutableTaskDef t) /\ NoDup (map defName l).
Proof.
  unfold validateTaskDefs. destruct taskDefs as [| | l]; [by left | discriminate |].
  destruct (isArrayOfType l) eqn:Harr; [| discriminate]. simpl.
  destruct (forallb _ l) eqn:Hexec; [| discriminate]. simpl.
  destruct (isDistinct (map defName l)) eqn:Hdis; [| discriminate]. simpl.
  intros _. right. exists l. split; [reflexivity |]. split.
  - intros t Hin. apply list_elem_of_In in Hin.
    unfold isArrayOfType in Harr. rewrite forallb_forall in Harr, Hexec.
    specialize (Harr t Hin). specialize (Hexec t Hin).
    apply andb_prop in Hexec as [??]. by repeat split.
  - unfold isDistinct in Hdis. by apply bool_decide_eq_true in Hdis.
Qed.

Lemma validateTaskDefinitions_throws_fatal (one all : TaskDefsArg) (e : Err) :
  validateTaskDefinitions one all = Throw e -> exists msg, e = FatalError msg.
Proof.
  unfold validateTaskDefinitions.
  destruct (validateTaskDefs one _) as [[] | e1] eqn:H1; simpl.
  2: { intros [= <-]. eapply validateTaskDefs_throws_fatal, H1. }
  destruct (validateTaskDefs all _) as [[] | e2] eqn:H2; simpl.
  2: { intros [= <-]. eapply validateTaskDefs_throws_fatal, H2. }
  repeat case_match; intros [= <-] || discriminate; eauto.
Qed.

Lemma validateTaskDefinitions_ok (one all : TaskDefsArg) :
  validateTaskDefinitions one all = Ok tt ->
  validateTaskDefs one "processOneTaskDefs" = Ok tt /\
  validateTaskDefs all "processAllTaskDefs" = Ok tt /\
  (noneOrEmpty one && noneOrEmpty all = false).
Proof.
  unfold validateTaskDefinitions.
  destruct (validateTaskDefs one _) as [[] | e1]; simpl; [| discriminate].
  destruct (validateTaskDefs all _) as [[] | e2]; simpl; [| discriminate].
  destruct (noneOrEmpty one && noneOrEmpty all); [discriminate | done].
Qed.

Lemma undefinedOrEmpty_noneOrEmpty (taskDefs : TaskDefsArg) :
  undefinedOrEmpty taskDefs -> noneOrEmpty taskDefs = true.
Proof. by intros [-> | ->]. Qed.

Lemma validateTaskDefs_ok_all_executable (taskDefs : TaskDefsArg) (name : string) :
  validateTaskDefs taskDefs name = Ok tt -> ~ containsNonExecutable taskDefs.
Proof.
  intros Hok (l & t & -> & Hin & Hnot).
  apply validateTaskDefs_ok in Hok as [? | (l' & [= <-] & Hall & _)]; [done |].
  apply Hnot, Hall, Hin.
Qed.

Lemma validateTaskDefs_ok_distinct_names (taskDefs : TaskDefsArg) (name : string) :
  validateTaskDefs taskDefs name = Ok tt -> ~ containsDuplicateNames taskDefs.
Proof.
  intros Hok (l & -> & Hdup).
  apply validateTaskDefs_ok in Hok as [? | (l' & [= <-] & _ & Hnd)]; done.
Qed.

Example validateTaskDefinitions_accepts :
  validateTaskDefinitions (TaskDefs [goodTaskDef 1 "save"]) NoTaskDefs = Ok tt.
Proof. vm_compute. reflexivity. Qed.

Example validateTaskDefinitions_rejects_shared_definition :
  validateTaskDefinitions (TaskDefs [goodTaskDef 1 "save"])
                          (TaskDefs [goodTaskDef 1 "save"])
  = Throw (FatalError sharedTaskDefinition).
Proof. vm_compute. reflexivity. Qed.

(** C10: [processStreamEvent] rejects with a [FatalError], before any batch
is constructed and before any phase is started, whenever both task-definition
lists are empty or undefined, or either list contains a non-executable
definition, or either list contains duplicate task names. *)
Theorem C10_invalid_task_definitions_reject_fatally
    (newBatch : list Item -> list TaskDefLike -> list TaskDefLike -> Try Batch)
    (initiate : Batch -> Settled Batch)
    (process : Batch -> Settled (Batch * Outcomes))
    (finalise : Batch -> Outcomes -> Settled Batch)
    (handleFatalError : Err -> Batch -> Settled Batch)
    (eventRecords : option (list Item)) (one all : TaskDefsArg) :
  (undefinedOrEmpty one /\ undefinedOrEmpty all) \/
  containsNonExecutable one \/ containsNonExecutable all \/
  containsDuplicateNames one \/ containsDuplicateNames all ->
  exists msg,
    processStreamEvent newBatch initiate process finalise handleFatalError
      eventRecords one all = ([], Rejected (FatalError msg)).
Proof.
  intros Hinvalid. unfold processStreamEvent.
  destruct (validateTaskDefinitions one all) as [[] | e] eqn:Hv.
  - exfalso. apply validateTaskDefinitions_ok in Hv as (H1 & H2 & Hne).
    destruct Hinvalid as [[He1 He2] | [Hx | [Hx | [Hd | Hd]]]].
    + rewrite (undefinedOrEmpty_noneOrEmpty _ He1),
              (undefinedOrEmpty_noneOrEmpty _ He2) in Hne. discriminate.
    + by apply (validateTaskDefs_ok_all_executable _ _ H1).
    + by apply (validateTaskDefs_ok_all_executable _ _ H2).
    + by apply (validateTaskDefs_ok_distinct_names _ _ H1).
    + by apply (validateTaskDefs_ok_distinct_names _ _ H2).
  - apply validateTaskDefinitions_throws_fatal in Hv as [msg ->]. by exists msg.
Qed.

Lemma C10_witness :
  exists msg,
    processStreamEvent stubNewBatch stubInitiate stubProcess stubFinalise
      stubHandleFatalError (Some [msgA]) (TaskDefs []) NoTaskDefs
    = ([], Rejected (FatalError msg)).
Proof.
  apply C10_invalid_task_definitions_reject_fatally.
  left. split; [by right | by left].
Defined.

End ValidationFacts.

(** ** The replay policy of finaliseBatch (stream-consumer.js) *)

Section FinaliseFacts.
Import Tasks Tracking BatchM StreamConsumer Fixtures.

Lemma finaliseBatch_unfold (batch : Batch) (processOutcomes : Outcomes)
    (taskError : option Err) (progress : string) (postFinalise : Settled unit)
    (raced : Settled Outcomes) :
  finaliseBatch batch processOutcomes taskError progress postFinalise raced =
  match raced with
  | Rejected err => Rejected err
  | Resolved outcomes =>
      match findFailure outcomes with
      | Some finaliseError => Rejected finaliseError
      | None =>
          if isFullyFinalised batch then
            if isArray outcomes then Resolved batch
            else Rejected (default unexpectedOutcome taskError)
          else
            match findFinalisedFailure processOutcomes with
            | Some fe => Rejected (FatalError ("FATAL - " ++ errMessage fe)%string)
            | None => Rejected (default (stillIncomplete progress)
                                        (findFailure processOutcomes))
            end
      end
  end.
Proof.
  unfold finaliseBatch, catch_, then_.
  destruct raced as [outcomes | err]; [| by destruct postFinalise].
  destruct (findFailure outcomes); [by destruct postFinalise |].
  destruct (isFullyFinalised batch); simpl.
  - destruct (isArray outcomes); [by destruct postFinalise |].
    by destruct postFinalise, taskError.
  - destruct (findFinalisedFailure processOutcomes); [by destruct postFinalise |].
    by destruct (findFailure processOutcomes), postFinalise.
Qed.

Example unfinishedBatch_not_fully_finalised :
  isFullyFinalised unfinishedBatch = false.
Proof. vm_compute. reflexivity. Qed.

(** C1, as stated, fails: with a failed save among the finalising outcomes,
a batch that is not fully finalised and a [FinalisedError] among the
processing outcomes, the finalise failure is re-thrown and the
[FinalisedError] is not promoted to a [FatalError]; and when the finalise
phase times out the timeout error is re-thrown, whatever the processing
outcomes hold. *)
Lemma C1_finalise_failure_precedes_finalised_error :
  isFullyFinalised unfinishedBatch = false /\
  findFinalisedFailure (OutcomeArray [Failure frozenTask]) = Some frozenTask /\
  finaliseBatch unfinishedBatch (OutcomeArray [Failure frozenTask]) None "progress"
    (Resolved tt) (Resolved (OutcomeArray [Success "discarded"; Failure saveFailed]))
  = Rejected saveFailed /\
  finaliseBatch unfinishedBatch (OutcomeArray [Failure frozenTask]) (Some ranOutOfTime)
    "progress" (Resolved tt) (Rejected ranOutOfTime)
  = Rejected ranOutOfTime.
Proof. vm_compute. repeat split; reflexivity. Qed.

(** C1, amended: when the race between completion and timeout rejects (the
finalise phase timed out or failed), that error is re-thrown as it is. When it
resolves, the first failure among the finalising outcomes is re-thrown first,
whether or not the batch is fully finalised. Only without a finalising failure,
and when the batch is not fully finalised, a [FinalisedError] found among the
processing outcomes is promoted to a [FatalError]; otherwise the first
processing failure is re-thrown; otherwise a generic still-incomplete error is
thrown. The promise resolves only with a fully finalised batch, so every
execution either resolves with a fully finalised batch or rejects. *)
Theorem C1_replay_policy (batch : Batch) (processOutcomes : Outcomes)
    (taskError : option Err) (progress : string) (postFinalise : Settled unit)
    (raced : Settled Outcomes) :
  let result := finaliseBatch batch processOutcomes taskError progress
                  postFinalise raced in
  (forall err, raced = Rejected err -> result = Rejected err) /\
  (forall outcomes finaliseError,
      raced = Resolved outcomes -> findFailure outcomes = Some finaliseError ->
      result = Rejected finaliseError) /\
  (forall outcomes,
      raced = Resolved outcomes -> findFailure outcomes = None ->
      isFullyFinalised batch = false ->
      (forall fe, findFinalisedFailure processOutcomes = Some fe ->
                  result = Rejected (FatalError ("FATAL - " ++ errMessage fe)%string)) /\
      (forall pe, findFinalisedFailure processOutcomes = None ->
                  findFailure processOutcomes = Some pe -> result = Rejected pe) /\
      (findFinalisedFailure processOutcomes = None ->
       findFailure processOutcomes = None ->
       result = Rejected (stillIncomplete progress))) /\
  (forall b, result = Resolved b ->
             b = batch /\ isFullyFinalised b = true /\
             exists l, raced = Resolved (OutcomeArray l)
                       /\ findFailure (OutcomeArray l) = None) /\
  ((exists b, result = Resolved b /\ isFullyFinalised b = true)
   \/ exists err, result = Rejected err).
Proof.
  intros result. subst result. rewrite finaliseBatch_unfold.
  split; [| split; [| split; [| split]]].
  - by intros err ->.
  - by intros outcomes fe -> ->.
  - intros outcomes -> Hnone Hnot. rewrite Hnone, Hnot.
    split; [| split].
    + by intros fe ->.
    + by intros pe -> ->.
    + by intros -> ->.
  - intros b. destruct raced as [outcomes | err]; [| discriminate].
    destruct (findFailure outcomes) eqn:Hff; [discriminate |].
    destruct (isFullyFinalised batch) eqn:Hf; [| by repeat case_match].
    destruct outcomes as [| | | l]; simpl; try discriminate.
    intros [= <-]. repeat split; [done |]. by exists l.
  - destruct raced as [outcomes | err]; [| right; eauto].
    destruct (findFailure outcomes); [right; eauto |].
    destruct (isFullyFinalised batch) eqn:Hf.
    + destruct (isArray outcomes); [left | right]; eauto.
    + right. repeat case_match; eauto.
Qed.

Lemma C1_witness :
  finaliseBatch unfinishedBatch (OutcomeArray [Failure saveFailed; Failure frozenTask])
    None "progress" (Resolved tt) (Resolved (OutcomeArray [Success "discarded"]))
  = Rejected (FatalError "FATAL - cannot change a finalised task").
Proof.
  refine (proj1 (proj1 (proj2 (proj2 (C1_replay_policy unfinishedBatch
            (OutcomeArray [Failure saveFailed; Failure frozenTask]) None "progress"
            (Resolved tt) (Resolved (OutcomeArray [Success "discarded"])))))
            (OutcomeArray [Success "discarded"]) _ _ _) frozenTask _).
  - reflexivity.
  - reflexivity.
  - vm_compute. reflexivity.
  - vm_compute. reflexivity.
Defined.

End FinaliseFacts.

(** ** Chains of process-one tasks (stream-consumer.js) *)

Section ProcessOneFacts.
Import Tasks Tracking BatchM StreamConsumer Fixtures.

Lemma ones_set_ones o st : ones (set_ones o st) = o.
Proof. by destruct st. Qed.

Lemma executeProcessOneTasks_invocations fuel env states m :
  invocationsOf (executeProcessOneTasks (S fuel) env states m) = [(m, states)] \/
  exists st next u,
    states !! m = Some st /\ everySettled env m = Resolved u /\
    nextMessage st = Some next /\ cancelRequested env m = false /\
    forallb (fun task => Tasks.isFullyFinalised (executed env m task))
            (incompleteTasksOf st) = true /\
    invocationsOf (executeProcessOneTasks (S fuel) env states m)
    = (m, states)
        :: invocationsOf
             (executeProcessOneTasks fuel env
                (<[m := set_ones (executeTasks env m <$> ones st) st]> states) next).
Proof.
  cbn [executeProcessOneTasks].
  destruct (states !! m) as [st |] eqn:Hst; [| by left].
  destruct (everySettled env m) as [u | err] eqn:Hevery; [| by left].
  destruct (nextMessage st) as [next |] eqn:Hnext; [| by left].
  destruct (_ !! next) as [nst |]; [| by left].
  destruct (cancelRequested env m) eqn:Hcancel; [by left |].
  cbn [negb].
  destruct (forallb _ _) eqn:Hall; [| by left].
  right. exists st, next, u.
  destruct (executeProcessOneTasks fuel env _ next) as [[states2 invocations] returned].
  by repeat split.
Qed.

Lemma invocations_head fuel env states m :
  invocationsOf (executeProcessOneTasks fuel env states m) = [] \/
  exists rest,
    invocationsOf (executeProcessOneTasks fuel env states m) = (m, states) :: rest.
Proof.
  destruct fuel as [| fuel]; [by left |]. right.
  destruct (executeProcessOneTasks_invocations fuel env states m)
    as [-> | (st & next & u & _ & _ & _ & _ & _ & ->)]; eauto.
Qed.

Lemma incompleteTasksOf_elem st name task :
  (name, task) ∈ default [] (ones st) -> Tasks.isFullyFinalised task = false ->
  task ∈ incompleteTasksOf st.
Proof.
  intros Hin Hfin. unfold incompleteTasksOf.
  apply list_elem_of_filter. split; [done |].
  unfold getTasks. destruct (ones st) as [l |]; cbn in *.
  - apply list_elem_of_In, in_map_iff. exists (name, task).
    split; [done | by apply list_elem_of_In].
  - by apply elem_of_nil in Hin.
Qed.

Lemma executeTasks_elem env m l name task :
  (name, task) ∈ l ->
  (name, if Tasks.isFullyFinalised task then task else executed env m task)
    ∈ executeTasks env m l.
Proof.
  intros Hin. unfold executeTasks.
  apply list_elem_of_In, in_map_iff. exists (name, task).
  split; [done | by apply list_elem_of_In].
Qed.

Lemma executeTasks_inv env m l name task' :
  (name, task') ∈ executeTasks env m l ->
  exists task, (name, task) ∈ l /\
    task' = if Tasks.isFullyFinalised task then task else executed env m task.
Proof.
  intros Hin. apply list_elem_of_In, in_map_iff in Hin as ([n t] & Heq & Hin).
  cbn in Heq. injection Heq as <- <-. exists t.
  split; [by apply list_elem_of_In | done].
Qed.

(** C2: in the invocations that one call of [executeProcessOneTasks] makes
along a chain, whenever the invocation on a message m1 is followed by one on
a message m2, m2 is the next message of m1, the run was not cancelled while
m1 was executed, the executions on m1 settled without rejection, every
process-one task of m1 that was not fully finalised has been replaced by its
executed self, and every process-one task of m1 is fully finalised in the
states that the invocation on m2 starts from. And an invocation on a message
that is left with a task that is still not fully finalised, or during which
the run was cancelled, is the last one of the call. *)
Theorem C2_next_message_waits (fuel : nat) (env : Execution)
    (states : gmap Item TrackedState) (first : Item) :
  let invocations := invocationsOf (executeProcessOneTasks fuel env states first) in
  (forall before m1 s1 m2 s2 after,
     invocations = before ++ (m1, s1) :: (m2, s2) :: after ->
     (exists st1, s1 !! m1 = Some st1 /\ nextMessage st1 = Some m2) /\
     cancelRequested env m1 = false /\
     (exists u, everySettled env m1 = Resolved u) /\
     (forall name task,
        processOneTask s1 m1 name task -> Tasks.isFullyFinalised task = false ->
        processOneTask s2 m1 name (executed env m1 task)) /\
     (forall name task,
        processOneTask s2 m1 name task -> Tasks.isFullyFinalised task = true))
  /\
  (forall before m1 s1 after,
     invocations = before ++ (m1, s1) :: after ->
     stillIncompleteAfter env s1 m1 \/ cancelRequested env m1 = true ->
     after = []).
Proof.
  revert states first.
  induction fuel as [| fuel IH]; intros states first invocations.
  { split; intros; subst invocations; cbn in *; by destruct before. }
  subst invocations.
  destruct (executeProcessOneTasks_invocations fuel env states first)
    as [-> | (st & next & u & Hst & Hevery & Hnext & Hcancel & Hall & ->)].
  { split.
    - intros before m1 s1 m2 s2 after Heq.
      destruct before as [| ? [| ? ?]]; discriminate.
    - intros before m1 s1 after Heq _.
      destruct before as [| ? [| ? ?]]; [| discriminate ..].
      by injection Heq. }
  specialize (IH (<[first := set_ones (executeTasks env first <$> ones st) st]> states) next).
  cbn zeta in IH. destruct IH as [IHpairs IHstop].
  rewrite forallb_forall in Hall.
  split.
  - intros before m1 s1 m2 s2 after Heq.
    destruct before as [| inv before]; cbn in Heq.
    + injection Heq as <- <- Hrest.
      destruct (invocations_head fuel env
                  (<[first := set_ones (executeTasks env first <$> ones st) st]> states)
                  next) as [Hnil | [rest Hcons]].
      { rewrite Hnil in Hrest. discriminate. }
      rewrite Hcons in Hrest. injection Hrest as <- <- _.
      split; [by exists st |]. split; [done |]. split; [by exists u |].
      split.
      * intros name task (st1 & Hst1 & Hin) Hfin.
        rewrite Hst in Hst1. injection Hst1 as <-.
        exists (set_ones (executeTasks env first <$> ones st) st).
        split; [by rewrite lookup_insert_eq |].
        rewrite ones_set_ones.
        destruct (ones st) as [l |]; cbn in *; [| by apply elem_of_nil in Hin].
        pose proof (executeTasks_elem env first l name task Hin) as Hex.
        by rewrite Hfin in Hex.
      * intros name task' (st2 & Hst2 & Hin).
        rewrite lookup_insert_eq in Hst2. injection Hst2 as <-.
        rewrite ones_set_ones in Hin.
        destruct (ones st) as [l |] eqn:Hones; cbn in Hin;
          [| by apply elem_of_nil in Hin].
        apply executeTasks_inv in Hin as (task & Hin & ->).
        destruct (Tasks.isFullyFinalised task) eqn:Hfin; [done |].
        apply Hall, list_elem_of_In, (incompleteTasksOf_elem st name); [| done].
        by rewrite Hones.
    + injection Heq as _ Heq. by apply (IHpairs before m1 s1 m2 s2 after).
  - intros before m1 s1 after Heq Hwhy.
    destruct before as [| inv before]; cbn in Heq.
    + injection Heq as <- <- _.
      destruct Hwhy as [(name & task & (st1 & Hst1 & Hin) & Hfin & Hstill) | Hc];
        [| congruence].
      rewrite Hst in Hst1. injection Hst1 as <-.
      assert (Tasks.isFullyFinalised (executed env first task) = true) as Hdone;
        [| congruence].
      by apply Hall, list_elem_of_In, (incompleteTasksOf_elem st name).
    + injection Heq as _ Heq. by apply (IHstop before m1 s1).
Qed.

(** The other direction: once the tasks of a message have all become fully
finalised without cancellation, its next message is started. *)
Lemma next_message_is_started fuel env states m st next nst u :
  states !! m = Some st ->
  everySettled env m = Resolved u ->
  nextMessage st = Some next ->
  <[m := set_ones (executeTasks env m <$> ones st) st]> states !! next = Some nst ->
  cancelRequested env m = false ->
  forallb (fun task => Tasks.isFullyFinalised (executed env m task))
          (incompleteTasksOf st) = true ->
  exists s2 rest,
    invocationsOf (executeProcessOneTasks (S (S fuel)) env states m)
    = (m, states) :: (next, s2) :: rest.
Proof.
  intros Hst Hevery Hnext Hnst Hcancel Hall.
  remember (S fuel) as fuel' eqn:Hfuel.
  cbn [executeProcessOneTasks].
  rewrite Hst, Hevery, Hnext, Hnst, Hcancel. cbn [negb]. rewrite Hall.
  destruct (invocations_head fuel' env
              (<[m := set_ones (executeTasks env m <$> ones st) st]> states) next)
    as [Hnil | [rest Hcons]].
  - subst fuel'.
    destruct (executeProcessOneTasks_invocations fuel env
                (<[m := set_ones (executeTasks env m <$> ones st) st]> states) next)
      as [H | (? & ? & ? & _ & _ & _ & _ & _ & H)];
      rewrite H in Hnil; discriminate.
  - destruct (executeProcessOneTasks fuel' env _ next)
      as [[states2 invocations] returned].
    cbn in Hcons. subst invocations. by eexists _, _.
Qed.

(** The chain msgB, msgC, msgA is followed to its end when every task
completes, and the outcomes come in the order of the chain. *)
Example chain_is_followed :
  let run := executeProcessOneTasks 3 (failsOn None) chainStates msgB in
  map fst (invocationsOf run) = [msgB; msgC; msgA] /\
  snd run = Some (Ok (Resolved [Success "save"; Success "save"; Success "save"])).
Proof. vm_compute. by split. Qed.

(** It stops at msgC when the task of msgC fails. *)
Example chain_stops_at_failure :
  let run := executeProcessOneTasks 3 (failsOn (Some msgC)) chainStates msgB in
  map fst (invocationsOf run) = [msgB; msgC] /\
  snd run = Some (Ok (Resolved [Success "save"; Failure saveFailed])).
Proof. vm_compute. by split. Qed.

(** It stops at msgB when the run is cancelled while msgB is executed. *)
Example chain_stops_at_cancellation :
  let run := executeProcessOneTasks 3 (cancelledOn msgB) chainStates msgB in
  map fst (invocationsOf run) = [msgB] /\
  snd run = Some (Ok (Resolved [Success "save"])).
Proof. vm_compute. by split. Qed.

Lemma C2_witness :
  processOneTask chainStatesAfterFirst msgB "save"
    (executed (failsOn (Some msgC)) msgB (pendingTask "save")).
Proof.
  refine (proj1 (proj2 (proj2 (proj2 (proj1
            (C2_next_message_waits 3 (failsOn (Some msgC)) chainStates msgB)
            [] msgB chainStates msgC chainStatesAfterFirst [] _))))
            "save" (pendingTask "save") _ _).
  - vm_compute. reflexivity.
  - exists (chainState None (Some msgC)). split; [reflexivity |].
    cbn. apply list_elem_of_singleton. reflexivity.
  - reflexivity.
Defined.

End ProcessOneFacts.

(** ** Saving the checkpoint (persisting.js) *)

Section SaveFacts.
Import Tasks Tracking BatchM Persisting Fixtures.

Lemma alternating_other_other (m : Mode) : m <> Read -> otherMode (otherMode m) = m.
Proof. by destruct m. Qed.

(** Both save functions, by simultaneous induction on the client's replies. *)
Lemma insert_update_requests (db : Db) (tableName : string) (item : BatchStateItem) :
  (map modeOf (fst (insertBatchState db tableName item))
     = alternating Insert (S (conditionalCheckFailures db)) /\
   Forall (fun r => isConditionalInsert r tableName item
                    \/ isConditionalUpdate r tableName item)
          (fst (insertBatchState db tableName item)) /\
   (snd (insertBatchState db tableName item) = None
    <-> length db = conditionalCheckFailures db)) /\
  (map modeOf (fst (updateBatchState db tableName item))
     = alternating Modify (S (conditionalCheckFailures db)) /\
   Forall (fun r => isConditionalInsert r tableName item
                    \/ isConditionalUpdate r tableName item)
          (fst (updateBatchState db tableName item)) /\
   (snd (updateBatchState db tableName item) = None
    <-> length db = conditionalCheckFailures db)).
Proof.
  assert (Hput : isConditionalInsert (Put (putRequestOf tableName item)) tableName item)
    by (eexists; repeat split).
  assert (Hupd : isConditionalUpdate (Update (updateRequestOf tableName item))
                   tableName item)
    by (eexists; repeat split).
  induction db as [| reply db IH].
  - simpl. repeat split; auto.
  - destruct IH as [(Hi1 & Hi2 & Hi3) (Hu1 & Hu2 & Hu3)].
    destruct reply as [result | err]; simpl.
    + repeat split; auto; discriminate.
    + destruct (isConditionalCheckFailed err); simpl.
      * destruct (updateBatchState db tableName item) as [ru pu].
        destruct (insertBatchState db tableName item) as [ri pi].
        simpl in *. rewrite Hi1, Hu1. repeat split; auto.
        -- intros H. f_equal. by apply Hu3.
        -- intros H. apply Hu3. by injection H.
        -- intros H. f_equal. by apply Hi3.
        -- intros H. apply Hi3. by injection H.
      * repeat split; auto; discriminate.
Qed.

Example finishedBatch_first_save_inserts :
  map modeOf (fst (saveBatchStateToDynamoDB [saved] "Table" finishedBatch))
  = [Insert].
Proof. vm_compute. reflexivity. Qed.

(** C3, as stated, fails: when the item appears and disappears between the
requests, a save that starts with the conditional insert issues three
requests (insert, update, insert again), so the codec does not stop after one
retry; and a save of a batch without a complete key issues no request at
all. *)
Lemma C3_more_than_one_retry :
  previouslySaved finishedBatch = Some false /\
  map modeOf (fst (saveBatchStateToDynamoDB contendedDb "Table" finishedBatch))
  = [Insert; Modify; Insert] /\
  fst (saveBatchStateToDynamoDB contendedDb "Table" keylessBatch) = [].
Proof. vm_compute. repeat split; reflexivity. Qed.

(** The requests of a save with a complete batch key. *)
Lemma save_with_complete_key (db : Db) (tableName : string) (batch : Batch) :
  isBlank (streamConsumerId batch) = false ->
  isBlank (shardOrEventID batch) = false ->
  let item := toBatchStateItem batch in
  let first := match previouslySaved batch with
               | Some true => Modify
               | _ => Insert
               end in
  let requests := fst (saveBatchStateToDynamoDB db tableName batch) in
  map modeOf requests = alternating first (S (conditionalCheckFailures db)) /\
  Forall (fun r => isConditionalInsert r tableName item
                   \/ isConditionalUpdate r tableName item) requests /\
  (exists r rest, requests = r :: rest /\
     match previouslySaved batch with
     | Some true => isConditionalUpdate r tableName item
     | _ => isConditionalInsert r tableName item
     end) /\
  (snd (saveBatchStateToDynamoDB db tableName batch) = None
   <-> length db = conditionalCheckFailures db).
Proof.
  intros Hk1 Hk2 item first requests. subst requests first.
  unfold saveBatchStateToDynamoDB. rewrite Hk1, Hk2. simpl.
  destruct (insert_update_requests db tableName item)
    as [(Hi1 & Hi2 & Hi3) (Hu1 & Hu2 & Hu3)].
  fold item.
  assert (Hhead : forall (l : list Request) (m : Mode) (n : nat),
            map modeOf l = alternating m (S n) ->
            Forall (fun r => isConditionalInsert r tableName item
                             \/ isConditionalUpdate r tableName item) l ->
            exists r rest, l = r :: rest /\
              match m with
              | Modify => isConditionalUpdate r tableName item
              | _ => isConditionalInsert r tableName item
              end).
  { intros [| r rest] m n Hmodes Hall; [discriminate |].
    exists r, rest. split; [reflexivity |].
    apply Forall_cons in Hall as [Hr _]. simpl in Hmodes.
    injection Hmodes as Hm _.
    destruct Hr as [(pr & -> & ?) | (ur & -> & ?)]; simpl in Hm; subst m; eauto.
    - eexists; eauto.
    - eexists; eauto. }
  destruct (previouslySaved batch) as [[|] |].
  - destruct (updateBatchState db tableName item) as [ru pu]. simpl in *.
    repeat split; auto.
    + apply (Hhead ru Modify _ Hu1 Hu2).
    + intros H. apply Hu3. by destruct pu.
    + intros H. apply Hu3 in H. by subst pu.
  - destruct (insertBatchState db tableName item) as [ri pi]. simpl in *.
    repeat split; auto.
    + apply (Hhead ri Insert _ Hi1 Hi2).
    + intros H. apply Hi3. by destruct pi.
    + intros H. apply Hi3 in H. by subst pi.
  - destruct (insertBatchState db tableName item) as [ri pi]. simpl in *.
    repeat split; auto.
    + apply (Hhead ri Insert _ Hi1 Hi2).
    + intros H. apply Hi3. by destruct pi.
    + intros H. apply Hi3 in H. by subst pi.
Qed.

(** A save without a complete batch key. *)
Lemma save_without_complete_key (db : Db) (tableName : string) (batch : Batch) :
  isBlank (streamConsumerId batch) = true \/ isBlank (shardOrEventID batch) = true ->
  saveBatchStateToDynamoDB db tableName batch
  = ([], Some (if bool_decide (length (messages batch) = 0%nat)
                  && bool_decide (length (rejectedMessages batch) = 0%nat)
                  && bool_decide (length (unusableRecords batch) = 0%nat)
               then Resolved None
               else Rejected (incompleteKey tableName))).
Proof.
  intros Hblank. unfold saveBatchStateToDynamoDB.
  assert (isBlank (streamConsumerId batch) || isBlank (shardOrEventID batch)
          = true) as ->.
  { destruct Hblank as [-> | ->]; [done | apply orb_true_r]. }
  by destruct (_ && _).
Qed.

(** C3, amended: for every save of a batch with a complete (non-blank) batch
key, the first request is a conditional insert guarded by
[attribute_not_exists] on both key attributes when [previouslySaved] is false
or undefined, and a conditional update guarded by [attribute_exists] on both
when it is true; every conditional-check failure makes the codec switch to
the other mode and issue one more request, as often as such failures follow
one another, so that the requests alternate between the two modes and number
one more than the leading conditional-check failures; the save is pending only
while its last request is unanswered. Every save of a batch without a complete
batch key (one of the two key parts is blank) issues no request: it resolves
with nothing when the batch has no messages, no rejected messages and no
unusable records, and rejects with an error otherwise. *)
Theorem C3_save_alternates_between_modes (db : Db) (tableName : string)
    (batch : Batch) :
  let item := toBatchStateItem batch in
  let first := match previouslySaved batch with
               | Some true => Modify
               | _ => Insert
               end in
  let requests := fst (saveBatchStateToDynamoDB db tableName batch) in
  let settled := snd (saveBatchStateToDynamoDB db tableName batch) in
  (isBlank (streamConsumerId batch) = false ->
   isBlank (shardOrEventID batch) = false ->
   map modeOf requests = alternating first (S (conditionalCheckFailures db)) /\
   Forall (fun r => isConditionalInsert r tableName item
                    \/ isConditionalUpdate r tableName item) requests /\
   (exists r rest, requests = r :: rest /\
      match previouslySaved batch with
      | Some true => isConditionalUpdate r tableName item
      | _ => isConditionalInsert r tableName item
      end) /\
   (settled = None <-> length db = conditionalCheckFailures db)) /\
  (isBlank (streamConsumerId batch) = true
   \/ isBlank (shardOrEventID batch) = true ->
   requests = [] /\
   (messages batch = [] -> rejectedMessages batch = [] ->
    unusableRecords batch = [] -> settled = Some (Resolved None)) /\
   (messages batch <> [] \/ rejectedMessages batch <> []
    \/ unusableRecords batch <> [] ->
    settled = Some (Rejected (incompleteKey tableName)))).
Proof.
  intros item first requests settled. split.
  - intros Hk1 Hk2. exact (save_with_complete_key db tableName batch Hk1 Hk2).
  - intros Hblank. subst requests settled.
    rewrite (save_without_complete_key db tableName batch Hblank).
    cbn [fst snd]. split; [reflexivity |]. split.
    + by intros -> -> ->.
    + intros Hsome.
      assert (bool_decide (length (messages batch) = 0%nat)
              && bool_decide (length (rejectedMessages batch) = 0%nat)
              && bool_decide (length (unusableRecords batch) = 0%nat)
              = false) as ->; [| reflexivity].
      apply not_true_iff_false. intros Hall.
      apply andb_true_iff in Hall as [Hall Hu].
      apply andb_true_iff in Hall as [Hm Hr].
      apply bool_decide_eq_true, length_zero_iff_nil in Hm, Hr, Hu.
      by destruct Hsome as [? | [? | ?]].
Qed.

Lemma C3_witness :
  map modeOf (fst (saveBatchStateToDynamoDB contendedDb "Table" finishedBatch))
  = alternating Insert 3 /\
  fst (saveBatchStateToDynamoDB [] "Table" keylessBatch) = [].
Proof.
  split.
  - refine (proj1 (proj1 (C3_save_alternates_between_modes contendedDb "Table"
                            finishedBatch) _ _)).
    + vm_compute. reflexivity.
    + vm_compute. reflexivity.
  - refine (proj1 (proj2 (C3_save_alternates_between_modes [] "Table"
                            keylessBatch) _)).
    left. vm_compute. reflexivity.
Defined.

End SaveFacts.

(** ** Loading the checkpoint (persisting.js) *)

Section LoadFacts.
Import Tasks Tracking BatchM Persisting Fixtures.

Example projection_of_load :
  projectedAttributes (getRequestOf "Table" finishedBatch)
  = ["streamConsumerId"; "shardOrEventID"; "messageStates";
     "rejectedMessageStates"; "unusableRecordStates"].
Proof. vm_compute. reflexivity. Qed.

(** C8, as stated, fails: the projection of the load request does not
contain all of the listed item fields, since [batchState] is not
projected. *)
Lemma C8_batchState_is_not_projected :
  ("batchState" ∈ itemFields) /\
  ("batchState" ∉ projectedAttributes (getRequestOf "Table" finishedBatch)) /\
  projectedAttributes (getRequestOf "Table" finishedBatch) <> itemFields.
Proof.
  split; [| split].
  - vm_compute. repeat (first [by left | right]).
  - vm_compute. intros H.
    repeat (apply elem_of_cons in H as [H | H]; [discriminate H |]).
    by apply elem_of_nil in H.
  - vm_compute. discriminate.
Qed.

(** C8, amended: loading issues one strongly-consistent read, keyed by the
batch key, whose projection contains exactly the two key attributes plus
[messageStates], [rejectedMessageStates] and [unusableRecordStates]
([batchState] is not read back); a reply without an item means no prior
state: [previouslySaved] is set to false, nothing else in the batch changes
(tracked states and task maps stay as they are), and the load resolves. *)
Theorem C8_load_request_and_missing_item (tableName : string) (batch : Batch)
    (reply : Settled DbResult) :
  let loaded := loadBatchStateFromDynamoDB reply tableName batch in
  let after := fst (snd loaded) in
  (exists r, fst loaded = Get r /\
     getConsistentRead r = true /\
     getTableName r = tableName /\
     getKey r = (streamConsumerId batch, shardOrEventID batch) /\
     projectedAttributes r
       = ["streamConsumerId"; "shardOrEventID"; "messageStates";
          "rejectedMessageStates"; "unusableRecordStates"]) /\
  (forall result, reply = Resolved result -> resultItem result = None ->
     after = set_previouslySaved (Some false) batch /\
     previouslySaved after = Some false /\
     states after = states batch /\
     messages after = messages batch /\
     rejectedMessages after = rejectedMessages batch /\
     unusableRecords after = unusableRecords batch /\
     snd (snd loaded) = Resolved result).
Proof.
  intros loaded after. subst after loaded.
  unfold loadBatchStateFromDynamoDB. simpl. split.
  - eexists. split; [reflexivity |]. by repeat split.
  - intros result -> Hnone. rewrite Hnone. by repeat split.
Qed.

Lemma C8_witness :
  previouslySaved
    (fst (snd (loadBatchStateFromDynamoDB saved "Table" keylessBatch)))
  = Some false.
Proof.
  exact (proj1 (proj2 (proj2 (C8_load_request_and_missing_item "Table"
           keylessBatch saved) {| resultItem := None |} eq_refl eq_refl))).
Defined.

End LoadFacts.

(** ** Restoring prior message states (persisting.js) *)

Section RestoreFacts.
Import Tasks Tracking BatchM Persisting Fixtures.

Lemma append_bar_not_empty (a b : string) :
  String.eqb (a ++ "|" ++ b)%string "" = false.
Proof. by destruct a. Qed.

(** A Big Fat Key is never the empty string, so [bfk ? ... : ...] tests
whether the current state has an identifier. *)
Lemma toMessageBFK_truthy (st : TrackedState) :
  truthy (Some (toMessageBFK st)) = true.
Proof.
  unfold truthy, toMessageBFK. cbn [join].
  by rewrite append_bar_not_empty.
Qed.

Lemma lookupPrev_by_bfk (c : Caches) (st : TrackedState) (msg : Item) :
  hasMessageIdentifier st = true ->
  lookupPrev c (bfkOf st) msg = fst c !! toMessageBFK st.
Proof.
  intros H. unfold lookupPrev, bfkOf. rewrite H.
  by rewrite toMessageBFK_truthy.
Qed.

Lemma lookupPrev_by_msg (c : Caches) (st : TrackedState) (msg : Item) :
  hasMessageIdentifier st = false ->
  lookupPrev c (bfkOf st) msg = snd c !! msg.
Proof. intros H. unfold lookupPrev, bfkOf. by rewrite H. Qed.

Lemma setMessageStateToPrev_maps (curr prev : TrackedState) :
  ones (setMessageStateToPrev curr prev) = ones prev /\
  alls (setMessageStateToPrev curr prev) = alls prev /\
  discards (setMessageStateToPrev curr prev) = discards prev.
Proof. by repeat split. Qed.

Lemma moveMessageToRejected_spec (b : Batch) (msg : Item) :
  msg ∈ rejectedMessages (moveMessageToRejected b msg) /\
  messages (moveMessageToRejected b msg) = removeFirst msg (messages b) /\
  states (moveMessageToRejected b msg) = states b.
Proof.
  unfold moveMessageToRejected, includes. simpl. split; [| done].
  case_bool_decide as Hin; [done |]. apply elem_of_app. right. by left.
Qed.

Lemma removeFirst_not_in (x : Item) (l : list Item) :
  NoDup l -> x ∉ removeFirst x l.
Proof.
  induction 1 as [| y l Hy Hnd IH]; simpl; [apply not_elem_of_nil |].
  case_decide as Heq; [by subst |].
  apply not_elem_of_cons. split; [congruence | done].
Qed.

Example cache_of_ambiguousItem :
  cachePrevStatesByBfkOrMsg (messageStates ambiguousItem) [msgA] (states freshBatch)
  = Ok (cacheOf priorMessageState) /\
  cachePrevStatesByBfkOrMsg (rejectedMessageStates ambiguousItem) [msgA]
    (states freshBatch)
  = Ok (cacheOf priorRejectedState).
Proof. split; reflexivity. Qed.

(** C4, as stated, fails: the current message E1 has a prior state in the
message-state map and another in the rejected-message-state map. The first
loop takes the task maps from the message-state map, and still moves the
message to [rejectedMessages]: the move does not depend on where the match
came from. (The second loop then restores the moved message once more, this
time from the rejected-message-state map.) *)
Lemma C4_moved_although_matched_as_message :
  let step := restoreMessageState (cacheOf priorMessageState)
                (cacheOf priorRejectedState) freshBatch msgA in
  let done := restoreMessageAndRejectedMessageStates freshBatch ambiguousItem in
  lookupPrev (cacheOf priorMessageState) (bfkOf freshState) msgA
    = Some priorMessageState /\
  (ones <$> states (fst step) !! msgA) = Some (ones priorMessageState) /\
  messages (fst step) = [] /\
  rejectedMessages (fst step) = [msgA] /\
  snd done = None /\
  messages (fst done) = [] /\
  rejectedMessages (fst done) = [msgA] /\
  (ones <$> states (fst done) !! msgA) = Some (ones priorRejectedState).
Proof. vm_compute. repeat split; reflexivity. Qed.

(** One round of the first loop, for a current message with a tracked state:
the lookups, the task maps that the round sets, and the move. *)
Lemma restoreMessageState_spec (prevMsgStates prevRejMsgStates : Caches)
    (batch : Batch) (msg : Item) (currState : TrackedState) :
  states batch !! msg = Some currState ->
  let prevMsgState := lookupPrev prevMsgStates (bfkOf currState) msg in
  let prevRejMsgState := lookupPrev prevRejMsgStates (bfkOf currState) msg in
  let after := fst (restoreMessageState prevMsgStates prevRejMsgStates batch msg) in
  snd (restoreMessageState prevMsgStates prevRejMsgStates batch msg) = None /\
  (hasMessageIdentifier currState = true ->
     prevMsgState = fst prevMsgStates !! toMessageBFK currState /\
     prevRejMsgState = fst prevRejMsgStates !! toMessageBFK currState) /\
  (hasMessageIdentifier currState = false ->
     prevMsgState = snd prevMsgStates !! msg /\
     prevRejMsgState = snd prevRejMsgStates !! msg) /\
  (forall prev,
     prevMsgState = Some prev \/ (prevMsgState = None /\ prevRejMsgState = Some prev) ->
     exists st, states after !! msg = Some st /\
       ones st = ones prev /\ alls st = alls prev /\ discards st = discards prev) /\
  (is_Some prevRejMsgState ->
     msg ∈ rejectedMessages after /\
     messages after = removeFirst msg (messages batch) /\
     (NoDup (messages batch) -> msg ∉ messages after)) /\
  (prevRejMsgState = None ->
     messages after = messages batch /\
     rejectedMessages after = rejectedMessages batch) /\
  (prevMsgState = None -> prevRejMsgState = None -> after = batch) /\
  (forall other, other <> msg -> states after !! other = states batch !! other).
Proof.
  intros Hcurr prevMsgState prevRejMsgState after.
  subst after. unfold restoreMessageState. rewrite Hcurr.
  fold prevMsgState prevRejMsgState.
  split; [by destruct prevMsgState, prevRejMsgState |].
  split; [intros Hid; split; by apply lookupPrev_by_bfk |].
  split; [intros Hid; split; by apply lookupPrev_by_msg |].
  split.
  { intros prev [Hm | [Hm Hr]].
    - rewrite Hm. simpl. eexists. split; [apply lookup_insert_eq |].
      apply setMessageStateToPrev_maps.
    - rewrite Hm, Hr. simpl. eexists. split; [apply lookup_insert_eq |].
      apply setMessageStateToPrev_maps. }
  split.
  { intros [prev Hr]. rewrite Hr.
    destruct (moveMessageToRejected_spec batch msg) as (Hin & Hms & _).
    assert (Hor : exists p, orElse prevMsgState (Some prev) = Some p)
      by (destruct prevMsgState; simpl; eauto).
    destruct Hor as [p ->]. simpl. fold (moveMessageToRejected batch msg).
    repeat split; try done.
    intros Hnd. by apply removeFirst_not_in. }
  split.
  { intros ->. by destruct prevMsgState. }
  split.
  { by intros -> ->. }
  intros other Hne.
  destruct (orElse prevMsgState prevRejMsgState); [| done].
  simpl. rewrite lookup_insert_ne by done. by destruct prevRejMsgState.
Qed.

End RestoreFacts.

(** ** The same-key comparator (sequencing.js) *)

Section ComparatorFacts.
Import Tasks Tracking BatchM Sequencing Fixtures.

Variable compareStrings : string -> string -> Z.
Variable deepEqual : option (list (string * Value)) ->
                     option (list (string * Value)) -> bool.

Lemma compareSeqNoParts_skips_ties (tied1 tied2 l1 l2 : list SeqNoPart) :
  Forall2 (partsTie compareStrings) tied1 tied2 ->
  compareSeqNoParts compareStrings (tied1 ++ l1) (tied2 ++ l2)
  = compareSeqNoParts compareStrings l1 l2.
Proof.
  induction 1 as [| p1 p2 t1 t2 (Hk & Hs & cmp & Hc & Hv) _ IH]; [reflexivity |].
  simpl. rewrite Hk. simpl. rewrite bool_decide_eq_true_2 by done. simpl.
  rewrite Hc, Hv. simpl. exact IH.
Qed.

Lemma compareSeqNos_same_length (l1 l2 : list SeqNoPart) :
  length l1 = length l2 ->
  compareSeqNos compareStrings l1 l2 = compareSeqNoParts compareStrings l1 l2.
Proof.
  intros Hlen. unfold compareSeqNos. rewrite Hlen, Nat.max_id.
  by rewrite Nat.ltb_irrefl.
Qed.

Lemma compareSeqNoParts_range (l1 l2 : list SeqNoPart) (z : Z) :
  (forall a b, compareStrings a b = -1 \/ compareStrings a b = 0
               \/ compareStrings a b = 1) ->
  compareSeqNoParts compareStrings l1 l2 = Ok z -> z = -1 \/ z = 0 \/ z = 1.
Proof.
  intros Hrange. revert l2.
  induction l1 as [| p1 l1 IH]; intros [| p2 l2]; simpl;
    try (intros [= <-]; auto).
  destruct (compareStrings (partKey p1) (partKey p2) =? 0) eqn:Hk; simpl.
  2: { intros [= <-]. apply Hrange. }
  case_bool_decide; simpl; [| discriminate].
  destruct (compareOf p1 p2) as [cmp |]; [| discriminate].
  destruct (cmp (partVal p1) (partVal p2) <? 0); [intros [= <-]; auto |].
  destruct (0 <? cmp (partVal p1) (partVal p2)); [intros [= <-]; auto |].
  apply IH.
Qed.

Example compareSameKey_sample :
  compareSameKeyMessages compareStringsJs deepEqualKeys msgA msgB
    (<[msgA := keyedState "K1" [part "n" 3]]>
       (<[msgB := keyedState "K1" [part "n" 1]]> ∅))
  = Ok 1.
Proof. vm_compute. reflexivity. Qed.

(** C5, as stated, fails: two messages of the same key, the first with the
single part a, the second with the parts b and c. Their part keys differ at
ordinal 0 and a sorts before b, so breaking the mismatch by part-key name
gives -1; the comparator answers +1, because it looks at the number of parts
before it looks at any part. *)
Lemma C5_part_count_is_compared_first :
  compareStringsJs "a" "b" = -1 /\
  compareBySpecSteps compareStringsJs [part "a" 1] [part "b" 1; part "c" 2]
  = Ok (-1) /\
  compareSameKeyMessages compareStringsJs deepEqualKeys msgA msgB unevenStates = Ok 1.
Proof. vm_compute. repeat split; reflexivity. Qed.

(** C5, amended: for two messages with tracked states the same-key
comparator fails when their keys are not deep-equal (as the package
deep-equal judges them without its strict option); otherwise it first compares
the numbers of sequence-number parts, and a message with fewer parts sorts
after a message with more parts, whatever the parts are; only for equal
numbers of parts does it go through the parts ordinal by ordinal: at the first
ordinal whose parts do not tie, a part-key mismatch is broken by part-key
name, at matching part keys it fails hard if the two sortables' sort kinds
disagree, it fails hard too if the sort kinds agree and there is no compare
function, and otherwise it compares the values with the sortable's compare
function; when all parts tie the result is 0. The result is always -1, 0 or
+1, provided that the string comparison of the part keys is. *)
Theorem C5_same_key_comparator (states : gmap Item TrackedState)
    (msg1 msg2 : Item) (st1 st2 : TrackedState) :
  states !! msg1 = Some st1 -> states !! msg2 = Some st2 ->
  let result := compareSameKeyMessages compareStrings deepEqual msg1 msg2 states in
  (deepEqual (keys st1) (keys st2) = false -> result = Throw differentKeys) /\
  (deepEqual (keys st1) (keys st2) = true ->
   ((length (seqNos st1) < length (seqNos st2))%nat -> result = Ok 1) /\
   ((length (seqNos st2) < length (seqNos st1))%nat -> result = Ok (-1)) /\
   (forall tied1 tied2 part1 part2 rest1 rest2,
      seqNos st1 = tied1 ++ part1 :: rest1 ->
      seqNos st2 = tied2 ++ part2 :: rest2 ->
      length rest1 = length rest2 ->
      Forall2 (partsTie compareStrings) tied1 tied2 ->
      let keyComparison := compareStrings (partKey part1) (partKey part2) in
      (keyComparison <> 0 -> result = Ok keyComparison) /\
      (keyComparison = 0 -> sortTypeOf part1 <> sortTypeOf part2 ->
       result = Throw differentSortTypes) /\
      (keyComparison = 0 -> sortTypeOf part1 = sortTypeOf part2 ->
       compareOf part1 part2 = None -> result = Throw missingCompare) /\
      (keyComparison = 0 -> sortTypeOf part1 = sortTypeOf part2 ->
       forall compare, compareOf part1 part2 = Some compare ->
         (compare (partVal part1) (partVal part2) < 0 -> result = Ok (-1)) /\
         (0 < compare (partVal part1) (partVal part2) -> result = Ok 1))) /\
   (Forall2 (partsTie compareStrings) (seqNos st1) (seqNos st2) ->
    result = Ok 0)) /\
  ((forall a b, compareStrings a b = -1 \/ compareStrings a b = 0
                \/ compareStrings a b = 1) ->
   forall z, result = Ok z -> z = -1 \/ z = 0 \/ z = 1).
Proof.
  intros H1 H2 result. subst result.
  unfold compareSameKeyMessages, stateOf. rewrite H1, H2. simpl.
  split; [| split].
  - intros Hne. by rewrite Hne.
  - intros Heq. rewrite Heq. simpl.
    split; [| split; [| split]].
    + intros Hlt. unfold compareSeqNos.
      rewrite Nat.max_r by lia.
      by rewrite (proj2 (Nat.ltb_lt _ _) Hlt).
    + intros Hlt. unfold compareSeqNos.
      rewrite Nat.max_l by lia. rewrite Nat.ltb_irrefl.
      by rewrite (proj2 (Nat.ltb_lt _ _) Hlt).
    + intros tied1 tied2 part1 part2 rest1 rest2 E1 E2 Hrest Htied.
      rewrite compareSeqNos_same_length.
      2: { rewrite E1, E2, !length_app. simpl.
           rewrite (Forall2_length _ _ _ Htied). lia. }
      rewrite E1, E2, compareSeqNoParts_skips_ties by done. simpl.
      split; [| split; [| split]].
      * intros Hk. by rewrite (proj2 (Z.eqb_neq _ _) Hk).
      * intros -> Hs. simpl. by rewrite bool_decide_eq_false_2.
      * intros -> Hs Hc. simpl.
        rewrite bool_decide_eq_true_2 by done. simpl. by rewrite Hc.
      * intros -> Hs cmp Hc. simpl.
        rewrite bool_decide_eq_true_2 by done. simpl. rewrite Hc. split.
        -- intros Hv. by rewrite (proj2 (Z.ltb_lt _ _) Hv).
        -- intros Hv. rewrite (proj2 (Z.ltb_ge _ _)) by lia.
           by rewrite (proj2 (Z.ltb_lt _ _) Hv).
    + intros Htied.
      rewrite compareSeqNos_same_length by (by eapply Forall2_length).
      rewrite <- (app_nil_r (seqNos st1)), <- (app_nil_r (seqNos st2)).
      by rewrite compareSeqNoParts_skips_ties.
  - intros Hrange z.
    destruct (deepEqual (keys st1) (keys st2)); simpl; [| discriminate].
    unfold compareSeqNos.
    destruct (_ <? _)%nat; [intros [= <-]; auto |].
    destruct (_ <? _)%nat; [intros [= <-]; auto |].
    by apply compareSeqNoParts_range.
Qed.

End ComparatorFacts.

Section ComparatorWitness.
Import Tasks Tracking BatchM Sequencing Fixtures.

Lemma C5_witness :
  compareSameKeyMessages compareStringsJs deepEqualKeys msgA msgB unevenStates = Ok 1.
Proof.
  refine (proj1 (proj1 (proj2 (C5_same_key_comparator compareStringsJs
            deepEqualKeys unevenStates msgA msgB
            (keyedState "K1" [part "a" 1])
            (keyedState "K1" [part "b" 1; part "c" 2]) _ _)) _) _).
  - reflexivity.
  - reflexivity.
  - reflexivity.
  - simpl. lia.
Defined.

End ComparatorWitness.

(** ** Sequencing into chains (sequencing.js) *)

Section SequencingFacts.
Import Tasks Tracking BatchM Sequencing Fixtures.

Variable compareStrings : string -> string -> Z.
Variable toSortable : list (option Value) -> Sortable.
Variable deepEqual : option (list (string * Value)) ->
                     option (list (string * Value)) -> bool.

Lemma agreeOn_refl {B} (f : TrackedState -> B) s : agreeOn f s s.
Proof. by intros m. Qed.

Lemma agreeOn_trans {B} (f : TrackedState -> B) s1 s2 s3 :
  agreeOn f s1 s2 -> agreeOn f s2 s3 -> agreeOn f s1 s3.
Proof. intros H1 H2 m. by rewrite H1. Qed.

Lemma agreeOn_alter {B} (f : TrackedState -> B) (g : TrackedState -> TrackedState)
    (x : Item) s :
  (forall st, f (g st) = f st) -> agreeOn f s (alter g x s).
Proof.
  intros Hg m. destruct (decide (x = m)) as [-> | Hne].
  - rewrite lookup_alter_eq. destruct (s !! m); simpl; by rewrite ?Hg.
  - by rewrite lookup_alter_ne.
Qed.

Lemma agreeOn_is_Some {B} (f : TrackedState -> B) s s' m :
  agreeOn f s s' -> is_Some (s !! m) -> is_Some (s' !! m).
Proof.
  intros H [st Hst]. specialize (H m). rewrite Hst in H.
  destruct (s' !! m); [eauto | discriminate].
Qed.

Lemma linkMessages_agree (prev : option Item) (msgs : list Item) s :
  agreeOn sortView s (linkMessages prev msgs s).
Proof.
  revert prev s. induction msgs as [| m rest IH]; intros prev s; simpl.
  - destruct prev; [by apply agreeOn_alter | apply agreeOn_refl].
  - eapply agreeOn_trans; [| apply IH].
    apply (agreeOn_trans _ _ (alter (fun st => setPrevMessage st prev) m s));
      [by apply agreeOn_alter |].
    destruct prev; [by apply agreeOn_alter | apply agreeOn_refl].
Qed.


Lemma stateOf_agree (s s' : gmap Item TrackedState) (m : Item) :
  agreeOn sortView s s' ->
  sortView <$> stateOf s m = sortView <$> stateOf s' m.
Proof.
  intros H. specialize (H m). unfold stateOf.
  destruct (s !! m), (s' !! m); simpl in *; congruence.
Qed.

Lemma compareSameKeyMessages_agree (s s' : gmap Item TrackedState) (m1 m2 : Item) :
  agreeOn sortView s s' ->
  compareSameKeyMessages compareStrings deepEqual m1 m2 s
  = compareSameKeyMessages compareStrings deepEqual m1 m2 s'.
Proof.
  intros H. unfold compareSameKeyMessages, stateOf.
  pose proof (H m1) as H1. pose proof (H m2) as H2.
  destruct (s !! m1) as [a1 |], (s' !! m1) as [b1 |]; simpl in *; try done.
  destruct (s !! m2) as [a2 |], (s' !! m2) as [b2 |]; simpl in *; try done.
  unfold sortView in *.
  injection H1 as Hk1 _ Hs1. injection H2 as Hk2 _ Hs2.
  by rewrite Hk1, Hk2, Hs1, Hs2.
Qed.

Lemma groupKeyOf_agree (s s' : gmap Item TrackedState) (m : Item) :
  agreeOn sortView s s' -> groupKeyOf s m = groupKeyOf s' m.
Proof.
  intros H. specialize (H m). unfold groupKeyOf, groupKey.
  destruct (s !! m), (s' !! m); simpl in *; try done.
  unfold sortView in H. injection H as Hk Hkey _. by rewrite Hk, Hkey.
Qed.

Lemma insertSorted_ext (c1 c2 : Item -> Item -> Try Z) (x : Item) (l : list Item) :
  (forall a b, c1 a b = c2 a b) -> insertSorted c1 x l = insertSorted c2 x l.
Proof.
  intros H. induction l as [| y l IH]; [reflexivity |].
  simpl. rewrite H. destruct (c2 x y) as [c |]; simpl; [| reflexivity].
  destruct (c <=? 0); [reflexivity |]. by rewrite IH.
Qed.

Lemma sort_ext (c1 c2 : Item -> Item -> Try Z) (l : list Item) :
  (forall a b, c1 a b = c2 a b) -> sort c1 l = sort c2 l.
Proof.
  intros H. induction l as [| x l IH]; [reflexivity |].
  simpl. rewrite IH. destruct (sort c2 l); simpl; [| reflexivity].
  by apply insertSorted_ext.
Qed.

Lemma insertSorted_Permutation (c : Item -> Item -> Try Z) (x : Item)
    (l s : list Item) :
  insertSorted c x l = Ok s -> s ≡ₚ x :: l.
Proof.
  revert s. induction l as [| y l IH]; intros s; simpl.
  - by intros [= <-].
  - destruct (c x y) as [z |]; simpl; [| discriminate].
    destruct (z <=? 0); [by intros [= <-] |].
    destruct (insertSorted c x l) as [s' |]; simpl; [| discriminate].
    intros [= <-]. rewrite (IH s' eq_refl). apply Permutation_swap.
Qed.

Lemma sort_Permutation (c : Item -> Item -> Try Z) (l s : list Item) :
  sort c l = Ok s -> s ≡ₚ l.
Proof.
  revert s. induction l as [| x l IH]; intros s; simpl.
  - by intros [= <-].
  - destruct (sort c l) as [s' |]; simpl; [| discriminate].
    intros H. apply insertSorted_Permutation in H. rewrite H.
    by rewrite (IH s' eq_refl).
Qed.


Lemma linkMessages_links (msgs : list Item) (prev : option Item)
    (s : gmap Item TrackedState) :
  NoDup (option_list prev ++ msgs) ->
  (forall m, m ∈ option_list prev ++ msgs -> is_Some (s !! m)) ->
  (forall x, x ∉ option_list prev ++ msgs ->
     linkMessages prev msgs s !! x = s !! x) /\
  (forall i m, msgs !! i = Some m ->
     exists st, linkMessages prev msgs s !! m = Some st /\
       prevMessage st = match i with O => prev | S j => msgs !! j end /\
       nextMessage st = msgs !! S i) /\
  (forall p, prev = Some p ->
     exists st st0, s !! p = Some st0 /\
       linkMessages prev msgs s !! p = Some st /\
       prevMessage st = prevMessage st0 /\ nextMessage st = head msgs).
Proof.
  revert prev s. induction msgs as [| m rest IH]; intros prev s Hnd Hdom.
  - simpl. split; [| split].
    + intros x Hx. destruct prev as [p |]; [| done].
      apply lookup_alter_ne. intros ->. apply Hx. set_solver.
    + intros i m Hi. by rewrite lookup_nil in Hi.
    + intros p ->. destruct (Hdom p) as [st0 Hst0]; [set_solver |].
      exists (setNextMessage st0 None), st0.
      rewrite lookup_alter_eq, Hst0. by repeat split.
  - simpl.
    set (s1 := alter (fun st => setPrevMessage st prev) m s).
    set (s2 := match prev with
               | Some p => alter (fun st => setNextMessage st (Some m)) p s1
               | None => s1
               end).
    assert (Hm : (m ∉ rest) /\ NoDup rest /\
                 forall p, prev = Some p -> p <> m /\ (p ∉ rest)).
    { destruct prev as [p |]; simpl in Hnd.
      - apply NoDup_cons in Hnd as [Hp Hnd]. apply NoDup_cons in Hnd as [Hm Hnd].
        split; [done |]. split; [done |].
        intros ? [= <-]. set_solver.
      - apply NoDup_cons in Hnd as [Hm Hnd]. by repeat split. }
    destruct Hm as (Hm & Hrest & Hprev).
    destruct (Hdom m) as [stm Hstm]; [set_solver |].
    assert (Hs1m : s1 !! m = Some (setPrevMessage stm prev))
      by (unfold s1; by rewrite lookup_alter_eq, Hstm).
    assert (Hs2m : s2 !! m = Some (setPrevMessage stm prev)).
    { unfold s2. destruct prev as [p |]; [| done].
      rewrite lookup_alter_ne; [done |]. by apply Hprev. }
    assert (Hs2other : forall x, x <> m -> x ∉ option_list prev ->
                                 s2 !! x = s !! x).
    { intros x Hxm Hxp. unfold s2, s1. destruct prev as [p |].
      - rewrite !lookup_alter_ne; [done | congruence | set_solver].
      - by rewrite lookup_alter_ne. }
    destruct (IH (Some m) s2) as (I1 & I2 & I3).
    { simpl. by apply NoDup_cons. }
    { intros x Hx. simpl in Hx. apply elem_of_cons in Hx as [-> | Hx]; [by eauto |].
      destruct (decide (x ∈ option_list prev)) as [Hin | Hnin].
      - destruct prev as [p |]; [| set_solver].
        assert (x = p) as -> by set_solver.
        destruct (Hdom p) as [stp Hstp]; [set_solver |].
        unfold s2, s1. rewrite lookup_alter_eq, lookup_alter_ne, Hstp; [by eauto |].
        intros ->. by destruct (Hprev p eq_refl).
      - rewrite Hs2other; [apply Hdom; set_solver | | done].
        intros ->. done. }
    split; [| split].
    + intros x Hx. rewrite I1 by set_solver.
      apply Hs2other; set_solver.
    + intros [| j] m' Hi.
      * simpl in Hi. injection Hi as <-.
        destruct (I3 m eq_refl) as (st & st0 & H0 & H1 & H2 & H3).
        rewrite Hs2m in H0. injection H0 as <-.
        exists st. repeat split; [done | by rewrite H2 |].
        rewrite H3. by destruct rest.
      * simpl in Hi. destruct (I2 j m' Hi) as (st & H1 & H2 & H3).
        exists st. repeat split; [done | | done].
        rewrite H2. by destruct j.
    + intros p ->. destruct (Hprev p eq_refl) as [Hpm Hpr].
      destruct (Hdom p) as [stp Hstp]; [set_solver |].
      exists (setNextMessage stp (Some m)), stp.
      repeat split; [done | ].
      rewrite I1 by set_solver.
      unfold s2, s1. by rewrite lookup_alter_eq, lookup_alter_ne, Hstp.
Qed.


Lemma isChain_agree (s s' : gmap Item TrackedState) (chain : list Item) :
  (forall m, m ∈ chain -> s' !! m = s !! m) -> isChain s chain -> isChain s' chain.
Proof.
  intros Hsame Hchain i m Hi. rewrite Hsame by (by eapply list_elem_of_lookup_2).
  by apply Hchain.
Qed.

Lemma foldl_sequenceGroup_Throw
    (cmp : Item -> Item -> gmap Item TrackedState -> Try Z) (e : Err)
    (groups : list (string * list Item)) :
  foldl (sequenceGroup cmp) (Throw e) groups = Throw e.
Proof. by induction groups. Qed.

Lemma sequenceGroups_chains (groups : list (string * list Item)) :
  forall (f0 : list Item) (s0 : gmap Item TrackedState) f s,
  NoDup (concat (map snd groups)) ->
  (forall m, m ∈ concat (map snd groups) -> is_Some (s0 !! m)) ->
  foldl (sequenceGroup (compareSameKeyMessages compareStrings deepEqual)) (Ok (f0, s0)) groups
  = Ok (f, s) ->
  exists chains,
    Forall2 (fun g chain =>
               sort (fun m1 m2 => compareSameKeyMessages compareStrings deepEqual m1 m2 s0)
                    (snd g) = Ok chain) groups chains /\
    f = f0 ++ omap head chains /\
    agreeOn sortView s0 s /\
    Forall (isChain s) chains /\
    (forall x, x ∉ concat (map snd groups) -> s !! x = s0 !! x).
Proof.
  induction groups as [| g groups IH]; intros f0 s0 f s Hnd Hdom Hfold.
  - simpl in Hfold. injection Hfold as <- <-. exists [].
    repeat split; [constructor | by rewrite app_nil_r | constructor].
  - simpl in Hfold, Hnd, Hdom.
    destruct (sort (fun m1 m2 => compareSameKeyMessages compareStrings deepEqual m1 m2 s0)
                   (snd g)) as [c | e] eqn:Hsort; simpl in Hfold.
    2: { by rewrite foldl_sequenceGroup_Throw in Hfold. }
    pose proof (sort_Permutation _ _ _ Hsort) as Hperm.
    apply NoDup_app in Hnd as (Hndg & Hdisj & Hndrest).
    set (s1 := linkMessages None c s0) in *.
    destruct (linkMessages_links c None s0) as (L1 & L2 & _).
    { simpl. by rewrite Hperm. }
    { simpl. intros m Hm. apply Hdom. rewrite Hperm in Hm. set_solver. }
    pose proof (linkMessages_agree None c s0) as Hagree1. fold s1 in Hagree1, L1, L2.
    destruct (IH (f0 ++ option_list (head c)) s1 f s Hndrest) as (chains & HF & Hf & Hagree & Hchains & Hother).
    { intros m Hm. rewrite L1.
      - apply Hdom. set_solver.
      - simpl. rewrite Hperm. intros Hin. by apply (Hdisj m). }
    { exact Hfold. }
    exists (c :: chains). split; [| split; [| split; [| split]]].
    + constructor; [done |].
      eapply Forall2_impl; [exact HF |]. intros g' c' Hs. simpl in Hs.
      rewrite <- Hs. apply sort_ext. intros a b.
      by apply compareSameKeyMessages_agree.
    + rewrite Hf. simpl. rewrite <- app_assoc. by destruct (head c).
    + by eapply agreeOn_trans.
    + constructor; [| done].
      apply (isChain_agree s1).
      * intros m Hm. apply Hother. rewrite Hperm in Hm. by apply Hdisj.
      * intros i m Hi. destruct (L2 i m Hi) as (st & H1 & H2 & H3). by exists st.
    + intros x Hx. rewrite Hother by set_solver.
      apply L1. simpl. rewrite Hperm. set_solver.
Qed.


Lemma elem_of_uniq `{EqDecision A} (l : list A) (x : A) : x ∈ uniq l <-> x ∈ l.
Proof.
  induction l as [| y l IH]; simpl; [done |].
  rewrite !elem_of_cons, list_elem_of_filter, IH.
  destruct (decide (x = y)); naive_solver.
Qed.

Lemma NoDup_uniq `{EqDecision A} (l : list A) : NoDup (uniq l).
Proof.
  induction l as [| y l IH]; simpl; [constructor |].
  apply NoDup_cons. split.
  - rewrite list_elem_of_filter. naive_solver.
  - by apply NoDup_filter.
Qed.

Lemma elem_of_concat {A} (ls : list (list A)) (x : A) :
  x ∈ concat ls <-> exists l, l ∈ ls /\ x ∈ l.
Proof.
  rewrite list_elem_of_In, in_concat. split; intros (l & H1 & H2); exists l.
  - by rewrite !list_elem_of_In.
  - by rewrite <- !list_elem_of_In.
Qed.

Lemma NoDup_groups (keyOf : Item -> string) (l : list Item) (ks : list string) :
  NoDup ks -> NoDup l ->
  NoDup (concat (map snd (map (fun k => (k, filter (fun m => keyOf m = k) l)) ks))).
Proof.
  intros Hks Hl. induction Hks as [| k ks Hk Hks IH]; simpl; [constructor |].
  apply NoDup_app. split; [by apply NoDup_filter |]. split; [| done].
  intros x Hx Hin. apply list_elem_of_filter in Hx as [Hkx _].
  apply elem_of_concat in Hin as (c & Hc & Hxc).
  rewrite map_map in Hc. simpl in Hc.
  apply (list_elem_of_fmap (fun k0 => filter (fun m => keyOf m = k0) l)) in Hc
    as (k' & -> & Hk').
  simpl in Hxc. apply list_elem_of_filter in Hxc as [Hkx' _]. congruence.
Qed.

Lemma storeSeqNos_agree (msgs : list Item) (all : list (list SeqNoPart)) s :
  agreeOn groupView s (storeSeqNos msgs all s).
Proof.
  revert all s. induction msgs as [| m msgs IH]; intros [| sns all] s; simpl;
    try apply agreeOn_refl.
  eapply agreeOn_trans; [| apply IH]. by apply agreeOn_alter.
Qed.

Lemma statesOf_ok (s : gmap Item TrackedState) (l : list Item) sts :
  statesOf s l = Ok sts -> forall m, m ∈ l -> is_Some (s !! m).
Proof.
  revert sts. induction l as [| x l IH]; intros sts H m Hm; [by apply elem_of_nil in Hm |].
  simpl in H. unfold stateOf in H.
  destruct (s !! x) as [st |] eqn:Hx; simpl in H; [| discriminate].
  destruct (statesOf s l) as [sts' |]; simpl in H; [| discriminate].
  apply elem_of_cons in Hm as [-> | Hm]; [by eauto | by eapply IH].
Qed.

Lemma prepareMessagesForSequencing_ok (msgs : list Item) s context prepared :
  (2 <= length msgs)%nat ->
  prepareMessagesForSequencing toSortable msgs s context = Ok prepared ->
  (forall m, m ∈ msgs -> is_Some (s !! m)) /\ agreeOn groupView s prepared.
Proof.
  intros Hlen. unfold prepareMessagesForSequencing.
  rewrite (proj2 (Nat.ltb_ge _ _)) by lia.
  destruct (statesOf s msgs) as [sts |] eqn:Hsts; simpl; [| discriminate].
  destruct (foldl _ _ _) as [all |]; simpl; [| discriminate].
  intros [= <-]. split; [by eapply statesOf_ok | apply storeSeqNos_agree].
Qed.

Lemma groupKeyOf_groupView (s s' : gmap Item TrackedState) (m : Item) :
  agreeOn groupView s s' -> groupKeyOf s m = groupKeyOf s' m.
Proof.
  intros H. specialize (H m). unfold groupKeyOf, groupKey.
  destruct (s !! m), (s' !! m); simpl in *; try done.
  unfold groupView in H. injection H as Hk Hkey. by rewrite Hk, Hkey.
Qed.


Lemma groupBy_ext (l : list Item) (f g : Item -> string) :
  (forall m, f m = g m) -> groupBy l f = groupBy l g.
Proof.
  intros H. unfold groupBy.
  rewrite (map_ext f g H). apply map_ext. intros k. f_equal.
  apply list_filter_iff. intros m. by rewrite H.
Qed.

Example sequence_shuffledBatch :
  fst <$> sequenceMessages compareStringsJs toSortableNumbers deepEqualKeys shuffledBatch
            (configured true true)
  = Ok [msgB; msgR].
Proof. vm_compute. reflexivity. Qed.

Lemma sequenceMessages_chains (batch : Batch) (context : Context)
    (firsts : list Item) (states' : gmap Item TrackedState) :
  (2 <= length (messages batch))%nat ->
  sequencingRequired (streamProcessing context) = true ->
  sequencingPerKey (streamProcessing context) = true ->
  NoDup (messages batch) ->
  sequenceMessages compareStrings toSortable deepEqual batch context = Ok (firsts, states') ->
  exists prepared chains,
    prepareMessagesForSequencing toSortable (messages batch) (states batch) context
    = Ok prepared /\
    Forall2 (fun keyString chain =>
               sort (fun m1 m2 => compareSameKeyMessages compareStrings deepEqual m1 m2 prepared)
                    (filter (fun m => groupKeyOf (states batch) m = keyString)
                            (messages batch))
               = Ok chain)
            (uniq (map (groupKeyOf (states batch)) (messages batch))) chains /\
    Forall (isChain states') chains /\
    (forall m, m ∈ messages batch <-> exists chain, chain ∈ chains /\ m ∈ chain) /\
    firsts = omap head chains /\
    (forall m, m ∈ messages batch ->
       (m ∈ firsts <-> exists st, states' !! m = Some st /\ prevMessage st = None)).
Proof.
  intros Hlen Hreq Hper Hnd Hseq.
  unfold sequenceMessages in Hseq.
  rewrite (proj2 (Nat.ltb_ge _ _)) in Hseq by lia.
  rewrite Hreq, Hper in Hseq. simpl in Hseq.
  destruct (prepareMessagesForSequencing toSortable (messages batch) (states batch)
              context) as [prepared | e] eqn:Hprep; simpl in Hseq; [| discriminate].
  destruct (prepareMessagesForSequencing_ok _ _ _ _ Hlen Hprep) as [Hdom Hview].
  rewrite (groupBy_ext _ _ (groupKeyOf (states batch))) in Hseq.
  2: { intros m. symmetry. by apply groupKeyOf_groupView. }
  set (keyOf := groupKeyOf (states batch)) in *.
  set (keyStrings := uniq (map keyOf (messages batch))) in *.
  assert (Hgroups : forall m, m ∈ concat (map snd (groupBy (messages batch) keyOf))
                              -> m ∈ messages batch).
  { intros m Hm. apply elem_of_concat in Hm as (c & Hc & Hmc).
    unfold groupBy in Hc. rewrite map_map in Hc. simpl in Hc.
    apply (list_elem_of_fmap (fun k => filter (fun m => keyOf m = k) (messages batch)))
      in Hc as (k & -> & _).
    by apply list_elem_of_filter in Hmc as [_ ?]. }
  destruct (sequenceGroups_chains (groupBy (messages batch) keyOf) [] prepared
              firsts states') as
    (chains & HF & Hf & _ & Hchains & _).
  { apply NoDup_groups; [apply NoDup_uniq | done]. }
  { intros m Hm. eapply agreeOn_is_Some; [exact Hview |]. by apply Hdom, Hgroups. }
  { exact Hseq. }
  simpl in Hf.
  assert (HF' : Forall2 (fun keyString chain =>
             sort (fun m1 m2 => compareSameKeyMessages compareStrings deepEqual m1 m2 prepared)
                  (filter (fun m => keyOf m = keyString) (messages batch))
             = Ok chain) keyStrings chains).
  { unfold groupBy in HF. by apply Forall2_fmap_l in HF. }
  assert (Hmem : forall m, m ∈ messages batch
                           <-> exists chain, chain ∈ chains /\ m ∈ chain).
  { intros m. split.
    - intros Hm.
      assert (Hk : keyOf m ∈ keyStrings)
        by (apply elem_of_uniq, list_elem_of_In, in_map, list_elem_of_In, Hm).
      apply list_elem_of_lookup in Hk as [i Hi].
      destruct (Forall2_lookup_l _ _ _ _ _ HF' Hi) as (c & Hc & Hsort).
      exists c. split; [by eapply list_elem_of_lookup_2 |].
      rewrite (sort_Permutation _ _ _ Hsort). by apply list_elem_of_filter.
    - intros (c & Hc & Hmc). apply list_elem_of_lookup in Hc as [i Hi].
      destruct (Forall2_lookup_r _ _ _ _ _ HF' Hi) as (k & _ & Hsort).
      rewrite (sort_Permutation _ _ _ Hsort) in Hmc.
      by apply list_elem_of_filter in Hmc as [_ ?]. }
  exists prepared, chains.
  split; [done |]. split; [done |]. split; [done |]. split; [exact Hmem |].
  split; [done |]. intros m Hm. split.
  - rewrite Hf. intros Hin. apply list_elem_of_omap in Hin as (c & Hc & Hhead).
    rewrite Forall_forall in Hchains. rewrite head_lookup in Hhead.
    destruct (Hchains c Hc 0%nat m Hhead) as (st & Hst & Hp & _). by exists st.
  - intros (st & Hst & Hprev). rewrite Hf.
    apply Hmem in Hm as (c & Hc & Hmc).
    apply list_elem_of_lookup in Hmc as [i Hi].
    rewrite Forall_forall in Hchains.
    destruct (Hchains c Hc i m Hi) as (st' & Hst' & Hp & _).
    rewrite Hst in Hst'. injection Hst' as <-.
    destruct i as [| j].
    + apply list_elem_of_omap. exists c. split; [done |]. by rewrite head_lookup.
    + rewrite Hprev in Hp. symmetry in Hp.
      apply lookup_ge_None in Hp. apply lookup_lt_Some in Hi. lia.
Qed.


(** *** Sequencing succeeds on well-formed batches *)

Lemma insertSorted_total (c : Item -> Item -> Try Z) (x : Item) (l : list Item) :
  (forall b, b ∈ l -> exists z, c x b = Ok z) -> exists s, insertSorted c x l = Ok s.
Proof.
  induction l as [| y l IH]; intros H; simpl; [by eauto |].
  destruct (H y) as [z ->]; [by left |]. simpl.
  destruct (z <=? 0); [by eauto |].
  destruct IH as [s ->]; [| by simpl; eauto].
  intros b Hb. apply H. by right.
Qed.

Lemma sort_total (c : Item -> Item -> Try Z) (l : list Item) :
  (forall a b, a ∈ l -> b ∈ l -> exists z, c a b = Ok z) -> exists s, sort c l = Ok s.
Proof.
  induction l as [| x l IH]; intros H; simpl; [by eauto |].
  destruct IH as [s Hs].
  { intros a b Ha Hb. apply H; by right. }
  rewrite Hs. simpl. apply insertSorted_total.
  intros b Hb. apply H; [by left |]. right.
  by rewrite <- (sort_Permutation _ _ _ Hs).
Qed.

Lemma compareSeqNoParts_total (l1 l2 : list SeqNoPart) :
  Forall2 comparableParts l1 l2 ->
  exists z, compareSeqNoParts compareStrings l1 l2 = Ok z.
Proof.
  induction 1 as [| a b l1 l2 (s & cmp & Ha & Hb & Hc) _ IH]; simpl; [by eauto |].
  destruct (negb _); [by eauto |].
  unfold sortTypeOf, compareOf. rewrite Ha, Hb. simpl.
  rewrite bool_decide_eq_true_2 by done. simpl. rewrite Hc.
  destruct (_ <? 0); [by eauto |]. destruct (0 <? _); [by eauto | done].
Qed.

Lemma compareSameKeyMessages_total (s : gmap Item TrackedState) (m1 m2 : Item)
    (st1 st2 : TrackedState) :
  s !! m1 = Some st1 -> s !! m2 = Some st2 ->
  deepEqual (keys st1) (keys st2) = true ->
  Forall2 comparableParts (seqNos st1) (seqNos st2) ->
  exists z, compareSameKeyMessages compareStrings deepEqual m1 m2 s = Ok z.
Proof.
  intros H1 H2 Hk Hparts. unfold compareSameKeyMessages, stateOf.
  rewrite H1, H2. simpl. rewrite Hk. simpl.
  rewrite compareSeqNos_same_length by (by eapply Forall2_length).
  by apply compareSeqNoParts_total.
Qed.

Lemma sequenceGroups_total (groups : list (string * list Item)) :
  forall (f0 : list Item) (s0 : gmap Item TrackedState),
  (forall g a b, g ∈ groups -> a ∈ snd g -> b ∈ snd g ->
     exists z, compareSameKeyMessages compareStrings deepEqual a b s0 = Ok z) ->
  exists f s,
    foldl (sequenceGroup (compareSameKeyMessages compareStrings deepEqual)) (Ok (f0, s0)) groups
    = Ok (f, s).
Proof.
  induction groups as [| g groups IH]; intros f0 s0 Hcmp; simpl; [by eauto |].
  destruct (sort_total (fun m1 m2 => compareSameKeyMessages compareStrings deepEqual m1 m2 s0)
              (snd g)) as [c Hc].
  { intros a b Ha Hb. apply (Hcmp g); [by left | done | done]. }
  rewrite Hc. simpl. apply IH.
  intros g' a b Hg' Ha Hb.
  rewrite <- (compareSameKeyMessages_agree s0); [| apply linkMessages_agree].
  apply (Hcmp g'); [by right | done | done].
Qed.


Lemma map_fmap {A B} (f : A -> B) (l : list A) : map f l = f <$> l.
Proof. induction l as [| a l IH]; [done |]. cbn. by rewrite IH. Qed.

Lemma uniq_constant `{EqDecision A} (a : A) (l : list A) :
  l <> [] -> Forall (fun x => x = a) l -> uniq l = [a].
Proof.
  induction l as [| x l IH]; intros Hne Hall; [done |].
  apply Forall_cons in Hall as [-> Hall]. simpl. f_equal.
  destruct l as [| y l]; [done |].
  rewrite IH by done. by rewrite filter_cons_False by naive_solver.
Qed.

Lemma prepareSeqNoPart_step (partKeys : list string) (required : bool) (k : nat)
    (all : list (list SeqNoPart)) :
  (forall values, is_Some (compare (toSortable values))) ->
  Forall (fun key => key <> "") partKeys ->
  all <> [] -> (k < length partKeys)%nat ->
  preparedUpTo partKeys k all ->
  exists all', prepareSeqNoPart toSortable required k all = Ok all' /\
               length all' = length all /\
               preparedUpTo partKeys (S k) all'.
Proof.
  intros Hcmp Hclean Hne Hk [Hkeys Hdone].
  destruct (lookup_lt_is_Some_2 partKeys k Hk) as [kk Hkk].
  assert (Hkkne : kk <> "").
  { rewrite Forall_forall in Hclean. apply Hclean.
    by eapply list_elem_of_lookup_2. }
  assert (Hat : forall sns, sns ∈ all ->
                  exists part, sns !! k = Some part /\ partKey part = kk).
  { intros sns Hin. rewrite Forall_forall in Hkeys. specialize (Hkeys sns Hin).
    rewrite <- Hkeys, list_lookup_fmap in Hkk.
    destruct (sns !! k) as [part |]; [| discriminate].
    injection Hkk as <-. by exists part. }
  unfold prepareSeqNoPart.
  assert (Huniq : uniq (map (keyAt k) all) = [Some kk]).
  { apply uniq_constant.
    - by destruct all.
    - rewrite map_fmap. apply Forall_fmap, Forall_forall. intros sns Hin. simpl.
      destruct (Hat sns Hin) as (part & Hp & <-). unfold keyAt. by rewrite Hp. }
  rewrite Huniq. simpl.
  assert (Hkkb : String.eqb kk "" = false) by (by apply String.eqb_neq).
  rewrite Hkkb. simpl.
  set (srt := toSortable (map (valueAt k kk) all)).
  eexists. split; [reflexivity |]. split; [apply length_imap |].
  split.
  - apply Forall_lookup. intros i sns' Hi.
    apply list_lookup_imap_Some in Hi as (sns & Hsns & ->).
    assert (Hin : sns ∈ all) by (by eapply list_elem_of_lookup_2).
    destruct (Hat sns Hin) as (part & Hp & Hpk). rewrite Hp.
    rewrite list_fmap_insert. simpl.
    rewrite Forall_forall in Hkeys. rewrite <- (Hkeys sns Hin).
    apply list_insert_id. by rewrite list_lookup_fmap, Hp.
  - intros p Hp.
    destruct (decide (p = k)) as [-> | Hpk].
    + destruct (Hcmp (map (valueAt k kk) all)) as [cmp Hc].
      exists srt, cmp. split; [done |].
      apply Forall_lookup. intros i sns' Hi.
      apply list_lookup_imap_Some in Hi as (sns & Hsns & ->).
      assert (Hin : sns ∈ all) by (by eapply list_elem_of_lookup_2).
      destruct (Hat sns Hin) as (part & Hpart & Hpk). rewrite Hpart.
      eexists. split.
      * apply list_lookup_insert_eq. by eapply lookup_lt_Some.
      * simpl. rewrite Hpk. apply lookup_insert_eq.
    + destruct (Hdone p) as (srt' & cmp & Hc & Hall); [lia |].
      exists srt', cmp. split; [done |].
      apply Forall_lookup. intros i sns' Hi.
      apply list_lookup_imap_Some in Hi as (sns & Hsns & ->).
      assert (Hin : sns ∈ all) by (by eapply list_elem_of_lookup_2).
      rewrite Forall_forall in Hall. destruct (Hall sns Hin) as (part & Hpart & Hs).
      destruct (Hat sns Hin) as (partk & Hpartk & _). rewrite Hpartk.
      exists part. split; [| done].
      by rewrite list_lookup_insert_ne by done.
Qed.


Lemma prepare_rounds (partKeys : list string) (required : bool) (n : nat) :
  (forall values, is_Some (compare (toSortable values))) ->
  Forall (fun key => key <> "") partKeys ->
  forall (k : nat) (all : list (list SeqNoPart)),
  all <> [] -> (k + n <= length partKeys)%nat ->
  preparedUpTo partKeys k all ->
  exists all',
    foldl (fun acc p => all0 ← acc; prepareSeqNoPart toSortable required p all0)
          (Ok all) (seq k n) = Ok all' /\
    length all' = length all /\
    preparedUpTo partKeys (k + n) all'.
Proof.
  intros Hcmp Hclean. induction n as [| n IH]; intros k all Hne Hk Hprep.
  - exists all. rewrite Nat.add_0_r. split; [done |]. split; [done | exact Hprep].
  - simpl.
    destruct (prepareSeqNoPart_step partKeys required k all)
      as (all1 & -> & Hlen1 & Hprep1); [done | done | done | lia | done |].
    destruct (IH (S k) all1) as (all' & Hfold & Hlen & Hprep'); [| lia | done |].
    { intros ->. by destruct all. }
    exists all'. rewrite Hfold. replace (k + S n)%nat with (S k + n)%nat by lia.
    split; [done |]. split; [congruence | exact Hprep'].
Qed.

Lemma maxParts_constant (n : nat) (all : list (list SeqNoPart)) :
  all <> [] -> Forall (fun sns => length sns = n) all ->
  foldr Nat.max 0%nat (map length all) = n.
Proof.
  induction all as [| sns all IH]; intros Hne Hall; [done |].
  apply Forall_cons in Hall as [Hlen Hall]. simpl. rewrite Hlen.
  destruct all as [| sns' all]; [simpl; lia |].
  rewrite IH by done. lia.
Qed.

Lemma statesOf_total (s : gmap Item TrackedState) (l : list Item) :
  (forall m, m ∈ l -> is_Some (s !! m)) ->
  exists sts, statesOf s l = Ok sts /\ Forall2 (fun m st => s !! m = Some st) l sts.
Proof.
  induction l as [| x l IH]; intros H; simpl; [by exists [] |].
  destruct (H x) as [st Hst]; [by left |].
  destruct IH as (sts & -> & HF); [intros m Hm; apply H; by right |].
  unfold stateOf. rewrite Hst. simpl. exists (st :: sts). by split; [| constructor].
Qed.

Lemma storeSeqNos_other (msgs : list Item) (all : list (list SeqNoPart))
    (s : gmap Item TrackedState) (x : Item) :
  x ∉ msgs -> storeSeqNos msgs all s !! x = s !! x.
Proof.
  revert all s. induction msgs as [| m msgs IH]; intros [| sns all] s Hx; simpl;
    try done.
  rewrite IH by set_solver. apply lookup_alter_ne. set_solver.
Qed.

Lemma storeSeqNos_lookup (msgs : list Item) (all : list (list SeqNoPart))
    (s : gmap Item TrackedState) (i : nat) (m : Item) (sns : list SeqNoPart) :
  NoDup msgs -> msgs !! i = Some m -> all !! i = Some sns ->
  storeSeqNos msgs all s !! m = set_seqNos sns <$> s !! m.
Proof.
  revert all s i. induction msgs as [| x msgs IH]; intros [| y all] s i Hnd Hm Hs;
    try done.
  apply NoDup_cons in Hnd as [Hx Hnd]. destruct i as [| i]; simpl in *.
  - injection Hm as ->. injection Hs as ->.
    rewrite storeSeqNos_other by done. apply lookup_alter_eq.
  - rewrite (IH all _ i) by done. f_equal. apply lookup_alter_ne.
    intros ->. apply Hx. by eapply list_elem_of_lookup_2.
Qed.


Lemma sequenceMessages_total (batch : Batch) (context : Context)
    (partKeys : list string) :
  (forall keys, deepEqual keys keys = true) ->
  (forall values, is_Some (compare (toSortable values))) ->
  wellFormedForSequencing batch partKeys ->
  (2 <= length (messages batch))%nat ->
  sequencingRequired (streamProcessing context) = true ->
  sequencingPerKey (streamProcessing context) = true ->
  exists firsts states',
    sequenceMessages compareStrings toSortable deepEqual batch context = Ok (firsts, states').
Proof.
  intros Hrefl Hcmp (Hnd & Hclean & Hstates & Hkeys) Hlen Hreq Hper.
  unfold sequenceMessages, prepareMessagesForSequencing.
  rewrite (proj2 (Nat.ltb_ge _ _)) by lia. rewrite Hreq, Hper. simpl.
  destruct (statesOf_total (states batch) (messages batch)) as (sts & -> & Hsts).
  { intros m Hm. destruct (Hstates m Hm) as (st & -> & _). by eauto. }
  simpl.
  set (all := map seqNos sts).
  assert (Hlenall : length all = length (messages batch)).
  { unfold all. rewrite length_map. symmetry. by eapply Forall2_length. }
  assert (Hallne : all <> []) by (intros E; rewrite E in Hlenall; simpl in *; lia).
  assert (Hall0 : preparedUpTo partKeys 0 all).
  { split; [| intros p Hp; lia].
    unfold all. rewrite map_fmap. apply Forall_fmap, Forall_lookup.
    intros i st Hi. simpl.
    destruct (Forall2_lookup_r _ _ _ _ _ Hsts Hi) as (m & Hm & Hst).
    destruct (Hstates m) as (st' & Hst' & Hpk); [by eapply list_elem_of_lookup_2 |].
    rewrite Hst in Hst'. by injection Hst' as <-. }
  rewrite (maxParts_constant (length partKeys)); [| done |].
  2: { destruct Hall0 as [Hk0 _]. eapply Forall_impl; [exact Hk0 |].
       intros sns <-. simpl. by rewrite length_fmap. }
  destruct (prepare_rounds partKeys true (length partKeys) Hcmp Hclean 0%nat all)
    as (all' & -> & Hlen' & Hprep); [done | lia | done |].
  simpl in Hprep. simpl.
  set (prepared := storeSeqNos (messages batch) all' (states batch)).
  apply sequenceGroups_total.
  intros g a b Hg Ha Hb.
  unfold groupBy in Hg. apply list_elem_of_fmap in Hg as (k & -> & _). simpl in Ha, Hb.
  apply list_elem_of_filter in Ha as [Hka Ha]. apply list_elem_of_filter in Hb as [Hkb Hb].
  assert (Hview : agreeOn groupView (states batch) prepared)
    by apply storeSeqNos_agree.
  rewrite <- (groupKeyOf_groupView (states batch)) in Hka, Hkb by done.
  assert (Hlook : forall m, m ∈ messages batch ->
            exists st sns, states batch !! m = Some st /\
              prepared !! m = Some (set_seqNos sns st) /\ sns ∈ all').
  { intros m Hm. destruct (Hstates m Hm) as (st & Hst & _).
    apply list_elem_of_lookup in Hm as [i Hi].
    destruct (lookup_lt_is_Some_2 all' i) as [sns Hsns].
    { rewrite Hlen', Hlenall. by eapply lookup_lt_Some. }
    exists st, sns. split; [done |]. split; [| by eapply list_elem_of_lookup_2].
    unfold prepared. rewrite (storeSeqNos_lookup _ _ _ i m sns) by done.
    by rewrite Hst. }
  destruct (Hlook a Ha) as (sta & snsa & Hsta & Hpa & Hina).
  destruct (Hlook b Hb) as (stb & snsb & Hstb & Hpb & Hinb).
  apply (compareSameKeyMessages_total prepared a b _ _ Hpa Hpb).
  - simpl. rewrite (Hkeys a b sta stb); try done.
    unfold groupKeyOf in Hka, Hkb. rewrite Hsta in Hka. rewrite Hstb in Hkb. congruence.
  - simpl. destruct Hprep as [Hpk Hsortable]. rewrite Forall_forall in Hpk.
    apply Forall2_same_length_lookup_2.
    + pose proof (f_equal length (Hpk snsa Hina)) as La.
      pose proof (f_equal length (Hpk snsb Hinb)) as Lb.
      rewrite length_fmap in La, Lb. congruence.
    + intros p pa pb Hpa' Hpb'.
      assert (Hp : (p < length partKeys)%nat).
      { rewrite <- (Hpk snsa Hina), length_fmap. by eapply lookup_lt_Some. }
      destruct (Hsortable p Hp) as (srt & cmp & Hc & Hallp).
      rewrite Forall_forall in Hallp.
      destruct (Hallp snsa Hina) as (pa' & Hpa'' & Hsa).
      destruct (Hallp snsb Hinb) as (pb' & Hpb'' & Hsb).
      rewrite Hpa' in Hpa''. rewrite Hpb' in Hpb''.
      injection Hpa'' as <-. injection Hpb'' as <-.
      by exists srt, cmp.
Qed.


(** [sequenceMessages] returns early. *)
Lemma sequenceMessages_early (batch : Batch) (context : Context) :
  (length (messages batch) < 2)%nat
  \/ sequencingRequired (streamProcessing context) = false ->
  sequenceMessages compareStrings toSortable deepEqual batch context
  = Ok (messages batch, states batch).
Proof.
  intros Hearly. unfold sequenceMessages. cbn zeta.
  assert ((length (messages batch) <? 2)%nat
          || negb (sequencingRequired (streamProcessing context)) = true) as ->;
    [| reflexivity].
  destruct Hearly as [Hlen | ->]; [| apply orb_true_r].
  by rewrite (proj2 (Nat.ltb_lt _ _) Hlen).
Qed.

(** C6, amended: when sequencing is not required, or the batch has fewer than
two messages, [sequenceMessages] returns the messages as they are, neither
grouped nor sorted nor linked: the states are unchanged. For every batch of
two or more messages that are distinct objects, when sequencing is required
and per-key sequencing is enabled, a call of [sequenceMessages] that returns
has grouped the messages by their joined key string, sorted each group with
the same-key comparator (on the prepared sequence numbers), linked each sorted
group into a chain via [prevMessage] and [nextMessage], and returned the heads
of all chains, which are exactly the messages with no [prevMessage]; and the
call does return on every such batch whose messages have tracked states, the
same non-empty part keys in their sequence numbers and equal keys within a
group, when equal keys are deep-equal and the sortables have compare
functions. *)
Theorem C6_sequencing_per_key (batch : Batch) (context : Context) :
  ((length (messages batch) < 2)%nat
   \/ sequencingRequired (streamProcessing context) = false ->
   sequenceMessages compareStrings toSortable deepEqual batch context
   = Ok (messages batch, states batch)) /\
  ((2 <= length (messages batch))%nat ->
   sequencingRequired (streamProcessing context) = true ->
   sequencingPerKey (streamProcessing context) = true ->
   NoDup (messages batch) ->
   (forall firsts states',
      sequenceMessages compareStrings toSortable deepEqual batch context
      = Ok (firsts, states') ->
      exists prepared chains,
        prepareMessagesForSequencing toSortable (messages batch) (states batch)
          context
        = Ok prepared /\
        Forall2 (fun keyString chain =>
                   sort (fun m1 m2 =>
                           compareSameKeyMessages compareStrings deepEqual
                             m1 m2 prepared)
                        (filter (fun m => groupKeyOf (states batch) m = keyString)
                                (messages batch))
                   = Ok chain)
                (uniq (map (groupKeyOf (states batch)) (messages batch))) chains /\
        Forall (isChain states') chains /\
        (forall m, m ∈ messages batch <->
                   exists chain, chain ∈ chains /\ m ∈ chain) /\
        firsts = omap head chains /\
        (forall m, m ∈ messages batch ->
           (m ∈ firsts <->
            exists st, states' !! m = Some st /\ prevMessage st = None))) /\
   (forall partKeys,
      (forall keys, deepEqual keys keys = true) ->
      (forall values, is_Some (compare (toSortable values))) ->
      wellFormedForSequencing batch partKeys ->
      exists firsts states',
        sequenceMessages compareStrings toSortable deepEqual batch context
        = Ok (firsts, states'))).
Proof.
  split; [apply sequenceMessages_early |].
  intros Hlen Hreq Hper Hnd. split.
  - intros firsts states' Hseq. by apply sequenceMessages_chains.
  - intros partKeys Hrefl Hcmp Hwf. by eapply sequenceMessages_total.
Qed.

End SequencingFacts.

Section SequencingWitness.
Import Tasks Tracking BatchM Sequencing Fixtures.

(** C6, as stated, fails: with per-key sequencing enabled but sequencing not
required, the four messages (three of key K1, arriving with the sequence
numbers 3, 1, 2) are returned as they are: all four are first messages to
process and none is linked, whereas the heads of the sorted chains are the
message with sequence number 1 and the message of key K2. *)
Lemma C6_not_sequenced_unless_required :
  sequencingPerKey (streamProcessing (configured false true)) = true /\
  length (messages shuffledBatch) = 4%nat /\
  sequenceMessages compareStringsJs toSortableNumbers deepEqualKeys shuffledBatch
    (configured false true)
  = Ok ([msgA; msgB; msgC; msgR], states shuffledBatch) /\
  (nextMessage <$> states shuffledBatch !! msgB) = Some None /\
  (fst <$> sequenceMessages compareStringsJs toSortableNumbers deepEqualKeys shuffledBatch
             (configured true true))
  = Ok [msgB; msgR].
Proof.
  split; [reflexivity |]. split; [reflexivity |]. split; [reflexivity |].
  split; vm_compute; reflexivity.
Qed.

Lemma shuffledBatch_wellFormed : wellFormedForSequencing shuffledBatch ["n"].
Proof.
  assert (Hstates : forall m, m ∈ messages shuffledBatch ->
            exists k n, states shuffledBatch !! m
                        = Some (keyedState k [rawPart "n" n])).
  { intros m Hm. simpl in Hm.
    repeat (apply elem_of_cons in Hm as [-> | Hm]);
      [.. | by apply elem_of_nil in Hm]; by do 2 eexists. }
  split; [| split; [| split]].
  - exact (bool_decide_unpack (NoDup (messages shuffledBatch)) I).
  - by repeat constructor.
  - intros m Hm. destruct (Hstates m Hm) as (k & n & ->). by eexists.
  - intros m1 m2 st1 st2 H1 H2 E1 E2.
    destruct (Hstates m1 H1) as (k1 & n1 & E1').
    destruct (Hstates m2 H2) as (k2 & n2 & E2').
    rewrite E1 in E1'. rewrite E2 in E2'.
    injection E1' as ->. injection E2' as ->.
    unfold groupKey. intros H. cbn in H. by simplify_eq.
Qed.

Lemma C6_witness :
  (exists firsts states',
     sequenceMessages compareStringsJs toSortableNumbers deepEqualKeys shuffledBatch
       (configured true true) = Ok (firsts, states')) /\
  sequenceMessages compareStringsJs toSortableNumbers deepEqualKeys shuffledBatch
    (configured false true)
  = Ok (messages shuffledBatch, states shuffledBatch).
Proof.
  split.
  - refine (proj2 (proj2 (C6_sequencing_per_key compareStringsJs
                            toSortableNumbers deepEqualKeys
                            shuffledBatch (configured true true)) _ _ _ _)
              ["n"] _ _ _).
    + simpl. lia.
    + reflexivity.
    + reflexivity.
    + exact (bool_decide_unpack (NoDup (messages shuffledBatch)) I).
    + intros keys. unfold deepEqualKeys. by apply bool_decide_eq_true_2.
    + intros values. by eexists.
    + exact shuffledBatch_wellFormed.
  - refine (proj1 (C6_sequencing_per_key compareStringsJs toSortableNumbers
                     deepEqualKeys shuffledBatch (configured false true)) _).
    right. reflexivity.
Defined.

End SequencingWitness.

(** ** Outcome of a save, and what loading and restoring keep (persisting.js) *)

Section PersistingFacts.
Import Tasks Tracking BatchM Persisting PersistingViews Fixtures.

Lemma insert_update_result (fails : list (Settled DbResult)) :
  forall (reply : Settled DbResult) (rest : Db) (tableName : string)
         (item : BatchStateItem),
  Forall conditionalCheckFailure fails ->
  ~ conditionalCheckFailure reply ->
  snd (insertBatchState (fails ++ reply :: rest) tableName item) = Some reply /\
  snd (updateBatchState (fails ++ reply :: rest) tableName item) = Some reply.
Proof.
  induction fails as [| f fails IH]; intros reply rest tableName item Hfails Hreply.
  - cbn. destruct reply as [result | err]; [done |].
    destruct (isConditionalCheckFailed err) eqn:Hc; [| done].
    exfalso. apply Hreply. by exists err.
  - apply Forall_cons in Hfails as [(err & -> & Hc) Hfails].
    destruct (IH reply rest tableName item Hfails Hreply) as [IHi IHu].
    cbn. rewrite Hc.
    destruct (updateBatchState _ _ _) as [requests p] eqn:Hu.
    destruct (insertBatchState _ _ _) as [requests' p'] eqn:Hi.
    cbn in *. by subst.
Qed.

(** X1: once the batch key is complete, the promise of a save is decided by
the first reply of the document client that is not a conditional-check
failure, however many switches between insert and update precede it: a
success resolves with that result; a missing table rejects with a FatalError;
any other retryable error rejects with a TransientError; every other error is
re-thrown as it is. *)
Theorem save_is_decided_by_first_other_reply (fails : list (Settled DbResult))
    (reply : Settled DbResult) (rest : Db) (tableName : string) (batch : Batch) :
  isBlank (streamConsumerId batch) = false ->
  isBlank (shardOrEventID batch) = false ->
  Forall conditionalCheckFailure fails ->
  ~ conditionalCheckFailure reply ->
  let promise :=
    snd (saveBatchStateToDynamoDB (fails ++ reply :: rest) tableName batch) in
  (forall result, reply = Resolved result -> promise = Some (Resolved (Some result))) /\
  (forall err, reply = Rejected err ->
     (isResourceNotFoundException err = true ->
      promise = Some (Rejected (FatalError
        ("FATAL - Cannot save state of batch, since missing DynamoDB table ("
         ++ tableName ++ ") - " ++ errMessage err)%string))) /\
     (isResourceNotFoundException err = false -> isRetryable err = true ->
      promise = Some (Rejected (TransientError
        ("TRANSIENT - Failed to save state of batch to " ++ tableName
         ++ " - " ++ errMessage err)%string))) /\
     (isResourceNotFoundException err = false -> isRetryable err = false ->
      promise = Some (Rejected err))).
Proof.
  intros Hsc Hse Hfails Hreply promise. subst promise.
  unfold saveBatchStateToDynamoDB. rewrite Hsc, Hse. cbn [orb].
  destruct (insert_update_result fails reply rest tableName (toBatchStateItem batch)
              Hfails Hreply) as [Hi Hu].
  assert (snd (match previouslySaved batch with
               | Some true => updateBatchState (fails ++ reply :: rest) tableName
                                (toBatchStateItem batch)
               | _ => insertBatchState (fails ++ reply :: rest) tableName
                        (toBatchStateItem batch)
               end) = Some reply) as Hp.
  { by destruct (previouslySaved batch) as [[] |]. }
  destruct (match previouslySaved batch with
            | Some true => _ | _ => _ end) as [requests p].
  cbn in Hp. subst p. cbn.
  split.
  - by intros result ->.
  - intros err ->. cbn. unfold missingTable, transientSave.
    split; [by intros -> |]. split; intros -> ->; done.
Qed.

Lemma save_is_decided_witness :
  snd (saveBatchStateToDynamoDB
         [conditionFailed; Rejected (AwsError "ResourceNotFoundException" false)]
         "Table" finishedBatch)
  = Some (Rejected (FatalError
      "FATAL - Cannot save state of batch, since missing DynamoDB table (Table) - ResourceNotFoundException")).
Proof.
  refine (proj1 (proj2 (save_is_decided_by_first_other_reply [conditionFailed]
            (Rejected (AwsError "ResourceNotFoundException" false)) [] "Table"
            finishedBatch _ _ _ _) _ eq_refl) _).
  - reflexivity.
  - reflexivity.
  - constructor; [| constructor]. eexists. split; reflexivity.
  - intros (err & Heq & Hc). injection Heq as <-. discriminate Hc.
  - reflexivity.
Defined.

End PersistingFacts.

Section RestoreInvariants.
Import Tasks Tracking BatchM Persisting PersistingViews Fixtures.

Lemma forEachItem_stuck (step : Batch -> Item -> Batch * option Err)
    (l : list Item) (b : Batch) (e : Err) :
  foldl (fun acc x => match acc with
                      | (b, None) => step b x
                      | (b, Some e) => (b, Some e)
                      end) (b, Some e) l = (b, Some e).
Proof. by induction l. Qed.

Lemma forEachItem_cons (step : Batch -> Item -> Batch * option Err)
    (m : Item) (l : list Item) (b : Batch) :
  forEachItem step (m :: l) b =
  match step b m with
  | (b1, None) => forEachItem step l b1
  | (b1, Some e) => (b1, Some e)
  end.
Proof.
  unfold forEachItem. cbn [foldl].
  destruct (step b m) as [b1 [e |]]; [apply forEachItem_stuck | done].
Qed.

Lemma forEachItem_invariant (P : Batch -> Prop)
    (step : Batch -> Item -> Batch * option Err) (l : list Item) :
  (forall b m, m ∈ l -> P b -> P (fst (step b m))) ->
  forall b, P b -> P (fst (forEachItem step l b)).
Proof.
  induction l as [| m l IH]; intros Hstep b Hb; [done |].
  rewrite forEachItem_cons.
  pose proof (Hstep b m ltac:(left) Hb) as H1.
  destruct (step b m) as [b1 [e |]]; [done |].
  apply IH; [| done]. intros b' m' Hin. apply Hstep. by right.
Qed.

Lemma sameItems_refl (b : Batch) : sameItems b b.
Proof. by repeat split. Qed.

Lemma sameItems_trans (b1 b2 b3 : Batch) :
  sameItems b1 b2 -> sameItems b2 b3 -> sameItems b1 b3.
Proof.
  intros ((Ha & Hb & Hc & Hd) & Hm & Hs) ((Ha' & Hb' & Hc' & Hd') & Hm' & Hs').
  split; [repeat split; congruence |]. split.
  - intros m. by rewrite Hm', Hm.
  - intros x. by rewrite Hs', Hs.
Qed.

Lemma elem_of_removeFirst (x m : Item) (l : list Item) :
  x ∈ removeFirst m l -> x ∈ l.
Proof.
  induction l as [| y l IH]; cbn; [done |].
  case_decide as Hd; [by right |].
  intros [-> | Hx]%elem_of_cons; [by left | right; auto].
Qed.

Lemma elem_of_removeFirst_or (x m : Item) (l : list Item) :
  x ∈ l -> x = m \/ x ∈ removeFirst m l.
Proof.
  induction l as [| y l IH]; cbn; [by intros ?%elem_of_nil |].
  intros [-> | Hx]%elem_of_cons.
  - case_decide as Hd; [by left | right; by left].
  - case_decide as Hd; [by right |].
    destruct (IH Hx) as [-> | H']; [by left | right; by right].
Qed.

Lemma moveMessageToRejected_members (b : Batch) (m : Item) :
  m ∈ messages b ++ rejectedMessages b ->
  forall x, x ∈ messages (moveMessageToRejected b m)
                ++ rejectedMessages (moveMessageToRejected b m)
            <-> x ∈ messages b ++ rejectedMessages b.
Proof.
  intros Hm x. unfold moveMessageToRejected, includes. cbn.
  rewrite !elem_of_app. split.
  - intros [Hx | Hx]; [left; by eapply elem_of_removeFirst |].
    case_bool_decide as Hd; [by right |].
    apply elem_of_app in Hx as [Hx | ->%list_elem_of_singleton]; [by right |].
    by apply elem_of_app.
  - intros [Hx | Hx].
    + destruct (elem_of_removeFirst_or x m _ Hx) as [-> | H']; [| by left].
      right. case_bool_decide as Hd; [done |]. apply elem_of_app. right. by left.
    + right. case_bool_decide as Hd; [done |]. apply elem_of_app. by left.
Qed.

Lemma removeFirst_absent (m : Item) (l : list Item) :
  m ∉ l -> removeFirst m l = l.
Proof.
  induction l as [| y l IH]; cbn; [done |].
  intros [Hne Hl]%not_elem_of_cons. case_decide as Hd; [congruence |].
  by rewrite IH.
Qed.

Lemma NoDup_removeFirst (m : Item) (l : list Item) :
  NoDup l -> NoDup (removeFirst m l).
Proof.
  induction 1 as [| y l Hy Hnd IH]; cbn; [constructor |].
  case_decide as Hd; [done |].
  constructor; [| done]. intros Hin. apply Hy. by eapply elem_of_removeFirst.
Qed.

Lemma moveMessageToRejected_NoDup (b : Batch) (m : Item) :
  m ∈ messages b ++ rejectedMessages b ->
  NoDup (messages b ++ rejectedMessages b) ->
  NoDup (messages (moveMessageToRejected b m)
         ++ rejectedMessages (moveMessageToRejected b m)).
Proof.
  intros Hm (Hms & Hdisj & Hrs)%NoDup_app.
  unfold moveMessageToRejected, includes. cbn.
  case_bool_decide as Hd.
  - rewrite removeFirst_absent; [by apply NoDup_app |].
    intros Hin. by apply (Hdisj m).
  - apply elem_of_app in Hm as [Hm | Hm]; [| done].
    apply NoDup_app. split; [by apply NoDup_removeFirst |]. split.
    + intros x Hx [Hr | ->%list_elem_of_singleton]%elem_of_app.
      * apply (Hdisj x); [by eapply elem_of_removeFirst | done].
      * by apply (removeFirst_not_in m (messages b)).
    + apply NoDup_app. split; [done |]. split; [| apply NoDup_singleton].
      by intros x Hx ->%list_elem_of_singleton.
Qed.

Lemma identityView_setMessageStateToPrev (curr prev : TrackedState) :
  identityView (setMessageStateToPrev curr prev) = identityView curr.
Proof. reflexivity. Qed.

Lemma identityView_insert (s : gmap Item TrackedState) (m : Item)
    (curr new : TrackedState) :
  s !! m = Some curr -> identityView new = identityView curr ->
  forall x, identityView <$> <[m := new]> s !! x = identityView <$> s !! x.
Proof.
  intros Hm Hv x. destruct (decide (x = m)) as [-> | Hne].
  - rewrite lookup_insert_eq, Hm. cbn. by rewrite Hv.
  - by rewrite lookup_insert_ne.
Qed.

(** What every step of a restoration keeps. *)
Lemma keeps_refl (b : Batch) :
  sameItems b b /\ previouslySaved b = previouslySaved b /\
  (NoDup (messages b ++ rejectedMessages b) ->
   NoDup (messages b ++ rejectedMessages b)).
Proof. split; [apply sameItems_refl | done]. Qed.

Lemma restoreMessageState_sameItems (c1 c2 : Caches) (b : Batch) (m : Item) :
  m ∈ messages b ++ rejectedMessages b ->
  sameItems b (fst (restoreMessageState c1 c2 b m)) /\
  previouslySaved (fst (restoreMessageState c1 c2 b m)) = previouslySaved b /\
  (NoDup (messages b ++ rejectedMessages b) ->
   NoDup (messages (fst (restoreMessageState c1 c2 b m))
          ++ rejectedMessages (fst (restoreMessageState c1 c2 b m)))).
Proof.
  intros Hm. unfold restoreMessageState.
  destruct (states b !! m) as [curr |] eqn:Hcurr; [| apply keeps_refl].
  destruct (orElse _ _) as [prev |]; [| apply keeps_refl].
  cbn [fst].
  destruct (lookupPrev c2 (bfkOf curr) m) as [r |].
  - split; [| split; [done |]].
    + split; [done |]. split.
      * cbn [messages rejectedMessages set_states].
        by apply moveMessageToRejected_members.
      * cbn [states set_states].
        by apply (identityView_insert _ _ curr).
    + cbn [messages rejectedMessages set_states].
      by apply moveMessageToRejected_NoDup.
  - split; [| done]. split; [done |]. split; [done |].
    cbn [states set_states]. by apply (identityView_insert _ _ curr).
Qed.

Lemma restoreRejectedMessageState_sameItems (c1 c2 : Caches) (b : Batch) (m : Item) :
  sameItems b (fst (restoreRejectedMessageState c1 c2 b m)) /\
  previouslySaved (fst (restoreRejectedMessageState c1 c2 b m)) = previouslySaved b /\
  (NoDup (messages b ++ rejectedMessages b) ->
   NoDup (messages (fst (restoreRejectedMessageState c1 c2 b m))
          ++ rejectedMessages (fst (restoreRejectedMessageState c1 c2 b m)))).
Proof.
  unfold restoreRejectedMessageState.
  destruct (states b !! m) as [curr |] eqn:Hcurr; [| apply keeps_refl].
  destruct (orElse _ _) as [prev |]; [| apply keeps_refl].
  split; [| done]. split; [done |]. split; [done |].
  cbn [fst states set_states]. by apply (identityView_insert _ _ curr).
Qed.

Lemma restoreUnusableRecordState_sameItems (c : Caches) (b : Batch) (u : Item) :
  sameItems b (fst (restoreUnusableRecordState c b u)) /\
  previouslySaved (fst (restoreUnusableRecordState c b u)) = previouslySaved b /\
  (NoDup (messages b ++ rejectedMessages b) ->
   NoDup (messages (fst (restoreUnusableRecordState c b u))
          ++ rejectedMessages (fst (restoreUnusableRecordState c b u)))).
Proof.
  unfold restoreUnusableRecordState.
  destruct (states b !! u) as [curr |] eqn:Hcurr; [| apply keeps_refl].
  destruct (lookupPrev _ _ _) as [prev |]; [| apply keeps_refl].
  split; [| done]. split; [done |]. split; [done |].
  cbn [fst states set_states]. by apply (identityView_insert _ _ curr).
Qed.

Lemma elem_of_allMessages (b : Batch) (m : Item) :
  m ∈ allMessages b <-> m ∈ messages b ++ rejectedMessages b.
Proof. apply elem_of_uniq. Qed.

(** [b'] keeps what a restoration of [b] must keep. *)
Lemma keeps_step (b0 b b' : Batch) :
  (sameItems b0 b /\ previouslySaved b = previouslySaved b0 /\
   (NoDup (messages b0 ++ rejectedMessages b0) ->
    NoDup (messages b ++ rejectedMessages b))) ->
  (sameItems b b' /\ previouslySaved b' = previouslySaved b /\
   (NoDup (messages b ++ rejectedMessages b) ->
    NoDup (messages b' ++ rejectedMessages b'))) ->
  sameItems b0 b' /\ previouslySaved b' = previouslySaved b0 /\
  (NoDup (messages b0 ++ rejectedMessages b0) ->
   NoDup (messages b' ++ rejectedMessages b')).
Proof.
  intros (Hs & Hp & Hn) (Hs' & Hp' & Hn').
  split; [by eapply sameItems_trans |]. split; [congruence | auto].
Qed.

Lemma restoreMessages_sameItems (batch : Batch) (item : BatchStateItem) :
  let after := fst (restoreMessageAndRejectedMessageStates batch item) in
  sameItems batch after /\ previouslySaved after = previouslySaved batch /\
  (NoDup (messages batch ++ rejectedMessages batch) ->
   NoDup (messages after ++ rejectedMessages after)).
Proof.
  cbn zeta. unfold restoreMessageAndRejectedMessageStates.
  case_bool_decide as Hlen; [apply keeps_refl |].
  destruct (cachePrevStatesByBfkOrMsg (messageStates item) _ _) as [c1 | e];
    [| apply keeps_refl].
  destruct (cachePrevStatesByBfkOrMsg (rejectedMessageStates item) _ _) as [c2 | e];
    [| apply keeps_refl].
  set (P := fun b' =>
              sameItems batch b' /\ previouslySaved b' = previouslySaved batch /\
              (NoDup (messages batch ++ rejectedMessages batch) ->
               NoDup (messages b' ++ rejectedMessages b'))).
  assert (P (fst (forEachItem (restoreMessageState c1 c2) (messages batch) batch)))
    as H1.
  { apply forEachItem_invariant; [| apply keeps_refl].
    intros b m Hin HP. apply (keeps_step batch b); [done |].
    apply restoreMessageState_sameItems.
    apply (proj1 HP). apply elem_of_app. by left. }
  destruct (forEachItem (restoreMessageState c1 c2) (messages batch) batch)
    as [b1 [e |]]; [done |].
  cbn [fst] in H1.
  apply (forEachItem_invariant P); [| done].
  intros b m _ HP. apply (keeps_step batch b); [done |].
  apply restoreRejectedMessageState_sameItems.
Qed.

Lemma restoreUnusableRecords_sameItems (batch : Batch) (item : BatchStateItem) :
  let after := fst (restoreUnusableRecordStates batch item) in
  sameItems batch after /\ previouslySaved after = previouslySaved batch /\
  (NoDup (messages batch ++ rejectedMessages batch) ->
   NoDup (messages after ++ rejectedMessages after)).
Proof.
  cbn zeta. unfold restoreUnusableRecordStates.
  case_bool_decide as Hlen; [apply keeps_refl |].
  destruct (unusableRecordStates item) as [[| p l] |]; try apply keeps_refl.
  destruct (foldl _ _ _) as [c | e]; [| apply keeps_refl].
  set (P := fun b' =>
              sameItems batch b' /\ previouslySaved b' = previouslySaved batch /\
              (NoDup (messages batch ++ rejectedMessages batch) ->
               NoDup (messages b' ++ rejectedMessages b'))).
  apply (forEachItem_invariant P); [| apply keeps_refl].
  intros b m _ HP. apply (keeps_step batch b); [done |].
  apply restoreUnusableRecordState_sameItems.
Qed.

Lemma updateBatchWithPriorState_keeps (batch : Batch) (item : BatchStateItem) :
  let after := fst (updateBatchWithPriorState batch item) in
  sameItems batch after /\ previouslySaved after = previouslySaved batch /\
  (NoDup (messages batch ++ rejectedMessages batch) ->
   NoDup (messages after ++ rejectedMessages after)).
Proof.
  cbn zeta. unfold updateBatchWithPriorState.
  pose proof (restoreMessages_sameItems batch item) as H1. cbn zeta in H1.
  destruct (restoreMessageAndRejectedMessageStates batch item) as [b1 [e |]];
    [done |].
  cbn [fst] in *. apply (keeps_step batch b1); [done |].
  apply restoreUnusableRecords_sameItems.
Qed.

(** X4: restoring prior state keeps the batch's key, records and unusable
records, and its saved flag; it adds no message and drops none, but only
moves messages between the two lists (and messages that were distinct stay
distinct); and every tracked item keeps its state with its
identity, its sequence numbers and its chain links: the three task maps are
all that changes. This holds also when the restoration stops at a thrown
error. *)
Theorem restore_keeps_items (batch : Batch) (item : BatchStateItem) :
  let after := fst (updateBatchWithPriorState batch item) in
  sameItems batch after /\ previouslySaved after = previouslySaved batch /\
  (NoDup (messages batch ++ rejectedMessages batch) ->
   messages after ++ rejectedMessages after
   ≡ₚ messages batch ++ rejectedMessages batch).
Proof.
  cbn zeta.
  destruct (updateBatchWithPriorState_keeps batch item) as (Hs & Hp & Hn).
  split; [done |]. split; [done |].
  intros Hnd. apply NoDup_Permutation; [by apply Hn | done |].
  apply Hs.
Qed.

Lemma restore_keeps_items_witness :
  messages (fst (updateBatchWithPriorState freshBatch ambiguousItem))
  ++ rejectedMessages (fst (updateBatchWithPriorState freshBatch ambiguousItem))
  ≡ₚ [msgA].
Proof.
  refine (proj2 (proj2 (restore_keeps_items freshBatch ambiguousItem)) _).
  cbn. apply NoDup_singleton.
Defined.

(** The [.catch] of a load: the flag is reset and the error classified. *)
Lemma loadFailed_spec (tableName : string) (b : Batch) (err : Err) :
  sameItems b (fst (loadFailed tableName b err)) /\
  previouslySaved (fst (loadFailed tableName b err)) = None /\
  exists e, snd (loadFailed tableName b err) = Rejected e /\
            classified tableName err e.
Proof.
  split; [by repeat split |]. split; [done |].
  unfold loadFailed. cbn [snd].
  destruct (isResourceNotFoundException err) eqn:Hrnf.
  - eexists. split; [reflexivity |].
    split; [intros _; eauto |]. split; intros; congruence.
  - destruct (isRetryable err) eqn:Hretry.
    + eexists. split; [reflexivity |].
      split; [intros; congruence |]. split; [intros _ _; eauto | intros; congruence].
    + eexists. split; [reflexivity |].
      split; [intros; congruence |]. split; [intros; congruence | done].
Qed.

(** X2: a load never changes the key, the records or the set of messages of
the batch, nor the identity of any tracked item. It resolves only with the
reply of the document client, and then the saved flag tells whether an item
was found. It rejects when the client rejects or when restoring the found
item throws; the saved flag is then undefined, a missing table becomes a
FatalError, any other retryable error a TransientError, and every other error
is re-thrown as it is. *)
Theorem load_outcome (reply : Settled DbResult) (tableName : string)
    (batch : Batch) :
  let loaded := loadBatchStateFromDynamoDB reply tableName batch in
  let after := fst (snd loaded) in
  let promise := snd (snd loaded) in
  sameItems batch after /\
  (forall result, promise = Resolved result ->
     reply = Resolved result /\
     previouslySaved after = Some (bool_decide (is_Some (resultItem result)))) /\
  (forall e, promise = Rejected e ->
     previouslySaved after = None /\
     exists err,
       (reply = Rejected err \/
        exists result item,
          reply = Resolved result /\ resultItem result = Some item /\
          snd (updateBatchWithPriorState (set_previouslySaved (Some true) batch) item)
          = Some err) /\
       classified tableName err e).
Proof.
  cbn zeta. unfold loadBatchStateFromDynamoDB. cbn [fst snd].
  destruct reply as [result | err].
  - destruct (resultItem result) as [item |] eqn:Hitem.
    + pose proof (updateBatchWithPriorState_keeps
                    (set_previouslySaved (Some true) batch) item) as (Hs & Hp & _).
      destruct (updateBatchWithPriorState _ item) as [b [err |]] eqn:Hrestore;
        cbn [fst snd] in *.
      * destruct (loadFailed_spec tableName b err) as (Hs' & Hp' & e & He & Hc).
        split; [by apply (sameItems_trans batch b) |].
        split; [intros r Hr; congruence |].
        intros e' He'. split; [done |]. exists err. split; [| congruence].
        right. exists result, item. by rewrite Hrestore.
      * split; [done |]. split; [| done].
        intros r [= <-]. split; [done |]. rewrite Hp. cbn.
        rewrite Hitem. by rewrite bool_decide_eq_true_2.
    + cbn [fst snd]. split; [by repeat split |]. split; [| done].
      intros r [= <-]. rewrite Hitem. split; [done |].
      rewrite bool_decide_eq_false_2; [done |]. by intros [? ?].
  - destruct (loadFailed_spec tableName batch err) as (Hs' & Hp' & e & He & Hc).
    split; [done |]. split; [intros r Hr; congruence |].
    intros e' He'. split; [done |]. exists err. split; [by left | congruence].
Qed.

Lemma load_outcome_witness :
  previouslySaved
    (fst (snd (loadBatchStateFromDynamoDB
                 (Rejected (AwsError "ResourceNotFoundException" false))
                 "Table" finishedBatch)))
  = None.
Proof.
  refine (proj1 (proj2 (proj2 (load_outcome
            (Rejected (AwsError "ResourceNotFoundException" false))
            "Table" finishedBatch)) _ eq_refl)).
Defined.

(** X3: the save that follows a load starts with a conditional update when
the load resolved with an item, and with a conditional insert in every other
case: no item found, a rejected read, or a restoration that threw. *)
Theorem save_after_load (reply : Settled DbResult) (tableName : string)
    (batch : Batch) (db : Db) :
  isBlank (streamConsumerId batch) = false ->
  isBlank (shardOrEventID batch) = false ->
  let loaded := loadBatchStateFromDynamoDB reply tableName batch in
  let after := fst (snd loaded) in
  let found := exists result item,
                 snd (snd loaded) = Resolved result /\ resultItem result = Some item in
  exists r rest,
    fst (saveBatchStateToDynamoDB db tableName after) = r :: rest /\
    (found -> isConditionalUpdate r tableName (toBatchStateItem after)) /\
    (~ found -> isConditionalInsert r tableName (toBatchStateItem after)).
Proof.
  intros Hsc Hse loaded after found.
  assert (streamConsumerId after = streamConsumerId batch /\
          shardOrEventID after = shardOrEventID batch /\
          (previouslySaved after = Some true <-> found)) as (Hsc' & Hse' & Hfound).
  { subst found after loaded. unfold loadBatchStateFromDynamoDB. cbn [fst snd].
    destruct reply as [result | err].
    - destruct (resultItem result) as [item |] eqn:Hitem.
      + pose proof (updateBatchWithPriorState_keeps
                      (set_previouslySaved (Some true) batch) item)
          as (((Hc & He & _) & _) & Hp & _).
        destruct (updateBatchWithPriorState _ item) as [b [err |]];
          cbn [fst snd] in *.
        * destruct (loadFailed_spec tableName b err)
            as (((Hc' & He' & _) & _) & Hp' & e & Hrej & _).
          rewrite Hrej, Hp'. split; [by rewrite Hc', Hc |].
          split; [by rewrite He', He |].
          split; [done |]. by intros (r & i & ? & _).
        * split; [done |]. split; [done |]. rewrite Hp. cbn.
          split; [by eauto | done].
      + cbn [fst snd]. split; [done |]. split; [done |]. cbn.
        split; [done |]. intros (r & i & [= <-] & Hi). congruence.
    - destruct (loadFailed_spec tableName batch err)
        as (((Hc' & He' & _) & _) & Hp' & e & Hrej & _).
      rewrite Hrej, Hp'. split; [done |]. split; [done |].
      split; [done |]. by intros (r & i & ? & _). }
  unfold saveBatchStateToDynamoDB. rewrite Hsc', Hse', Hsc, Hse. cbn [orb].
  destruct (previouslySaved after) as [[] |] eqn:Hprev.
  - destruct db as [| [result | err] db']; cbn.
    + eexists _, _. split; [done |]. split; [| by intros []; apply Hfound].
      intros _. eexists. by repeat split.
    + eexists _, _. split; [done |]. split; [| by intros []; apply Hfound].
      intros _. eexists. by repeat split.
    + destruct (isConditionalCheckFailed err).
      * destruct (insertBatchState db' tableName _) as [requests p]. cbn.
        eexists _, _. split; [done |]. split; [| by intros []; apply Hfound].
        intros _. eexists. by repeat split.
      * cbn. eexists _, _. split; [done |]. split; [| by intros []; apply Hfound].
        intros _. eexists. by repeat split.
  - assert (~ found) as Hnot by (intros Hf; by apply Hfound in Hf).
    destruct db as [| [result | err] db']; cbn.
    + eexists _, _. split; [done |]. split; [done |]. intros _. eexists. by repeat split.
    + eexists _, _. split; [done |]. split; [done |]. intros _. eexists. by repeat split.
    + destruct (isConditionalCheckFailed err).
      * destruct (updateBatchState db' tableName _) as [requests p]. cbn.
        eexists _, _. split; [done |]. split; [done |]. intros _. eexists. by repeat split.
      * cbn. eexists _, _. split; [done |]. split; [done |].
        intros _. eexists. by repeat split.
  - assert (~ found) as Hnot by (intros Hf; by apply Hfound in Hf).
    destruct db as [| [result | err] db']; cbn.
    + eexists _, _. split; [done |]. split; [done |]. intros _. eexists. by repeat split.
    + eexists _, _. split; [done |]. split; [done |]. intros _. eexists. by repeat split.
    + destruct (isConditionalCheckFailed err).
      * destruct (updateBatchState db' tableName _) as [requests p]. cbn.
        eexists _, _. split; [done |]. split; [done |]. intros _. eexists. by repeat split.
      * cbn. eexists _, _. split; [done |]. split; [done |].
        intros _. eexists. by repeat split.
Qed.

Lemma save_after_load_witness :
  exists r rest,
    fst (saveBatchStateToDynamoDB [saved] "Table"
           (fst (snd (loadBatchStateFromDynamoDB saved "Table" finishedBatch))))
    = r :: rest.
Proof.
  destruct (save_after_load saved "Table" finishedBatch [saved] eq_refl eq_refl)
    as (r & rest & Hreq & _).
  by exists r, rest.
Defined.

End RestoreInvariants.

Section RoundTrip.
Import Tasks Tracking BatchM Persisting PersistingViews Fixtures PersistingFixtures.

Lemma findM_total (f : Item -> Try bool) (l : list Item) :
  (forall m, m ∈ l -> exists b, f m = Ok b) -> exists found, findM f l = Ok found.
Proof.
  induction l as [| m l IH]; intros Hf; cbn; [by eexists |].
  destruct (Hf m ltac:(left)) as [[] ->]; [by eexists |].
  apply IH. intros m' Hin. apply Hf. by right.
Qed.

Lemma cachePrevState_keys (msgs : list Item) (sts : gmap Item TrackedState)
    (c0 c : Caches) (p : TrackedState) :
  cachePrevState msgs sts (Ok c0) p = Ok c ->
  fst c = (if hasMessageIdentifier p then <[toMessageBFK p := p]> (fst c0)
           else fst c0).
Proof.
  unfold cachePrevState. cbn.
  destruct (hasMessageIdentifier p); [by intros [= <-] |].
  destruct (message p), (userRecord p), (record p);
    try (destruct (findM _ _) as [[found |] | e]; cbn; by intros [= <-]).
  by intros [= <-].
Qed.

Lemma cachePrevState_total (msgs : list Item) (sts : gmap Item TrackedState)
    (c0 : Caches) (p : TrackedState) :
  (forall m, m ∈ msgs -> is_Some (sts !! m)) ->
  exists c, cachePrevState msgs sts (Ok c0) p = Ok c.
Proof.
  intros Hsts. unfold cachePrevState. cbn.
  destruct (hasMessageIdentifier p); [by eexists |].
  assert (forall g : TrackedState -> bool,
            exists found,
              findM (fun m => match sts !! m with
                              | Some st => Ok (g st)
                              | None => Throw typeError
                              end) msgs = Ok found) as Hfind.
  { intros g. apply findM_total. intros m Hin.
    destruct (Hsts m Hin) as [st ->]. by eexists. }
  destruct (message p) as [pm |].
  { destruct (findM_total (fun m => Ok (bool_decide (body m = pm))) msgs) as [found ->];
      [by eexists | by eexists]. }
  destruct (userRecord p) as [pu |].
  { destruct (Hfind (fun st => bool_decide (userRecord st = Some pu))) as [found ->].
    by eexists. }
  destruct (record p) as [pr |]; [| by eexists].
  destruct (Hfind (fun st => bool_decide (record st = Some pr))) as [found ->].
  by eexists.
Qed.

Lemma foldl_cachePrevState_Throw (msgs : list Item) (sts : gmap Item TrackedState)
    (e : Err) (l : list TrackedState) :
  foldl (cachePrevState msgs sts) (Throw e) l = Throw e.
Proof. by induction l. Qed.

(** The cache by Big Fat Key that [cachePrevStatesByBfkOrMsg] builds. *)
Lemma cachePrevStates_bfk (msgs : list Item) (sts : gmap Item TrackedState)
    (l : list TrackedState) :
  forall (c0 c : Caches),
  foldl (cachePrevState msgs sts) (Ok c0) l = Ok c ->
  (forall k p, fst c !! k = Some p ->
     (p ∈ l /\ hasMessageIdentifier p = true /\ toMessageBFK p = k)
     \/ fst c0 !! k = Some p) /\
  (forall k, is_Some (fst c0 !! k) -> is_Some (fst c !! k)) /\
  (forall p, p ∈ l -> hasMessageIdentifier p = true ->
     is_Some (fst c !! toMessageBFK p)).
Proof.
  induction l as [| q l IH]; intros c0 c Hfold; cbn [foldl] in Hfold.
  { injection Hfold as <-. split; [by right |]. split; [done |].
    by intros p Hp%elem_of_nil. }
  destruct (cachePrevState msgs sts (Ok c0) q) as [c1 | e] eqn:Hq;
    [| by rewrite foldl_cachePrevState_Throw in Hfold].
  apply cachePrevState_keys in Hq.
  destruct (IH c1 c Hfold) as (Hfrom & Hmono & Hin).
  split; [| split].
  - intros k p Hk. destruct (Hfrom k p Hk) as [(Hp & Hid & Hbfk) | Hc1].
    { left. split; [by right | done]. }
    rewrite Hq in Hc1. destruct (hasMessageIdentifier q) eqn:Hidq; [| by right].
    destruct (decide (toMessageBFK q = k)) as [<- | Hne].
    + rewrite lookup_insert_eq in Hc1. injection Hc1 as <-.
      left. split; [by left | done].
    + rewrite lookup_insert_ne in Hc1 by done. by right.
  - intros k Hk. apply Hmono. rewrite Hq.
    destruct (hasMessageIdentifier q); [| done].
    destruct (decide (toMessageBFK q = k)) as [<- | Hne].
    + by rewrite lookup_insert_eq.
    + by rewrite lookup_insert_ne.
  - intros p [-> | Hp]%elem_of_cons Hid; [| by apply Hin].
    apply Hmono. rewrite Hq, Hid. by rewrite lookup_insert_eq.
Qed.

Lemma foldl_cachePrevState_total (msgs : list Item) (sts : gmap Item TrackedState)
    (l : list TrackedState) :
  (forall m, m ∈ msgs -> is_Some (sts !! m)) ->
  forall c0, exists c, foldl (cachePrevState msgs sts) (Ok c0) l = Ok c.
Proof.
  intros Hsts. induction l as [| p l IH]; intros c0; cbn [foldl]; [by eexists |].
  destruct (cachePrevState_total msgs sts c0 p Hsts) as [c1 Hc1].
  rewrite Hc1. apply IH.
Qed.

Lemma bfkOf_identity (st st' : TrackedState) :
  identityView st = identityView st' -> bfkOf st = bfkOf st'.
Proof.
  unfold identityView, bfkOf, hasMessageIdentifier, toMessageBFK, md5Of.
  intros [= Hm Hu Hur Hr He Hes Hess Hi Hk Hs Hks Hsn Hiv Hkv Hsv Hmd Hp Hn].
  by rewrite He, Hes, Hess, Hi, Hk, Hs, Hiv, Hkv, Hsv, Hmd.
Qed.

Lemma hasMessageIdentifier_stored (st : TrackedState) :
  hasMessageIdentifier (toStorableObject st) = true ->
  hasMessageIdentifier st = true.
Proof.
  unfold hasMessageIdentifier. cbn.
  rewrite !orb_false_r. intros H.
  apply orb_true_iff in H as [-> | H]; [done |].
  rewrite H. by rewrite !orb_true_r.
Qed.

(** What [toBatchStateItem] stores for the messages of a list. *)
Lemma stored_message_state (sts : gmap Item TrackedState) (l : list Item)
    (p : TrackedState) :
  p ∈ omap (fun m => toStorableMessageState (sts !! m) m) l ->
  hasMessageIdentifier p = true ->
  exists m st, m ∈ l /\ sts !! m = Some st /\ p = toStorableObject st.
Proof.
  intros (m & Hm & Hp)%list_elem_of_omap Hid.
  destruct (sts !! m) as [st |] eqn:Hst; [| done].
  cbn in Hp. destruct (hasMessageIdentifier st) eqn:Hidst; cbn in Hp.
  - injection Hp as <-. by exists m, st.
  - injection Hp as <-.
    assert (hasMessageIdentifier (toStorableObject st) = true) as Hs by exact Hid.
    apply hasMessageIdentifier_stored in Hs. congruence.
Qed.

Lemma stored_message_state_elem (sts : gmap Item TrackedState) (l : list Item)
    (m : Item) (st : TrackedState) :
  m ∈ l -> sts !! m = Some st -> hasMessageIdentifier (toStorableObject st) = true ->
  toStorableObject st ∈ omap (fun m => toStorableMessageState (sts !! m) m) l.
Proof.
  intros Hm Hst Hid. apply list_elem_of_omap. exists m. split; [done |].
  rewrite Hst. cbn. by rewrite (hasMessageIdentifier_stored st Hid).
Qed.

Lemma forEachItem_nil (step : Batch -> Item -> Batch * option Err) (b : Batch) :
  forEachItem step [] b = (b, None).
Proof. reflexivity. Qed.

(** A loop that replaces the task maps of each item of [l] by those of the
prior state that [sel] selects for it, if any. *)
Lemma restore_loop (step : Batch -> Item -> Batch * option Err)
    (sel : TrackedState -> Item -> option TrackedState) (l : list Item) :
  (forall st st' m, identityView st = identityView st' -> sel st m = sel st' m) ->
  (forall b m curr, states b !! m = Some curr ->
     snd (step b m) = None /\
     states (fst (step b m))
     = match sel curr m with
       | Some prev => <[m := setMessageStateToPrev curr prev]> (states b)
       | None => states b
       end) ->
  forall b, (forall m, m ∈ l -> is_Some (states b !! m)) ->
  snd (forEachItem step l b) = None /\
  forall x st, states b !! x = Some st ->
    exists st', states (fst (forEachItem step l b)) !! x = Some st' /\
      identityView st' = identityView st /\
      (x ∈ l -> forall prev, sel st x = Some prev -> taskView st' = taskView prev) /\
      (x ∉ l -> st' = st).
Proof.
  intros Hsel Hstep. induction l as [| m l IH]; intros b Hall.
  { rewrite forEachItem_nil. split; [done |]. intros x st Hx.
    exists st. split; [done |]. split; [done |].
    split; [by intros ?%elem_of_nil | done]. }
  rewrite forEachItem_cons.
  destruct (Hall m ltac:(left)) as [curr Hcurr].
  destruct (Hstep b m curr Hcurr) as [Hnone Hstates].
  destruct (step b m) as [b1 o]. cbn [fst snd] in Hnone, Hstates. subst o.
  assert (forall x st, states b !! x = Some st ->
            exists st1, states b1 !! x = Some st1 /\
              identityView st1 = identityView st /\
              (x = m -> forall prev, sel st x = Some prev ->
                        taskView st1 = taskView prev) /\
              (x <> m -> st1 = st)) as Hb1.
  { intros x st Hx. rewrite Hstates.
    destruct (decide (x = m)) as [-> | Hne].
    - assert (st = curr) as -> by congruence.
      destruct (sel curr m) as [prev |] eqn:Hprev.
      + exists (setMessageStateToPrev curr prev).
        split; [apply lookup_insert_eq |]. split; [done |].
        split; [| done]. by intros _ prev' [= <-].
      + exists curr. split; [done |]. split; [done |]. split; done.
    - exists st. split.
      + destruct (sel curr m); [by rewrite lookup_insert_ne | done].
      + split; [done |]. split; done. }
  destruct (IH b1) as [Hnone' Hrest].
  { intros m' Hm'. destruct (Hall m' ltac:(by right)) as [st' Hst'].
    destruct (Hb1 m' st' Hst') as (st1 & -> & _). by eexists. }
  split; [done |]. intros x st Hx.
  destruct (Hb1 x st Hx) as (st1 & Hx1 & Hid1 & Hm1 & Hne1).
  destruct (Hrest x st1 Hx1) as (st' & Hx' & Hid' & Hin' & Hnotin').
  exists st'. split; [done |]. split; [congruence |]. split.
  - intros Hin prev Hprev. destruct (decide (x ∈ l)) as [Hl | Hl].
    + apply Hin'; [done |]. by rewrite (Hsel st1 st x Hid1).
    + rewrite (Hnotin' Hl). apply elem_of_cons in Hin as [-> | ?]; [| done].
      by apply Hm1.
  - intros [Hne Hl]%not_elem_of_cons. rewrite (Hnotin' Hl). by apply Hne1.
Qed.

Lemma restoreMessageState_step (c1 c2 : Caches) (b : Batch) (m : Item)
    (curr : TrackedState) :
  states b !! m = Some curr ->
  snd (restoreMessageState c1 c2 b m) = None /\
  states (fst (restoreMessageState c1 c2 b m))
  = match orElse (lookupPrev c1 (bfkOf curr) m) (lookupPrev c2 (bfkOf curr) m) with
    | Some prev => <[m := setMessageStateToPrev curr prev]> (states b)
    | None => states b
    end.
Proof.
  intros Hcurr. unfold restoreMessageState. rewrite Hcurr.
  destruct (orElse _ _) as [prev |]; [| done].
  split; [done |]. cbn [fst states set_states].
  by destruct (lookupPrev c2 _ _).
Qed.

Lemma restoreRejectedMessageState_step (c1 c2 : Caches) (b : Batch) (m : Item)
    (curr : TrackedState) :
  states b !! m = Some curr ->
  snd (restoreRejectedMessageState c1 c2 b m) = None /\
  states (fst (restoreRejectedMessageState c1 c2 b m))
  = match orElse (lookupPrev c2 (bfkOf curr) m) (lookupPrev c1 (bfkOf curr) m) with
    | Some prev => <[m := setMessageStateToPrev curr prev]> (states b)
    | None => states b
    end.
Proof.
  intros Hcurr. unfold restoreRejectedMessageState. rewrite Hcurr.
  by destruct (orElse _ _) as [prev |].
Qed.

Lemma elem_of_removeFirst_ne (x m : Item) (l : list Item) :
  x <> m -> x ∈ l -> x ∈ removeFirst m l.
Proof.
  intros Hne Hin. by destruct (elem_of_removeFirst_or x m l Hin).
Qed.

(** A message without a match among the prior rejected-message states stays
in [messages] throughout the first loop. *)
Lemma restoreMessages_stays (c1 c2 : Caches) (l : list Item) (b0 : Batch)
    (x : Item) (st : TrackedState) :
  states b0 !! x = Some st ->
  lookupPrev c2 (bfkOf st) x = None ->
  x ∈ messages b0 ->
  x ∈ messages (fst (forEachItem (restoreMessageState c1 c2) l b0)).
Proof.
  intros Hx Hnone Hin.
  set (P := fun b => (identityView <$> states b !! x = Some (identityView st))
                     /\ x ∈ messages b).
  apply (forEachItem_invariant P); [| split; [by rewrite Hx | done]].
  intros b m _ [Hid Hm]. unfold restoreMessageState.
  destruct (states b !! m) as [curr |] eqn:Hcurr; [| done].
  destruct (orElse _ _) as [prev |]; [| done].
  cbn [fst]. destruct (decide (m = x)) as [-> | Hne].
  - rewrite Hcurr in Hid.
    assert (identityView curr = identityView st) as Hv
      by (apply (inj Some); exact Hid).
    rewrite (bfkOf_identity curr st Hv), Hnone.
    split; [| done]. cbn [states set_states]. rewrite lookup_insert_eq.
    cbn [fmap option_fmap option_map]. f_equal. exact Hv.
  - split.
    + destruct (lookupPrev c2 _ m); cbn [states set_states moveMessageToRejected
                                          set_messages];
        by rewrite lookup_insert_ne.
    + destruct (lookupPrev c2 _ m); [| done].
      cbn. by apply elem_of_removeFirst_ne.
Qed.

(** X5: a round trip through the checkpoint. Take a message of a saved batch
whose state has an identifier that is stored (an event id or an MD5), and
whose Big Fat Key is shared with no other saved message state (unless it has
the same task maps) and with no saved rejected-message state. When the item
written for that batch is restored into a batch in which a message with
an identifier has the same Big Fat Key, that message stays in [messages]
and gets the saved task maps [ones], [alls] and [discards], whatever it had
before; nothing else of its state changes. *)
Theorem saved_task_maps_are_restored (prior current : Batch) (msg0 msg : Item)
    (s0 curr : TrackedState) :
  msg0 ∈ messages prior -> states prior !! msg0 = Some s0 ->
  hasMessageIdentifier (toStorableObject s0) = true ->
  (forall m s, m ∈ messages prior -> states prior !! m = Some s ->
     hasMessageIdentifier (toStorableObject s) = true ->
     toMessageBFK s = toMessageBFK s0 -> taskView s = taskView s0) ->
  (forall r s, r ∈ rejectedMessages prior -> states prior !! r = Some s ->
     hasMessageIdentifier (toStorableObject s) = true ->
     toMessageBFK s <> toMessageBFK s0) ->
  msg ∈ messages current -> states current !! msg = Some curr ->
  hasMessageIdentifier curr = true ->
  toMessageBFK curr = toMessageBFK s0 ->
  (forall m, m ∈ messages current ++ rejectedMessages current ->
     is_Some (states current !! m)) ->
  let restored :=
    restoreMessageAndRejectedMessageStates current (toBatchStateItem prior) in
  snd restored = None /\
  msg ∈ messages (fst restored) /\
  exists st, states (fst restored) !! msg = Some st /\
    ones st = ones s0 /\ alls st = alls s0 /\ discards st = discards s0 /\
    identityView st = identityView curr.
Proof.
  intros Hmsg0 Hs0 Hid0 Huniq Hrej Hmsg Hcurr Hid Hbfk Hall restored.
  subst restored. unfold restoreMessageAndRejectedMessageStates.
  assert (forall m, m ∈ allMessages current -> is_Some (states current !! m)) as Hall'.
  { intros m Hm. apply Hall. by apply elem_of_allMessages. }
  case_bool_decide as Hlen.
  { assert (msg ∈ allMessages current) as Hin.
    { apply elem_of_allMessages, elem_of_app. by left. }
    destruct (allMessages current); [by apply elem_of_nil in Hin | done]. }
  destruct (foldl_cachePrevState_total (allMessages current) (states current)
              (omap (fun m => toStorableMessageState (states prior !! m) m)
                    (messages prior)) Hall' (∅, ∅)) as [c1 Hc1].
  destruct (foldl_cachePrevState_total (allMessages current) (states current)
              (omap (fun m => toStorableMessageState (states prior !! m) m)
                    (rejectedMessages prior)) Hall' (∅, ∅)) as [c2 Hc2].
  assert (cachePrevStatesByBfkOrMsg (messageStates (toBatchStateItem prior))
            (allMessages current) (states current) = Ok c1) as Hc1' by exact Hc1.
  assert (cachePrevStatesByBfkOrMsg (rejectedMessageStates (toBatchStateItem prior))
            (allMessages current) (states current) = Ok c2) as Hc2' by exact Hc2.
  rewrite Hc1', Hc2'.
  destruct (cachePrevStates_bfk _ _ _ _ _ Hc1) as (Hfrom1 & _ & Hin1).
  destruct (cachePrevStates_bfk _ _ _ _ _ Hc2) as (Hfrom2 & _ & _).
  (* the match in the cache of message states *)
  assert (exists p, fst c1 !! toMessageBFK s0 = Some p /\ taskView p = taskView s0)
    as (p & Hp & Htasks).
  { destruct (Hin1 (toStorableObject s0)) as [p Hp].
    - by apply (stored_message_state_elem _ _ msg0).
    - done.
    - change (toMessageBFK (toStorableObject s0)) with (toMessageBFK s0) in Hp.
      exists p. split; [done |].
      destruct (Hfrom1 _ _ Hp) as [(Hpin & Hpid & Hpbfk) | Hempty];
        [| cbn [fst] in Hempty; by rewrite lookup_empty in Hempty].
      destruct (stored_message_state _ _ _ Hpin Hpid) as (m & s & Hm & Hs & ->).
      by apply (Huniq m s). }
  (* no match in the cache of rejected message states *)
  assert (fst c2 !! toMessageBFK s0 = None) as Hnone.
  { destruct (fst c2 !! toMessageBFK s0) as [q |] eqn:Hq; [| done].
    destruct (Hfrom2 _ _ Hq) as [(Hqin & Hqid & Hqbfk) | Hempty];
      [| cbn [fst] in Hempty; by rewrite lookup_empty in Hempty].
    destruct (stored_message_state _ _ _ Hqin Hqid) as (r & s & Hr & Hs & ->).
    by destruct (Hrej r s Hr Hs Hqid). }
  assert (lookupPrev c1 (bfkOf curr) msg = Some p) as Hl1.
  { by rewrite lookupPrev_by_bfk, Hbfk. }
  assert (lookupPrev c2 (bfkOf curr) msg = None) as Hl2.
  { by rewrite lookupPrev_by_bfk, Hbfk. }
  (* the first loop *)
  destruct (restore_loop (restoreMessageState c1 c2)
              (fun st m => orElse (lookupPrev c1 (bfkOf st) m)
                                  (lookupPrev c2 (bfkOf st) m))
              (messages current)) with (b := current) as [Hnone1 Hstates1].
  { intros st st' m Hv. by rewrite (bfkOf_identity st st' Hv). }
  { apply restoreMessageState_step. }
  { intros m Hm. apply Hall, elem_of_app. by left. }
  pose proof (restoreMessages_stays c1 c2 (messages current) current msg curr
                Hcurr Hl2 Hmsg) as Hstays.
  pose proof (restoreMessages_sameItems current (toBatchStateItem prior)) as Hkeeps.
  destruct (Hstates1 msg curr Hcurr) as (st1 & Hst1 & Hid1 & Hin1' & _).
  specialize (Hin1' Hmsg p). rewrite Hl1 in Hin1'. specialize (Hin1' eq_refl).
  assert (forall m, m ∈ messages current ++ rejectedMessages current <->
                    m ∈ messages (fst (forEachItem (restoreMessageState c1 c2)
                                         (messages current) current))
                        ++ rejectedMessages
                             (fst (forEachItem (restoreMessageState c1 c2)
                                     (messages current) current))) as Hmembers.
  { intros m. symmetry.
    set (P := fun b' => sameItems current b').
    assert (P (fst (forEachItem (restoreMessageState c1 c2) (messages current)
                      current))) as HP.
    { apply forEachItem_invariant; [| apply sameItems_refl].
      intros b m' Hm' Hb. apply (sameItems_trans current b); [done |].
      apply restoreMessageState_sameItems. apply Hb, elem_of_app. by left. }
    apply HP. }
  destruct (forEachItem (restoreMessageState c1 c2) (messages current) current)
    as [b1 o1]. cbn [fst snd] in *. subst o1.
  (* the second loop *)
  destruct (restore_loop (restoreRejectedMessageState c1 c2)
              (fun st m => orElse (lookupPrev c2 (bfkOf st) m)
                                  (lookupPrev c1 (bfkOf st) m))
              (rejectedMessages b1)) with (b := b1) as [Hnone2 Hstates2].
  { intros st st' m Hv. by rewrite (bfkOf_identity st st' Hv). }
  { apply restoreRejectedMessageState_step. }
  { intros m Hm.
    destruct (Hall m) as [st Hst]; [apply Hmembers, elem_of_app; by right |].
    destruct (Hstates1 m st Hst) as (st' & -> & _). by eexists. }
  assert (messages (fst (forEachItem (restoreRejectedMessageState c1 c2)
                           (rejectedMessages b1) b1)) = messages b1) as Hmessages.
  { apply (forEachItem_invariant (fun b' => messages b' = messages b1)); [| done].
    intros b m _ Hb. unfold restoreRejectedMessageState.
    destruct (states b !! m); [| done]. by destruct (orElse _ _). }
  split; [done |]. split; [by rewrite Hmessages |].
  destruct (Hstates2 msg st1 Hst1) as (st2 & Hst2 & Hid2 & Hin2 & Hnotin2).
  exists st2. split; [done |].
  assert (taskView st2 = taskView s0) as Hview.
  { destruct (decide (msg ∈ rejectedMessages b1)) as [Hr | Hr].
    - rewrite (Hin2 Hr p); [done |].
      rewrite <- (bfkOf_identity curr st1) by done. by rewrite Hl2, Hl1.
    - rewrite (Hnotin2 Hr). congruence. }
  injection Hview as Ho Ha Hd.
  repeat split; try done. congruence.
Qed.

Lemma saved_task_maps_are_restored_witness :
  exists st,
    states (fst (restoreMessageAndRejectedMessageStates redeliveredBatch
                   (toBatchStateItem savedBatch))) !! msgAgain = Some st /\
    ones st = Some [("save", failedTask "save")].
Proof.
  destruct (saved_task_maps_are_restored savedBatch redeliveredBatch msgA msgAgain
              priorMessageState freshState) as (_ & _ & st & Hst & Hones & _).
  - cbn. by left.
  - reflexivity.
  - reflexivity.
  - intros m s Hm Hs _ _. cbn in Hm. apply list_elem_of_singleton in Hm as ->.
    cbn in Hs. rewrite lookup_insert_eq in Hs. by injection Hs as <-.
  - intros r s Hr. cbn in Hr. by apply elem_of_nil in Hr.
  - cbn. by left.
  - reflexivity.
  - reflexivity.
  - reflexivity.
  - intros m Hm. cbn in Hm. apply list_elem_of_singleton in Hm as ->.
    by eexists.
  - exists st. split; [exact Hst | exact Hones].
Defined.

End RoundTrip.


Section RestoreWhole.
Import Tasks Tracking BatchM Persisting PersistingViews Fixtures.

Lemma cachePrevStatesByBfkOrMsg_total (prevStates : option (list TrackedState))
    (msgs : list Item) (s : gmap Item TrackedState) :
  (forall m, m ∈ msgs -> is_Some (s !! m)) ->
  exists c, cachePrevStatesByBfkOrMsg prevStates msgs s = Ok c.
Proof.
  intros Hs. unfold cachePrevStatesByBfkOrMsg.
  generalize (∅ : gmap string TrackedState, ∅ : gmap Item TrackedState).
  induction (default [] prevStates) as [| p l IH]; intros c; cbn [foldl];
    [by eauto |].
  assert (exists c', cachePrevState msgs s (Ok c) p = Ok c') as [c' ->];
    [| apply IH].
  unfold cachePrevState. cbn [mbind try_mbind try_bind].
  destruct (hasMessageIdentifier p); [by eauto |].
  destruct (message p) as [pm |].
  { destruct (findM_total (fun m => Ok (bool_decide (body m = pm))) msgs)
      as [found ->]; [by eauto | by eauto]. }
  destruct (userRecord p) as [pu |].
  { destruct (findM_total
                (fun m => match s !! m with
                          | Some st => Ok (bool_decide (userRecord st = Some pu))
                          | None => Throw typeError
                          end) msgs) as [found ->]; [| by eauto].
    intros m Hm. destruct (Hs m Hm) as [st ->]. by eauto. }
  destruct (record p) as [pr |]; [| by eauto].
  destruct (findM_total
              (fun m => match s !! m with
                        | Some st => Ok (bool_decide (record st = Some pr))
                        | None => Throw typeError
                        end) msgs) as [found ->]; [| by eauto].
  intros m Hm. destruct (Hs m Hm) as [st ->]. by eauto.
Qed.

Lemma restoredState_identity (curr : TrackedState) (prev : option TrackedState) :
  identityView (restoredState curr prev) = identityView curr.
Proof. by destruct prev. Qed.

Lemma restoreMessageState_other (c1 c2 : Caches) (b : Batch) (m x : Item) :
  x <> m ->
  states (fst (restoreMessageState c1 c2 b m)) !! x = states b !! x /\
  (x ∈ messages (fst (restoreMessageState c1 c2 b m)) <-> x ∈ messages b) /\
  (x ∈ rejectedMessages (fst (restoreMessageState c1 c2 b m))
   <-> x ∈ rejectedMessages b).
Proof.
  intros Hne. unfold restoreMessageState.
  destruct (states b !! m) as [curr |]; [| done].
  destruct (orElse _ _) as [prev |]; [| done].
  cbn [fst states set_states messages rejectedMessages].
  rewrite lookup_insert_ne by done.
  destruct (lookupPrev c2 _ m); [| done].
  unfold moveMessageToRejected, includes. cbn. split; [done |]. split.
  - split; [apply elem_of_removeFirst | by apply elem_of_removeFirst_ne].
  - case_bool_decide; [done |]. rewrite elem_of_app, list_elem_of_singleton.
    split; [by intros [? | ?] | by left].
Qed.

(** The first loop, seen from one message. *)
Lemma restoreMessages_loop (c1 c2 : Caches) (l : list Item) :
  forall (b0 : Batch) (msg : Item) (curr : TrackedState),
  NoDup l -> (forall m, m ∈ l -> is_Some (states b0 !! m)) ->
  states b0 !! msg = Some curr ->
  let r := forEachItem (restoreMessageState c1 c2) l b0 in
  let prevMsgState := lookupPrev c1 (bfkOf curr) msg in
  let prevRejMsgState := lookupPrev c2 (bfkOf curr) msg in
  snd r = None /\
  (msg ∉ l ->
   states (fst r) !! msg = Some curr /\
   (msg ∈ messages (fst r) <-> msg ∈ messages b0) /\
   (msg ∈ rejectedMessages (fst r) <-> msg ∈ rejectedMessages b0)) /\
  (msg ∈ l ->
   states (fst r) !! msg
   = Some (restoredState curr (orElse prevMsgState prevRejMsgState)) /\
   (prevRejMsgState = None ->
    (msg ∈ messages (fst r) <-> msg ∈ messages b0) /\
    (msg ∈ rejectedMessages (fst r) <-> msg ∈ rejectedMessages b0)) /\
   (is_Some prevRejMsgState ->
    msg ∈ rejectedMessages (fst r) /\
    (NoDup (messages b0) -> msg ∉ messages (fst r)))).
Proof.
  induction l as [| m l IH]; intros b0 msg curr Hnd Hall Hcurr; cbn zeta.
  { split; [done |]. split; [done |]. by intros ?%elem_of_nil. }
  apply NoDup_cons in Hnd as [Hm Hnd].
  rewrite forEachItem_cons.
  destruct (Hall m ltac:(left)) as [stm Hstm].
  pose proof (restoreMessageState_step c1 c2 b0 m stm Hstm) as [Hok Hstates].
  destruct (restoreMessageState c1 c2 b0 m) as [b1 [e |]] eqn:Hstep;
    [done |]. cbn [fst snd] in *.
  assert (forall x, x ∈ l -> is_Some (states b1 !! x)) as Hall1.
  { intros x Hx. rewrite Hstates.
    destruct (orElse _ _); [| by apply Hall; right].
    destruct (decide (x = m)) as [-> | Hne];
      [by rewrite lookup_insert_eq | rewrite lookup_insert_ne by done].
    apply Hall. by right. }
  destruct (decide (msg = m)) as [-> | Hne].
  - assert (stm = curr) as -> by congruence.
    assert (states b1 !! m
            = Some (restoredState curr
                      (orElse (lookupPrev c1 (bfkOf curr) m)
                              (lookupPrev c2 (bfkOf curr) m)))) as Hst1.
    { rewrite Hstates. destruct (orElse _ _); [apply lookup_insert_eq | done]. }
    destruct (IH b1 m _ Hnd Hall1 Hst1) as (Hsnd & Hout & _).
    destruct (Hout Hm) as (Hs & Hmsgs & Hrej).
    split; [done |]. split; [intros Hnot; exfalso; apply Hnot; by left |].
    intros _. split; [done |].
    assert (b1 = fst (restoreMessageState c1 c2 b0 m)) as Hb1
      by (by rewrite Hstep).
    unfold restoreMessageState in Hb1. rewrite Hcurr in Hb1.
    split.
    + intros Hnone. rewrite Hnone in Hb1. rewrite Hmsgs, Hrej.
      destruct (orElse _ None); by subst b1.
    + intros [prev Hprev]. rewrite Hprev in Hb1.
      assert (exists p, orElse (lookupPrev c1 (bfkOf curr) m) (Some prev) = Some p)
        as [p Hp] by (destruct (lookupPrev c1 _ m); cbn; by eauto).
      rewrite Hp in Hb1. cbn [fst] in Hb1.
      rewrite Hmsgs, Hrej. subst b1.
      cbn [messages rejectedMessages set_states].
      destruct (moveMessageToRejected_spec b0 m) as (Hin & Hms & _).
      split; [done |]. intros Hnd0. rewrite Hms.
      by apply removeFirst_not_in.
  - pose proof (restoreMessageState_other c1 c2 b0 m msg Hne) as Hother.
    rewrite Hstep in Hother. cbn [fst] in Hother.
    destruct Hother as (Hs & Hmsgs & Hrej).
    assert (states b1 !! msg = Some curr) as Hst1 by (by rewrite Hs).
    destruct (IH b1 msg curr Hnd Hall1 Hst1) as (Hsnd & Hout & Hin).
    split; [done |]. split.
    + intros [_ Hnot]%not_elem_of_cons.
      destruct (Hout Hnot) as (? & Hm1 & Hr1).
      split; [done |]. by rewrite Hm1, Hr1.
    + intros [? | Hl]%elem_of_cons; [done |].
      destruct (Hin Hl) as (? & Hnone & Hsome).
      split; [done |]. split.
      * intros Hn. destruct (Hnone Hn) as [Hm1 Hr1]. by rewrite Hm1, Hr1.
      * intros Hp. destruct (Hsome Hp) as [Hr1 Hm1]. split; [done |].
        intros Hnd0. apply Hm1.
        assert (messages b1 = messages b0 \/ messages b1 = removeFirst m (messages b0))
          as [-> | ->]; [| done | by apply NoDup_removeFirst].
        assert (b1 = fst (restoreMessageState c1 c2 b0 m)) as ->
          by (by rewrite Hstep).
        unfold restoreMessageState. rewrite Hstm.
        destruct (orElse _ _); [| by left].
        destruct (lookupPrev c2 _ m); [by right | by left].
Qed.

(** The second loop, seen from one message. *)
Lemma restoreRejectedMessages_loop (c1 c2 : Caches) (l : list Item) :
  forall (b0 : Batch) (msg : Item) (curr : TrackedState),
  NoDup l -> (forall m, m ∈ l -> is_Some (states b0 !! m)) ->
  states b0 !! msg = Some curr ->
  let r := forEachItem (restoreRejectedMessageState c1 c2) l b0 in
  let prevMsgState := lookupPrev c1 (bfkOf curr) msg in
  let prevRejMsgState := lookupPrev c2 (bfkOf curr) msg in
  snd r = None /\
  messages (fst r) = messages b0 /\
  rejectedMessages (fst r) = rejectedMessages b0 /\
  (msg ∉ l -> states (fst r) !! msg = Some curr) /\
  (msg ∈ l ->
   states (fst r) !! msg
   = Some (restoredState curr (orElse prevRejMsgState prevMsgState))).
Proof.
  induction l as [| m l IH]; intros b0 msg curr Hnd Hall Hcurr; cbn zeta.
  { repeat split; try done. by intros ?%elem_of_nil. }
  apply NoDup_cons in Hnd as [Hm Hnd].
  rewrite forEachItem_cons.
  destruct (Hall m ltac:(left)) as [stm Hstm].
  pose proof (restoreRejectedMessageState_step c1 c2 b0 m stm Hstm)
    as [Hok Hstates].
  assert (messages (fst (restoreRejectedMessageState c1 c2 b0 m)) = messages b0
          /\ rejectedMessages (fst (restoreRejectedMessageState c1 c2 b0 m))
             = rejectedMessages b0) as [Hms Hrs].
  { unfold restoreRejectedMessageState. rewrite Hstm.
    by destruct (orElse _ _). }
  destruct (restoreRejectedMessageState c1 c2 b0 m) as [b1 [e |]] eqn:Hstep;
    [done |]. cbn [fst snd] in *.
  assert (forall x, x ∈ l -> is_Some (states b1 !! x)) as Hall1.
  { intros x Hx. rewrite Hstates.
    destruct (orElse _ _); [| by apply Hall; right].
    destruct (decide (x = m)) as [-> | Hne];
      [by rewrite lookup_insert_eq | rewrite lookup_insert_ne by done].
    apply Hall. by right. }
  destruct (decide (msg = m)) as [-> | Hne].
  - assert (stm = curr) as -> by congruence.
    assert (states b1 !! m
            = Some (restoredState curr
                      (orElse (lookupPrev c2 (bfkOf curr) m)
                              (lookupPrev c1 (bfkOf curr) m)))) as Hst1.
    { rewrite Hstates. destruct (orElse _ _); [apply lookup_insert_eq | done]. }
    destruct (IH b1 m _ Hnd Hall1 Hst1) as (Hsnd & Hm1 & Hr1 & Hout & _).
    split; [done |]. split; [congruence |]. split; [congruence |].
    split; [intros Hnot; exfalso; apply Hnot; by left |].
    intros _. by apply Hout.
  - assert (states b1 !! msg = Some curr) as Hst1.
    { rewrite Hstates. destruct (orElse _ _); [| done].
      by rewrite lookup_insert_ne. }
    destruct (IH b1 msg curr Hnd Hall1 Hst1) as (Hsnd & Hm1 & Hr1 & Hout & Hin).
    split; [done |]. split; [congruence |]. split; [congruence |]. split.
    + intros [_ Hnot]%not_elem_of_cons. by apply Hout.
    + intros [? | Hl]%elem_of_cons; [done |]. by apply Hin.
Qed.


(** C4, amended: during restoration of prior state, for each current message
in the batch's messages list (the messages and rejected messages being
distinct objects with tracked states), prior states are looked up in the prior
message-state map and in the prior rejected-message-state map, both by BFK if
the current state has an identifier and otherwise by content equality. When
the rejected-message-state map has a match, also when the message-state map
has one too, the message is moved from [messages] to [rejectedMessages] and
ends with the task maps [ones], [alls] and [discards] of that match: what the
first loop took from the message-state map is replaced when the second loop
restores the moved message. When only the message-state map has a match, the
message stays in [messages] and gets the task maps of that match. Without any
match the message and its state stay as they are. The restoration does not
throw. *)
Theorem C4_restore_messages (batch : Batch) (item : BatchStateItem)
    (msg : Item) (currState : TrackedState) :
  NoDup (messages batch ++ rejectedMessages batch) ->
  (forall m, m ∈ messages batch ++ rejectedMessages batch ->
             is_Some (states batch !! m)) ->
  msg ∈ messages batch ->
  states batch !! msg = Some currState ->
  exists prevMsgStates prevRejMsgStates,
    cachePrevStatesByBfkOrMsg (messageStates item) (allMessages batch)
      (states batch) = Ok prevMsgStates /\
    cachePrevStatesByBfkOrMsg (rejectedMessageStates item) (allMessages batch)
      (states batch) = Ok prevRejMsgStates /\
    let prevMsgState := lookupPrev prevMsgStates (bfkOf currState) msg in
    let prevRejMsgState := lookupPrev prevRejMsgStates (bfkOf currState) msg in
    let after := fst (restoreMessageAndRejectedMessageStates batch item) in
    snd (restoreMessageAndRejectedMessageStates batch item) = None /\
    (hasMessageIdentifier currState = true ->
       prevMsgState = fst prevMsgStates !! toMessageBFK currState /\
       prevRejMsgState = fst prevRejMsgStates !! toMessageBFK currState) /\
    (hasMessageIdentifier currState = false ->
       prevMsgState = snd prevMsgStates !! msg /\
       prevRejMsgState = snd prevRejMsgStates !! msg) /\
    (forall prev, prevRejMsgState = Some prev ->
       msg ∈ rejectedMessages after /\ (msg ∉ messages after) /\
       states after !! msg = Some (setMessageStateToPrev currState prev)) /\
    (forall prev, prevRejMsgState = None -> prevMsgState = Some prev ->
       msg ∈ messages after /\ (msg ∉ rejectedMessages after) /\
       states after !! msg = Some (setMessageStateToPrev currState prev)) /\
    (prevRejMsgState = None -> prevMsgState = None ->
       msg ∈ messages after /\ (msg ∉ rejectedMessages after) /\
       states after !! msg = Some currState) /\
    (forall prev,
       taskView (setMessageStateToPrev currState prev) = taskView prev /\
       identityView (setMessageStateToPrev currState prev)
       = identityView currState).
Proof.
  intros Hnd Hall Hin Hcurr.
  assert (forall m, m ∈ allMessages batch -> is_Some (states batch !! m)) as Hall'.
  { intros m Hm. by apply Hall, elem_of_allMessages. }
  destruct (cachePrevStatesByBfkOrMsg_total (messageStates item) _ _ Hall')
    as [c1 Hc1].
  destruct (cachePrevStatesByBfkOrMsg_total (rejectedMessageStates item) _ _ Hall')
    as [c2 Hc2].
  exists c1, c2. split; [done |]. split; [done |]. cbn zeta.
  set (pm := lookupPrev c1 (bfkOf currState) msg).
  set (pr := lookupPrev c2 (bfkOf currState) msg).
  assert (NoDup (messages batch) /\ msg ∉ rejectedMessages batch) as [Hndm Hnotrej].
  { apply NoDup_app in Hnd as (Hndm & Hdisj & _). split; [done |]. by apply Hdisj. }
  unfold restoreMessageAndRejectedMessageStates.
  assert (bool_decide (length (allMessages batch) = 0%nat) = false) as ->.
  { apply bool_decide_eq_false_2. intros Hlen.
    apply length_zero_iff_nil in Hlen.
    assert (msg ∈ allMessages batch) as Hmsg
      by (apply elem_of_allMessages, elem_of_app; by left).
    rewrite Hlen in Hmsg. by apply elem_of_nil in Hmsg. }
  rewrite Hc1, Hc2.
  (* the first loop *)
  destruct (restoreMessages_loop c1 c2 (messages batch) batch msg currState Hndm)
    as (Hsnd1 & _ & Hfirst); [| done |].
  { intros m Hm. apply Hall, elem_of_app. by left. }
  destruct (Hfirst Hin) as (Hst1 & Hnone1 & Hsome1). clear Hfirst.
  fold pm pr in Hst1, Hnone1, Hsome1.
  set (P := fun b' =>
              sameItems batch b' /\ previouslySaved b' = previouslySaved batch /\
              (NoDup (messages batch ++ rejectedMessages batch) ->
               NoDup (messages b' ++ rejectedMessages b'))).
  assert (P (fst (forEachItem (restoreMessageState c1 c2) (messages batch) batch)))
    as (Hsame & _ & Hnd1).
  { apply forEachItem_invariant; [| apply keeps_refl].
    intros b m Hm HP. apply (keeps_step batch b); [done |].
    apply restoreMessageState_sameItems.
    apply (proj1 HP). apply elem_of_app. by left. }
  destruct (forEachItem (restoreMessageState c1 c2) (messages batch) batch)
    as [b1 [e |]]; [done |]. cbn [fst snd] in *.
  destruct Hsame as (_ & Hmem & Hids).
  specialize (Hnd1 Hnd). apply NoDup_app in Hnd1 as (_ & Hdisj1 & Hndr1).
  (* the second loop *)
  destruct (restoreRejectedMessages_loop c1 c2 (rejectedMessages b1) b1 msg
              (restoredState currState (orElse pm pr)) Hndr1)
    as (Hsnd2 & Hm2 & Hr2 & Hout2 & Hin2); [| exact Hst1 |].
  { intros m Hm.
    assert (is_Some (states batch !! m)) as [st Hst].
    { apply Hall, Hmem, elem_of_app. by right. }
    specialize (Hids m). rewrite Hst in Hids.
    destruct (states b1 !! m); [by eauto | done]. }
  rewrite (bfkOf_identity _ currState (restoredState_identity _ _)) in Hin2.
  fold pm pr in Hin2.
  split; [done |].
  split; [intros Hid; split; by apply lookupPrev_by_bfk |].
  split; [intros Hid; split; by apply lookupPrev_by_msg |].
  rewrite Hm2, Hr2.
  split; [| split; [| split]].
  - intros prev Hprev. destruct (Hsome1 ltac:(by rewrite Hprev)) as [Hr Hm].
    split; [done |]. split; [by apply Hm |].
    rewrite (Hin2 Hr), Hprev. by destruct pm.
  - intros prev Hnone Hprev. destruct (Hnone1 Hnone) as [Hm Hr].
    split; [by apply Hm |]. split; [by rewrite Hr |].
    rewrite Hout2 by (by rewrite Hr). by rewrite Hprev.
  - intros Hnone Hnone'. destruct (Hnone1 Hnone) as [Hm Hr].
    split; [by apply Hm |]. split; [by rewrite Hr |].
    rewrite Hout2 by (by rewrite Hr). by rewrite Hnone, Hnone'.
  - intros prev. by split.
Qed.

Lemma C4_witness :
  msgA ∈ rejectedMessages
           (fst (restoreMessageAndRejectedMessageStates freshBatch ambiguousItem)) /\
  (msgA ∉ messages
            (fst (restoreMessageAndRejectedMessageStates freshBatch ambiguousItem))) /\
  states (fst (restoreMessageAndRejectedMessageStates freshBatch ambiguousItem))
    !! msgA
  = Some (setMessageStateToPrev freshState priorRejectedState).
Proof.
  destruct (C4_restore_messages freshBatch ambiguousItem msgA freshState)
    as (c1 & c2 & Hc1 & Hc2 & _ & _ & _ & Hrejected & _).
  - exact (bool_decide_unpack
             (NoDup (messages freshBatch ++ rejectedMessages freshBatch)) I).
  - intros m Hm. cbn in Hm. apply list_elem_of_singleton in Hm as ->.
    by eexists.
  - cbn. by left.
  - reflexivity.
  - apply (Hrejected priorRejectedState).
    destruct cache_of_ambiguousItem as [_ Hcache].
    cbn in Hc2. cbn in Hcache. rewrite Hcache in Hc2.
    injection Hc2 as <-. reflexivity.
Defined.

End RestoreWhole.


(** ** Both comparators, and sequencing as a whole (sequencing.js) *)

Section ComparatorSymmetry.
Import Tasks Tracking BatchM Sequencing SequencingViews Fixtures.

Variable compareStrings : string -> string -> Z.
Variable deepEqual : option (list (string * Value)) ->
                     option (list (string * Value)) -> bool.

Lemma consistentSortables_tail (p1 p2 : SeqNoPart) (l1 l2 : list SeqNoPart) :
  consistentSortables (p1 :: l1) (p2 :: l2) -> consistentSortables l1 l2.
Proof. intros H i. apply (H (S i)). Qed.

Lemma consistentSortables_sym (l1 l2 : list SeqNoPart) :
  consistentSortables l1 l2 -> consistentSortables l2 l1.
Proof.
  intros H i p2 p1 s2 s1 H2 H1 Hs2 Hs1 Ht.
  destruct (H i p1 p2 s1 s2 H1 H2 Hs1 Hs2 (eq_sym Ht)) as [Hc Ha].
  split; [done |]. intros cmp Hcmp. apply Ha. by rewrite Hc.
Qed.

Lemma compareSeqNoParts_swap (l1 l2 : list SeqNoPart) :
  (forall a b, compareStrings b a = - compareStrings a b) ->
  consistentSortables l1 l2 ->
  compareSeqNoParts compareStrings l2 l1
  = Z.opp <$> compareSeqNoParts compareStrings l1 l2.
Proof.
  intros Hstr. revert l2.
  induction l1 as [| p1 l1 IH]; intros [| p2 l2] Hcons; try done.
  cbn [compareSeqNoParts]. rewrite (Hstr (partKey p1) (partKey p2)).
  destruct (compareStrings (partKey p1) (partKey p2) =? 0) eqn:Hk.
  - apply Z.eqb_eq in Hk. rewrite Hk. cbn [Z.opp Z.eqb negb].
    destruct (decide (sortTypeOf p1 = sortTypeOf p2)) as [Ht | Ht].
    + rewrite !bool_decide_eq_true_2 by done. cbn [negb].
      unfold sortTypeOf in Ht. unfold compareOf.
      destruct (sortable p1) as [s1 |] eqn:Hs1, (sortable p2) as [s2 |] eqn:Hs2;
        cbn in Ht; try done.
      injection Ht as Ht.
      destruct (Hcons 0%nat p1 p2 s1 s2 eq_refl eq_refl Hs1 Hs2 Ht) as [Hc Ha].
      rewrite <- Hc. destruct (compare s1) as [cmp |] eqn:Hcmp; [| done].
      specialize (Ha cmp eq_refl (partVal p1) (partVal p2)).
      destruct (Z.ltb_spec (cmp (partVal p1) (partVal p2)) 0) as [Hlt | Hge].
      * rewrite (proj2 (Z.ltb_ge (cmp (partVal p2) (partVal p1)) 0)) by lia.
        by rewrite (proj2 (Z.ltb_lt 0 (cmp (partVal p2) (partVal p1)))) by lia.
      * destruct (Z.ltb_spec 0 (cmp (partVal p1) (partVal p2))) as [Hgt | Hle].
        -- by rewrite (proj2 (Z.ltb_lt (cmp (partVal p2) (partVal p1)) 0)) by lia.
        -- rewrite (proj2 (Z.ltb_ge (cmp (partVal p2) (partVal p1)) 0)) by lia.
           rewrite (proj2 (Z.ltb_ge 0 (cmp (partVal p2) (partVal p1)))) by lia.
           apply IH. by eapply consistentSortables_tail.
    + rewrite !bool_decide_eq_false_2 by done. done.
  - apply Z.eqb_neq in Hk.
    rewrite (proj2 (Z.eqb_neq (- compareStrings (partKey p1) (partKey p2)) 0))
      by lia.
    done.
Qed.

Lemma compareSeqNos_swap (l1 l2 : list SeqNoPart) :
  (forall a b, compareStrings b a = - compareStrings a b) ->
  consistentSortables l1 l2 ->
  compareSeqNos compareStrings l2 l1 = Z.opp <$> compareSeqNos compareStrings l1 l2.
Proof.
  intros Hstr Hcons. unfold compareSeqNos. cbn zeta.
  rewrite (Nat.max_comm (length l2) (length l1)).
  destruct (Nat.ltb_spec (length l1) (Nat.max (length l1) (length l2))) as [H1 | H1].
  - by rewrite (proj2 (Nat.ltb_ge (length l2) _)) by lia.
  - destruct (Nat.ltb_spec (length l2) (Nat.max (length l1) (length l2)))
      as [H2 | H2]; [done |].
    by apply compareSeqNoParts_swap.
Qed.

(** X6: both comparators are antisymmetric: comparing two messages the other
way round gives the opposite result, or throws the same error. This needs no
more than the string comparison of part keys being antisymmetric and, at
every ordinal, sortables of the same sort type sharing one antisymmetric
compare function, as core-functions/sorting provides them; and, for the
same-key comparator, that deep-equal does not depend on the order of the two
keys it is given. *)
Theorem comparators_are_antisymmetric (states : gmap Item TrackedState)
    (msg1 msg2 : Item) (st1 st2 : TrackedState) :
  (forall a b, compareStrings b a = - compareStrings a b) ->
  (forall keys1 keys2, deepEqual keys2 keys1 = deepEqual keys1 keys2) ->
  states !! msg1 = Some st1 -> states !! msg2 = Some st2 ->
  consistentSortables (seqNos st1) (seqNos st2) ->
  compareSameKeyMessages compareStrings deepEqual msg2 msg1 states
  = Z.opp <$> compareSameKeyMessages compareStrings deepEqual msg1 msg2 states /\
  compareAnyKeyMessages compareStrings msg2 msg1 states
  = Z.opp <$> compareAnyKeyMessages compareStrings msg1 msg2 states.
Proof.
  intros Hstr Hsym H1 H2 Hcons.
  unfold compareSameKeyMessages, compareAnyKeyMessages, stateOf.
  rewrite H1, H2. cbn.
  split; [| by apply compareSeqNos_swap].
  rewrite (Hsym (keys st1) (keys st2)).
  destruct (deepEqual (keys st1) (keys st2)); cbn [negb]; [| done].
  by apply compareSeqNos_swap.
Qed.

End ComparatorSymmetry.

Section ComparatorSymmetryWitness.
Import Tasks Tracking BatchM Sequencing SequencingViews Fixtures.

Lemma compareStringsJs_antisymmetric (a b : string) :
  compareStringsJs b a = - compareStringsJs a b.
Proof.
  unfold compareStringsJs. rewrite (String.compare_antisym b a).
  by destruct (String.compare a b).
Qed.

Lemma deepEqualKeys_symmetric (keys1 keys2 : option (list (string * Value))) :
  deepEqualKeys keys2 keys1 = deepEqualKeys keys1 keys2.
Proof. unfold deepEqualKeys. apply bool_decide_ext. by split. Qed.

Lemma comparators_are_antisymmetric_witness :
  compareSameKeyMessages compareStringsJs deepEqualKeys msgB msgA
    (<[msgA := keyedState "K1" [part "n" 3]]>
       (<[msgB := keyedState "K1" [part "n" 1]]> ∅))
  = Ok (-1).
Proof.
  refine (eq_trans (proj1 (comparators_are_antisymmetric compareStringsJs
            deepEqualKeys
            (<[msgA := keyedState "K1" [part "n" 3]]>
               (<[msgB := keyedState "K1" [part "n" 1]]> ∅))
            msgA msgB (keyedState "K1" [part "n" 3]) (keyedState "K1" [part "n" 1])
            compareStringsJs_antisymmetric deepEqualKeys_symmetric _ _ _)) _).
  - reflexivity.
  - reflexivity.
  - intros [| i] p1 p2 s1 s2 H1 H2 Hs1 Hs2 _; [| done].
    cbn in H1, H2. injection H1 as <-. injection H2 as <-.
    cbn in Hs1, Hs2. injection Hs1 as <-. injection Hs2 as <-.
    split; [done |]. intros cmp [= <-] a b. unfold compareNumbers.
    destruct a as [[] |], b as [[] |]; cbn; try done.
    rewrite <- Z.sgn_opp. f_equal. lia.
  - vm_compute. reflexivity.
Defined.

End ComparatorSymmetryWitness.


Section SequencingErrors.
Import Tasks Tracking BatchM Sequencing SequencingViews Fixtures.

Variable compareStrings : string -> string -> Z.
Variable toSortable : list (option Value) -> Sortable.
Variable deepEqual : option (list (string * Value)) ->
                     option (list (string * Value)) -> bool.

Lemma two_distinct_length {A} (l : list A) (a b : A) :
  a ∈ l -> b ∈ l -> a <> b -> (2 <= length l)%nat.
Proof.
  intros Ha Hb Hne. destruct l as [| x [| y l]]; [| | simpl; lia].
  - by apply elem_of_nil in Ha.
  - apply list_elem_of_singleton in Ha, Hb. congruence.
Qed.

Lemma two_distinct_uniq `{EqDecision A} (l : list A) (a b : A) :
  a ∈ l -> b ∈ l -> a <> b -> (1 < length (uniq l))%nat.
Proof.
  intros Ha Hb Hne.
  apply (two_distinct_length (uniq l) a b); [by apply elem_of_uniq.. | done].
Qed.

Lemma keyAt_prepared (sortablesByKey : gmap string Sortable) (p q m : nat)
    (seqNo : list SeqNoPart) :
  keyAt q (match seqNo !! p with
           | Some seqNoPart => <[p := preparedPart sortablesByKey m seqNoPart]> seqNo
           | None => seqNo
           end) = keyAt q seqNo.
Proof.
  destruct (seqNo !! p) as [seqNoPart |] eqn:Hp; [| done].
  unfold keyAt. destruct (decide (p = q)) as [<- | Hne].
  - rewrite list_lookup_insert_eq by (by eapply lookup_lt_Some). by rewrite Hp.
  - by rewrite list_lookup_insert_ne.
Qed.

Lemma map_imap_invariant {A B} (g : A -> B) (f : nat -> A -> A) (l : list A) :
  (forall i x, g (f i x) = g x) -> map g (imap f l) = map g l.
Proof.
  revert f. induction l as [| x l IH]; intros f H; [done |].
  cbn. rewrite H. f_equal. apply IH. intros i y. apply H.
Qed.

Lemma prepareSeqNoPart_keys (required : bool) (p q : nat)
    (all all' : list (list SeqNoPart)) :
  prepareSeqNoPart toSortable required p all = Ok all' ->
  map (keyAt q) all' = map (keyAt q) all.
Proof.
  unfold prepareSeqNoPart. cbn zeta.
  destruct (_ && _); [discriminate |]. intros [= <-].
  apply map_imap_invariant. intros m seqNo. apply keyAt_prepared.
Qed.

Lemma foldl_prepareSeqNoPart_Throw (required : bool) (e : Err) (ps : list nat) :
  foldl (fun acc p => all ← acc; prepareSeqNoPart toSortable required p all)
        (Throw e) ps = Throw e.
Proof. by induction ps. Qed.

Lemma prepare_rounds_refuse (n : nat) :
  forall (k p : nat) (all : list (list SeqNoPart)),
  (k <= p < k + n)%nat ->
  (1 < length (uniq (map (keyAt p) all)))%nat ->
  foldl (fun acc p => all ← acc; prepareSeqNoPart toSortable true p all)
        (Ok all) (seq k n) = Throw notAllSameKey.
Proof.
  induction n as [| n IH]; intros k p all Hp Hmany; [lia |].
  cbn [seq foldl]. cbn [mbind try_mbind try_bind].
  destruct (prepareSeqNoPart toSortable true k all) as [all' | e] eqn:Hround.
  - destruct (decide (p = k)) as [-> | Hne].
    + unfold prepareSeqNoPart in Hround. cbn zeta in Hround.
      by rewrite (proj2 (Nat.ltb_lt _ _) Hmany) in Hround.
    + apply (IH (S k) p); [lia |].
      by rewrite (prepareSeqNoPart_keys _ _ _ _ _ Hround).
  - unfold prepareSeqNoPart in Hround. cbn zeta in Hround.
    destruct (_ && _); [| discriminate]. injection Hround as <-.
    apply foldl_prepareSeqNoPart_Throw.
Qed.

Lemma length_le_maxParts (all : list (list SeqNoPart)) (sns : list SeqNoPart) :
  sns ∈ all -> (length sns <= foldr Nat.max 0%nat (map length all))%nat.
Proof.
  induction all as [| x all IH]; intros Hin; [by apply elem_of_nil in Hin |].
  apply elem_of_cons in Hin as [-> | Hin]; cbn; [lia |].
  specialize (IH Hin). lia.
Qed.

Lemma Forall2_states_elem (s : gmap Item TrackedState) (l : list Item)
    (sts : list TrackedState) (m : Item) (st : TrackedState) :
  Forall2 (fun m st => s !! m = Some st) l sts ->
  m ∈ l -> s !! m = Some st -> st ∈ sts.
Proof.
  induction 1 as [| x y l sts Hxy _ IH]; intros Hin Hst;
    [by apply elem_of_nil in Hin |].
  apply elem_of_cons in Hin as [-> | Hin].
  - assert (y = st) as -> by congruence. by left.
  - right. by apply IH.
Qed.

(** X7: when sequencing is required, two messages whose sequence numbers
have different part keys at some ordinal (or of which only one has a part
there, as when the numbers of parts differ) stop the sequencing of the whole
batch: it throws the not-all-the-same-key error, and no message is linked. *)
Theorem differing_part_keys_are_refused (batch : Batch) (context : Context)
    (m1 m2 : Item) (st1 st2 : TrackedState) (p : nat) :
  sequencingRequired (streamProcessing context) = true ->
  (forall m, m ∈ messages batch -> is_Some (states batch !! m)) ->
  m1 ∈ messages batch -> m2 ∈ messages batch ->
  states batch !! m1 = Some st1 -> states batch !! m2 = Some st2 ->
  keyAt p (seqNos st1) <> keyAt p (seqNos st2) ->
  sequenceMessages compareStrings toSortable deepEqual batch context = Throw notAllSameKey.
Proof.
  intros Hreq Hall Hm1 Hm2 Hst1 Hst2 Hkeys.
  assert (m1 <> m2) as Hne by (intros ->; congruence).
  pose proof (two_distinct_length _ _ _ Hm1 Hm2 Hne) as Hlen.
  unfold sequenceMessages. cbn zeta.
  rewrite (proj2 (Nat.ltb_ge _ _)) by lia. rewrite Hreq. cbn [negb orb].
  unfold prepareMessagesForSequencing.
  rewrite (proj2 (Nat.ltb_ge _ _)) by lia. rewrite Hreq.
  destruct (statesOf_total _ _ Hall) as (sts & -> & Hsts).
  cbn [mbind try_mbind try_bind].
  pose proof (Forall2_states_elem _ _ _ _ _ Hsts Hm1 Hst1) as Hin1.
  pose proof (Forall2_states_elem _ _ _ _ _ Hsts Hm2 Hst2) as Hin2.
  assert (seqNos st1 ∈ map seqNos sts) as Hs1
    by (rewrite map_fmap; by apply list_elem_of_fmap_2).
  assert (seqNos st2 ∈ map seqNos sts) as Hs2
    by (rewrite map_fmap; by apply list_elem_of_fmap_2).
  rewrite (prepare_rounds_refuse _ 0 p); [done | |].
  - assert (p < length (seqNos st1) \/ p < length (seqNos st2))%nat as Hlt.
    { unfold keyAt in Hkeys.
      destruct (seqNos st1 !! p) eqn:H1; [left; by eapply lookup_lt_Some |].
      destruct (seqNos st2 !! p) eqn:H2; [right; by eapply lookup_lt_Some |].
      done. }
    pose proof (length_le_maxParts _ _ Hs1). pose proof (length_le_maxParts _ _ Hs2).
    lia.
  - apply (two_distinct_uniq _ (keyAt p (seqNos st1)) (keyAt p (seqNos st2)));
      [| | done]; rewrite map_fmap; by apply list_elem_of_fmap_2.
Qed.

End SequencingErrors.

Section SequencingErrorsWitness.
Import Tasks Tracking BatchM Sequencing SequencingViews Fixtures.

Lemma differing_part_keys_witness :
  sequenceMessages compareStringsJs toSortableNumbers deepEqualKeys
    (set_states unevenStates (set_messages [msgA; msgB] [] shuffledBatch))
    (configured true false)
  = Throw notAllSameKey.
Proof.
  apply (differing_part_keys_are_refused compareStringsJs toSortableNumbers
           deepEqualKeys
           (set_states unevenStates (set_messages [msgA; msgB] [] shuffledBatch))
           (configured true false) msgA msgB
           (keyedState "K1" [part "a" 1])
           (keyedState "K1" [part "b" 1; part "c" 2]) 1).
  - reflexivity.
  - intros m Hm. cbn in Hm.
    apply elem_of_cons in Hm as [-> | Hm]; [by eexists |].
    apply list_elem_of_singleton in Hm as ->. by eexists.
  - cbn. by left.
  - cbn. right. by left.
  - reflexivity.
  - reflexivity.
  - cbn. discriminate.
Defined.

End SequencingErrorsWitness.


Section SequencingFrame.
Import Tasks Tracking BatchM Sequencing SequencingViews Fixtures.

Lemma linkMessages_unsequenced (prev : option Item) (msgs : list Item)
    (s : gmap Item TrackedState) :
  agreeOn unsequencedView s (linkMessages prev msgs s).
Proof.
  revert prev s. induction msgs as [| m rest IH]; intros prev s; cbn.
  - destruct prev; [by apply agreeOn_alter | apply agreeOn_refl].
  - eapply agreeOn_trans; [| apply IH].
    apply (agreeOn_trans _ _ (alter (fun st => setPrevMessage st prev) m s));
      [by apply agreeOn_alter |].
    destruct prev; [by apply agreeOn_alter | apply agreeOn_refl].
Qed.

Lemma storeSeqNos_unsequenced (msgs : list Item) (all : list (list SeqNoPart))
    (s : gmap Item TrackedState) :
  agreeOn unsequencedView s (storeSeqNos msgs all s).
Proof.
  revert all s. induction msgs as [| m msgs IH]; intros [| sns all] s; cbn;
    try apply agreeOn_refl.
  eapply agreeOn_trans; [| apply IH]. by apply agreeOn_alter.
Qed.

Lemma linkMessages_other (prev : option Item) (msgs : list Item)
    (s : gmap Item TrackedState) (x : Item) :
  x ∉ option_list prev ++ msgs -> linkMessages prev msgs s !! x = s !! x.
Proof.
  revert prev s. induction msgs as [| m rest IH]; intros prev s Hx; cbn.
  - destruct prev as [p |]; [| done]. apply lookup_alter_ne.
    cbn in Hx. set_solver.
  - rewrite IH.
    + assert (m <> x) as Hm by (destruct prev; cbn in Hx; set_solver).
      destruct prev as [p |].
      * rewrite lookup_alter_ne by (cbn in Hx; set_solver).
        by rewrite lookup_alter_ne.
      * by rewrite lookup_alter_ne.
    + destruct prev; cbn in *; set_solver.
Qed.

Lemma sequenceGroups_frame
    (cmp : Item -> Item -> gmap Item TrackedState -> Try Z)
    (groups : list (string * list Item)) :
  forall (f0 : list Item) (s0 : gmap Item TrackedState) f s,
  foldl (sequenceGroup cmp) (Ok (f0, s0)) groups = Ok (f, s) ->
  agreeOn unsequencedView s0 s /\
  (forall x, x ∉ concat (map snd groups) -> s !! x = s0 !! x) /\
  (forall m, m ∈ f -> m ∈ f0 \/ m ∈ concat (map snd groups)).
Proof.
  induction groups as [| [k msgs] groups IH]; intros f0 s0 f s Hfold.
  - cbn in Hfold. injection Hfold as <- <-.
    split; [apply agreeOn_refl |]. split; [done | by left].
  - cbn [foldl] in Hfold.
    assert (sequenceGroup cmp (Ok (f0, s0)) (k, msgs)
            = match sort (fun m1 m2 => cmp m1 m2 s0) msgs with
              | Ok sorted => Ok (f0 ++ option_list (head sorted),
                                 linkMessages None sorted s0)
              | Throw e => Throw e
              end) as Hstep.
    { unfold sequenceGroup. cbn. by destruct (sort _ msgs). }
    rewrite Hstep in Hfold. clear Hstep.
    destruct (sort (fun m1 m2 => cmp m1 m2 s0) msgs) as [sorted | e] eqn:Hsort.
    2: { by rewrite foldl_sequenceGroup_Throw in Hfold. }
    apply IH in Hfold as (Hview & Hother & Hfirsts).
    pose proof (sort_Permutation _ _ _ Hsort) as Hperm.
    split; [| split].
    + eapply agreeOn_trans; [apply linkMessages_unsequenced | exact Hview].
    + intros x Hx. cbn in Hx. rewrite Hother by set_solver.
      apply linkMessages_other. cbn. rewrite Hperm. set_solver.
    + intros m Hm. cbn. destruct (Hfirsts m Hm) as [Hin | Hin]; [| set_solver].
      apply elem_of_app in Hin as [Hin | Hin]; [by left |].
      right. apply elem_of_app. left. rewrite <- Hperm.
      destruct sorted as [| h t]; cbn in Hin; [by apply elem_of_nil in Hin |].
      apply list_elem_of_singleton in Hin as ->. by left.
Qed.

Lemma groupBy_members (l : list Item) (keyOf : Item -> string) (m : Item) :
  m ∈ concat (map snd (groupBy l keyOf)) -> m ∈ l.
Proof.
  intros Hm. apply elem_of_concat in Hm as (c & Hc & Hmc).
  unfold groupBy in Hc. rewrite map_map in Hc. cbn in Hc.
  rewrite map_fmap in Hc. apply list_elem_of_fmap in Hc as (k & -> & _).
  by apply list_elem_of_filter in Hmc as [_ ?].
Qed.

Variable compareStrings : string -> string -> Z.
Variable toSortable : list (option Value) -> Sortable.
Variable deepEqual : option (list (string * Value)) ->
                     option (list (string * Value)) -> bool.

(** X8: whatever the two sequencing settings are, sequencing that succeeds
changes nothing of a tracked state but its sequence numbers and its two
chain links (the task maps, identifiers, keys and records stay as they
were); it adds and removes no state, leaves the state of anything that is
not a message of the batch alone, and every first message to process is a
message of the batch. *)
Theorem sequencing_only_sets_seqNos_and_links (batch : Batch) (context : Context)
    (firsts : list Item) (states' : gmap Item TrackedState) :
  sequenceMessages compareStrings toSortable deepEqual batch context = Ok (firsts, states') ->
  agreeOn unsequencedView (states batch) states' /\
  (forall x, is_Some (states' !! x) <-> is_Some (states batch !! x)) /\
  (forall x, x ∉ messages batch -> states' !! x = states batch !! x) /\
  (forall m, m ∈ firsts -> m ∈ messages batch).
Proof.
  intros Hseq.
  enough (agreeOn unsequencedView (states batch) states' /\
          (forall x, x ∉ messages batch -> states' !! x = states batch !! x) /\
          (forall m, m ∈ firsts -> m ∈ messages batch)) as (Hv & Ho & Hf).
  { split; [done |]. split; [| done]. intros x. specialize (Hv x).
    rewrite <- !fmap_is_Some with (f := unsequencedView). by rewrite Hv. }
  unfold sequenceMessages in Hseq. cbn zeta in Hseq.
  destruct (_ || _).
  { injection Hseq as <- <-. split; [apply agreeOn_refl | done]. }
  destruct (prepareMessagesForSequencing toSortable (messages batch) (states batch)
              context) as [prepared | e] eqn:Hprep; [| discriminate].
  cbn [mbind try_mbind try_bind] in Hseq.
  assert (agreeOn unsequencedView (states batch) prepared /\
          forall x, x ∉ messages batch -> prepared !! x = states batch !! x)
    as [Hpv Hpo].
  { unfold prepareMessagesForSequencing in Hprep.
    destruct (_ <? _)%nat.
    { injection Hprep as <-. split; [apply agreeOn_refl | done]. }
    destruct (statesOf (states batch) (messages batch)) as [sts |];
      [| discriminate].
    cbn [mbind try_mbind try_bind] in Hprep.
    destruct (foldl _ _ _) as [all |]; [| discriminate].
    injection Hprep as <-.
    split; [apply storeSeqNos_unsequenced |].
    intros x Hx. by apply storeSeqNos_other. }
  destruct (sequencingPerKey (streamProcessing context));
    apply sequenceGroups_frame in Hseq as (Hv & Ho & Hf).
  - split; [by eapply agreeOn_trans |]. split.
    + intros x Hx. rewrite Ho; [by apply Hpo |].
      intros Hin. by apply Hx, (groupBy_members _ _ _ Hin).
    + intros m Hm. destruct (Hf m Hm) as [Hin | Hin];
        [by apply elem_of_nil in Hin | by eapply groupBy_members].
  - cbn in Ho, Hf. split; [by eapply agreeOn_trans |]. split.
    + intros x Hx. rewrite Ho; [by apply Hpo | by rewrite app_nil_r].
    + intros m Hm. destruct (Hf m Hm) as [Hin | Hin];
        [by apply elem_of_nil in Hin | by rewrite app_nil_r in Hin].
Qed.

(** *** Sequencing across keys *)

Lemma compareAnyKeyMessages_total (s : gmap Item TrackedState) (m1 m2 : Item)
    (st1 st2 : TrackedState) :
  s !! m1 = Some st1 -> s !! m2 = Some st2 ->
  Forall2 comparableParts (seqNos st1) (seqNos st2) ->
  exists z, compareAnyKeyMessages compareStrings m1 m2 s = Ok z.
Proof.
  intros H1 H2 Hparts. unfold compareAnyKeyMessages, stateOf.
  rewrite H1, H2. cbn. unfold compareSeqNos. cbn zeta.
  rewrite (Forall2_length _ _ _ Hparts), Nat.max_id, Nat.ltb_irrefl.
  by apply compareSeqNoParts_total.
Qed.

Lemma prepared_parts_comparable (msgs : list Item) (s : gmap Item TrackedState)
    (context : Context) (partKeys : list string) :
  (forall values, is_Some (compare (toSortable values))) ->
  NoDup msgs -> Forall (fun key => key <> "") partKeys ->
  (forall m, m ∈ msgs ->
     exists st, s !! m = Some st /\ partKey <$> seqNos st = partKeys) ->
  (2 <= length msgs)%nat ->
  exists prepared,
    prepareMessagesForSequencing toSortable msgs s context = Ok prepared /\
    forall a b, a ∈ msgs -> b ∈ msgs ->
      exists sta stb, prepared !! a = Some sta /\ prepared !! b = Some stb /\
        Forall2 comparableParts (seqNos sta) (seqNos stb).
Proof.
  intros Hcmp Hnd Hclean Hstates Hlen.
  unfold prepareMessagesForSequencing.
  rewrite (proj2 (Nat.ltb_ge _ _)) by lia.
  destruct (statesOf_total s msgs) as (sts & -> & Hsts).
  { intros m Hm. destruct (Hstates m Hm) as (st & -> & _). by eauto. }
  cbn [mbind try_mbind try_bind].
  set (all := map seqNos sts).
  assert (Hlenall : length all = length msgs).
  { unfold all. rewrite length_map. symmetry. by eapply Forall2_length. }
  assert (Hallne : all <> []) by (intros E; rewrite E in Hlenall; cbn in *; lia).
  assert (Hall0 : preparedUpTo partKeys 0 all).
  { split; [| intros p Hp; lia].
    unfold all. rewrite map_fmap. apply Forall_fmap, Forall_lookup.
    intros i st Hi. cbn.
    destruct (Forall2_lookup_r _ _ _ _ _ Hsts Hi) as (m & Hm & Hst).
    destruct (Hstates m) as (st' & Hst' & Hpk); [by eapply list_elem_of_lookup_2 |].
    rewrite Hst in Hst'. by injection Hst' as <-. }
  rewrite (maxParts_constant (length partKeys)); [| done |].
  2: { destruct Hall0 as [Hk0 _]. eapply Forall_impl; [exact Hk0 |].
       intros sns <-. cbn. by rewrite length_fmap. }
  destruct (prepare_rounds toSortable partKeys
              (sequencingRequired (streamProcessing context))
              (length partKeys) Hcmp Hclean 0%nat all)
    as (all' & -> & Hlen' & Hprep); [done | lia | done |].
  cbn in Hprep. eexists. split; [reflexivity |].
  set (prepared := storeSeqNos msgs all' s).
  assert (Hlook : forall m, m ∈ msgs ->
            exists st sns, prepared !! m = Some (set_seqNos sns st) /\ sns ∈ all').
  { intros m Hm. destruct (Hstates m Hm) as (st & Hst & _).
    apply list_elem_of_lookup in Hm as [i Hi].
    destruct (lookup_lt_is_Some_2 all' i) as [sns Hsns].
    { rewrite Hlen', Hlenall. by eapply lookup_lt_Some. }
    exists st, sns. split; [| by eapply list_elem_of_lookup_2].
    unfold prepared. rewrite (storeSeqNos_lookup _ _ _ i m sns) by done.
    by rewrite Hst. }
  intros a b Ha Hb.
  destruct (Hlook a Ha) as (sta & snsa & Hpa & Hina).
  destruct (Hlook b Hb) as (stb & snsb & Hpb & Hinb).
  exists (set_seqNos snsa sta), (set_seqNos snsb stb).
  split; [done |]. split; [done |]. cbn.
  destruct Hprep as [Hpk Hsortable]. rewrite Forall_forall in Hpk.
  apply Forall2_same_length_lookup_2.
  - pose proof (f_equal length (Hpk snsa Hina)) as La.
    pose proof (f_equal length (Hpk snsb Hinb)) as Lb.
    rewrite length_fmap in La, Lb. congruence.
  - intros p pa pb Hpa' Hpb'.
    assert (Hp : (p < length partKeys)%nat).
    { rewrite <- (Hpk snsa Hina), length_fmap. by eapply lookup_lt_Some. }
    destruct (Hsortable p Hp) as (srt & cmp & Hc & Hallp).
    rewrite Forall_forall in Hallp.
    destruct (Hallp snsa Hina) as (pa' & Hpa'' & Hsa).
    destruct (Hallp snsb Hinb) as (pb' & Hpb'' & Hsb).
    rewrite Hpa' in Hpa''. rewrite Hpb' in Hpb''.
    injection Hpa'' as <-. injection Hpb'' as <-.
    by exists srt, cmp.
Qed.

(** X9: with sequencing required but not per key, the messages of the whole
batch, whatever their keys, are sorted by their prepared sequence numbers
alone and linked into a single chain, whose head is the one and only first
message to process. When the messages are distinct, all have the same
non-empty part keys and the sortables come with a compare function, this
sequencing succeeds. *)
Theorem sequencing_across_keys (batch : Batch) (context : Context) :
  (2 <= length (messages batch))%nat ->
  sequencingRequired (streamProcessing context) = true ->
  sequencingPerKey (streamProcessing context) = false ->
  NoDup (messages batch) ->
  (forall firsts states',
     sequenceMessages compareStrings toSortable deepEqual batch context = Ok (firsts, states') ->
     exists prepared chain first,
       prepareMessagesForSequencing toSortable (messages batch) (states batch) context
       = Ok prepared /\
       sort (fun m1 m2 => compareAnyKeyMessages compareStrings m1 m2 prepared)
            (messages batch) = Ok chain /\
       chain ≡ₚ messages batch /\
       isChain states' chain /\
       head chain = Some first /\ firsts = [first] /\
       (forall m, m ∈ messages batch ->
          (m = first <->
           exists st, states' !! m = Some st /\ prevMessage st = None))) /\
  (forall partKeys,
     (forall values, is_Some (compare (toSortable values))) ->
     Forall (fun key => key <> "") partKeys ->
     (forall m, m ∈ messages batch ->
        exists st, states batch !! m = Some st /\
                   partKey <$> seqNos st = partKeys) ->
     exists firsts states',
       sequenceMessages compareStrings toSortable deepEqual batch context
       = Ok (firsts, states')).
Proof.
  intros Hlen Hreq Hper Hnd. split.
  - intros firsts states' Hseq.
    unfold sequenceMessages in Hseq. cbn zeta in Hseq.
    rewrite (proj2 (Nat.ltb_ge _ _)) in Hseq by lia.
    rewrite Hreq, Hper in Hseq. cbn [negb orb] in Hseq.
    destruct (prepareMessagesForSequencing toSortable (messages batch)
                (states batch) context) as [prepared | e] eqn:Hprep;
      [| discriminate].
    cbn [mbind try_mbind try_bind foldl] in Hseq.
    unfold sequenceGroup in Hseq. cbn [mbind try_mbind try_bind snd] in Hseq.
    destruct (sort _ (messages batch)) as [chain | e] eqn:Hsort; [| discriminate].
    cbn [mbind try_mbind try_bind] in Hseq. injection Hseq as <- <-.
    pose proof (sort_Permutation _ _ _ Hsort) as Hperm.
    destruct (prepareMessagesForSequencing_ok toSortable _ _ _ _ Hlen Hprep)
      as [Hdom Hview].
    destruct (linkMessages_links chain None prepared) as (_ & Hlinks & _).
    { cbn. by rewrite Hperm. }
    { intros m Hm. cbn in Hm. rewrite Hperm in Hm.
      eapply agreeOn_is_Some; [exact Hview |]. by apply Hdom. }
    assert (isChain (linkMessages None chain prepared) chain) as Hchain
      by exact Hlinks.
    destruct chain as [| first rest] eqn:Hc.
    { apply Permutation_length in Hperm. cbn in Hperm. lia. }
    rewrite <- Hc in *. exists prepared, chain, first.
    split; [done |]. split; [done |]. split; [done |]. split; [done |].
    split; [by rewrite Hc |]. split; [by rewrite Hc |].
    intros m Hm. rewrite <- Hperm in Hm. split.
    + intros ->. destruct (Hchain 0%nat first) as (st & Hst & Hp & _);
        [by rewrite Hc |]. by exists st.
    + intros (st & Hst & Hprev).
      apply list_elem_of_lookup in Hm as [i Hi].
      destruct (Hchain i m Hi) as (st' & Hst' & Hp & _).
      rewrite Hst in Hst'. injection Hst' as <-.
      destruct i as [| j]; [rewrite Hc in Hi; by injection Hi |].
      rewrite Hprev in Hp. symmetry in Hp.
      apply lookup_ge_None in Hp. apply lookup_lt_Some in Hi. lia.
  - intros partKeys Hcmp Hclean Hstates.
    destruct (prepared_parts_comparable (messages batch) (states batch) context
                partKeys Hcmp Hnd Hclean Hstates Hlen) as (prepared & Hprep & Hall).
    unfold sequenceMessages. cbn zeta.
    rewrite (proj2 (Nat.ltb_ge _ _)) by lia.
    rewrite Hreq, Hper, Hprep. cbn [negb orb mbind try_mbind try_bind foldl].
    unfold sequenceGroup. cbn [mbind try_mbind try_bind snd].
    destruct (sort_total
                (fun m1 m2 => compareAnyKeyMessages compareStrings m1 m2 prepared)
                (messages batch)) as [chain ->].
    { intros a b Ha Hb. destruct (Hall a b Ha Hb) as (sta & stb & Hsa & Hsb & HF).
      by eapply compareAnyKeyMessages_total. }
    cbn. by eauto.
Qed.

End SequencingFrame.

Section SequencingFrameWitness.
Import Tasks Tracking BatchM Sequencing SequencingViews Fixtures.

Lemma sequencing_only_sets_witness :
  exists firsts states',
    sequenceMessages compareStringsJs toSortableNumbers deepEqualKeys shuffledBatch
      (configured true true) = Ok (firsts, states') /\
    agreeOn unsequencedView (states shuffledBatch) states' /\
    (forall x, is_Some (states' !! x) <-> is_Some (states shuffledBatch !! x)) /\
    (forall x, x ∉ messages shuffledBatch ->
       states' !! x = states shuffledBatch !! x) /\
    (forall m, m ∈ firsts -> m ∈ messages shuffledBatch).
Proof.
  destruct (sequenceMessages compareStringsJs toSortableNumbers deepEqualKeys shuffledBatch
              (configured true true)) as [[firsts states'] | e] eqn:Hseq.
  - exists firsts, states'. split; [reflexivity |].
    exact (sequencing_only_sets_seqNos_and_links compareStringsJs toSortableNumbers
             deepEqualKeys
             shuffledBatch (configured true true) firsts states' Hseq).
  - exfalso. pose proof sequence_shuffledBatch as Hfirsts.
    rewrite Hseq in Hfirsts. discriminate Hfirsts.
Defined.

Lemma sequencing_across_keys_witness :
  exists firsts states',
    sequenceMessages compareStringsJs toSortableNumbers deepEqualKeys shuffledBatch
      (configured true false) = Ok (firsts, states').
Proof.
  refine (proj2 (sequencing_across_keys compareStringsJs toSortableNumbers
                   deepEqualKeys
                   shuffledBatch (configured true false) _ _ _ _) ["n"] _ _ _).
  - cbn. lia.
  - reflexivity.
  - reflexivity.
  - exact (bool_decide_unpack (NoDup (messages shuffledBatch)) I).
  - intros values. by eexists.
  - by repeat constructor.
  - intros m Hm. cbn in Hm.
    repeat (apply elem_of_cons in Hm as [-> | Hm]);
      [.. | by apply elem_of_nil in Hm]; by eexists.
Defined.

End SequencingFrameWitness.


(** ** Bounds of the phase timeouts (stream-consumer.js) *)

Section TimeoutBounds.
Import StreamConsumer Fixtures.

Lemma Math_round_nonneg (x : Q) : (0 <= x)%Q -> 0 <= Math_round x.
Proof.
  intros Hx. unfold Math_round.
  change 0 with (Qfloor 0). apply Qfloor_resp_le. lra.
Qed.

Lemma Math_round_le (x : Q) (k : Z) : (x <= inject_Z k)%Q -> Math_round x <= k.
Proof.
  intros Hx. unfold Math_round.
  pose proof (Qfloor_le (x + (1 # 2))) as Hle.
  assert (inject_Z (Qfloor (x + (1 # 2))) < inject_Z (k + 1))%Q as Hlt.
  { rewrite inject_Z_plus. change (inject_Z 1) with 1%Q. lra. }
  rewrite <- Zlt_Qlt in Hlt. lia.
Qed.

Lemma pow2_pos (e : Z) : (0 < pow2 e)%Q.
Proof.
  unfold pow2. destruct (Z.leb_spec 0 e) as [He | He].
  - change 0%Q with (inject_Z 0). rewrite <- Zlt_Qlt. by apply Z.pow_pos_nonneg.
  - reflexivity.
Qed.

Lemma pow2_nonpos (e : Z) :
  e <= 0 -> (pow2 e * inject_Z (2 ^ (- e)) == 1)%Q.
Proof.
  intros He. unfold pow2. destruct (Z.leb_spec 0 e) as [He' | He'].
  - assert (e = 0) as -> by lia. reflexivity.
  - assert (0 < 2 ^ (- e)) as Hpos by (apply Z.pow_pos_nonneg; lia).
    unfold Qeq, Qmult, inject_Z. cbn [Qnum Qden].
    rewrite Pos.mul_1_r, Z2Pos.id by done. lia.
Qed.

Lemma roundHalfEven_nonneg (y : Q) : (0 <= y)%Q -> 0 <= roundHalfEven y.
Proof.
  intros Hy. unfold roundHalfEven. cbn zeta.
  assert (0 <= Qfloor y) as Hf by (change 0 with (Qfloor 0); by apply Qfloor_resp_le).
  destruct (_ ?= _)%Q; [destruct (Z.even _) | |]; lia.
Qed.

Lemma roundHalfEven_le (y : Q) (k : Z) :
  (y <= inject_Z k)%Q -> roundHalfEven y <= k.
Proof.
  intros Hy. unfold roundHalfEven. cbn zeta.
  pose proof (Qfloor_le y) as Hfl.
  assert (Qfloor y <= k) as Hfk.
  { rewrite Zle_Qle. lra. }
  assert ((1 # 2 <= y - inject_Z (Qfloor y))%Q -> Qfloor y + 1 <= k) as Hup.
  { intros Hhalf.
    assert (inject_Z (Qfloor y) < inject_Z k)%Q as Hlt by lra.
    rewrite <- Zlt_Qlt in Hlt. lia. }
  destruct (_ ?= _)%Q eqn:Hc.
  - apply Qeq_alt in Hc. destruct (Z.even _); [done |]. apply Hup. lra.
  - done.
  - apply Qgt_alt in Hc. apply Hup. lra.
Qed.

Lemma floorLog2_lt (x : Q) (c : Z) :
  (0 < x)%Q -> 0 <= c -> (x < inject_Z (2 ^ c))%Q -> floorLog2 x < c.
Proof.
  intros Hx Hc Hlt. unfold floorLog2. cbn zeta.
  destruct x as [n d]. cbn [Qnum Qden] in *.
  assert (0 < n) as Hn.
  { unfold Qlt in Hx. cbn in Hx. lia. }
  assert (n < 2 ^ c * Zpos d) as Hnd.
  { unfold Qlt in Hlt. cbn in Hlt. lia. }
  pose proof (Z.log2_spec (Zpos d) ltac:(done)) as [_ Hd].
  assert (Z.log2 n - Z.log2 (Zpos d) - 1 < c) as Hl.
  { assert (Z.log2 n < c + Z.succ (Z.log2 (Z.pos d))); [| lia].
    apply Z.log2_lt_pow2; [done |].
    rewrite Z.pow_add_r by (pose proof (Z.log2_nonneg (Zpos d)); lia).
    assert (0 < 2 ^ c) by (by apply Z.pow_pos_nonneg). nia. }
  destruct (Qle_bool _ _) eqn:Hle; [| done].
  apply Qle_bool_iff in Hle.
  set (l := Z.log2 n - Z.log2 (Z.pos d)) in *.
  destruct (Z.ltb_spec l c) as [| Hge]; [done | exfalso].
  unfold pow2 in Hle. rewrite (proj2 (Z.leb_le 0 l)) in Hle by lia.
  assert (inject_Z (2 ^ c) <= inject_Z (2 ^ l))%Q as Hmono.
  { rewrite <- Zle_Qle. by apply Z.pow_le_mono_r. }
  lra.
Qed.

Lemma nearestDouble_nonneg (x : Q) : (0 <= x)%Q -> (0 <= nearestDouble x)%Q.
Proof.
  intros Hx. unfold nearestDouble. cbn zeta.
  set (e := Z.max _ _).
  pose proof (pow2_pos e) as He.
  apply Qmult_le_0_compat; [| lra].
  change 0%Q with (inject_Z 0). rewrite <- Zle_Qle.
  apply roundHalfEven_nonneg.
  apply Qle_shift_div_l; [done | lra].
Qed.

Lemma nearestDouble_le (x : Q) (k : Z) :
  (0 < x)%Q -> (x <= inject_Z k)%Q -> isSafeInteger k = true ->
  (nearestDouble x <= inject_Z k)%Q.
Proof.
  intros Hx Hk Hsafe. unfold nearestDouble. cbn zeta.
  set (e := Z.max _ _).
  assert (e <= 0) as He.
  { unfold e. apply Z.max_lub; [| done].
    assert (floorLog2 x < 53); [| lia].
    apply floorLog2_lt; [done | done |].
    unfold isSafeInteger in Hsafe. apply Z.ltb_lt in Hsafe.
    assert (inject_Z k < inject_Z (2 ^ 53))%Q by (rewrite <- Zlt_Qlt; lia).
    lra. }
  pose proof (pow2_pos e) as Hpos.
  pose proof (pow2_nonpos e He) as Hinv.
  assert (inject_Z k * inject_Z (2 ^ (- e)) * pow2 e == inject_Z k)%Q as Hid.
  { rewrite <- Qmult_assoc, (Qmult_comm (inject_Z (2 ^ (- e)))), Hinv. ring. }
  assert (roundHalfEven (x / pow2 e) <= k * 2 ^ (- e)) as Hm.
  { apply roundHalfEven_le. rewrite inject_Z_mult.
    apply Qle_shift_div_r; [done |]. by rewrite Hid. }
  rewrite Zle_Qle, inject_Z_mult in Hm.
  rewrite <- Hid. apply Qmult_le_compat_r; [done | lra].
Qed.

Lemma toDouble_nonneg (x : Q) : (0 <= x)%Q -> (0 <= toDouble x)%Q.
Proof.
  intros Hx. unfold toDouble. destruct x as [[| n | n] d]; cbn [Qnum].
  - lra.
  - by apply nearestDouble_nonneg.
  - exfalso. unfold Qle in Hx. cbn in Hx. lia.
Qed.

Lemma toDouble_le (x : Q) (k : Z) :
  (0 <= x)%Q -> (x <= inject_Z k)%Q -> isSafeInteger k = true ->
  (toDouble x <= inject_Z k)%Q.
Proof.
  intros Hx Hk Hsafe. unfold toDouble. destruct x as [[| n | n] d]; cbn [Qnum].
  - lra.
  - by apply nearestDouble_le.
  - exfalso. unfold Qle in Hx. cbn in Hx. lia.
Qed.

Lemma scaled_within (r : Z) (p : Q) :
  0 <= r -> (0 <= p <= 1)%Q ->
  (0 <= inject_Z r * p <= inject_Z r)%Q.
Proof.
  intros Hr [Hp0 Hp1].
  assert (0 <= inject_Z r)%Q as Hr' by (change 0%Q with (inject_Z 0); by rewrite <- Zle_Qle).
  split; [by apply Qmult_le_0_compat |].
  rewrite <- (Qmult_1_r (inject_Z r)) at 2.
  apply Qmult_le_compat_nonneg; split; lra.
Qed.

(** X10: when the configured percentage lies between 0 and 1 and the
remaining time read from the host (whole milliseconds, as a double holds
them exactly) is neither negative nor growing, the
process-phase timeout lies between 0 and the remaining time, and the
finalise-phase timeout lies between the remaining time less one second
(floored at 0) and the remaining time: the finalise phase is never cut off
more than a second before the end, and no timeout outlasts the invocation. *)
Theorem phase_timeouts_are_within_remaining_time (context : Context) (n : nat) :
  let p := timeoutAtPercentageOfRemainingTime (streamProcessing context) in
  let r1 := remaining (awsContext context) n in
  let r2 := remaining (awsContext context) (S n) in
  (0 <= p <= 1)%Q -> 0 <= r2 <= r1 ->
  0 <= fst (processBatch_timeoutMs context n) <= r1 /\
  Z.max (r1 - 1000) 0 <= fst (finaliseBatch_timeoutMs context n) <= r1.
Proof.
  intros p r1 r2 Hp Hr.
  pose proof (remainingIsSafe (awsContext context) n) as Hsafe1.
  pose proof (remainingIsSafe (awsContext context) (S n)) as Hsafe2.
  fold r1 in Hsafe1. fold r2 in Hsafe2.
  assert (0 <= toDouble p <= 1)%Q as Hp'.
  { split; [apply toDouble_nonneg; tauto |].
    apply (toDouble_le p 1); [tauto | tauto | reflexivity]. }
  assert (0 <= Qmax (toDouble p) MIN_FINALISE_TIMEOUT_AT_PERCENTAGE <= 1)%Q as Hq.
  { split.
    - eapply Qle_trans; [| apply Q.le_max_l]. tauto.
    - apply Q.max_lub; [tauto |].
      apply (toDouble_le (8 # 10) 1); [discriminate | discriminate | reflexivity]. }
  pose proof (scaled_within r1 _ ltac:(lia) Hp') as H1.
  pose proof (scaled_within r2 _ ltac:(lia) Hq) as H2.
  split.
  - unfold processBatch_timeoutMs, calculateTimeoutMs, getRemainingTimeInMillis,
      configuredTimeoutAtPercentage.
    cbn [fst]. fold p r1.
    split.
    + apply Math_round_nonneg, toDouble_nonneg. tauto.
    + apply Math_round_le, toDouble_le; [tauto | tauto | done].
  - unfold finaliseBatch_timeoutMs, calculateTimeoutMs, getRemainingTimeInMillis,
      configuredTimeoutAtPercentage.
    cbn [fst]. fold p r1 r2.
    pose proof (Math_round_le
                  (toDouble (inject_Z r2
                             * Qmax (toDouble p) MIN_FINALISE_TIMEOUT_AT_PERCENTAGE))
                  r2
                  ltac:(apply toDouble_le; [tauto | tauto | done])).
    lia.
Qed.

Lemma phase_timeouts_witness :
  0 <= fst (processBatch_timeoutMs (constantHost 30000 eq_refl (9 # 10)) 0%nat) <= 30000 /\
  Z.max (30000 - 1000) 0
  <= fst (finaliseBatch_timeoutMs (constantHost 30000 eq_refl (9 # 10)) 0%nat) <= 30000.
Proof.
  apply (phase_timeouts_are_within_remaining_time (constantHost 30000 eq_refl (9 # 10)) 0%nat).
  - split; discriminate.
  - cbn. lia.
Defined.

End TimeoutBounds.


(** ** Processing a whole chain (stream-consumer.js) *)

Section ChainExecution.
Import Tasks Tracking BatchM Sequencing StreamConsumer ProcessingViews Fixtures.

Variable env : Execution.

Lemma isChain_NoDup (states : gmap Item TrackedState) (chain : list Item) :
  isChain states chain -> NoDup chain.
Proof.
  intros Hchain. apply NoDup_alt.
  intros i. induction i as [| i IH]; intros [| j] x Hi Hj; [done | | |].
  - destruct (Hchain _ _ Hi) as (st & Hst & Hp & _).
    destruct (Hchain _ _ Hj) as (st' & Hst' & Hp' & _).
    rewrite Hst in Hst'. injection Hst' as <-.
    rewrite Hp in Hp'. symmetry in Hp'.
    apply lookup_ge_None in Hp'. apply lookup_lt_Some in Hj. lia.
  - destruct (Hchain _ _ Hi) as (st & Hst & Hp & _).
    destruct (Hchain _ _ Hj) as (st' & Hst' & Hp' & _).
    rewrite Hst in Hst'. injection Hst' as <-.
    rewrite Hp' in Hp. symmetry in Hp.
    apply lookup_ge_None in Hp. apply lookup_lt_Some in Hi. lia.
  - destruct (Hchain _ _ Hi) as (st & Hst & Hp & _).
    destruct (Hchain _ _ Hj) as (st' & Hst' & Hp' & _).
    rewrite Hst in Hst'. injection Hst' as <-.
    rewrite Hp in Hp'.
    destruct (lookup_lt_is_Some_2 chain i) as [y Hy];
      [apply lookup_lt_Some in Hi; lia |].
    f_equal. apply (IH j y); [done | by rewrite <- Hp'].
Qed.

Lemma forallb_finalised (message : Item) (tasks : list Task) :
  Forall (fun task => Tasks.isFullyFinalised (executed env message task) = true) tasks ->
  forallb (fun task => Tasks.isFullyFinalised (executed env message task)) tasks = true.
Proof. intros H. apply forallb_forall. rewrite Forall_forall in H.
  intros task Hin. apply H. by apply list_elem_of_In. Qed.

Lemma run_chain (rest : list Item) :
  forall (fuel : nat) (states : gmap Item TrackedState) (message : Item),
  NoDup (message :: rest) ->
  (forall i m, (message :: rest) !! i = Some m ->
     exists st, states !! m = Some st /\ nextMessage st = (message :: rest) !! S i) ->
  (length (message :: rest) <= fuel)%nat ->
  (forall m, m ∈ message :: rest -> everySettled env m = Resolved tt) ->
  finalisesUpToLast env states (message :: rest) ->
  let run := executeProcessOneTasks fuel env states message in
  snd run = Some (Ok (Resolved (concat (map (outcomesOn env states) (message :: rest)))))
  /\ map fst (invocationsOf run) = message :: rest
  /\ forall m, fst (fst run) !! m
               = if bool_decide (m ∈ message :: rest)
                 then executedState env m <$> states !! m
                 else states !! m.
Proof.
  induction rest as [| next rest IH]; intros fuel states message Hnd Hlinked Hfuel
    Hsettled Hfin.
  - destruct fuel as [| fuel]; [cbn in Hfuel; lia |].
    destruct (Hlinked 0%nat message eq_refl) as (st & Hst & Hnext).
    cbn in Hnext. cbn [executeProcessOneTasks]. rewrite Hst.
    rewrite (Hsettled message) by by left. rewrite Hnext.
    cbn [snd fst invocationsOf map concat]. unfold outcomesOn. rewrite Hst.
    rewrite app_nil_r. split; [done |]. split; [done |].
    intros m. case_bool_decide as Hm.
    + apply list_elem_of_singleton in Hm as ->.
      by rewrite lookup_insert_eq, Hst.
    + rewrite lookup_insert_ne; [done |]. intros ->. apply Hm. by left.
  - destruct fuel as [| fuel]; [cbn in Hfuel; lia |].
    destruct (Hlinked 0%nat message eq_refl) as (st & Hst & Hnext).
    destruct (Hlinked 1%nat next eq_refl) as (stn & Hstn & _).
    cbn in Hnext.
    assert (message <> next) as Hne.
    { apply NoDup_cons in Hnd as [Hnotin _]. intros ->. apply Hnotin. by left. }
    destruct (Hfin 0%nat message eq_refl) as [Hcancel Hall]; [by eexists |].
    specialize (Hall st Hst).
    set (states1 := <[message := executedState env message st]> states).
    assert (forall m, m ∈ next :: rest -> states1 !! m = states !! m) as Hsame.
    { intros m Hm. unfold states1. apply lookup_insert_ne. intros ->.
      apply NoDup_cons in Hnd as [Hnotin _]. by apply Hnotin. }
    cbn [executeProcessOneTasks]. rewrite Hst.
    rewrite (Hsettled message) by by left. rewrite Hnext.
    fold (executedState env message st). fold states1.
    rewrite (Hsame next) by by left. rewrite Hstn, Hcancel. cbn [negb].
    rewrite (forallb_finalised _ _ Hall).
    destruct (IH fuel states1 next) as (Hret & Hinv & Hstates).
    { by apply NoDup_cons in Hnd as [_ ?]. }
    { intros i m Hi. destruct (Hlinked (S i) m Hi) as (stm & Hstm & Hnm).
      exists stm. split; [| done].
      rewrite Hsame; [done |]. by eapply list_elem_of_lookup_2. }
    { cbn in *. lia. }
    { intros m Hm. apply Hsettled. by right. }
    { intros i m Hi Hsucc. destruct (Hfin (S i) m Hi Hsucc) as [Hc Hf].
      split; [done |]. intros stm Hstm. apply Hf.
      rewrite <- Hsame; [done |]. by eapply list_elem_of_lookup_2. }
    destruct (executeProcessOneTasks fuel env states1 next)
      as [[states2 invocations] returned].
    cbn [fst snd invocationsOf] in *. subst returned.
    split; [| split].
    + cbn [fmap option_fmap option_map ofTry join_ then_].
      change (map (outcomesOn env states) (message :: next :: rest))
        with (outcomesOn env states message
                :: map (outcomesOn env states) (next :: rest)).
      cbn [concat]. do 3 f_equal.
      f_equal; [unfold outcomesOn; by rewrite Hst |].
      f_equal. apply map_ext_in. intros m Hm. unfold outcomesOn.
      rewrite Hsame; [done |]. by apply list_elem_of_In.
    + cbn. by rewrite Hinv.
    + intros m. rewrite Hstates.
      destruct (decide (m = message)) as [-> | Hm].
      * rewrite bool_decide_eq_false_2.
        2: { by apply NoDup_cons in Hnd as [? _]. }
        rewrite bool_decide_eq_true_2 by by left.
        unfold states1. by rewrite lookup_insert_eq, Hst.
      * assert (states1 !! m = states !! m) as ->
          by (unfold states1; by rewrite lookup_insert_ne).
        case_bool_decide as Hin.
        -- by rewrite bool_decide_eq_true_2 by by right.
        -- rewrite bool_decide_eq_false_2; [done |].
           intros Hin'. apply elem_of_cons in Hin' as [-> | Hin']; done.
Qed.

(** X11: on a chain of linked messages, started at its head with fuel for
its length, whose executions all settle and whose messages, but for the
last, are not cancelled and get all their incomplete tasks fully finalised,
[executeProcessOneTasks] is invoked on every message of the chain, once and
in the order of the chain; its promise resolves with the outcomes of all of
them, chain order first and task order second; afterwards each message of
the chain has its incomplete tasks executed, and no other state has
changed. *)
Theorem a_finalising_chain_is_processed_to_its_end (fuel : nat)
    (states : gmap Item TrackedState) (chain : list Item) (first : Item) :
  isChain states chain -> head chain = Some first ->
  (length chain <= fuel)%nat ->
  (forall m, m ∈ chain -> everySettled env m = Resolved tt) ->
  finalisesUpToLast env states chain ->
  let run := executeProcessOneTasks fuel env states first in
  snd run = Some (Ok (Resolved (concat (map (outcomesOn env states) chain)))) /\
  map fst (invocationsOf run) = chain /\
  forall m, fst (fst run) !! m
            = if bool_decide (m ∈ chain)
              then executedState env m <$> states !! m
              else states !! m.
Proof.
  intros Hchain Hhead Hfuel Hsettled Hfin.
  pose proof (isChain_NoDup _ _ Hchain) as Hnd.
  destruct chain as [| message rest]; [discriminate |].
  injection Hhead as ->.
  apply run_chain; try done.
  intros i m Hi. destruct (Hchain i m Hi) as (st & Hst & _ & Hn). by exists st.
Qed.

End ChainExecution.

Section ChainExecutionWitness.
Import Tasks Tracking BatchM Sequencing StreamConsumer ProcessingViews Fixtures.

Lemma chainStates_isChain : isChain chainStates [msgB; msgC; msgA].
Proof.
  intros [| [| [| i]]] m Hi; try done; injection Hi as <-; by eexists.
Qed.

Lemma a_finalising_chain_witness :
  snd (executeProcessOneTasks 3 (failsOn None) chainStates msgB)
  = Some (Ok (Resolved (concat (map (outcomesOn (failsOn None) chainStates)
                                    [msgB; msgC; msgA])))).
Proof.
  refine (proj1 (a_finalising_chain_is_processed_to_its_end (failsOn None) 3
                   chainStates [msgB; msgC; msgA] msgB chainStates_isChain
                   eq_refl _ _ _)).
  - cbn. lia.
  - intros m _. reflexivity.
  - intros i m Hi _. split; [reflexivity |].
    intros st _. apply Forall_forall. intros task _. reflexivity.
Defined.

End ChainExecutionWitness.


(** ** The event source mapping cache (esm-cache.js) *)

Section EsmCacheFacts.
Import Js JsStrings Tasks Tracking EsmCache StreamProcessingM BatchM StreamConsumer Fixtures EsmFixtures.

Lemma getEventSourceMapping_requests (lambda : Lambda) (functionName streamName : string)
    (esm : Esm) :
  requests (snd (getEventSourceMapping lambda functionName streamName esm))
  = requests esm ++ [ListEventSourceMappings functionName] /\
  promisesByFunctionAndStream
    (snd (getEventSourceMapping lambda functionName streamName esm))
  = promisesByFunctionAndStream esm.
Proof. done. Qed.

Lemma setPromise_id (key : string) (p : Settled (option EventSourceMapping))
    (esm : Esm) :
  promisesByFunctionAndStream esm !! key = Some p -> setPromise key p esm = esm.
Proof.
  intros H. destruct esm as [cache reqs]. unfold setPromise. cbn in *.
  f_equal. by apply insert_id.
Qed.

(** X12: a lookup through the cache that resolved, with a mapping or with
none, is remembered: every later lookup for the same function and stream
gives the same answer without any request to AWS Lambda and leaves the
cache as it is, whatever AWS Lambda would answer by then. A lookup that
rejected is not remembered: the next one asks AWS Lambda again. And after
[clearCache] the next lookup always asks again. *)
Theorem resolved_lookups_are_cached (lambda : Lambda) (functionName streamName : string)
    (esm esm1 : Esm) (found : Settled (option EventSourceMapping)) :
  getEventSourceMappingViaCache lambda functionName streamName esm = (found, esm1) ->
  (forall mapping, found = Resolved mapping ->
     forall lambda',
       getEventSourceMappingViaCache lambda' functionName streamName esm1
       = (Resolved mapping, esm1)) /\
  (forall err, found = Rejected err ->
     forall lambda',
       requests (snd (getEventSourceMappingViaCache lambda' functionName streamName esm1))
       = requests esm1 ++ [ListEventSourceMappings functionName] /\
       fst (getEventSourceMappingViaCache lambda' functionName streamName esm1)
       = fst (getEventSourceMapping lambda' functionName streamName esm1)) /\
  (forall lambda',
     requests (snd (getEventSourceMappingViaCache lambda' functionName streamName
                      (snd (clearCache esm1))))
     = requests esm1 ++ [ListEventSourceMappings functionName]).
Proof.
  intros Hvia.
  assert (promisesByFunctionAndStream esm1 !! cacheKey functionName streamName
          = Some found) as Hcached.
  { unfold getEventSourceMappingViaCache in Hvia. cbn zeta in Hvia.
    destruct (promisesByFunctionAndStream esm !! cacheKey functionName streamName)
      as [[mapping | err] |]; injection Hvia as <- <-; cbn; apply lookup_insert_eq. }
  split; [| split].
  - intros mapping -> lambda'. unfold getEventSourceMappingViaCache. cbn zeta.
    rewrite Hcached. by rewrite setPromise_id.
  - intros err -> lambda'. unfold getEventSourceMappingViaCache. cbn zeta.
    by rewrite Hcached.
  - intros lambda'. unfold getEventSourceMappingViaCache, clearCache. cbn zeta.
    cbn [snd promisesByFunctionAndStream]. by rewrite lookup_empty.
Qed.

(** X13: [disableEventSourceMapping] never rejects. It resolves with true
only if it asked AWS Lambda to disable a mapping of the function whose
source ARN contains the stream name, as its last request, and AWS Lambda
accepted; it makes at most two requests and forgets none of the earlier
ones. *)
Theorem disabling_never_rejects (lambda : Lambda) (functionName streamName : string)
    (avoidCache : bool) (esm : Esm) :
  let done := disableEventSourceMapping lambda functionName streamName avoidCache esm in
  exists (disabled : bool) (made : list LambdaRequest),
    fst done = Resolved disabled /\
    requests (snd done) = requests esm ++ made /\ (length made <= 2)%nat /\
    (disabled = true ->
     exists uuid, last made = Some (DisableEventSourceMapping functionName uuid) /\
       disableEventSourceMapping_ lambda (length (requests esm ++ made) - 1)
         functionName uuid = Resolved tt).
Proof.
  cbn zeta. unfold disableEventSourceMapping.
  assert (exists found esm1 made1,
            (if avoidCache then getEventSourceMapping else getEventSourceMappingViaCache)
              lambda functionName streamName esm = (found, esm1) /\
            requests esm1 = requests esm ++ made1 /\ (length made1 <= 1)%nat)
    as (found & esm1 & made1 & -> & Hreq & Hlen).
  { destruct avoidCache.
    - do 2 eexists. exists [ListEventSourceMappings functionName].
      split; [reflexivity |]. split; [done | cbn; lia].
    - unfold getEventSourceMappingViaCache. cbn zeta.
      destruct (promisesByFunctionAndStream esm !! cacheKey functionName streamName)
        as [[mapping | err] |].
      + do 2 eexists. exists []. split; [reflexivity |].
        split; [cbn; by rewrite app_nil_r | cbn; lia].
      + do 2 eexists. exists [ListEventSourceMappings functionName].
        split; [reflexivity |]. split; [done | cbn; lia].
      + do 2 eexists. exists [ListEventSourceMappings functionName].
        split; [reflexivity |]. split; [done | cbn; lia]. }
  destruct found as [[mapping |] | err].
  - destruct (disableEventSourceMapping_ lambda (length (requests esm1)) functionName
                (UUID mapping)) as [[] | err] eqn:Hreply.
    + exists true, (made1 ++ [DisableEventSourceMapping functionName (UUID mapping)]).
      cbn.
      split; [done |]. split; [by rewrite Hreq, app_assoc |].
      split; [rewrite length_app; cbn; lia |].
      intros _. exists (UUID mapping). split; [by rewrite last_snoc |].
      rewrite app_assoc, <- Hreq, length_app. cbn.
      by replace (length (requests esm1) + 1 - 1)%nat with (length (requests esm1))
        by lia.
    + exists false, (made1 ++ [DisableEventSourceMapping functionName (UUID mapping)]).
      cbn.
      split; [done |]. split; [by rewrite Hreq, app_assoc |].
      split; [rewrite length_app; cbn; lia | done].
  - exists false, made1. cbn. split; [done |]. split; [done |]. split; [lia | done].
  - exists false, made1. cbn. split; [done |]. split; [done |]. split; [lia | done].
Qed.

End EsmCacheFacts.

Section EsmCacheWitness.
Import Js JsStrings Tasks Tracking EsmCache StreamProcessingM BatchM StreamConsumer Fixtures EsmFixtures.

Lemma resolved_lookups_witness :
  getEventSourceMappingViaCache recoveringLambda "consumer:live" "orders"
    (snd (getEventSourceMappingViaCache stubbornLambda "consumer:live" "orders" noEsm))
  = (Resolved (Some mappingOfOrders),
     snd (getEventSourceMappingViaCache stubbornLambda "consumer:live" "orders" noEsm)).
Proof.
  exact (proj1 (resolved_lookups_are_cached stubbornLambda "consumer:live" "orders"
                  noEsm _ _ eq_refl) (Some mappingOfOrders) eq_refl recoveringLambda).
Defined.

Lemma disabling_never_rejects_witness :
  exists (disabled : bool) (made : list LambdaRequest),
    fst (disableEventSourceMapping stubbornLambda "consumer:live" "orders" false noEsm)
    = Resolved disabled /\
    requests (snd (disableEventSourceMapping stubbornLambda "consumer:live" "orders"
                     false noEsm))
    = requests noEsm ++ made /\ (length made <= 2)%nat /\
    (disabled = true ->
     exists uuid, last made = Some (DisableEventSourceMapping "consumer:live" uuid) /\
       disableEventSourceMapping_ stubbornLambda (length (requests noEsm ++ made) - 1)
         "consumer:live" uuid = Resolved tt).
Proof.
  exact (disabling_never_rejects stubbornLambda "consumer:live" "orders" false noEsm).
Defined.

End EsmCacheWitness.

(** ** Fatal errors (stream-processing.js, stream-consumer.js) *)

Section FatalErrorFacts.
Import Js JsStrings Tasks Tracking EsmCache StreamProcessingM BatchM StreamConsumer Fixtures EsmFixtures.

Variable newBatch : list Item -> list TaskDefLike -> list TaskDefLike -> Try Batch.
Variable executeInitiateBatchTask : Batch -> Settled Batch.
Variable executeProcessBatchTask : Batch -> Settled (Batch * Outcomes).
Variable executeFinaliseBatchTask : Batch -> Outcomes -> Settled Batch.



End FatalErrorFacts.

Section FatalErrorWitness.
Import Js JsStrings Tasks Tracking EsmCache StreamProcessingM BatchM StreamConsumer Fixtures EsmFixtures.


End FatalErrorWitness.


(** ** The batch key (batch.js) *)

Section BatchKeyFacts.
Import Js JsStrings BatchKeys.

Lemma trimEnd_cons_nonempty (c : ascii) (s : string) :
  isSpace c = false -> trimEnd (String c s) <> "".
Proof.
  intros Hc. cbn [trimEnd]. destruct (trimEnd s); [by rewrite Hc | done].
Qed.

Lemma isNotBlank_cons (c : ascii) (s : string) :
  isSpace c = false -> isNotBlank (Some (String c s)) = true.
Proof.
  intros Hc. unfold isNotBlank, trim. cbn [trimStart]. rewrite Hc.
  apply negb_true_iff, String.eqb_neq. by apply trimEnd_cons_nonempty.
Qed.

Lemma find_first {A} (f : A -> bool) (l : list A) (x : A) :
  List.find f l = Some x ->
  exists i, l !! i = Some x /\ f x = true /\
    forall j y, (j < i)%nat -> l !! j = Some y -> f y = false.
Proof.
  induction l as [| a l IH]; [done |]. cbn [List.find].
  destruct (f a) eqn:Hfa.
  - intros [= ->]. exists 0%nat. split; [done |]. split; [done |]. lia.
  - intros Hfind. destruct (IH Hfind) as (i & Hi & Hfx & Hbefore).
    exists (S i). split; [done |]. split; [done |].
    intros [| j] y Hj Hy; [by injection Hy as <- |].
    apply (Hbefore j); [lia | done].
Qed.

Lemma find_none_Forall {A} (f : A -> bool) (l : list A) :
  List.find f l = None <-> Forall (fun x => f x = false) l.
Proof.
  induction l as [| a l IH]; [by split |]. cbn [List.find].
  rewrite Forall_cons. destruct (f a) eqn:Hfa.
  - split; [done | by intros [? _]].
  - rewrite IH. naive_solver.
Qed.

(** X15: [resolveBatchKey] finds no key exactly when no record of the batch
is an object with a non-blank event id and a non-blank event source ARN.
A key that it finds is taken from the first such record and is always
valid for [isKeyValid]: both of its parts are non-blank, whatever the
stream name, the consumer id and the shard id are (even when they are
empty or undefined). *)
Theorem resolved_key_is_valid (records : list (option StreamRecord))
    (settings : KeySettings) :
  (resolveBatchKey records settings = None
   <-> Forall (fun r => isUsable r = false) records) /\
  (forall key, resolveBatchKey records settings = Some key ->
     isKeyValid (Some key) = true /\
     exists i record1,
       records !! i = Some (Some record1) /\ isUsable (Some record1) = true /\
       (forall j r, (j < i)%nat -> records !! j = Some r -> isUsable r = false) /\
       componentStreamName (components key) = getSourceStreamName settings record1 /\
       componentEventID (components key) = recordEventID record1).
Proof.
  unfold resolveBatchKey. split.
  - rewrite <- find_none_Forall.
    destruct (List.find isUsable records) as [[record1 |] |] eqn:Hfind; cbn.
    + by split.
    + apply find_first in Hfind as (_ & _ & Husable & _). done.
    + by split.
  - intros key Hkey.
    destruct (List.find isUsable records) as [[record1 |] |] eqn:Hfind;
      cbn [mjoin option_join] in Hkey; try done.
    injection Hkey as <-.
    apply find_first in Hfind as (i & Hi & Husable & Hbefore).
    split.
    + unfold isKeyValid. cbn [keyStreamConsumerId keyShardOrEventID].
      apply andb_true_iff. split.
      * destruct (dynamoDBStreamType settings); by apply isNotBlank_cons.
      * destruct (_ || _); by apply isNotBlank_cons.
    + exists i, record1. split; [done |]. split; [done |]. split; [done |].
      split; [done |]. cbn. unfold ifTruthy.
      cbn in Husable. apply andb_true_iff in Husable as [Hid _].
      destruct (recordEventID record1) as [[| c s] |]; done.
Qed.

Lemma resolved_key_witness :
  Forall (fun r => isUsable r = false)
    [None; Some {| recordEventID := Some " "; recordEventSourceARN := Some "arn";
                   kinesisEventSourceStreamName := "orders";
                   kinesisShardId := Some "shardId-000";
                   dynamoDBEventSourceTableName := None;
                   dynamoDBEventSourceStreamTimestamp := None |}].
Proof.
  refine (proj1 (proj1 (resolved_key_is_valid _
            {| dynamoDBStreamType := false; consumerId := None;
               batchKeyedOnEventID := false |})) _).
  reflexivity.
Defined.

End BatchKeyFacts.


(** ** Moving messages, and progress (batch.js) *)

Section BatchMovesAndProgress.
Import Js Tasks Tracking BatchM BatchProgress Fixtures.

(** X16: moving a message of a batch of distinct messages to the rejected
messages neither loses nor duplicates a message: the messages and rejected
messages together are the same as before, up to their order; the message
is then among the rejected messages and no longer among the messages;
moving it once more changes nothing, and no state is touched. *)
Theorem moving_to_rejected_keeps_every_message (b : Batch) (msg : Item) :
  msg ∈ messages b ->
  NoDup (messages b ++ rejectedMessages b) ->
  let b' := moveMessageToRejected b msg in
  (messages b' ++ rejectedMessages b') ≡ₚ (messages b ++ rejectedMessages b) /\
  (msg ∉ messages b') /\ msg ∈ rejectedMessages b' /\
  moveMessageToRejected b' msg = b' /\
  states b' = states b.
Proof.
  intros Hin Hnd b'.
  assert (msg ∈ messages b ++ rejectedMessages b) as Hmem
    by (apply elem_of_app; by left).
  pose proof (moveMessageToRejected_NoDup b msg Hmem Hnd) as Hnd'.
  pose proof (moveMessageToRejected_members b msg Hmem) as Hsame.
  assert (msg ∉ messages b') as Hout.
  { unfold b', moveMessageToRejected. cbn. apply removeFirst_not_in.
    by apply NoDup_app in Hnd as [? _]. }
  assert (msg ∈ rejectedMessages b') as Hrej.
  { unfold b', moveMessageToRejected, includes. cbn.
    case_bool_decide as Hd; [done |]. apply elem_of_app. right. by left. }
  split; [by apply NoDup_Permutation |].
  split; [done |]. split; [done |]. split; [| done].
  unfold moveMessageToRejected at 1. unfold includes.
  rewrite bool_decide_eq_true_2 by done.
  rewrite removeFirst_absent by done. by destruct b'.
Qed.

Lemma moving_to_rejected_witness :
  (messages (moveMessageToRejected shuffledBatch msgB)
     ++ rejectedMessages (moveMessageToRejected shuffledBatch msgB))
  ≡ₚ (messages shuffledBatch ++ rejectedMessages shuffledBatch).
Proof.
  refine (proj1 (moving_to_rejected_keeps_every_message shuffledBatch msgB _ _)).
  - cbn. right. by left.
  - exact (bool_decide_unpack
             (NoDup (messages shuffledBatch ++ rejectedMessages shuffledBatch)) I).
Defined.

Lemma filter_nil_existsb {A} (f : A -> bool) (l : list A) :
  List.filter f l = [] <-> existsb f l = false.
Proof.
  induction l as [| a l IH]; [done |]. cbn. destruct (f a); cbn; [by split | done].
Qed.

(** X17: the finality test and the progress report agree: a batch is
fully finalised exactly when the process-all tasks of the batch itself are
fully finalised and [assessProgress] finds no incomplete message and no
undiscarded unusable record. Undiscarded rejected messages, which the
report also lists, have no part in it. *)
Theorem fully_finalised_iff_no_progress_left (b : Batch) :
  isFullyFinalised b = true
  <-> isAnyTaskNotFullyFinalised (getProcessAllTasks b ItBatch) = false /\
      incompleteMessages (assessProgress b) = [] /\
      undiscardedUnusableRecords (assessProgress b) = [].
Proof.
  unfold isFullyFinalised, assessProgress.
  cbn [incompleteMessages undiscardedUnusableRecords].
  rewrite !filter_nil_existsb.
  destruct (isAnyTaskNotFullyFinalised (getProcessAllTasks b ItBatch));
    [naive_solver |].
  destruct (existsb (isMessageIncomplete b) (messages b)); [naive_solver |].
  destruct (existsb (isUnusableRecordIncomplete b) (unusableRecords b));
    naive_solver.
Qed.

Lemma fully_finalised_witness :
  isAnyTaskNotFullyFinalised (getProcessAllTasks finishedBatch ItBatch) = false /\
  incompleteMessages (assessProgress finishedBatch) = [] /\
  undiscardedUnusableRecords (assessProgress finishedBatch) = [].
Proof.
  apply (proj1 (fully_finalised_iff_no_progress_left finishedBatch)).
  reflexivity.
Defined.

End BatchMovesAndProgress.

(** ** Where the processing of messages starts (stream-consumer.js) *)

Section ProcessingStartFacts.
Import Js Tasks Tracking BatchM Sequencing ProcessingStart Fixtures.

Lemma sequenceGroups_firsts
    (cmp : Item -> Item -> gmap Item TrackedState -> Try Z)
    (groups : list (string * list Item)) :
  forall (f0 : list Item) (s0 : gmap Item TrackedState) f s,
  foldl (sequenceGroup cmp) (Ok (f0, s0)) groups = Ok (f, s) ->
  exists more, f = f0 ++ more /\
    ((exists g, g ∈ groups /\ snd g <> []) -> more <> []).
Proof.
  induction groups as [| [k msgs] groups IH]; intros f0 s0 f s Hfold.
  - cbn in Hfold. injection Hfold as <- <-. exists []. rewrite app_nil_r.
    split; [done |]. intros (g & Hg & _). by apply elem_of_nil in Hg.
  - cbn [foldl] in Hfold.
    assert (sequenceGroup cmp (Ok (f0, s0)) (k, msgs)
            = match sort (fun m1 m2 => cmp m1 m2 s0) msgs with
              | Ok sorted => Ok (f0 ++ option_list (head sorted),
                                 linkMessages None sorted s0)
              | Throw e => Throw e
              end) as Hstep.
    { unfold sequenceGroup. cbn. by destruct (sort _ msgs). }
    rewrite Hstep in Hfold. clear Hstep.
    destruct (sort (fun m1 m2 => cmp m1 m2 s0) msgs) as [sorted | e] eqn:Hsort.
    2: { by rewrite foldl_sequenceGroup_Throw in Hfold. }
    apply IH in Hfold as (more & -> & Hmore).
    pose proof (sort_Permutation _ _ _ Hsort) as Hperm.
    exists (option_list (head sorted) ++ more). rewrite app_assoc.
    split; [done |]. intros (g & Hg & Hne).
    apply elem_of_cons in Hg as [-> | Hg].
    + cbn in Hne. destruct sorted as [| h t]; [| done].
      apply Permutation_nil_l in Hperm. by subst.
    + intros Hnil. apply app_eq_nil in Hnil as [_ Hnil].
      apply Hmore; [by exists g | done].
Qed.

Variable compareStrings : string -> string -> Z.
Variable toSortable : list (option Value) -> Sortable.
Variable deepEqual : option (list (string * Value)) ->
                     option (list (string * Value)) -> bool.

(** [batch.messages] after sequencing holds the messages it held, in the
same order unless they were sorted in place. *)
Lemma sequencedMessages_spec (batch : Batch) (context : Context)
    (msgs : list Item) :
  sequencedMessages compareStrings toSortable batch context = Ok msgs ->
  msgs ≡ₚ messages batch /\
  ((length (messages batch) <? 2)%nat
   || negb (sequencingRequired (streamProcessing context)) = true ->
   msgs = messages batch) /\
  (sequencingPerKey (streamProcessing context) = true -> msgs = messages batch).
Proof.
  unfold sequencedMessages. cbn zeta.
  destruct (_ || _) eqn:Hearly.
  { intros [= <-]. by repeat split. }
  destruct (prepareMessagesForSequencing toSortable (messages batch)
              (states batch) context) as [prepared | e]; [| discriminate].
  cbn [mbind try_mbind try_bind].
  destruct (sequencingPerKey (streamProcessing context)).
  { intros [= <-]. by repeat split. }
  intros Hsort. apply sort_Permutation in Hsort.
  split; [done |]. split; discriminate.
Qed.

(** Storing the result of sequencing on the batch does not fail where
sequencing does not. *)
Lemma extractAndSequenceMessages_returns (batch : Batch) (context : Context)
    (firsts : list Item) (states' : gmap Item TrackedState) :
  sequenceMessages compareStrings toSortable deepEqual batch context
  = Ok (firsts, states') ->
  exists msgs,
    sequencedMessages compareStrings toSortable batch context = Ok msgs /\
    extractAndSequenceMessages compareStrings toSortable deepEqual batch context
    = Ok (set_firstMessagesToProcess (returnedArray batch context firsts)
            (set_messages msgs (rejectedMessages batch)
               (set_states states' batch))).
Proof.
  intros Hseq. unfold extractAndSequenceMessages. rewrite Hseq.
  cbn [mbind try_mbind try_bind].
  assert (exists msgs,
            sequencedMessages compareStrings toSortable batch context = Ok msgs)
    as [msgs Hmsgs]; [| exists msgs; by rewrite Hmsgs].
  unfold sequenceMessages in Hseq. unfold sequencedMessages. cbn zeta in *.
  destruct (_ || _); [by eauto |].
  destruct (prepareMessagesForSequencing toSortable (messages batch)
              (states batch) context) as [prepared | e]; [| discriminate].
  cbn [mbind try_mbind try_bind] in *.
  destruct (sequencingPerKey (streamProcessing context)); [by eauto |].
  cbn [foldl] in Hseq. unfold sequenceGroup in Hseq.
  cbn [mbind try_mbind try_bind snd] in Hseq.
  destruct (sort _ (messages batch)) as [sorted | e]; [by eauto | discriminate].
Qed.

(** X18: for a batch that [extractAndSequenceMessages] has sequenced and
with at least one process-one task definition, [executeAllProcessOneTasks]
starts exactly from the first messages to process that sequencing stored
on the batch: these are messages of the batch, and there is none only when
the batch has no message; so the search for messages without a previous
message is never what decides where processing starts. Sequencing leaves the
batch with the messages it had: in the same order when it sequences per key
or returns early (the first messages to process are then the array of the
messages itself), and sorted in place, so as a permutation, when it sequences
across keys. *)
Theorem processing_starts_at_the_first_messages (batch batch' : Batch)
    (context : Context) (t : nat) :
  extractAndSequenceMessages compareStrings toSortable deepEqual batch context = Ok batch' ->
  (0 < t)%nat ->
  exists firsts,
    firstMessages batch' = Some firsts /\
    messages batch' ≡ₚ messages batch /\
    (sequencingPerKey (streamProcessing context) = true ->
     messages batch' = messages batch) /\
    ((length (messages batch) < 2)%nat
     \/ sequencingRequired (streamProcessing context) = false ->
     messages batch' = messages batch /\
     firstMessagesToProcess batch' = TheMessagesArray) /\
    independentMessages batch' t = Ok firsts /\
    (forall m, m ∈ firsts -> m ∈ messages batch) /\
    (firsts = [] <-> messages batch = []).
Proof.
  intros Hextract Ht. unfold extractAndSequenceMessages in Hextract.
  destruct (sequenceMessages compareStrings toSortable deepEqual batch context)
    as [[firsts states'] | e] eqn:Hseq; [| discriminate].
  cbn [mbind try_mbind try_bind] in Hextract.
  destruct (sequencedMessages compareStrings toSortable batch context)
    as [msgs | e] eqn:Hmsgs'; [| discriminate].
  cbn [try_bind] in Hextract. injection Hextract as <-.
  apply sequencedMessages_spec in Hmsgs' as (Hperm & Hearly & Hkey).
  assert ((forall m, m ∈ firsts -> m ∈ messages batch) /\
          (firsts = [] <-> messages batch = [])) as [Hsub Hnil].
  { unfold sequenceMessages in Hseq. cbn zeta in Hseq.
    destruct (_ || _).
    { injection Hseq as <- <-. by split. }
    destruct (prepareMessagesForSequencing toSortable (messages batch)
                (states batch) context) as [prepared | e]; [| discriminate].
    cbn [mbind try_mbind try_bind] in Hseq.
    destruct (messages batch) as [| x l] eqn:Hmsgs.
    { destruct (sequencingPerKey (streamProcessing context)); cbn in Hseq.
      - injection Hseq as <- <-. by split.
      - injection Hseq as <- <-. by split. }
    destruct (sequencingPerKey (streamProcessing context)).
    - pose proof Hseq as Hframe.
      apply sequenceGroups_frame in Hframe as (_ & _ & Hf).
      apply sequenceGroups_firsts in Hseq as (more & -> & Hmore). split.
      + intros m Hm. destruct (Hf m Hm) as [Hin | Hin];
          [by apply elem_of_nil in Hin | by eapply groupBy_members].
      + split; [| done]. intros Hnone. exfalso. apply Hmore; [| exact Hnone].
        eexists. split; [unfold groupBy; cbn [map uniq]; by left |].
        cbn [snd]. intros Hempty.
        assert (x ∈ filter (fun m => groupKeyOf prepared m = groupKeyOf prepared x)
                           (x :: l)) as Hx
          by (apply list_elem_of_filter; split; [done | by left]).
        rewrite Hempty in Hx. by apply elem_of_nil in Hx.
    - pose proof Hseq as Hframe.
      apply sequenceGroups_frame in Hframe as (_ & _ & Hf).
      apply sequenceGroups_firsts in Hseq as (more & -> & Hmore). split.
      + intros m Hm. destruct (Hf m Hm) as [Hin | Hin];
          [by apply elem_of_nil in Hin |].
        cbn in Hin. by rewrite app_nil_r in Hin.
      + split; [| done]. intros Hnone. exfalso. apply Hmore; [| exact Hnone].
        eexists. split; [by left | done]. }
  assert (firstMessages
            (set_firstMessagesToProcess (returnedArray batch context firsts)
               (set_messages msgs (rejectedMessages batch)
                  (set_states states' batch))) = Some firsts) as Hfirst.
  { unfold firstMessages, returnedArray. cbn [firstMessagesToProcess
      set_firstMessagesToProcess messages set_messages set_states].
    unfold sequenceMessages in Hseq. cbn zeta in Hseq.
    destruct (_ || _); [| done].
    injection Hseq as <- <-. by rewrite Hearly. }
  exists firsts. split; [exact Hfirst |]. split; [exact Hperm |].
  split; [exact Hkey |]. split.
  { intros Hor.
    assert ((length (messages batch) <? 2)%nat
            || negb (sequencingRequired (streamProcessing context)) = true)
      as Hcond.
    { destruct Hor as [Hlen | ->]; [| apply orb_true_r].
      by rewrite (proj2 (Nat.ltb_lt _ _) Hlen). }
    split; [exact (Hearly Hcond) |].
    unfold returnedArray. cbn [firstMessagesToProcess set_firstMessagesToProcess].
    by rewrite Hcond. }
  split; [| done].
  unfold independentMessages. rewrite Hfirst.
  cbn [messages set_firstMessagesToProcess set_messages].
  destruct msgs as [| x l].
  - apply Permutation_nil_l in Hperm. cbn. f_equal. symmetry.
    by apply Hnil.
  - cbn [length Nat.leb]. rewrite (proj2 (Nat.leb_gt t 0)) by lia.
    destruct firsts as [| first others]; [| done].
    pose proof (proj1 Hnil eq_refl) as Hnone. rewrite Hnone in Hperm.
    by apply Permutation_nil_r in Hperm.
Qed.

End ProcessingStartFacts.

Section ProcessingStartWitness.
Import Js Tasks Tracking BatchM Sequencing ProcessingStart Fixtures.

Lemma processing_starts_witness :
  exists batch' firsts,
    extractAndSequenceMessages compareStringsJs toSortableNumbers deepEqualKeys shuffledBatch
      (configured true false) = Ok batch' /\
    firstMessages batch' = Some firsts /\
    messages batch' ≡ₚ messages shuffledBatch /\
    (sequencingPerKey (streamProcessing (configured true false)) = true ->
     messages batch' = messages shuffledBatch) /\
    ((length (messages shuffledBatch) < 2)%nat
     \/ sequencingRequired (streamProcessing (configured true false)) = false ->
     messages batch' = messages shuffledBatch /\
     firstMessagesToProcess batch' = TheMessagesArray) /\
    independentMessages batch' 1 = Ok firsts /\
    (forall m, m ∈ firsts -> m ∈ messages shuffledBatch) /\
    (firsts = [] <-> messages shuffledBatch = []).
Proof.
  destruct (extractAndSequenceMessages compareStringsJs toSortableNumbers deepEqualKeys
              shuffledBatch (configured true false)) as [batch' | e] eqn:Hextract.
  - destruct (processing_starts_at_the_first_messages compareStringsJs
                toSortableNumbers deepEqualKeys shuffledBatch batch'
                (configured true false) 1
                Hextract ltac:(lia)) as (firsts & H).
    exists batch', firsts. split; [reflexivity | exact H].
  - vm_compute in Hextract. discriminate Hextract.
Defined.

(** Without sequencing per key the messages of the batch are sorted in place:
[batch.messages] is afterwards in the order of the sequence numbers, and the
first message to process is its first element. *)
Example messages_are_sorted_in_place :
  (fun b => (messages b, firstMessages b))
    <$> extractAndSequenceMessages compareStringsJs toSortableNumbers deepEqualKeys
          shuffledBatch (configured true false)
  = Ok ([msgB; msgC; msgA; msgR], Some [msgB]).
Proof. vm_compute. reflexivity. Qed.

(** A batch of one message is not sequenced: its first messages to process
are the array of its messages itself, so a message that is moved to the
rejected messages is no longer among them. *)
Example first_messages_follow_the_messages :
  firstMessages finishedBatch = Some [msgA] /\
  firstMessages (moveMessageToRejected finishedBatch msgA) = Some [].
Proof. split; vm_compute; reflexivity. Qed.

End ProcessingStartWitness.


(** ** Property names (settings.js) *)

Section PropertyNamesFacts.
Import Js PropertyNames.

Lemma trimStart_head (s : string) :
  trimStart s = "" \/ exists c s', trimStart s = String c s' /\ isSpace c = false.
Proof.
  induction s as [| c s IH]; [by left |]. cbn.
  destruct (isSpace c) eqn:Hc; [done |]. right. by exists c, s.
Qed.

Lemma trimEnd_idempotent (s : string) : trimEnd (trimEnd s) = trimEnd s.
Proof.
  induction s as [| c s IH]; [done |]. cbn [trimEnd].
  destruct (trimEnd s) as [| c' u] eqn:Hu.
  - destruct (isSpace c) eqn:Hc; [done |]. cbn. by rewrite Hc.
  - cbn [trimEnd]. cbn [trimEnd] in IH. by rewrite IH.
Qed.

Lemma trimEnd_head (c : ascii) (s : string) :
  isSpace c = false -> exists u, trimEnd (String c s) = String c u.
Proof.
  intros Hc. cbn [trimEnd]. destruct (trimEnd s); [rewrite Hc |]; by eexists.
Qed.

Lemma trim_idempotent (s : string) : trim (trim s) = trim s.
Proof.
  unfold trim. destruct (trimStart_head s) as [-> | (c & s' & -> & Hc)]; [done |].
  destruct (trimEnd_head c s' Hc) as [u Hu]. rewrite Hu at 1.
  cbn [trimStart]. rewrite Hc, <- Hu. apply trimEnd_idempotent.
Qed.

Lemma occurs_trimStart (c : ascii) (s : string) :
  occurs c s = false -> occurs c (trimStart s) = false.
Proof.
  induction s as [| c' s IH]; [done |]. cbn [trimStart].
  destruct (isSpace c'); [| done]. cbn. intros [_ H]%orb_false_iff. by apply IH.
Qed.

Lemma occurs_trimEnd (c : ascii) (s : string) :
  occurs c s = false -> occurs c (trimEnd s) = false.
Proof.
  induction s as [| c' s IH]; [done |]. cbn [occurs trimEnd].
  intros [Hc Hs]%orb_false_iff. specialize (IH Hs).
  destruct (trimEnd s) as [| c'' u].
  - destruct (isSpace c'); [done |]. cbn. by rewrite Hc.
  - cbn [occurs] in *. by rewrite Hc, IH.
Qed.

Lemma split_pieces (separator : ascii) (s piece : string) :
  piece ∈ split separator s -> occurs separator piece = false.
Proof.
  revert piece. induction s as [| c s IH]; intros piece; cbn [split].
  - by intros ->%list_elem_of_singleton.
  - destruct (Ascii.eqb c separator) eqn:Hc.
    + intros [-> | Hin]%elem_of_cons; [done | by apply IH].
    + destruct (split separator s) as [| first others].
      * intros ->%list_elem_of_singleton. cbn. by rewrite Hc.
      * intros [-> | Hin]%elem_of_cons.
        -- cbn. rewrite Hc. apply IH. by left.
        -- apply IH. by right.
Qed.

Lemma split_whole (separator : ascii) (s : string) :
  occurs separator s = false -> split separator s = [s].
Proof.
  induction s as [| c s IH]; [done |]. cbn [occurs split].
  intros [Hc Hs]%orb_false_iff. by rewrite Hc, (IH Hs).
Qed.

Lemma split_app (separator : ascii) (s rest : string) :
  occurs separator s = false ->
  split separator (s ++ String separator rest) = s :: split separator rest.
Proof.
  induction s as [| c s IH]; simpl.
  - intros _. by rewrite Ascii.eqb_refl.
  - intros [Hc Hs]%orb_false_iff. by rewrite Hc, (IH Hs).
Qed.

Lemma split_join (names : list string) :
  names <> [] ->
  Forall (fun name => occurs PROPERTY_NAME_SEPARATOR name = false) names ->
  split PROPERTY_NAME_SEPARATOR (join "," names) = names.
Proof.
  induction names as [| name names IH]; [done |]. intros _ Hall.
  apply Forall_cons in Hall as [Hname Hall].
  destruct names as [| name' names]; [by apply split_whole |].
  change (join "," (name :: name' :: names))
    with (name ++ String PROPERTY_NAME_SEPARATOR (join "," (name' :: names)))%string.
  rewrite split_app by done. by rewrite IH.
Qed.

(** White space is what [String.prototype.trim] removes: the no-break space
U+00A0 as well as the space and the tab. *)
Example trim_no_break_space :
  trim (String (ascii_of_nat 160) "a ") = "a" /\
  getPropertyNames (NamesString (String (ascii_of_nat 160) "a,b")) = ["a"; "b"] /\
  ~ isPropertyName (String (ascii_of_nat 160) "a").
Proof.
  split; [reflexivity |]. split; [reflexivity |].
  intros (_ & Htrim & _). discriminate Htrim.
Qed.

(** X19: property names may be configured as an array or as one string (of
code units below 256). A string gives only proper names: each is non-empty,
has no white space around it (none of U+0009 to U+000D, U+0020 and U+00A0 at
either end) and holds no comma. And the two ways agree: the names of an
array of proper names are exactly the names read from the string that
joins them with commas. *)
Theorem property_names_round_trip :
  (forall (setting : string) (name : string),
     name ∈ getPropertyNames (NamesString setting) -> isPropertyName name) /\
  (forall names : list string,
     Forall isPropertyName names ->
     getPropertyNames (NamesString (join "," names))
     = getPropertyNames (NamesArray names)).
Proof.
  split.
  - intros setting name Hin. cbn in Hin. unfold toPropertyNamesArray in Hin.
    apply list_elem_of_In, filter_In in Hin as [Hin Hne].
    apply in_map_iff in Hin as (piece & <- & Hpiece).
    apply list_elem_of_In, split_pieces in Hpiece.
    split; [by apply String.eqb_neq, negb_true_iff |].
    split; [apply trim_idempotent |].
    unfold trim. by apply occurs_trimEnd, occurs_trimStart.
  - intros names Hall. cbn. unfold toPropertyNamesArray.
    destruct names as [| name names]; [done |].
    rewrite split_join; [| done |].
    2: { eapply Forall_impl; [exact Hall |]. by intros x (_ & _ & ?). }
    induction Hall as [| x l (Hne & Htrim & _) _ IH]; [done |].
    cbn [map List.filter]. rewrite Htrim.
    rewrite (proj2 (String.eqb_neq x "") Hne). cbn [negb]. by rewrite IH.
Qed.

Lemma property_names_witness :
  getPropertyNames (NamesString (join "," ["id"; "version"]))
  = getPropertyNames (NamesArray ["id"; "version"]).
Proof.
  apply (proj2 property_names_round_trip ["id"; "version"]).
  repeat constructor; done.
Defined.

End PropertyNamesFacts.

(** ** The consumer id (stream-processing.js) *)

Section ConfigurationFacts.
Import Js JsStrings Configuration.

Lemma trimEnd_empty (s : string) : trimEnd s = "" <-> hasNonSpace s = false.
Proof.
  induction s as [| c s IH]; [done |]. cbn [trimEnd hasNonSpace].
  destruct (trimEnd s) as [| c' u].
  - destruct (isSpace c); cbn; [by rewrite <- IH | by split].
  - split; [done |]. intros [_ H]%orb_false_iff. by apply IH in H.
Qed.

Lemma hasNonSpace_trimStart (s : string) :
  hasNonSpace (trimStart s) = hasNonSpace s.
Proof.
  induction s as [| c s IH]; [done |]. cbn [trimStart hasNonSpace].
  destruct (isSpace c) eqn:Hc; [done |]. cbn. by rewrite Hc.
Qed.

Lemma isNotBlank_hasNonSpace (s : string) : isNotBlank (Some s) = hasNonSpace s.
Proof.
  unfold isNotBlank, trim. rewrite <- hasNonSpace_trimStart.
  destruct (hasNonSpace (trimStart s)) eqn:H.
  - apply negb_true_iff, String.eqb_neq. intros E. apply trimEnd_empty in E. congruence.
  - apply negb_false_iff, String.eqb_eq. by apply trimEnd_empty.
Qed.

Lemma hasNonSpace_app (a b : string) :
  hasNonSpace (a ++ b) = hasNonSpace a || hasNonSpace b.
Proof.
  induction a as [| c a IH]; [done |]. simpl. rewrite IH. by rewrite orb_assoc.
Qed.

Lemma truthy_of_notBlank (s : option string) : isNotBlank s = true -> truthy s = true.
Proof. by destruct s as [[| c s] |]. Qed.

(** X20: [configureConsumerId] never replaces a consumer id that is
configured, and it changes nothing but the consumer id. When none is
configured and the invoked function name is not blank, it derives one that
is not blank, so that the validation of the configuration then finds no fault
with the consumer id. Configuring twice is the same as configuring once. *)
Theorem consumer_id_is_configured_once (context : Configured) :
  (truthy (consumerId context) = true -> configureConsumerId context = context) /\
  set_consumerId (consumerId context) (configureConsumerId context) = context /\
  (truthy (consumerId context) = false ->
   isNotBlank (invokedFunctionNameWithAliasOrVersion context) = true ->
   isNotBlank (consumerId (configureConsumerId context)) = true /\
   validateStreamProcessingConfiguration (configureConsumerId context)
   = validateStreamProcessingConfiguration
       (set_consumerId (Some "id") context)) /\
  configureConsumerId (configureConsumerId context) = configureConsumerId context.
Proof.
  assert (truthy (consumerId context) = false ->
          isNotBlank (invokedFunctionNameWithAliasOrVersion context) = true ->
          isNotBlank (consumerId (configureConsumerId context)) = true) as Hderived.
  { intros Hnone Hname. unfold configureConsumerId. rewrite Hnone. cbn [negb].
    destruct (invokedFunctionNameWithAliasOrVersion context) as [name |]; [| done].
    pose proof (truthy_of_notBlank _ Hname) as Htruthy. cbn in Htruthy.
    rewrite Htruthy. cbn [consumerId set_consumerId].
    rewrite isNotBlank_hasNonSpace in Hname.
    destruct (negb (String.eqb (trimOrEmpty (consumerIdSuffix context)) ""));
      rewrite isNotBlank_hasNonSpace; [| done].
    by rewrite hasNonSpace_app, Hname. }
  split; [| split; [| split]].
  - intros Hid. unfold configureConsumerId. by rewrite Hid.
  - unfold configureConsumerId.
    destruct (negb (truthy (consumerId context))); [| by destruct context].
    destruct (invokedFunctionNameWithAliasOrVersion context) as [name |];
      [| by destruct context].
    destruct (negb (String.eqb name "")); by destruct context.
  - intros Hnone Hname. split; [by apply Hderived |].
    specialize (Hderived Hnone Hname).
    unfold validateStreamProcessingConfiguration, isBlank. rewrite Hderived.
    unfold configureConsumerId. rewrite Hnone. cbn [negb].
    destruct (invokedFunctionNameWithAliasOrVersion context) as [name |]; [| done].
    destruct (negb (String.eqb name "")); [done |].
    pose proof (truthy_of_notBlank _ Hname) as Htruthy. cbn in Htruthy.
    by destruct (String.eqb name "").
  - destruct (truthy (consumerId (configureConsumerId context))) eqn:Hid'.
    + unfold configureConsumerId at 1. by rewrite Hid'.
    + assert (configureConsumerId context = context) as Hfix;
        [| by rewrite !Hfix].
      unfold configureConsumerId in *.
      destruct (truthy (consumerId context)); cbn [negb] in *; [done |].
      destruct (invokedFunctionNameWithAliasOrVersion context) as [name |];
        [| done].
      destruct (negb (String.eqb name "")) eqn:Hname; [| done].
      exfalso. cbn [consumerId set_consumerId] in Hid'.
      destruct (negb (String.eqb (trimOrEmpty (consumerIdSuffix context)) "")).
      * destruct name; [done | discriminate].
      * cbn in Hid'. congruence.
Qed.

Lemma consumer_id_witness :
  isNotBlank
    (consumerId
       (configureConsumerId
          {| hasAwsContext := true;
             invokedFunctionNameWithAliasOrVersion := Some "consumer:live";
             consumerId := None; consumerIdSuffix := Some " b ";
             hasResolveMessageIdsAndSeqNos := true;
             hasExtractMessagesFromRecord := true;
             hasLoadBatchState := true; hasSaveBatchState := true;
             hasDiscardUnusableRecord := true;
             hasDiscardRejectedMessage := true |})) = true.
Proof.
  refine (proj1 (proj1 (proj2 (proj2 (consumer_id_is_configured_once _))) _ _));
    reflexivity.
Defined.

End ConfigurationFacts.


(** ** Discarding needs a batch key (stream-processing.js, batch.js) *)

Section DiscardingFacts.
Import Js JsStrings BatchKeys Discarding.

Lemma isKeyValid_resolved (records : list (option StreamRecord))
    (settings : KeySettings) :
  isKeyValid (resolveBatchKey records settings) = existsb isUsable records.
Proof.
  unfold resolveBatchKey.
  destruct (List.find isUsable records) as [[record1 |] |] eqn:Hfind.
  - cbn [mjoin option_join isKeyValid keyStreamConsumerId keyShardOrEventID].
    assert (existsb isUsable records = true) as ->.
    { apply existsb_exists. exists (Some record1).
      apply find_some in Hfind. tauto. }
    apply andb_true_iff. split.
    + destruct (dynamoDBStreamType settings); by apply isNotBlank_cons.
    + destruct (_ || _); by apply isNotBlank_cons.
  - apply find_some in Hfind as [_ Hfind]. done.
  - cbn. symmetry. apply not_true_iff_false. intros (r & Hin & Hr)%existsb_exists.
    by rewrite (find_none _ _ Hfind r Hin) in Hr.
Qed.

Lemma resolveBatchKey_none (records : list (option StreamRecord))
    (settings : KeySettings) :
  existsb isUsable records = false -> resolveBatchKey records settings = None.
Proof.
  intros Hnone. unfold resolveBatchKey.
  destruct (List.find isUsable records) as [[record1 |] |] eqn:Hfind; [| | done].
  - exfalso. apply find_some in Hfind as [Hin Hr].
    apply not_true_iff_false in Hnone. apply Hnone, existsb_exists. eauto.
  - by apply find_some in Hfind as [_ Hr].
Qed.

Variables UnusableRecord RejectedMessage Request Result : Type.
Variable eventIDOf : UnusableRecord -> option string.
Variable idOf : RejectedMessage -> option string.
Variable stringifyKey : option BatchKey -> string.
Variable toDRQPutRequest : UnusableRecord -> string -> Request.
Variable toDMQPutRequest : RejectedMessage -> string -> Request.
Variable putRecord : Request -> Settled Result.

(** X21: what becomes of a discard depends on the records of the batch
alone. When some record of the batch has a non-blank event id and event
source ARN, discarding an unusable record to the dead record queue, or a
rejected message to the dead message queue, sends exactly one PutRecord
request and settles as Kinesis does. When no record has, so that the batch
has no key, nothing is sent and the discard rejects with the missing-key
error: a batch of unusable records only can never discard them. *)
Theorem discarding_needs_a_usable_record (records : list (option StreamRecord))
    (settings : KeySettings) (unusableRecord : UnusableRecord)
    (rejectedMessage : RejectedMessage) (queue : string) :
  let key := resolveBatchKey records settings in
  let discardedRecord :=
    discardUnusableRecordToDRQ _ _ _ eventIDOf stringifyKey toDRQPutRequest putRecord
      (Some unusableRecord) key queue in
  let discardedMessage :=
    discardRejectedMessageToDMQ _ _ _ idOf stringifyKey toDMQPutRequest putRecord
      (Some rejectedMessage) key queue in
  (existsb isUsable records = true ->
   discardedRecord
   = ([toDRQPutRequest unusableRecord queue],
      match putRecord (toDRQPutRequest unusableRecord queue) with
      | Resolved result => Resolved (Some result)
      | Rejected err => Rejected err
      end) /\
   discardedMessage
   = ([toDMQPutRequest rejectedMessage queue],
      match putRecord (toDMQPutRequest rejectedMessage queue) with
      | Resolved result => Resolved (Some result)
      | Rejected err => Rejected err
      end)) /\
  (existsb isUsable records = false ->
   key = None /\
   discardedRecord
   = ([], Rejected (missingKeyForRecord stringifyKey None (eventIDOf unusableRecord)))
   /\
   discardedMessage
   = ([], Rejected (missingKeyForMessage stringifyKey None (idOf rejectedMessage)))).
Proof.
  intros key discardedRecord discardedMessage.
  pose proof (isKeyValid_resolved records settings) as Hvalid. fold key in Hvalid.
  split; intros Husable; rewrite Husable in Hvalid.
  - unfold discardedRecord, discardedMessage, discardUnusableRecordToDRQ,
      discardRejectedMessageToDMQ.
    rewrite Hvalid. cbn [negb]. split; [done |].
    by destruct (putRecord (toDMQPutRequest rejectedMessage queue)).
  - assert (key = None) as Hkey by (by apply resolveBatchKey_none).
    split; [done |].
    unfold discardedRecord, discardedMessage, discardUnusableRecordToDRQ,
      discardRejectedMessageToDMQ.
    by rewrite Hvalid, Hkey.
Qed.

End DiscardingFacts.

Section DiscardingWitness.
Import Js JsStrings BatchKeys Discarding.

Lemma discarding_witness :
  resolveBatchKey [None] {| dynamoDBStreamType := false; consumerId := Some "c";
                            batchKeyedOnEventID := false |} = None /\
  discardUnusableRecordToDRQ string string unit (fun _ => None) (fun _ => "undefined")
    (fun r q => (q ++ ":" ++ r)%string) (fun _ => Resolved tt) (Some "garbage")
    (resolveBatchKey [None] {| dynamoDBStreamType := false; consumerId := Some "c";
                               batchKeyedOnEventID := false |}) "DRQ"
  = ([], Rejected (missingKeyForRecord (fun _ => "undefined") None None)) /\
  discardRejectedMessageToDMQ string string unit (fun _ => None) (fun _ => "undefined")
    (fun m q => (q ++ ":" ++ m)%string) (fun _ => Resolved tt) (Some "message")
    (resolveBatchKey [None] {| dynamoDBStreamType := false; consumerId := Some "c";
                               batchKeyedOnEventID := false |}) "DRQ"
  = ([], Rejected (missingKeyForMessage (fun _ => "undefined") None None)).
Proof.
  apply (proj2 (discarding_needs_a_usable_record string string string unit
                  (fun _ => None) (fun _ => None) (fun _ => "undefined")
                  (fun r q => (q ++ ":" ++ r)%string) (fun m q => (q ++ ":" ++ m)%string)
                  (fun _ => Resolved tt) [None]
                  {| dynamoDBStreamType := false; consumerId := Some "c";
                     batchKeyedOnEventID := false |} "garbage" "message" "DRQ")).
  reflexivity.
Defined.

End DiscardingWitness.


(** ** The order within a chain (sequencing.js) *)

Section SortingFacts.
Import Tasks Tracking BatchM Sequencing SequencingViews SequencingOrder Fixtures.

Variable c : Item -> Item -> Try Z.

Lemma insertSorted_HdRel (R : Item -> Item -> Prop) (y x : Item) (l s : list Item) :
  R y x -> HdRel R y l -> insertSorted c x l = Ok s -> HdRel R y s.
Proof.
  intros Hyx Hl. destruct l as [| h t]; cbn.
  - intros [= <-]. by constructor.
  - destruct (c x h) as [z |]; cbn; [| discriminate].
    destruct (z <=? 0); [intros [= <-]; by constructor |].
    destruct (insertSorted c x t) as [s' |]; cbn; [| discriminate].
    intros [= <-]. constructor. by inversion Hl.
Qed.

Lemma insertSorted_Sorted (x : Item) (l s : list Item) :
  (forall a, a ∈ l -> forall z, c x a = Ok z -> 0 < z -> notAfter c a x) ->
  Sorted (notAfter c) l -> insertSorted c x l = Ok s -> Sorted (notAfter c) s.
Proof.
  revert s. induction l as [| y l IH]; intros s Hanti Hsorted; cbn.
  - intros [= <-]. by repeat constructor.
  - destruct (c x y) as [z |] eqn:Hxy; cbn; [| discriminate].
    destruct (Z.leb_spec z 0) as [Hz | Hz].
    + intros [= <-]. constructor; [done |]. constructor. by exists z.
    + destruct (insertSorted c x l) as [s' |] eqn:Hins; cbn; [| discriminate].
      intros [= <-]. apply Sorted_inv in Hsorted as [Hl Hhd].
      constructor.
      * apply IH; [| done | done]. intros a Ha. apply Hanti. by right.
      * apply (insertSorted_HdRel _ y x l); [| done | done].
        apply (Hanti y ltac:(by left) z Hxy Hz).
Qed.

Lemma sort_Sorted (l s : list Item) :
  (forall a b, a ∈ l -> b ∈ l -> forall z, c a b = Ok z -> 0 < z -> notAfter c b a) ->
  sort c l = Ok s -> Sorted (notAfter c) s.
Proof.
  revert s. induction l as [| x l IH]; intros s Hanti; cbn.
  - intros [= <-]. constructor.
  - destruct (sort c l) as [sorted |] eqn:Hsort; cbn; [| discriminate].
    intros Hins. apply (insertSorted_Sorted x sorted); [| | done].
    + intros a Ha. apply Hanti; [by left |]. right.
      by rewrite <- (sort_Permutation _ _ _ Hsort).
    + apply IH; [| done]. intros a b Ha Hb. apply Hanti; by right.
Qed.

Lemma Sorted_adjacent (R : Item -> Item -> Prop) (s : list Item) :
  Sorted R s ->
  forall i a b, s !! i = Some a -> s !! S i = Some b -> R a b.
Proof.
  induction 1 as [| x s Hs IH Hhd]; intros i a b Hi Hj; [done |].
  destruct i as [| i].
  - injection Hi as <-. destruct Hhd as [| h t Hxh]; [done |].
    by injection Hj as <-.
  - by apply (IH i).
Qed.

End SortingFacts.


Section ChainOrder.
Import Tasks Tracking BatchM Sequencing SequencingViews SequencingOrder Fixtures.

Variable compareStrings : string -> string -> Z.
Variable toSortable : list (option Value) -> Sortable.
Variable deepEqual : option (list (string * Value)) ->
                     option (list (string * Value)) -> bool.

Lemma sortablesFor_values (p : nat) (all : list (list SeqNoPart))
    (cleanUniqueKeys : list string) (key : string) (s : Sortable) :
  sortablesFor toSortable p all cleanUniqueKeys !! key = Some s ->
  exists values, s = toSortable values.
Proof.
  unfold sortablesFor.
  assert (forall (acc : gmap string Sortable),
            (forall k s', acc !! k = Some s' -> exists values, s' = toSortable values) ->
            forall k s',
              foldl (fun sortablesByKey key0 =>
                       <[key0 := toSortable (map (valueAt p key0) all)]> sortablesByKey)
                    acc cleanUniqueKeys !! k = Some s' ->
              exists values, s' = toSortable values) as Hfold.
  { induction cleanUniqueKeys as [| key0 keys IH]; intros acc Hacc k s'; cbn;
      [apply Hacc |].
    apply IH. intros k' s''. destruct (decide (key0 = k')) as [-> | Hne].
    - rewrite lookup_insert_eq. intros [= <-]. by eexists.
    - rewrite lookup_insert_ne by done. apply Hacc. }
  apply Hfold. intros k s'. by rewrite lookup_empty.
Qed.

Lemma prepareSeqNoPart_sortables (required : bool) (p : nat)
    (all all' : list (list SeqNoPart)) :
  prepareSeqNoPart toSortable required p all = Ok all' ->
  forall m sns', all' !! m = Some sns' ->
    exists sns, all !! m = Some sns /\ length sns' = length sns /\
      (forall q, q <> p -> sns' !! q = sns !! q) /\
      (forall part, sns' !! p = Some part -> fromToSortable toSortable part).
Proof.
  unfold prepareSeqNoPart. cbn zeta.
  destruct (_ && _); [discriminate |]. intros [= <-] m sns' Hm.
  apply list_lookup_imap_Some in Hm as (sns & Hsns & ->).
  exists sns. split; [done |].
  destruct (sns !! p) as [seqNoPart |] eqn:Hp.
  - split; [apply length_insert |]. split.
    + intros q Hq. by rewrite list_lookup_insert_ne.
    + intros part. rewrite list_lookup_insert_eq by (by eapply lookup_lt_Some).
      intros [= <-] s. cbn. apply sortablesFor_values.
  - split; [done |]. split; [done |]. intros part. by rewrite Hp.
Qed.

Lemma rounds_sortables (required : bool) (n : nat) :
  forall (k : nat) (all all' : list (list SeqNoPart)),
  foldl (fun acc p => all0 ← acc; prepareSeqNoPart toSortable required p all0)
        (Ok all) (seq k n) = Ok all' ->
  forall m sns', all' !! m = Some sns' ->
    exists sns, all !! m = Some sns /\ length sns' = length sns /\
      (forall q, (q < k \/ k + n <= q)%nat -> sns' !! q = sns !! q) /\
      (forall q part, (k <= q < k + n)%nat -> sns' !! q = Some part ->
         fromToSortable toSortable part).
Proof.
  induction n as [| n IH]; intros k all all' Hfold m sns' Hm.
  - cbn in Hfold. injection Hfold as <-. exists sns'.
    split; [done |]. split; [done |]. split; [done |]. intros q part Hq. lia.
  - cbn [seq foldl] in Hfold. cbn [mbind try_mbind try_bind] in Hfold.
    destruct (prepareSeqNoPart toSortable required k all) as [all1 | e] eqn:Hround.
    2: { by rewrite foldl_prepareSeqNoPart_Throw in Hfold. }
    destruct (IH (S k) all1 all' Hfold m sns' Hm)
      as (sns1 & Hm1 & Hlen1 & Hout1 & Hin1).
    destruct (prepareSeqNoPart_sortables _ _ _ _ Hround m sns1 Hm1)
      as (sns & Hsns & Hlen & Hout & Hin).
    exists sns. split; [done |]. split; [congruence |]. split.
    + intros q Hq. rewrite Hout1 by lia. apply Hout. lia.
    + intros q part Hq Hpart. destruct (decide (q = k)) as [-> | Hne].
      * apply Hin. rewrite <- Hout1 by lia. done.
      * apply (Hin1 q); [lia | done].
Qed.

Lemma prepared_parts_sortables (msgs : list Item) (s : gmap Item TrackedState)
    (context : Context) (partKeys : list string) (prepared : gmap Item TrackedState) :
  NoDup msgs ->
  (forall m, m ∈ msgs ->
     exists st, s !! m = Some st /\ partKey <$> seqNos st = partKeys) ->
  (2 <= length msgs)%nat ->
  prepareMessagesForSequencing toSortable msgs s context = Ok prepared ->
  forall m st part, m ∈ msgs -> prepared !! m = Some st -> part ∈ seqNos st ->
    fromToSortable toSortable part.
Proof.
  intros Hnd Hstates Hlen Hprep m st part Hm Hst Hpart.
  unfold prepareMessagesForSequencing in Hprep.
  rewrite (proj2 (Nat.ltb_ge _ _)) in Hprep by lia.
  destruct (statesOf_total s msgs) as (sts & Hsts & HF).
  { intros x Hx. destruct (Hstates x Hx) as (stx & -> & _). by eauto. }
  rewrite Hsts in Hprep. cbn [mbind try_mbind try_bind] in Hprep.
  set (all := map seqNos sts) in *.
  assert (Forall (fun sns => length sns = length partKeys) all) as Hlens.
  { unfold all. rewrite map_fmap. apply Forall_fmap, Forall_lookup.
    intros i sti Hi. cbn.
    destruct (Forall2_lookup_r _ _ _ _ _ HF Hi) as (x & Hx & Hsx).
    destruct (Hstates x) as (st' & Hst' & Hpk); [by eapply list_elem_of_lookup_2 |].
    rewrite Hsx in Hst'. injection Hst' as <-.
    by rewrite <- Hpk, length_fmap. }
  assert (all <> []) as Hne.
  { intros E. assert (length all = length msgs) as Hl
      by (unfold all; rewrite length_map; symmetry; by eapply Forall2_length).
    rewrite E in Hl. cbn in Hl. lia. }
  rewrite (maxParts_constant (length partKeys)) in Hprep by done.
  destruct (foldl _ (Ok all) (seq 0 (length partKeys))) as [all' | e] eqn:Hfold;
    [| discriminate].
  cbn in Hprep. injection Hprep as <-.
  apply list_elem_of_lookup in Hm as [i Hi].
  destruct (lookup_lt_is_Some_2 all i) as [sns Hsns].
  { unfold all. rewrite length_map, <- (Forall2_length _ _ _ HF).
    by eapply lookup_lt_Some. }
  assert (is_Some (all' !! i)) as [sns' Hsns'].
  { destruct (all' !! i) as [x |] eqn:Hx; [by eexists |]. exfalso.
    clear -Hfold Hx Hsns.
    assert (forall n k (a a' : list (list SeqNoPart)),
              foldl (fun acc p => all0 ← acc;
                       prepareSeqNoPart toSortable
                         (sequencingRequired (streamProcessing context)) p all0)
                    (Ok a) (seq k n) = Ok a' -> length a' = length a) as Hl.
    { induction n as [| n IHn]; intros k a a' Hf; [by injection Hf as <- |].
      cbn [seq foldl] in Hf. cbn [mbind try_mbind try_bind] in Hf.
      destruct (prepareSeqNoPart toSortable _ k a) as [a1 | e] eqn:Hr.
      2: { by rewrite foldl_prepareSeqNoPart_Throw in Hf. }
      rewrite (IHn _ _ _ Hf). unfold prepareSeqNoPart in Hr. cbn zeta in Hr.
      destruct (_ && _); [discriminate |]. injection Hr as <-. apply length_imap. }
    apply Hl in Hfold. apply lookup_ge_None in Hx. apply lookup_lt_Some in Hsns. lia. }
  rewrite (storeSeqNos_lookup _ _ _ i m sns') in Hst by done.
  destruct (s !! m) as [st0 |]; [| discriminate]. cbn in Hst. injection Hst as <-.
  cbn in Hpart. apply list_elem_of_lookup in Hpart as [q Hq].
  destruct (rounds_sortables _ _ _ _ _ Hfold i sns' Hsns')
    as (sns0 & Hsns0 & Hlen0 & _ & Hfresh).
  apply (Hfresh q); [| done]. split; [lia |]. cbn.
  apply lookup_lt_Some in Hq. rewrite Hlen0 in Hq.
  rewrite Forall_forall in Hlens. rewrite <- (Hlens sns0); [done |].
  by eapply list_elem_of_lookup_2.
Qed.

Lemma comparable_consistent (l1 l2 : list SeqNoPart) :
  antisymmetricSortables toSortable ->
  Forall2 comparableParts l1 l2 ->
  (forall part, part ∈ l1 -> fromToSortable toSortable part) ->
  consistentSortables l1 l2.
Proof.
  intros Hanti HF Hfrom i p1 p2 s1 s2 H1 H2 Hs1 Hs2 _.
  destruct (Forall2_lookup_lr _ _ _ _ _ _ HF H1 H2) as (s & cmp & Ha & Hb & Hc).
  rewrite Hs1 in Ha. rewrite Hs2 in Hb. injection Ha as ->. injection Hb as ->.
  split; [done |]. intros cmp' Hcmp'.
  destruct (Hfrom p1 ltac:(by eapply list_elem_of_lookup_2) s Hs1) as [values ->].
  destruct (Hanti values) as (cmp0 & Hcmp0 & Hsign). congruence.
Qed.

Lemma compareSameKeyMessages_swap (states : gmap Item TrackedState)
    (m1 m2 : Item) (st1 st2 : TrackedState) :
  (forall a b, compareStrings b a = - compareStrings a b) ->
  (forall keys1 keys2, deepEqual keys2 keys1 = deepEqual keys1 keys2) ->
  states !! m1 = Some st1 -> states !! m2 = Some st2 ->
  consistentSortables (seqNos st1) (seqNos st2) ->
  compareSameKeyMessages compareStrings deepEqual m2 m1 states
  = Z.opp <$> compareSameKeyMessages compareStrings deepEqual m1 m2 states.
Proof.
  intros Hstr Hsym H1 H2 Hcons. unfold compareSameKeyMessages, stateOf.
  rewrite H1, H2. cbn. rewrite (Hsym (keys st1) (keys st2)).
  destruct (deepEqual (keys st1) (keys st2)); cbn [negb]; [| done].
  by apply compareSeqNos_swap.
Qed.

(** X22: the chains that per-key sequencing links are in ascending order of
the sequence numbers. For a batch of distinct messages with the same
non-empty part keys, an antisymmetric comparison of part keys, a deep-equal
that does not depend on the order of the two keys it is given, and sortables
with antisymmetric compare functions, every message that has a next message
compares as not after it: the same-key comparator, on the states that
sequencing leaves, returns for the two a number that is not positive. *)
Theorem chains_are_in_ascending_order (batch : Batch) (context : Context)
    (partKeys : list string) (firsts : list Item)
    (states' : gmap Item TrackedState) :
  (forall a b, compareStrings b a = - compareStrings a b) ->
  (forall keys1 keys2, deepEqual keys2 keys1 = deepEqual keys1 keys2) ->
  antisymmetricSortables toSortable ->
  wellFormedForSequencing batch partKeys ->
  (2 <= length (messages batch))%nat ->
  sequencingRequired (streamProcessing context) = true ->
  sequencingPerKey (streamProcessing context) = true ->
  sequenceMessages compareStrings toSortable deepEqual batch context = Ok (firsts, states') ->
  forall message next messageState,
    message ∈ messages batch ->
    states' !! message = Some messageState ->
    nextMessage messageState = Some next ->
    notAfter (fun m1 m2 => compareSameKeyMessages compareStrings deepEqual m1 m2 states')
             message next.
Proof.
  intros Hstr Hsym Hanti (Hnd & Hclean & Hstates & Hkeys) Hlen Hreq Hper Hseq
    message next messageState Hmsg Hstate Hnext.
  destruct (sequenceMessages_chains compareStrings toSortable deepEqual batch context firsts
              states' Hlen Hreq Hper Hnd Hseq)
    as (prepared & chains & Hprep & Hsorts & Hchains & Hmem & _).
  assert (agreeOn sortView prepared states') as Hview.
  { unfold sequenceMessages in Hseq. cbn zeta in Hseq.
    rewrite (proj2 (Nat.ltb_ge _ _)) in Hseq by lia.
    rewrite Hreq, Hper, Hprep in Hseq. cbn [negb orb mbind try_mbind try_bind] in Hseq.
    destruct (prepareMessagesForSequencing_ok toSortable _ _ _ _ Hlen Hprep)
      as [Hdom Hgv].
    destruct (sequenceGroups_chains compareStrings deepEqual _ _ _ _ _
                ltac:(apply NoDup_groups; [apply NoDup_uniq | done])
                ltac:(intros m Hm; eapply agreeOn_is_Some; [exact Hgv |];
                      by apply Hdom, (groupBy_members _ _ _ Hm))
                Hseq) as (_ & _ & _ & Hagree & _).
    exact Hagree. }
  destruct (prepared_parts_comparable toSortable (messages batch) (states batch)
              context partKeys) as (prepared' & Hprep' & Hcomparable); try done.
  { intros values. destruct (Hanti values) as (cmp & -> & _). by eexists. }
  rewrite Hprep in Hprep'. injection Hprep' as <-.
  pose proof (prepared_parts_sortables (messages batch) (states batch) context
                partKeys prepared Hnd Hstates Hlen Hprep) as Hfrom.
  apply Hmem in Hmsg as (chain & Hchain & Hin).
  apply list_elem_of_lookup in Hchain as [j Hj].
  destruct (Forall2_lookup_r _ _ _ _ _ Hsorts Hj) as (keyString & _ & Hsort).
  rewrite Forall_forall in Hchains.
  pose proof (Hchains chain ltac:(by eapply list_elem_of_lookup_2)) as Hlinked.
  apply list_elem_of_lookup in Hin as [i Hi].
  destruct (Hlinked i message Hi) as (st & Hst & _ & Hn).
  rewrite Hstate in Hst. injection Hst as <-. rewrite Hnext in Hn. symmetry in Hn.
  assert (Sorted (notAfter (fun m1 m2 =>
                              compareSameKeyMessages compareStrings deepEqual m1 m2 prepared))
                 chain) as Hsorted.
  { eapply sort_Sorted; [| exact Hsort].
    intros a b Ha Hb z Hab Hz.
    apply list_elem_of_filter in Ha as [_ Ha]. apply list_elem_of_filter in Hb as [_ Hb].
    destruct (Hcomparable a b Ha Hb) as (sta & stb & Hsa & Hsb & HF).
    exists (- z). split; [| lia]. cbn beta in *.
    rewrite (compareSameKeyMessages_swap prepared a b sta stb Hstr Hsym Hsa Hsb).
    - by rewrite Hab.
    - apply comparable_consistent; [done | done |].
      intros part Hpart. by apply (Hfrom a sta). }
  destruct (Sorted_adjacent _ _ Hsorted i message next Hi Hn) as (z & Hz & Hle).
  exists z. split; [| done].
  by rewrite <- (compareSameKeyMessages_agree compareStrings deepEqual prepared
                   states').
Qed.

End ChainOrder.

Section ChainOrderWitness.
Import Tasks Tracking BatchM Sequencing SequencingViews SequencingOrder Fixtures.

Lemma compareNumbers_antisymmetric : antisymmetricSortables toSortableNumbers.
Proof.
  intros values. exists compareNumbers. split; [done |].
  intros a b. unfold compareNumbers.
  destruct a as [[] |], b as [[] |]; cbn; try done.
  rewrite <- Z.sgn_opp. f_equal. lia.
Qed.

Lemma chains_are_in_ascending_order_witness :
  exists firsts states',
    sequenceMessages compareStringsJs toSortableNumbers deepEqualKeys shuffledBatch
      (configured true true) = Ok (firsts, states') /\
    forall message next messageState,
      message ∈ messages shuffledBatch ->
      states' !! message = Some messageState ->
      nextMessage messageState = Some next ->
      notAfter (fun m1 m2 => compareSameKeyMessages compareStringsJs deepEqualKeys m1 m2 states')
               message next.
Proof.
  destruct (sequenceMessages compareStringsJs toSortableNumbers deepEqualKeys shuffledBatch
              (configured true true)) as [[firsts states'] | e] eqn:Hseq.
  - exists firsts, states'. split; [reflexivity |].
    apply (chains_are_in_ascending_order compareStringsJs toSortableNumbers
             deepEqualKeys
             shuffledBatch (configured true true) ["n"] firsts states').
    + apply compareStringsJs_antisymmetric.
    + apply deepEqualKeys_symmetric.
    + apply compareNumbers_antisymmetric.
    + apply shuffledBatch_wellFormed.
    + cbn. lia.
    + reflexivity.
    + reflexivity.
    + exact Hseq.
  - exfalso. pose proof sequence_shuffledBatch as Hfirsts.
    rewrite Hseq in Hfirsts. discriminate Hfirsts.
Defined.

End ChainOrderWitness.
